(** * tile38 [collection]: an executable model of the indexed object store

    The Go package keeps every object of a collection in three coordinated
    indexes (a B-tree ordered by id, a B-tree ordered by value, an R-tree)
    next to a table of numeric fields and four aggregate counters.  This file
    embeds the package function by function and proves the properties its
    specification states about it, followed by further properties read off
    the code.  The connection type of the Kafka endpoint
    ([internal/endpoint/kafka.go]) is embedded in module [Kafka].

    Conventions.
    - Go [int] and [uint64] are [Z] with the 64-bit wrap-around written out
      ([GoInt.wrap], [GoInt.u64]); [len] is exact.
    - Go [float64] is the primitive binary64 [float]; [==] and [<] are the
      IEEE comparisons [PrimFloat.eqb] and [PrimFloat.ltb].
    - Go [string] is [string] (a sequence of bytes) ordered bytewise by
      [String.ltb].
    - A run-time panic (index out of range, deadline) is an explicit outcome
      carrying the state reached when it was raised.
    - A row of field values ([[]float64]) is a list in [Collection], where
      rows are held by value, and a slice header over a heap of arrays in
      module [Aliased], where rows are shared and written in place as in Go.
      The two agree on every history whose calls hand over values slices of
      their own ([run_erase]); what depends on sharing (the old fields Set
      returns, the rows of other ids) is proved on [Aliased]. *)

From Stdlib Require Import ZArith Floats OrderedTypeEx.
From stdpp Require Import gmap strings list sorting.

(** ** Machine integers *)

Module GoInt.
(** Two's complement reduction to the 64-bit [int] range. *)
Definition wrap (z : Z) : Z := ((z + 2 ^ 63) `mod` 2 ^ 64 - 2 ^ 63)%Z.
Definition add (a b : Z) : Z := wrap (a + b).
Definition sub (a b : Z) : Z := wrap (a - b).
Definition mul (a b : Z) : Z := wrap (a * b).
(** Reduction to the [uint64] range. *)
Definition u64 (z : Z) : Z := (z `mod` 2 ^ 64)%Z.
(** [len(x)] of a slice or map. *)
Definition len {A} (l : list A) : Z := Z.of_nat (length l).
(** [len(s)] of a string: its number of bytes. *)
Definition slen (s : string) : Z := Z.of_nat (String.length s).
End GoInt.

(** ** Geometry values

    [geojson.Object] is an interface of an imported package.  The collection
    only ever observes an object through the methods below, so an object is
    the record of what those methods answer.  The two binary predicates
    [Within] and [Intersects] are parameters of the query section. *)

Abbreviation float64 := float (only parsing).

Record Point := mkPoint { X : float64; Y : float64 }.
Record Rect := mkRect { Min : Point; Max : Point }.

Record Object := mkObject {
  oSpatial : bool;            (* the dynamic type implements geojson.Spatial *)
  oString : string;           (* obj.String() *)
  oNumPoints : Z;             (* obj.NumPoints() *)
  oEmpty : bool;              (* obj.Empty() *)
  oRect : Rect;               (* obj.Rect() *)
  oCenter : Point;            (* obj.Center() *)
  oMeters : option float64    (* Some m: the object is a *geojson.Circle, Meters() = m *)
}.

Definition origin : Point := mkPoint 0 0.

(** Modelled from the spec: the package's [String] value type, declared in a
    file that is not part of the sources at hand.  "Non-spatial values behave
    as opaque strings". *)
Definition StringObject (s : string) : Object :=
  mkObject false s 0 (String.eqb s "") (mkRect origin origin) origin None.

(** The nil interface value held by the lookup keys [&itemT{id: id}]; the
    comparator [byID] never reads it. *)
Definition nilObject : Object :=
  mkObject false "" 0 true (mkRect origin origin) origin None.

(** ** Items

    The indexes hold [*itemT] pointers.  An item is the pointer together with
    the struct it points to: [item_ptr] is the address given by the allocator,
    [item_id] and [item_obj] are the two fields of the struct. *)

Record itemT := mkItem { item_ptr : nat; item_id : string; item_obj : Object }.

Definition byID (a b : itemT) : bool := String.ltb (item_id a) (item_id b).

Definition byValue (a b : itemT) : bool :=
  let value1 := oString (item_obj a) in
  let value2 := oString (item_obj b) in
  if String.ltb value1 value2 then true
  else if String.ltb value2 value1 then false
  else (* the values match so we'll compare IDs, which are always unique. *)
    byID a b.

(** ** The ordered index (package btree) *)

(** Modelled from the spec: the B-tree of the imported package btree, whose
    source is not at hand: "balanced ordered maps with upsert/delete/seek,
    stable ascending and descending walks, and a seek-from-pivot operation".
    The tree is the list of its items in ascending order of [less]. *)

Section BTree.
Variable less : itemT -> itemT -> bool.

(** [tr.Set(x)]: insert [x], or replace the item with an equal key; the
    displaced item is returned. *)
Fixpoint bt_set (x : itemT) (t : list itemT) : option itemT * list itemT :=
  match t with
  | [] => (None, [x])
  | y :: t' =>
      if less x y then (None, x :: y :: t')
      else if less y x then
        let (old, r) := bt_set x t' in (old, y :: r)
      else (Some y, x :: t')
  end.

(** [tr.Delete(k)]: remove and return the item whose key equals [k]'s. *)
Fixpoint bt_delete (k : itemT) (t : list itemT) : option itemT * list itemT :=
  match t with
  | [] => (None, [])
  | y :: t' =>
      if less k y then (None, t)
      else if less y k then
        let (old, r) := bt_delete k t' in (old, y :: r)
      else (Some y, t')
  end.

(** [tr.Get(k)]. *)
Fixpoint bt_get (k : itemT) (t : list itemT) : option itemT :=
  match t with
  | [] => None
  | y :: t' =>
      if less k y then None
      else if less y k then bt_get k t'
      else Some y
  end.

(** Seek: skip the items that lie before the pivot in walking order. *)
Fixpoint bt_seek (before : itemT -> bool) (t : list itemT) : list itemT :=
  match t with
  | [] => []
  | y :: t' => if before y then bt_seek before t' else t
  end.

(** The items [tr.Ascend(pivot, iter)] offers to [iter], in order. *)
Definition bt_ascend (pivot : option itemT) (t : list itemT) : list itemT :=
  match pivot with
  | None => t
  | Some p => bt_seek (fun y => less y p) t
  end.

(** The items [tr.Descend(pivot, iter)] offers to [iter], in order. *)
Definition bt_descend (pivot : option itemT) (t : list itemT) : list itemT :=
  match pivot with
  | None => rev t
  | Some p => bt_seek (fun y => less p y) (rev t)
  end.
End BTree.

(** ** The spatial index (packages rtree and geoindex) *)

(** Modelled from the spec: the R-tree of the imported packages rtree and
    geoindex, whose source is not at hand: "R-tree over 2-D axis-aligned
    rectangles" with [insert(min, max, handle)], [delete(min, max, handle)],
    [search(min, max, visit)] enumerating "all handles whose stored rectangle
    overlaps the query rectangle", and [nearby] enumerating "in
    non-decreasing distance order from the query point".  The tree is the
    list of its entries. *)

Record entry := mkEntry {
  emin : float64 * float64;
  emax : float64 * float64;
  edata : itemT
}.

Definition rt_insert (mn mx : float64 * float64) (data : itemT)
    (t : list entry) : list entry :=
  t ++ [mkEntry mn mx data].

(** The entry is found by the identity of its handle. *)
Fixpoint rt_delete (data : itemT) (t : list entry) : list entry :=
  match t with
  | [] => []
  | e :: t' =>
      if Nat.eqb (item_ptr (edata e)) (item_ptr data) then t'
      else e :: rt_delete data t'
  end.

Definition rt_intersects (mn mx : float64 * float64) (e : entry) : bool :=
  negb (PrimFloat.ltb (emax e).1 mn.1 || PrimFloat.ltb mx.1 (emin e).1)
  && negb (PrimFloat.ltb (emax e).2 mn.2 || PrimFloat.ltb mx.2 (emin e).2).

(** The entries [Search(min, max, iter)] offers to [iter], in order. *)
Definition rt_search (mn mx : float64 * float64) (t : list entry) : list entry :=
  List.filter (rt_intersects mn mx) t.

Definition fmin (a b : float64) : float64 := if PrimFloat.ltb b a then b else a.
Definition fmax (a b : float64) : float64 := if PrimFloat.ltb a b then b else a.

(** [Bounds()]: the rectangle covering every entry; [None] for an empty tree. *)
Definition rt_bounds (t : list entry)
    : option ((float64 * float64) * (float64 * float64)) :=
  match t with
  | [] => None
  | e :: t' =>
      Some (fold_left (fun (b : (float64 * float64) * (float64 * float64)) e' =>
                         ((fmin b.1.1 (emin e').1, fmin b.1.2 (emin e').2),
                          (fmax b.2.1 (emax e').1, fmax b.2.2 (emax e').2)))
                      t' (emin e, emax e))
  end.

(** Squared distance from the point [p] to an entry's rectangle, the
    priority of the nearest-neighbour walk. *)
Definition rt_dist (p : Point) (e : entry) : float64 :=
  let axis (q lo hi : float64) : float64 :=
    let d := (fmax q lo - fmin q hi)%float in
    if PrimFloat.ltb 0 d then (d * d)%float else 0%float in
  (axis (X p) (emin e).1 (emax e).1 + axis (Y p) (emin e).2 (emax e).2)%float.

Fixpoint rt_enqueue (p : Point) (e : entry) (q : list entry) : list entry :=
  match q with
  | [] => [e]
  | e' :: q' =>
      if PrimFloat.ltb (rt_dist p e) (rt_dist p e') then e :: q
      else e' :: rt_enqueue p e q'
  end.

(** The entries [Nearby(center, iter)] offers to [iter]: by non-decreasing
    distance from [p]. *)
Definition rt_nearby (p : Point) (t : list entry) : list entry :=
  fold_left (fun q e => rt_enqueue p e q) t [].

(** ** The collection *)

Record Collection := mkCollection {
  items : list itemT;                       (* items sorted by keys *)
  index : list entry;                       (* items geospatially indexed *)
  values : list itemT;                      (* items sorted by value+key *)
  fieldMap : gmap string nat;
  fieldArr : list string;
  fieldValues : gmap string (list float64);
  weight : Z;
  points : Z;
  objects : Z;                              (* geometry count *)
  nobjects : Z;                             (* non-geometry count *)
  alloc : nat                               (* the allocator: handles given out so far *)
}.

(** Field updates, one per struct field. *)
Definition set_items v c := mkCollection v (index c) (values c) (fieldMap c)
  (fieldArr c) (fieldValues c) (weight c) (points c) (objects c) (nobjects c) (alloc c).
Definition set_index v c := mkCollection (items c) v (values c) (fieldMap c)
  (fieldArr c) (fieldValues c) (weight c) (points c) (objects c) (nobjects c) (alloc c).
Definition set_values v c := mkCollection (items c) (index c) v (fieldMap c)
  (fieldArr c) (fieldValues c) (weight c) (points c) (objects c) (nobjects c) (alloc c).
Definition set_fieldMap v c := mkCollection (items c) (index c) (values c) v
  (fieldArr c) (fieldValues c) (weight c) (points c) (objects c) (nobjects c) (alloc c).
Definition set_fieldArr v c := mkCollection (items c) (index c) (values c) (fieldMap c)
  v (fieldValues c) (weight c) (points c) (objects c) (nobjects c) (alloc c).
Definition set_fieldValues v c := mkCollection (items c) (index c) (values c) (fieldMap c)
  (fieldArr c) v (weight c) (points c) (objects c) (nobjects c) (alloc c).
Definition set_weight v c := mkCollection (items c) (index c) (values c) (fieldMap c)
  (fieldArr c) (fieldValues c) v (points c) (objects c) (nobjects c) (alloc c).
Definition set_points v c := mkCollection (items c) (index c) (values c) (fieldMap c)
  (fieldArr c) (fieldValues c) (weight c) v (objects c) (nobjects c) (alloc c).
Definition set_objects v c := mkCollection (items c) (index c) (values c) (fieldMap c)
  (fieldArr c) (fieldValues c) (weight c) (points c) v (nobjects c) (alloc c).
Definition set_nobjects v c := mkCollection (items c) (index c) (values c) (fieldMap c)
  (fieldArr c) (fieldValues c) (weight c) (points c) (objects c) v (alloc c).
Definition set_alloc v c := mkCollection (items c) (index c) (values c) (fieldMap c)
  (fieldArr c) (fieldValues c) (weight c) (points c) (objects c) (nobjects c) v.

(** What a call that may panic leaves behind. *)
Inductive outcome (A : Type) : Type :=
  | Returns (a : A) (c : Collection)
  | Panics (c : Collection).
Arguments Returns {A} a c.
Arguments Panics {A} c.

Definition state_of {A} (r : outcome A) : Collection :=
  match r with Returns _ c => c | Panics c => c end.

(** New creates an empty collection.  A nil map reads as the empty map and is
    allocated by the first write, so [fieldValues] starts as [∅]. *)
Definition New : Collection :=
  mkCollection [] [] [] ∅ [] ∅ 0 0 0 0 1.

Definition setFieldValues (id : string) (vals : list float64) (c : Collection)
    : Collection :=
  set_fieldValues (<[id := vals]> (fieldValues c)) c.

Definition getFieldValues (c : Collection) (id : string) : list float64 :=
  default [] (fieldValues c !! id).

Definition deleteFieldValues (id : string) (c : Collection) : Collection :=
  set_fieldValues (delete id (fieldValues c)) c.

(** Count returns the number of objects in collection. *)
Definition Count (c : Collection) : Z := GoInt.add (objects c) (nobjects c).

(** StringCount returns the number of string values. *)
Definition StringCount (c : Collection) : Z := nobjects c.

(** PointCount returns the number of points in collection. *)
Definition PointCount (c : Collection) : Z := points c.

(** TotalWeight calculates the in-memory cost of the collection in bytes. *)
Definition TotalWeight (c : Collection) : Z := weight c.

(** Bounds returns the bounds of all the items in the collection. *)
Definition Bounds (c : Collection) : float64 * float64 * float64 * float64 :=
  match rt_bounds (index c) with
  | Some (mn, mx) => (mn.1, mn.2, mx.1, mx.2)
  | None => (0, 0, 0, 0)%float
  end.

Definition objIsSpatial (obj : Object) : bool := oSpatial obj.

Definition objWeight (c : Collection) (item : itemT) : Z :=
  let weight :=
    if objIsSpatial (item_obj item)
    then GoInt.mul (oNumPoints (item_obj item)) 16
    else GoInt.slen (oString (item_obj item)) in
  GoInt.add
    (GoInt.add weight (GoInt.mul (GoInt.len (getFieldValues c (item_id item))) 8))
    (GoInt.slen (item_id item)).

Definition rect_min (r : Rect) : float64 * float64 := (X (Min r), Y (Min r)).
Definition rect_max (r : Rect) : float64 * float64 := (X (Max r), Y (Max r)).

Definition indexDelete (item : itemT) (c : Collection) : Collection :=
  if negb (oEmpty (item_obj item)) then
    set_index (rt_delete item (index c)) c
  else c.

Definition indexInsert (item : itemT) (c : Collection) : Collection :=
  if negb (oEmpty (item_obj item)) then
    let rect := oRect (item_obj item) in
    set_index (rt_insert (rect_min rect) (rect_max rect) item (index c)) c
  else c.

(** bsearch searches array for value.  The loop runs on [fuel]; [bsearch]
    supplies more than the loop can use. *)
Fixpoint bsearch_loop (fuel : nat) (arr : list string) (val : string)
    (i j : nat) : nat :=
  match fuel with
  | O => i
  | S fuel' =>
      if Nat.ltb i j then
        let h := i + (j - i) / 2 in
        if negb (String.ltb val (default "" (arr !! h)))
        then bsearch_loop fuel' arr val (h + 1) j
        else bsearch_loop fuel' arr val i h
      else i
  end.

Definition bsearch (arr : list string) (val : string) : nat * bool :=
  let i := bsearch_loop (S (length arr)) arr val 0 (length arr) in
  if Nat.ltb 0 i && negb (String.ltb (default "" (arr !! (i - 1))) val)
  then (i - 1, true)
  else (i, false).

Definition addToFieldArr (field : string) (c : Collection) : Collection :=
  let (index, found) := bsearch (fieldArr c) field in
  if negb found then
    (* c.fieldArr = append(c.fieldArr, "") *)
    let arr := fieldArr c ++ [""] in
    (* copy(c.fieldArr[index+1:], c.fieldArr[index:len(c.fieldArr)-1]) *)
    let src := take (length arr - 1 - index) (drop index arr) in
    let arr := take (index + 1) arr
               ++ take (length arr - (index + 1)) src
               ++ drop (index + 1 + length src) arr in
    (* c.fieldArr[index] = field *)
    set_fieldArr (<[index := field]> arr) c
  else c.

(** setField pads the row of the item with zeros up to the column of the
    field and overwrites the cell of the column.  The row is a list here, so
    the padded and overwritten row is stored as a new value; the Go code
    appends to the slice and writes [fields[idx]] into the array behind it,
    as [Aliased.setField] does. *)
Definition setField (item : itemT) (field : string) (value : float64)
    (c : Collection) : bool * Collection :=
  let '(idx, c) :=
    match fieldMap c !! field with
    | Some idx => (idx, c)
    | None =>
        let idx := size (fieldMap c) in
        (idx, addToFieldArr field (set_fieldMap (<[field := idx]> (fieldMap c)) c))
    end in
  let fields := getFieldValues c (item_id item) in
  let c := set_weight (GoInt.sub (weight c) (GoInt.mul (GoInt.len fields) 8)) c in
  (* for idx >= len(fields) { fields = append(fields, 0) } *)
  let fields := fields ++ replicate (S idx - length fields) 0%float in
  let c := set_weight (GoInt.add (weight c) (GoInt.mul (GoInt.len fields) 8)) c in
  let ovalue := default 0%float (fields !! idx) in
  let fields := <[idx := value]> fields in
  let c := setFieldValues (item_id item) fields c in
  (negb (PrimFloat.eqb ovalue value), c).

(** [for i, field := range fields { if c.setField(item, field, values[i]) {
    updatedCount++ } }], from index [i] on; [values[i]] panics out of range. *)
Fixpoint setField_range (item : itemT) (fields : list string)
    (vals : list float64) (i : nat) (updatedCount : Z) (c : Collection)
    : outcome Z :=
  match fields with
  | [] => Returns updatedCount c
  | field :: fields' =>
      match vals !! i with
      | None => Panics c
      | Some v =>
          let (updated, c) := setField item field v c in
          setField_range item fields' vals (S i)
            (if updated then GoInt.add updatedCount 1 else updatedCount) c
      end
  end.

(** Set adds or replaces an object in the collection and returns the fields
    array.  [fields = None] is the nil slice.
    The return values are the old object, the old fields, and the new fields.
    With rows as lists the old fields are the row as it was before the call
    and the values are stored by value; the Go code returns the slice of the
    old row and stores the caller's slice, as [Aliased.Set'] does. *)
Definition Set' (id : string) (obj : Object) (fields : option (list string))
    (vals : list float64) (c : Collection)
    : outcome (option Object * list float64 * list float64) :=
  let newItem := mkItem (alloc c) id obj in
  let c := set_alloc (S (alloc c)) c in
  (* add the new item to main btree and remove the old one if needed *)
  let (oldItem, tr) := bt_set byID newItem (items c) in
  let c := set_items tr c in
  let '(c, oldObject, oldFields, newFields) :=
    match oldItem with
    | Some oldItem =>
        (* the old item was removed, now let's remove it from the rtree/btree. *)
        let c :=
          if objIsSpatial (item_obj oldItem) then
            set_objects (GoInt.sub (objects c) 1) (indexDelete oldItem c)
          else
            set_nobjects (GoInt.sub (nobjects c) 1)
              (set_values (bt_delete byValue oldItem (values c)).2 c) in
        (* decrement the point count *)
        let c := set_points (GoInt.sub (points c) (oNumPoints (item_obj oldItem))) c in
        (* decrement the weights *)
        let c := set_weight (GoInt.sub (weight c) (objWeight c oldItem)) c in
        (c, Some (item_obj oldItem), getFieldValues c id, getFieldValues c id)
    | None => (c, None, [], [])
    end in
  (* insert the new item into the rtree or strings tree. *)
  let c :=
    if objIsSpatial (item_obj newItem) then
      set_objects (GoInt.add (objects c) 1) (indexInsert newItem c)
    else
      set_nobjects (GoInt.add (nobjects c) 1)
        (set_values (bt_set byValue newItem (values c)).2 c) in
  (* increment the point count *)
  let c := set_points (GoInt.add (points c) (oNumPoints (item_obj newItem))) c in
  (* add the new weights *)
  let c := set_weight (GoInt.add (weight c) (objWeight c newItem)) c in
  match fields with
  | None =>
      if Nat.ltb 0 (length vals) then
        (* directly set the field values, update weight *)
        let c := set_weight (GoInt.sub (weight c) (GoInt.mul (GoInt.len newFields) 8)) c in
        let newFields := vals in
        let c := setFieldValues id newFields c in
        let c := set_weight (GoInt.add (weight c) (GoInt.mul (GoInt.len newFields) 8)) c in
        Returns (oldObject, oldFields, newFields) c
      else Returns (oldObject, oldFields, newFields) c
  | Some fields =>
      (* map field name to value *)
      match setField_range newItem fields vals 0 0 c with
      | Returns _ c => Returns (oldObject, oldFields, getFieldValues c id) c
      | Panics c => Panics c
      end
  end.

(** The lookup key [&itemT{id: id}]. *)
Definition keyItem (id : string) : itemT := mkItem 0 id nilObject.

(** Delete removes an object and returns it.  [None] is [ok = false]. *)
Definition Delete (id : string) (c : Collection)
    : option (Object * list float64) * Collection :=
  let (oldItemV, tr) := bt_delete byID (keyItem id) (items c) in
  let c := set_items tr c in
  match oldItemV with
  | None => (None, c)
  | Some oldItem =>
      let c :=
        if objIsSpatial (item_obj oldItem) then
          set_objects (GoInt.sub (objects c) 1)
            (if negb (oEmpty (item_obj oldItem)) then indexDelete oldItem c else c)
        else
          set_nobjects (GoInt.sub (nobjects c) 1)
            (set_values (bt_delete byValue oldItem (values c)).2 c) in
      let c := set_weight (GoInt.sub (weight c) (objWeight c oldItem)) c in
      let c := set_points (GoInt.sub (points c) (oNumPoints (item_obj oldItem))) c in
      let fields := getFieldValues c id in
      let c := deleteFieldValues id c in
      (Some (item_obj oldItem, fields), c)
  end.

(** Get returns an object.  [None] is [ok = false]. *)
Definition Get (id : string) (c : Collection) : option (Object * list float64) :=
  match bt_get byID (keyItem id) (items c) with
  | None => None
  | Some item => Some (item_obj item, getFieldValues c id)
  end.

(** SetField set a field value for an object and returns that object with
    its fields and the updated flag.  [None] is [ok = false]. *)
Definition SetField (id field : string) (value : float64) (c : Collection)
    : option (Object * list float64 * bool) * Collection :=
  match bt_get byID (keyItem id) (items c) with
  | None => (None, c)
  | Some item =>
      let (updated, c) := setField item field value c in
      (Some (item_obj item, getFieldValues c id, updated), c)
  end.

(** SetFields is similar to SetField, just setting multiple fields at once. *)
Definition SetFields (id : string) (inFields : list string)
    (inValues : list float64) (c : Collection)
    : outcome (option (Object * list float64 * Z)) :=
  match bt_get byID (keyItem id) (items c) with
  | None => Returns None c
  | Some item =>
      match setField_range item inFields inValues 0 0 c with
      | Returns updatedCount c =>
          Returns (Some (item_obj item, getFieldValues c id, updatedCount)) c
      | Panics c => Panics c
      end
  end.

(** FieldMap return a maps of the field names. *)
Definition FieldMap (c : Collection) : gmap string nat := fieldMap c.

(** FieldArr return an array representation of the field names. *)
Definition FieldArr (c : Collection) : list string := fieldArr c.

(** ** Queries

    A query runs against the collection and against the caller's side of the
    program: the visitor closure, the cursor and the clock behind the
    deadline.  [W] is the state of that side.  The visitor is handed the
    collection as well, since a Go closure may hold the collection and call
    its methods; every invocation is recorded in [calls]. *)

Record Call := mkCall {
  call_id : string;
  call_obj : Object;
  call_fields : list float64
}.

Section Queries.
Context {W : Type}.

(** [o.Within(obj)] and [o.Intersects(obj)] of package geojson. *)
Variable objWithin objIntersects : Object -> Object -> bool.
(** [geo.RectFromCenter(lat, lon, meters)]: minLat, minLon, maxLat, maxLon. *)
Variable RectFromCenter :
  float64 -> float64 -> float64 -> float64 * float64 * float64 * float64.

Record Env := mkEnv { col : Collection; world : W; calls : list Call }.

(** A query returns, or is unwound by the panic of [deadline.Check]. *)
Inductive result (A : Type) : Type :=
  | Done (a : A) (e : Env)
  | DeadlinePanic (e : Env).
Arguments Done {A} a e.
Arguments DeadlinePanic {A} e.

Definition env_of {A} (r : result A) : Env :=
  match r with Done _ e => e | DeadlinePanic e => e end.

Definition M (A : Type) : Type := Env -> result A.

Definition ret {A} (a : A) : M A := fun e => Done a e.

Definition bind {A B} (m : M A) (k : A -> M B) : M B :=
  fun e =>
    match m e with
    | Done a e' => k a e'
    | DeadlinePanic e' => DeadlinePanic e'
    end.

Notation "x <- m ;; k" := (bind m (fun x => k))
  (at level 20, m at level 99, k at level 200, only parsing).
Notation "' p <- m ;; k" := (bind m (fun x => match x with p => k end))
  (at level 20, p pattern, m at level 99, k at level 200, only parsing).
Notation "m ;; k" := (bind m (fun _ => k))
  (at level 100, k at level 200, only parsing).

Definition get_col : M Collection := fun e => Done (col e) e.

(** The visitor [func(id string, obj geojson.Object, fields []float64) bool]. *)
Definition Visitor : Type :=
  string -> Object -> list float64 -> W -> Collection -> bool * W * Collection.

Definition callVisitor (iter : Visitor) (id : string) (o : Object)
    (fields : list float64) : M bool :=
  fun e =>
    let '(keepon, w, c) := iter id o fields (world e) (col e) in
    Done keepon (mkEnv c w (calls e ++ [mkCall id o fields])).

(** Cursor allows for quickly paging through Scan, Within, Intersects, and
    Nearby.  [None] is the nil cursor. *)
Record Cursor := mkCursor { Offset : W -> Z; Step : Z -> W -> W }.

(** Modelled from the spec: the deadline of package deadline, whose
    [Check] "either returns or signals a terminal deadline error that must
    unwind the current traversal".  [Check w] tells whether it fires and
    the state it leaves.  [None] is the nil deadline, whose [Check] returns. *)
Record Deadline := mkDeadline { Check : W -> bool * W }.

Definition cursor_Step (cursor : Cursor) (count : Z) : M unit :=
  fun e => Done tt (mkEnv (col e) (Step cursor count (world e)) (calls e)).

Definition deadline_Check (deadline : option Deadline) : M unit :=
  fun e =>
    match deadline with
    | None => Done tt e
    | Some d =>
        let (fires, w) := Check d (world e) in
        if fires then DeadlinePanic (mkEnv (col e) w (calls e))
        else Done tt (mkEnv (col e) w (calls e))
    end.

(** yieldStep forces the iterator to yield goroutine every 255 steps. *)
Definition yieldStep : Z := 255.

(** [runtime.Gosched()] hands the processor to other goroutines; the
    collection is used by one goroutine at a time, so it changes nothing. *)
Definition nextStep (step : Z) (cursor : option Cursor)
    (deadline : option Deadline) : M unit :=
  (if Z.eqb (Z.land step yieldStep) yieldStep
   then deadline_Check deadline
   else ret tt) ;;
  match cursor with
  | Some cur => cursor_Step cur 1
  | None => ret tt
  end.

(** [if cursor != nil { offset = cursor.Offset(); cursor.Step(offset) }] *)
Definition cursor_begin (cursor : option Cursor) : M Z :=
  match cursor with
  | Some cur =>
      fun e =>
        let offset := GoInt.u64 (Offset cur (world e)) in
        (cursor_Step cur offset ;; ret offset) e
  | None => ret 0%Z
  end.

(** An index enumerating the candidates [l] to a callback: the callback
    answers whether to go on, and carries the variables [L] it captures. *)
Fixpoint walk {A L} (f : A -> L -> M (bool * L)) (l : list A) (s : L) : M L :=
  match l with
  | [] => ret s
  | x :: l' =>
      ' (continue, s') <- f x s ;;
      if continue : bool then walk f l' s' else ret s'
  end.

(** The closure [iter] shared by the ordered scans; it captures [count] and
    [keepon]. *)
Definition scan_iter (offset : Z) (cursor : option Cursor)
    (deadline : option Deadline) (iterator : Visitor)
    (item : itemT) (s : Z * bool) : M (bool * (Z * bool)) :=
  let count := GoInt.u64 (s.1 + 1) in
  if Z.leb count offset then ret (true, (count, s.2))
  else
    nextStep count cursor deadline ;;
    c <- get_col ;;
    keepon <- callVisitor iterator (item_id item) (item_obj item)
                (getFieldValues c (item_id item)) ;;
    ret (keepon, (count, keepon)).

(** Scan iterates though the collection ids. *)
Definition Scan (desc : bool) (cursor : option Cursor)
    (deadline : option Deadline) (iterator : Visitor) : M bool :=
  offset <- cursor_begin cursor ;;
  c <- get_col ;;
  s <- walk (scan_iter offset cursor deadline iterator)
         (if desc then bt_descend byID None (items c)
          else bt_ascend byID None (items c))
         (0%Z, true) ;;
  ret s.2.

(** The closure [iter] of ScanRange; it captures [count] and [keepon]. *)
Definition range_iter (end_ : string) (desc : bool) (offset : Z)
    (cursor : option Cursor) (deadline : option Deadline) (iterator : Visitor)
    (item : itemT) (s : Z * bool) : M (bool * (Z * bool)) :=
  let count := GoInt.u64 (s.1 + 1) in
  if Z.leb count offset then ret (true, (count, s.2))
  else
    nextStep count cursor deadline ;;
    if (if negb desc
        then negb (String.ltb (item_id item) end_)
        else negb (String.ltb end_ (item_id item)))
    then ret (false, (count, s.2))
    else
      c <- get_col ;;
      keepon <- callVisitor iterator (item_id item) (item_obj item)
                  (getFieldValues c (item_id item)) ;;
      ret (keepon, (count, keepon)).

(** ScanRange iterates though the collection starting with specified id. *)
Definition ScanRange (start end_ : string) (desc : bool)
    (cursor : option Cursor) (deadline : option Deadline)
    (iterator : Visitor) : M bool :=
  offset <- cursor_begin cursor ;;
  c <- get_col ;;
  s <- walk (range_iter end_ desc offset cursor deadline iterator)
         (if desc then bt_descend byID (Some (keyItem start)) (items c)
          else bt_ascend byID (Some (keyItem start)) (items c))
         (0%Z, true) ;;
  ret s.2.

(** SearchValues iterates though the collection values. *)
Definition SearchValues (desc : bool) (cursor : option Cursor)
    (deadline : option Deadline) (iterator : Visitor) : M bool :=
  offset <- cursor_begin cursor ;;
  c <- get_col ;;
  s <- walk (scan_iter offset cursor deadline iterator)
         (if desc then bt_descend byValue None (values c)
          else bt_ascend byValue None (values c))
         (0%Z, true) ;;
  ret s.2.

Definition bLT (less : itemT -> itemT -> bool) (a b : itemT) : bool := less a b.
Definition bGT (less : itemT -> itemT -> bool) (a b : itemT) : bool := less b a.

(** The closures [func(item) bool { return bound(item) && iter(item) }] of
    SearchValuesRange. *)
Definition bounded_iter {L} (bound : itemT -> bool)
    (iter : itemT -> L -> M (bool * L)) (item : itemT) (s : L)
    : M (bool * L) :=
  if bound item then iter item s else ret (false, s).

(** The range keys [&itemT{obj: String(start)}]: the id is empty. *)
Definition valueItem (s : string) : itemT := mkItem 0 "" (StringObject s).

(** SearchValuesRange iterates though the collection values. *)
Definition SearchValuesRange (start end_ : string) (desc : bool)
    (cursor : option Cursor) (deadline : option Deadline)
    (iterator : Visitor) : M bool :=
  offset <- cursor_begin cursor ;;
  c <- get_col ;;
  let iter := scan_iter offset cursor deadline iterator in
  let pstart := valueItem start in
  let pend := valueItem end_ in
  s <- (if desc then
          (* descend range *)
          walk (bounded_iter (fun item => bGT byValue item pend) iter)
               (bt_descend byValue (Some pstart) (values c)) (0%Z, true)
        else
          walk (bounded_iter (fun item => bLT byValue item pend) iter)
               (bt_ascend byValue (Some pstart) (values c)) (0%Z, true)) ;;
  ret s.2.

(** ScanGreaterOrEqual iterates though the collection starting with
    specified id. *)
Definition ScanGreaterOrEqual (id : string) (desc : bool)
    (cursor : option Cursor) (deadline : option Deadline)
    (iterator : Visitor) : M bool :=
  offset <- cursor_begin cursor ;;
  c <- get_col ;;
  s <- walk (scan_iter offset cursor deadline iterator)
         (if desc then bt_descend byID (Some (keyItem id)) (items c)
          else bt_ascend byID (Some (keyItem id)) (items c))
         (0%Z, true) ;;
  ret s.2.

(** [geoSearch]: its callback captures [alive]; [iter] carries the
    variables [L] of the closure passed in. *)
Definition geoSearch {L} (rect : Rect)
    (iter : string -> Object -> list float64 -> L -> M (bool * L))
    (s : L) : M (bool * L) :=
  c <- get_col ;;
  walk (fun (e : entry) (st : bool * L) =>
          let item := edata e in
          c <- get_col ;;
          ' (alive, s) <- iter (item_id item) (item_obj item)
                            (getFieldValues c (item_id item)) st.2 ;;
          ret (alive, (alive, s)))
       (rt_search (rect_min rect) (rect_max rect) (index c))
       (true, s).

Definition quads (rect : Rect) : list Rect :=
  let w := (X (Max rect) - X (Min rect))%float in
  let h := (Y (Max rect) - Y (Min rect))%float in
  [ mkRect (mkPoint (X (Min rect)) (Y (Min rect) + h / 2))
           (mkPoint (X (Min rect) + w / 2) (Y (Max rect)));
    mkRect (mkPoint (X (Min rect) + w / 2) (Y (Min rect) + h / 2))
           (mkPoint (X (Max rect)) (Y (Max rect)));
    mkRect (mkPoint (X (Min rect)) (Y (Min rect)))
           (mkPoint (X (Min rect) + w / 2) (Y (Min rect) + h / 2));
    mkRect (mkPoint (X (Min rect) + w / 2) (Y (Min rect)))
           (mkPoint (X (Max rect)) (Y (Min rect) + h / 2)) ]%float.

(** [sparse] is a uint8; the recursion is on it. *)
Fixpoint geoSparseInner {L} (rect : Rect) (sparse : nat)
    (iter : string -> Object -> list float64 -> L -> M ((bool * bool) * L))
    (s : L) : M (bool * L) :=
  match sparse with
  | S sparse' =>
      (* for _, quad := range quads {
           if !c.geoSparseInner(quad, sparse-1, iter) { return false } }
         return true *)
      walk (fun (quad : Rect) (st : bool * L) =>
              ' (ok, s) <- geoSparseInner quad sparse' iter st.2 ;;
              ret (ok, (ok, s)))
           (quads rect) (true, s)
  | O =>
      (* the callback captures [alive] *)
      ' (_, st) <- geoSearch rect
          (fun id obj fields (st : bool * L) =>
             ' (mo, s) <- iter id obj fields st.2 ;;
             let '(mtch, ok) := mo : bool * bool in
             if negb ok then ret (false, (false, s))
             else ret (negb mtch, (st.1, s)))
          (true, s) ;;
      ret st
  end.

(** [geoSparse]: its callback captures the map [matches]; the result of
    [geoSparseInner] is dropped and the local [alive] is returned. *)
Definition geoSparse {L} (obj : Object) (sparse : nat)
    (iter : string -> Object -> list float64 -> L -> M ((bool * bool) * L))
    (s : L) : M (bool * L) :=
  let matches : gmap string bool := ∅ in
  let alive := true in
  ' (_, st) <- geoSparseInner (oRect obj) sparse
      (fun id o fields (st : gmap string bool * L) =>
         if negb (default false (st.1 !! id)) then
           ' (mo, s) <- iter id o fields st.2 ;;
           let '(mtch, ok) := mo : bool * bool in
           ret ((mtch, ok), (if mtch then <[id := true]> st.1 else st.1, s))
         else ret ((false, true), st))
      (matches, s) ;;
  ret (alive, st.2).

(** The callbacks of Within and Intersects; they capture [count].  The
    named results [match] and [ok] start out false. *)
Definition sparse_iter (test : Object -> Object -> bool) (obj : Object)
    (offset : Z) (cursor : option Cursor) (deadline : option Deadline)
    (iter : Visitor) (id : string) (o : Object) (fields : list float64)
    (count : Z) : M ((bool * bool) * Z) :=
  let count := GoInt.u64 (count + 1) in
  if Z.leb count offset then ret ((false, true), count)
  else
    nextStep count cursor deadline ;;
    if test o obj then
      ok <- callVisitor iter id o fields ;;
      ret ((true, ok), count)
    else ret ((false, false), count).

Definition search_iter (test : Object -> Object -> bool) (obj : Object)
    (offset : Z) (cursor : option Cursor) (deadline : option Deadline)
    (iter : Visitor) (id : string) (o : Object) (fields : list float64)
    (count : Z) : M (bool * Z) :=
  let count := GoInt.u64 (count + 1) in
  if Z.leb count offset then ret (true, count)
  else
    nextStep count cursor deadline ;;
    if test o obj then
      keepon <- callVisitor iter id o fields ;;
      ret (keepon, count)
    else ret (true, count).

(** Within returns all object that are fully contained within an object or
    bounding box. *)
Definition Within (obj : Object) (sparse : nat) (cursor : option Cursor)
    (deadline : option Deadline) (iter : Visitor) : M bool :=
  offset <- cursor_begin cursor ;;
  if Nat.ltb 0 sparse then
    r <- geoSparse obj sparse
           (sparse_iter objWithin obj offset cursor deadline iter) 0%Z ;;
    ret r.1
  else
    r <- geoSearch (oRect obj)
           (search_iter objWithin obj offset cursor deadline iter) 0%Z ;;
    ret r.1.

(** Intersects returns all object that are intersect an object or bounding
    box. *)
Definition Intersects (obj : Object) (sparse : nat) (cursor : option Cursor)
    (deadline : option Deadline) (iter : Visitor) : M bool :=
  offset <- cursor_begin cursor ;;
  if Nat.ltb 0 sparse then
    r <- geoSparse obj sparse
           (sparse_iter objIntersects obj offset cursor deadline iter) 0%Z ;;
    ret r.1
  else
    r <- geoSearch (oRect obj)
           (search_iter objIntersects obj offset cursor deadline iter) 0%Z ;;
    ret r.1.

(** The fast-fail probe of Nearby: is there at least one candidate in the
    circle's outer rectangle?  The callback sets [exists] and stops. *)
Definition nearby_probe (center : Point) (meters : float64) : M bool :=
  let '(minLat, minLon, maxLat, maxLon) :=
    RectFromCenter (Y center) (X center) meters in
  c <- get_col ;;
  walk (fun (_ : entry) (_ : bool) => ret (false, true))
       (rt_search (minLon, minLat) (maxLon, maxLat) (index c)) false.

(** Nearby returns the nearest neighbors. *)
Definition Nearby (target : Object) (cursor : option Cursor)
    (deadline : option Deadline) (iter : Visitor) : M bool :=
  (* First look to see if there's at least one candidate in the circle's
     outer rectangle. This is a fast-fail operation. *)
  candidates <-
    match oMeters target with
    | Some meters =>
        if PrimFloat.ltb 0 meters
        then nearby_probe (oCenter target) meters
        else ret true
    | None => ret true
    end ;;
  if negb candidates then
    (* no candidates *)
    ret true
  else
    (* do the kNN operation *)
    let center := oCenter target in
    offset <- cursor_begin cursor ;;
    c <- get_col ;;
    s <- walk (fun (e : entry) s =>
                 scan_iter offset cursor deadline iter (edata e) s)
           (rt_nearby center (index c)) (0%Z, true) ;;
    ret s.2.

(** Get as a query. *)
Definition Get_query (id : string) : M (option (Object * list float64)) :=
  c <- get_col ;; ret (Get id c).

(** An observer ([Count], [StringCount], [PointCount], [TotalWeight],
    [Bounds], [FieldMap], [FieldArr]) as a query. *)
Definition observe {A} (f : Collection -> A) : M A :=
  c <- get_col ;; ret (f c).
End Queries.

Arguments Done {W A} a e.
Arguments DeadlinePanic {W A} e.
Arguments mkEnv {W} col world calls.
Arguments Env W : clear implicits.
Arguments result W A : clear implicits.
Arguments M W A : clear implicits.
Arguments Visitor W : clear implicits.
Arguments Cursor W : clear implicits.
Arguments Deadline W : clear implicits.

(** ** Rows as Go slices: the collection over the arrays behind its rows

    Above, a row of field values is a list, so a row is copied whenever it
    is stored or returned.  In Go a row is a slice: [fieldValues] holds slice
    headers, [setField] writes [fields[idx]] into the array behind the row,
    [append] writes in place while the capacity lasts, Set stores the
    caller's [values] slice as it is, and the fields a call returns are the
    live slices.  Module [Aliased] embeds the same functions with rows as
    slice headers over a heap of float64 arrays, for the properties that
    depend on who shares an array with whom.  A caller's [values] argument
    is either a slice of an array made for the call ([Fresh]) or a slice the
    caller already holds ([Held]), which may be a row of the collection. *)

Module Aliased.

(** A [[]float64]: the array, the offset of the first element, the length
    and the capacity.  The nil slice has length and capacity zero. *)
Record slice := mkSlice { s_arr : nat; s_off : nat; s_len : nat; s_cap : nat }.

Definition nil_slice : slice := mkSlice 0 0 0 0.

(** The arrays, by address. *)
Abbreviation heap := (gmap nat (list float64)).

Definition array (h : heap) (a : nat) : list float64 := default [] (h !! a).

(** The elements a reader of the slice sees. *)
Definition elems (h : heap) (s : slice) : list float64 :=
  take (s_len s) (drop (s_off s) (array h (s_arr s))).

(** [s[i]]; [None] is the index-out-of-range panic. *)
Definition at_index (h : heap) (s : slice) (i : nat) : option float64 :=
  if Nat.ltb i (s_len s)
  then Some (default 0%float (array h (s_arr s) !! (s_off s + i)))
  else None.

(** [s[i] = v], for [i < len(s)]. *)
Definition store (h : heap) (s : slice) (i : nat) (v : float64) : heap :=
  <[s_arr s := <[s_off s + i := v]> (array h (s_arr s))]> h.

Record Store := mkStore {
  items : list itemT;                       (* items sorted by keys *)
  index : list entry;                       (* items geospatially indexed *)
  values : list itemT;                      (* items sorted by value+key *)
  fieldMap : gmap string nat;
  fieldArr : list string;
  fieldValues : gmap string slice;
  weight : Z;
  points : Z;
  objects : Z;                              (* geometry count *)
  nobjects : Z;                             (* non-geometry count *)
  alloc : nat;                              (* the allocator: handles given out so far *)
  mem : heap;                               (* the arrays behind the float64 slices *)
  brk : nat                                 (* the arrays allocated so far *)
}.

(** Field updates, one per field. *)
Definition set_items v c := mkStore v (index c) (values c) (fieldMap c)
  (fieldArr c) (fieldValues c) (weight c) (points c) (objects c) (nobjects c)
  (alloc c) (mem c) (brk c).
Definition set_index v c := mkStore (items c) v (values c) (fieldMap c)
  (fieldArr c) (fieldValues c) (weight c) (points c) (objects c) (nobjects c)
  (alloc c) (mem c) (brk c).
Definition set_values v c := mkStore (items c) (index c) v (fieldMap c)
  (fieldArr c) (fieldValues c) (weight c) (points c) (objects c) (nobjects c)
  (alloc c) (mem c) (brk c).
Definition set_fieldMap v c := mkStore (items c) (index c) (values c) v
  (fieldArr c) (fieldValues c) (weight c) (points c) (objects c) (nobjects c)
  (alloc c) (mem c) (brk c).
Definition set_fieldArr v c := mkStore (items c) (index c) (values c) (fieldMap c)
  v (fieldValues c) (weight c) (points c) (objects c) (nobjects c)
  (alloc c) (mem c) (brk c).
Definition set_fieldValues v c := mkStore (items c) (index c) (values c) (fieldMap c)
  (fieldArr c) v (weight c) (points c) (objects c) (nobjects c)
  (alloc c) (mem c) (brk c).
Definition set_weight v c := mkStore (items c) (index c) (values c) (fieldMap c)
  (fieldArr c) (fieldValues c) v (points c) (objects c) (nobjects c)
  (alloc c) (mem c) (brk c).
Definition set_points v c := mkStore (items c) (index c) (values c) (fieldMap c)
  (fieldArr c) (fieldValues c) (weight c) v (objects c) (nobjects c)
  (alloc c) (mem c) (brk c).
Definition set_objects v c := mkStore (items c) (index c) (values c) (fieldMap c)
  (fieldArr c) (fieldValues c) (weight c) (points c) v (nobjects c)
  (alloc c) (mem c) (brk c).
Definition set_nobjects v c := mkStore (items c) (index c) (values c) (fieldMap c)
  (fieldArr c) (fieldValues c) (weight c) (points c) (objects c) v
  (alloc c) (mem c) (brk c).
Definition set_alloc v c := mkStore (items c) (index c) (values c) (fieldMap c)
  (fieldArr c) (fieldValues c) (weight c) (points c) (objects c) (nobjects c)
  v (mem c) (brk c).
Definition set_mem v c := mkStore (items c) (index c) (values c) (fieldMap c)
  (fieldArr c) (fieldValues c) (weight c) (points c) (objects c) (nobjects c)
  (alloc c) v (brk c).
Definition set_brk v c := mkStore (items c) (index c) (values c) (fieldMap c)
  (fieldArr c) (fieldValues c) (weight c) (points c) (objects c) (nobjects c)
  (alloc c) (mem c) v.

(** What a call that may panic leaves behind. *)
Inductive outcome (A : Type) : Type :=
  | Returns (a : A) (c : Store)
  | Panics (c : Store).
Arguments Returns {A} a c.
Arguments Panics {A} c.

Definition state_of {A} (r : outcome A) : Store :=
  match r with Returns _ c => c | Panics c => c end.

(** New creates an empty collection; no array is allocated yet. *)
Definition New : Store := mkStore [] [] [] ∅ [] ∅ 0 0 0 0 1 ∅ 0.

Definition setFieldValues (id : string) (vals : slice) (c : Store) : Store :=
  set_fieldValues (<[id := vals]> (fieldValues c)) c.

(** A missing key reads as the nil slice. *)
Definition getFieldValues (c : Store) (id : string) : slice :=
  default nil_slice (fieldValues c !! id).

Definition deleteFieldValues (id : string) (c : Store) : Store :=
  set_fieldValues (delete id (fieldValues c)) c.

Definition objWeight (c : Store) (item : itemT) : Z :=
  let weight :=
    if objIsSpatial (item_obj item)
    then GoInt.mul (oNumPoints (item_obj item)) 16
    else GoInt.slen (oString (item_obj item)) in
  GoInt.add
    (GoInt.add weight
       (GoInt.mul (Z.of_nat (s_len (getFieldValues c (item_id item)))) 8))
    (GoInt.slen (item_id item)).

Definition indexDelete (item : itemT) (c : Store) : Store :=
  if negb (oEmpty (item_obj item)) then
    set_index (rt_delete item (index c)) c
  else c.

Definition indexInsert (item : itemT) (c : Store) : Store :=
  if negb (oEmpty (item_obj item)) then
    let rect := oRect (item_obj item) in
    set_index (rt_insert (rect_min rect) (rect_max rect) item (index c)) c
  else c.

Definition addToFieldArr (field : string) (c : Store) : Store :=
  let (index, found) := bsearch (fieldArr c) field in
  if negb found then
    (* c.fieldArr = append(c.fieldArr, "") *)
    let arr := fieldArr c ++ [""] in
    (* copy(c.fieldArr[index+1:], c.fieldArr[index:len(c.fieldArr)-1]) *)
    let src := take (length arr - 1 - index) (drop index arr) in
    let arr := take (index + 1) arr
               ++ take (length arr - (index + 1)) src
               ++ drop (index + 1 + length src) arr in
    (* c.fieldArr[index] = field *)
    set_fieldArr (<[index := field]> arr) c
  else c.

Section Append.
(** The capacity [append] gives the new array when the old one is full, from
    the old capacity; the language only promises that it is large enough. *)
Variable grow : nat -> nat.

(** [append(s, v)]: in place while the capacity lasts, else into a new array
    that starts with the elements of [s]. *)
Definition append (v : float64) (s : slice) (c : Store) : slice * Store :=
  if Nat.ltb (s_len s) (s_cap s) then
    (mkSlice (s_arr s) (s_off s) (S (s_len s)) (s_cap s),
     set_mem (<[s_arr s := <[s_off s + s_len s := v]> (array (mem c) (s_arr s))]>
                (mem c)) c)
  else
    let cap' := grow (s_cap s) in
    (mkSlice (brk c) 0 (S (s_len s)) cap',
     set_brk (S (brk c))
       (set_mem (<[brk c := elems (mem c) s
                            ++ v :: replicate (cap' - S (s_len s)) 0%float]>
                   (mem c)) c)).

(** [for idx >= len(fields) { fields = append(fields, 0) }], which runs
    [idx + 1 - len(fields)] times. *)
Fixpoint append_zeros (n : nat) (fields : slice) (c : Store) : slice * Store :=
  match n with
  | O => (fields, c)
  | S n' =>
      let (fields, c) := append 0%float fields c in
      append_zeros n' fields c
  end.

Definition setField (item : itemT) (field : string) (value : float64)
    (c : Store) : bool * Store :=
  let '(idx, c) :=
    match fieldMap c !! field with
    | Some idx => (idx, c)
    | None =>
        let idx := size (fieldMap c) in
        (idx, addToFieldArr field (set_fieldMap (<[field := idx]> (fieldMap c)) c))
    end in
  let fields := getFieldValues c (item_id item) in
  let c := set_weight (GoInt.sub (weight c)
                         (GoInt.mul (Z.of_nat (s_len fields)) 8)) c in
  let (fields, c) := append_zeros (S idx - s_len fields) fields c in
  let c := set_weight (GoInt.add (weight c)
                         (GoInt.mul (Z.of_nat (s_len fields)) 8)) c in
  let ovalue := default 0%float (at_index (mem c) fields idx) in
  (* fields[idx] = value *)
  let c := set_mem (store (mem c) fields idx value) c in
  let c := setFieldValues (item_id item) fields c in
  (negb (PrimFloat.eqb ovalue value), c).

(** [for i, field := range fields { if c.setField(item, field, values[i]) {
    updatedCount++ } }], from index [i] on; [values[i]] is read from the
    array when its turn comes, and panics out of range. *)
Fixpoint setField_range (item : itemT) (fields : list string)
    (vals : slice) (i : nat) (updatedCount : Z) (c : Store) : outcome Z :=
  match fields with
  | [] => Returns updatedCount c
  | field :: fields' =>
      match at_index (mem c) vals i with
      | None => Panics c
      | Some v =>
          let (updated, c) := setField item field v c in
          setField_range item fields' vals (S i)
            (if updated then GoInt.add updatedCount 1 else updatedCount) c
      end
  end.

(** Set adds or replaces an object in the collection and returns the fields
    array.  [fields = None] is the nil slice of names.  The return values are
    the old object, the old fields, and the new fields: slices, not copies. *)
Definition Set' (id : string) (obj : Object) (fields : option (list string))
    (vals : slice) (c : Store) : outcome (option Object * slice * slice) :=
  let newItem := mkItem (alloc c) id obj in
  let c := set_alloc (S (alloc c)) c in
  (* add the new item to main btree and remove the old one if needed *)
  let (oldItem, tr) := bt_set byID newItem (items c) in
  let c := set_items tr c in
  let '(c, oldObject, oldFields, newFields) :=
    match oldItem with
    | Some oldItem =>
        (* the old item was removed, now let's remove it from the rtree/btree. *)
        let c :=
          if objIsSpatial (item_obj oldItem) then
            set_objects (GoInt.sub (objects c) 1) (indexDelete oldItem c)
          else
            set_nobjects (GoInt.sub (nobjects c) 1)
              (set_values (bt_delete byValue oldItem (values c)).2 c) in
        (* decrement the point count *)
        let c := set_points (GoInt.sub (points c) (oNumPoints (item_obj oldItem))) c in
        (* decrement the weights *)
        let c := set_weight (GoInt.sub (weight c) (objWeight c oldItem)) c in
        (* references *)
        (c, Some (item_obj oldItem), getFieldValues c id, getFieldValues c id)
    | None => (c, None, nil_slice, nil_slice)
    end in
  (* insert the new item into the rtree or strings tree. *)
  let c :=
    if objIsSpatial (item_obj newItem) then
      set_objects (GoInt.add (objects c) 1) (indexInsert newItem c)
    else
      set_nobjects (GoInt.add (nobjects c) 1)
        (set_values (bt_set byValue newItem (values c)).2 c) in
  (* increment the point count *)
  let c := set_points (GoInt.add (points c) (oNumPoints (item_obj newItem))) c in
  (* add the new weights *)
  let c := set_weight (GoInt.add (weight c) (objWeight c newItem)) c in
  match fields with
  | None =>
      if Nat.ltb 0 (s_len vals) then
        (* directly set the field values, update weight *)
        let c := set_weight (GoInt.sub (weight c)
                               (GoInt.mul (Z.of_nat (s_len newFields)) 8)) c in
        let newFields := vals in
        let c := setFieldValues id newFields c in
        let c := set_weight (GoInt.add (weight c)
                               (GoInt.mul (Z.of_nat (s_len newFields)) 8)) c in
        Returns (oldObject, oldFields, newFields) c
      else Returns (oldObject, oldFields, newFields) c
  | Some fields =>
      (* map field name to value *)
      match setField_range newItem fields vals 0 0 c with
      | Returns _ c => Returns (oldObject, oldFields, getFieldValues c id) c
      | Panics c => Panics c
      end
  end.

(** SetField set a field value for an object and returns that object with
    its fields and the updated flag.  [None] is [ok = false]. *)
Definition SetField (id field : string) (value : float64) (c : Store)
    : option (Object * slice * bool) * Store :=
  match bt_get byID (keyItem id) (items c) with
  | None => (None, c)
  | Some item =>
      let (updated, c) := setField item field value c in
      (Some (item_obj item, getFieldValues c id, updated), c)
  end.

(** SetFields is similar to SetField, just setting multiple fields at once. *)
Definition SetFields (id : string) (inFields : list string)
    (inValues : slice) (c : Store) : outcome (option (Object * slice * Z)) :=
  match bt_get byID (keyItem id) (items c) with
  | None => Returns None c
  | Some item =>
      match setField_range item inFields inValues 0 0 c with
      | Returns updatedCount c =>
          Returns (Some (item_obj item, getFieldValues c id, updatedCount)) c
      | Panics c => Panics c
      end
  end.
End Append.

(** Delete removes an object and returns it.  [None] is [ok = false]. *)
Definition Delete (id : string) (c : Store) : option (Object * slice) * Store :=
  let (oldItemV, tr) := bt_delete byID (keyItem id) (items c) in
  let c := set_items tr c in
  match oldItemV with
  | None => (None, c)
  | Some oldItem =>
      let c :=
        if objIsSpatial (item_obj oldItem) then
          set_objects (GoInt.sub (objects c) 1)
            (if negb (oEmpty (item_obj oldItem)) then indexDelete oldItem c else c)
        else
          set_nobjects (GoInt.sub (nobjects c) 1)
            (set_values (bt_delete byValue oldItem (values c)).2 c) in
      let c := set_weight (GoInt.sub (weight c) (objWeight c oldItem)) c in
      let c := set_points (GoInt.sub (points c) (oNumPoints (item_obj oldItem))) c in
      let fields := getFieldValues c id in
      let c := deleteFieldValues id c in
      (Some (item_obj oldItem, fields), c)
  end.

(** Get returns an object.  [None] is [ok = false]. *)
Definition Get (id : string) (c : Store) : option (Object * slice) :=
  match bt_get byID (keyItem id) (items c) with
  | None => None
  | Some item => Some (item_obj item, getFieldValues c id)
  end.

(** A [values] argument as the caller hands it over: a slice of an array
    made for this call, with its elements and its spare capacity, or a slice
    the caller already holds. *)
Inductive arg : Type :=
  | Fresh (vals : list float64) (spare : nat)
  | Held (s : slice).

Definition pass (a : arg) (c : Store) : slice * Store :=
  match a with
  | Fresh vals spare =>
      (mkSlice (brk c) 0 (length vals) (length vals + spare),
       set_brk (S (brk c))
         (set_mem (<[brk c := vals ++ replicate spare 0%float]> (mem c)) c))
  | Held s => (s, c)
  end.

Inductive op : Type :=
  | OpSet (id : string) (obj : Object) (fields : option (list string))
          (vals : arg)
  | OpDelete (id : string)
  | OpSetField (id field : string) (value : float64)
  | OpSetFields (id : string) (inFields : list string) (inValues : arg).

(** The store a mutation leaves behind, whether it returned or panicked
    half-way. *)
Definition apply_op (grow : nat -> nat) (c : Store) (o : op) : Store :=
  match o with
  | OpSet id obj fields vals =>
      let (s, c) := pass vals c in state_of (Set' grow id obj fields s c)
  | OpDelete id => (Delete id c).2
  | OpSetField id field value => (SetField grow id field value c).2
  | OpSetFields id inFields inValues =>
      let (s, c) := pass inValues c in
      state_of (SetFields grow id inFields s c)
  end.

Definition run (grow : nat -> nat) (ops : list op) : Store :=
  fold_left (apply_op grow) ops New.

(** What a caller reads from Get: the object and the elements of the row. *)
Definition read (id : string) (c : Store) : option (Object * list float64) :=
  match Get id c with
  | Some (o, s) => Some (o, elems (mem c) s)
  | None => None
  end.

(** The id an operation works on, and whether its values are a slice of
    their own. *)
Definition op_id (o : op) : string :=
  match o with
  | OpSet id _ _ _ => id
  | OpDelete id => id
  | OpSetField id _ _ => id
  | OpSetFields id _ _ => id
  end.

Definition fresh_values (o : op) : Prop :=
  match o with
  | OpSet _ _ _ (Held _) => False
  | OpSetFields _ _ (Held _) => False
  | _ => True
  end.
End Aliased.

(** ** Mutation histories and recomputation from scratch *)

Inductive op : Type :=
  | OpSet (id : string) (obj : Object) (fields : option (list string))
          (vals : list float64)
  | OpDelete (id : string)
  | OpSetField (id field : string) (value : float64)
  | OpSetFields (id : string) (inFields : list string) (inValues : list float64).

(** The collection a mutation leaves behind, whether it returned or
    panicked half-way. *)
Definition apply_op (c : Collection) (o : op) : Collection :=
  match o with
  | OpSet id obj fields vals => state_of (Set' id obj fields vals c)
  | OpDelete id => (Delete id c).2
  | OpSetField id field value => (SetField id field value c).2
  | OpSetFields id inFields inValues => state_of (SetFields id inFields inValues c)
  end.

Definition run (ops : list op) : Collection := fold_left apply_op ops New.

Definition sumZ {A} (f : A -> Z) (l : list A) : Z :=
  fold_right (fun x acc => (f x + acc)%Z) 0%Z l.

Definition spatial_item (it : itemT) : bool := oSpatial (item_obj it).
Definition string_item (it : itemT) : bool := negb (oSpatial (item_obj it)).

(** The weight of one item, computed in [Z] from the stored row. *)
Definition item_weight (fv : gmap string (list float64)) (it : itemT) : Z :=
  ((if oSpatial (item_obj it)
    then oNumPoints (item_obj it) * 16
    else GoInt.slen (oString (item_obj it)))
   + 8 * GoInt.len (default [] (fv !! item_id it))
   + GoInt.slen (item_id it))%Z.

Definition recount_strings (c : Collection) : Z :=
  GoInt.len (List.filter string_item (items c)).
Definition recount_points (c : Collection) : Z :=
  sumZ (fun it => oNumPoints (item_obj it)) (items c).
Definition recount_weight (c : Collection) : Z :=
  sumZ (item_weight (fieldValues c)) (items c).

(** Membership of a handle in each index. *)
Definition in_key_index (it : itemT) (c : Collection) : Prop := it ∈ items c.
Definition in_value_index (it : itemT) (c : Collection) : Prop := it ∈ values c.
Definition in_spatial_index (it : itemT) (c : Collection) : Prop :=
  it ∈ map edata (index c).

(** Order on strings and on items, as propositions. *)
Definition slt (a b : string) : Prop := String.ltb a b = true.
Definition lt_of (less : itemT -> itemT -> bool) (a b : itemT) : Prop :=
  less a b = true.
Abbreviation id_lt := (lt_of byID).
Abbreviation value_lt := (lt_of byValue).

(** Two items have the same key when neither is below the other. *)
Definition same_key (less : itemT -> itemT -> bool) (a b : itemT) : Prop :=
  less a b = false /\ less b a = false.

(** ** The vocabulary of the proofs: invariants, the halves of Set, sample data *)

(** The field table is well formed: columns are below the number of names,
    no two names share a column, and [fieldArr] lists the names of
    [fieldMap] in ascending order. *)
Definition fields_ok (c : Collection) : Prop :=
  (forall k v, fieldMap c !! k = Some v -> v < size (fieldMap c))
  /\ (forall k1 k2 v,
        fieldMap c !! k1 = Some v -> fieldMap c !! k2 = Some v -> k1 = k2)
  /\ StronglySorted slt (fieldArr c)
  /\ (forall k, k ∈ fieldArr c <-> is_Some (fieldMap c !! k)).

(** [Set_replace] is Set up to "add the new weights": the new item takes the
    place of the old one in the indexes and in the counters. *)
Definition Set_replace (newItem : itemT) (c : Collection)
    : Collection * option itemT :=
  let c := set_alloc (S (alloc c)) c in
  let (oldItem, tr) := bt_set byID newItem (items c) in
  let c := set_items tr c in
  let c :=
    match oldItem with
    | Some oldItem =>
        let c :=
          if objIsSpatial (item_obj oldItem) then
            set_objects (GoInt.sub (objects c) 1) (indexDelete oldItem c)
          else
            set_nobjects (GoInt.sub (nobjects c) 1)
              (set_values (bt_delete byValue oldItem (values c)).2 c) in
        let c := set_points (GoInt.sub (points c) (oNumPoints (item_obj oldItem))) c in
        set_weight (GoInt.sub (weight c) (objWeight c oldItem)) c
    | None => c
    end in
  let c :=
    if objIsSpatial (item_obj newItem) then
      set_objects (GoInt.add (objects c) 1) (indexInsert newItem c)
    else
      set_nobjects (GoInt.add (nobjects c) 1)
        (set_values (bt_set byValue newItem (values c)).2 c) in
  let c := set_points (GoInt.add (points c) (oNumPoints (item_obj newItem))) c in
  (set_weight (GoInt.add (weight c) (objWeight c newItem)) c, oldItem).

(** [Set_fields] is the rest of Set: the field values. *)
Definition Set_fields (id : string) (newItem : itemT)
    (fields : option (list string)) (vals : list float64)
    (oldItem : option itemT) (c : Collection)
    : outcome (option Object * list float64 * list float64) :=
  let oldObject := item_obj <$> oldItem in
  let oldFields := match oldItem with Some _ => getFieldValues c id | None => [] end in
  match fields with
  | None =>
      if Nat.ltb 0 (length vals) then
        let c := set_weight (GoInt.sub (weight c) (GoInt.mul (GoInt.len oldFields) 8)) c in
        let c := setFieldValues id vals c in
        let c := set_weight (GoInt.add (weight c) (GoInt.mul (GoInt.len vals) 8)) c in
        Returns (oldObject, oldFields, vals) c
      else Returns (oldObject, oldFields, oldFields) c
  | Some fields =>
      match setField_range newItem fields vals 0 0 c with
      | Returns _ c => Returns (oldObject, oldFields, getFieldValues c id) c
      | Panics c => Panics c
      end
  end.

(** The counters are the recomputed numbers, reduced to 64 bits. *)
Definition counters_ok (c : Collection) : Prop :=
  objects c = GoInt.wrap (sumZ (fun it => if spatial_item it then 1 else 0)%Z (items c))
  /\ nobjects c = GoInt.wrap (sumZ (fun it => if string_item it then 1 else 0)%Z (items c))
  /\ points c = GoInt.wrap (recount_points c).

(** The weight is the recomputed weight, reduced to 64 bits. *)
Definition weight_ok (c : Collection) : Prop :=
  weight c = GoInt.wrap (recount_weight c).

(** No row is kept for an id that is not stored. *)
Definition rows_ok (c : Collection) : Prop :=
  forall id, (forall it, it ∈ items c -> item_id it <> id) ->
             fieldValues c !! id = None.

(** The column of a field name: the one it has, or the next free one. *)
Definition column (c : Collection) (field : string) : nat :=
  match fieldMap c !! field with
  | Some idx => idx
  | None => size (fieldMap c)
  end.

(** The row extended with zeros until it covers column [idx]. *)
Definition padded (row : list float64) (idx : nat) : list float64 :=
  row ++ replicate (S idx - length row) 0%float.

(** The three indexes agree: sorted trees, distinct handles, each stored item
    in the index of its kind and nothing else in the value index. *)
Record index_ok (c : Collection) : Prop := mkIndexOk {
  ok_items_sorted : StronglySorted id_lt (items c);
  ok_values_sorted : StronglySorted value_lt (values c);
  ok_alloc : forall it, it ∈ items c -> item_ptr it < alloc c;
  ok_ptr : forall a b, a ∈ items c -> b ∈ items c ->
                       item_ptr a = item_ptr b -> a = b;
  ok_index_spatial : forall e, e ∈ index c ->
      oSpatial (item_obj (edata e)) = true /\ oEmpty (item_obj (edata e)) = false;
  ok_values_string : forall it, it ∈ values c -> oSpatial (item_obj it) = false;
  ok_spatial_indexed : forall it, it ∈ items c ->
      oSpatial (item_obj it) = true -> oEmpty (item_obj it) = false ->
      in_spatial_index it c;
  ok_string_indexed : forall it, it ∈ items c ->
      oSpatial (item_obj it) = false -> in_value_index it c;
  ok_values_live : forall it, it ∈ values c -> it ∈ items c
}.

(** The value index once the displaced item is taken out. *)
Definition values_without (old : option itemT) (t : list itemT) : list itemT :=
  match old with
  | Some o => if oSpatial (item_obj o) then t else (bt_delete byValue o t).2
  | None => t
  end.

(** The spatial index once the displaced item is taken out. *)
Definition index_without (old : option itemT) (t : list entry) : list entry :=
  match old with
  | Some o =>
      if oSpatial (item_obj o) && negb (oEmpty (item_obj o))
      then rt_delete o t else t
  | None => t
  end.

(** What holds of every collection reached from [New]. *)
Record Inv (c : Collection) : Prop := mkInv {
  inv_index : index_ok c;
  inv_counters : counters_ok c;
  inv_weight : weight_ok c;
  inv_rows : rows_ok c;
  inv_fields : fields_ok c
}.

(** Sample data for the worked instances. *)
Definition sample_point (x y : float64) : Object :=
  mkObject true "point" 1 false (mkRect (mkPoint x y) (mkPoint x y))
    (mkPoint x y) None.

Definition sample_empty : Object :=
  mkObject true "empty" 0 true (mkRect origin origin) origin None.

Definition sample_ops : list op :=
  [ OpSet "a" (sample_point 1 2) (Some ["speed"; "hp"]) [10; 20]%float;
    OpSet "x" (StringObject "hello") None [];
    OpSet "e" sample_empty None [7]%float;
    OpSetField "a" "mana" 5;
    OpSet "x" (StringObject "world") None [];
    OpDelete "e";
    OpSetFields "x" ["hp"] [3]%float ].

(** The number is in the range of a Go int. *)
Definition fits_int (z : Z) : Prop := (- 2 ^ 63 <= z < 2 ^ 63)%Z.

(** The visitor does not change the collection it is handed. *)
Definition harmless {W} (iter : Visitor W) : Prop :=
  forall id o fields w c, (iter id o fields w c).2 = c.

(** The computation ends, returning or panicking, with the collection it
    started from. *)
Definition keeps_col {W A} (m : M W A) : Prop :=
  forall e, col (env_of (m e)) = col e.

Definition sample_box (lo hi : float64) : Object :=
  mkObject true "box" 5 false (mkRect (mkPoint lo lo) (mkPoint hi hi))
    (mkPoint lo lo) None.

Definition sample_circle (x y meters : float64) : Object :=
  mkObject true "circle" 1 false (mkRect (mkPoint x y) (mkPoint x y))
    (mkPoint x y) (Some meters).

(** A stand-in for [geo.RectFromCenter]: a square of half-side [meters]. *)
Definition sample_RectFromCenter (lat lon meters : float64)
    : float64 * float64 * float64 * float64 :=
  (lat - meters, lon - meters, lat + meters, lon + meters)%float.

Definition visit_all : Visitor unit := fun _ _ _ w c => (true, w, c).
Definition visit_stop : Visitor unit := fun _ _ _ w c => (false, w, c).
Definition accept_all (o obj : Object) : bool := true.

Definition sample_env : Env unit := mkEnv (run sample_ops) tt [].

(** The deadline never fires. *)
Definition never_fires {W} (deadline : option (Deadline W)) : Prop :=
  match deadline with
  | None => True
  | Some d => forall w, (Check d w).1 = false
  end.

(** The visitor always asks to go on. *)
Definition always_continues {W} (iter : Visitor W) : Prop :=
  forall id o fields w c, (iter id o fields w c).1.1 = true.

(** What the visitor is handed for an item. *)
Definition call_of (c : Collection) (it : itemT) : Call :=
  mkCall (item_id it) (item_obj it) (getFieldValues c (item_id it)).

(** The longest prefix whose items all satisfy [keep]. *)
Fixpoint keep_while (keep : itemT -> bool) (l : list itemT) : list itemT :=
  match l with
  | [] => []
  | y :: l' => if keep y then y :: keep_while keep l' else []
  end.

(** One step of a bounded scan: inside the bound the item is visited and the
    walk goes on, outside it the walk stops and nothing is visited. *)
Definition bounded_step {W} (keep : itemT -> bool)
    (f : itemT -> Z * bool -> M W (bool * (Z * bool))) : Prop :=
  forall item count (e : Env W),
    (0 <= count < 2 ^ 64 - 1)%Z ->
    if keep item then
      exists w, f item (count, true) e
                = Done (true, ((count + 1)%Z, true))
                    (mkEnv (col e) w (calls e ++ [call_of (col e) item]))
    else
      exists count' w, f item (count, true) e
                       = Done (false, (count', true))
                           (mkEnv (col e) w (calls e)).

(** The ids from [start] up to, not including, [end_]. *)
Definition in_asc_range (start end_ : string) (it : itemT) : bool :=
  negb (String.ltb (item_id it) start) && String.ltb (item_id it) end_.

(** The ids from [start] down to, not including, [end_]. *)
Definition in_desc_range (start end_ : string) (it : itemT) : bool :=
  negb (String.ltb start (item_id it)) && String.ltb end_ (item_id it).

(** The keys from the sentinel of [start] up to, not including, the sentinel
    of [end_]. *)
Definition in_value_range (start end_ : string) (it : itemT) : bool :=
  negb (byValue it (valueItem start)) && byValue it (valueItem end_).

(** The id an operation works on. *)
Definition op_id (o : op) : string :=
  match o with
  | OpSet id _ _ _ => id
  | OpDelete id => id
  | OpSetField id _ _ => id
  | OpSetFields id _ _ => id
  end.

(** The visitor's answer depends on what it is handed only. *)
Definition answers {W} (iter : Visitor W) (p : Call -> bool) : Prop :=
  forall id o fields w c, (iter id o fields w c).1.1 = p (mkCall id o fields).

(** The visits up to and including the first one answered with false. *)
Fixpoint upto_reject {A} (p : A -> bool) (l : list A) : list A :=
  match l with
  | [] => []
  | x :: l' => if p x then x :: upto_reject p l' else [x]
  end.

(** The offset a scan starts from: [cursor.Offset()], zero for a nil cursor. *)
Definition cursor_offset {W} (cursor : option (Cursor W)) (w : W) : nat :=
  match cursor with
  | Some cur => Z.to_nat (GoInt.u64 (Offset cur w))
  | None => 0
  end.

(** Order of the visits by id. *)
Definition call_lt (a b : Call) : Prop :=
  String.ltb (call_id a) (call_id b) = true.

(** Order of the visits by string value, then id: byValue. *)
Definition call_item (k : Call) : itemT := mkItem 0 (call_id k) (call_obj k).
Definition call_value_lt (a b : Call) : Prop :=
  byValue (call_item a) (call_item b) = true.

(** A cursor standing at offset [k]. *)
Definition sample_cursor (k : Z) : Cursor unit :=
  mkCursor (fun _ => k) (fun _ w => w).

(** The handle of an entry of the spatial index. *)
Definition entry_ptr (e : entry) : nat := item_ptr (edata e).
Definition entry_id (e : entry) : string := item_id (edata e).

(** The spatial index holds stored items only, each handle once, under the
    rectangle of its object. *)
Record index_live (c : Collection) : Prop := mkIndexLive {
  live_stored : forall e, e ∈ index c -> edata e ∈ items c;
  live_once : NoDup (map entry_ptr (index c));
  live_rect : forall e, e ∈ index c ->
      emin e = rect_min (oRect (item_obj (edata e)))
      /\ emax e = rect_max (oRect (item_obj (edata e)))
}.

(** Two rectangles overlap, as the spatial index sees it. *)
Definition rects_meet (q r : Rect) : bool :=
  rt_intersects (rect_min q) (rect_max q)
    (mkEntry (rect_min r) (rect_max r) (keyItem "")).

(** One step of a search of the spatial index from candidate number
    [count]: a candidate within the offset is passed over, one that fails
    the test is skipped, the others are handed to the visitor. *)
Definition search_step {W} (test : Object -> Object -> bool) (obj : Object)
    (offset : Z) (p : Call -> bool)
    (f : entry -> bool * Z -> M W (bool * (bool * Z))) : Prop :=
  forall en a count (e : Env W),
    (0 <= count < 2 ^ 64 - 1)%Z ->
    if Z.leb (count + 1) offset then
      f en (a, count) e = Done (true, (true, (count + 1)%Z)) e
    else if test (item_obj (edata en)) obj then
      exists w,
        f en (a, count) e
        = Done (p (call_of (col e) (edata en)),
                (p (call_of (col e) (edata en)), (count + 1)%Z))
            (mkEnv (col e) w (calls e ++ [call_of (col e) (edata en)]))
    else
      exists w,
        f en (a, count) e
        = Done (true, (true, (count + 1)%Z)) (mkEnv (col e) w (calls e)).

(** The visits [cs] of a search: no id twice, and exactly the stored
    objects that satisfy [hit]. *)
Definition visits_exactly (c : Collection) (hit : Object -> bool)
    (cs : list Call) : Prop :=
  NoDup (map call_id cs)
  /\ forall id o fs,
       mkCall id o fs ∈ cs <-> Get id c = Some (o, fs) /\ hit o = true.

(** The object is in the spatial index: spatial and not empty. *)
Definition indexed_spatially (o : Object) : bool :=
  objIsSpatial o && negb (oEmpty o).

(** The deadline has passed: every Check fires. *)
Definition always_fires {W} (d : Deadline W) : Prop :=
  forall w, (Check d w).1 = true.

Definition sample_passed : Deadline unit := mkDeadline (fun w => (true, w)).

(** 255 objects under 255 distinct one-byte ids. *)
Definition sample_many : list op :=
  map (fun n => OpSet (String (Ascii.ascii_of_nat n) "") (StringObject "")
                  None [])
      (seq 0 255).

(** Registering field names one after the other: a new name takes the
    next free column, a known name keeps its column. *)
Definition register (ks : list string) (m : gmap string nat)
    : gmap string nat :=
  fold_left (fun m k => match m !! k with
                        | Some _ => m
                        | None => <[k := size m]> m
                        end) ks m.

(** The field names an operation hands to setField. *)
Definition op_fields (o : op) : list string :=
  match o with
  | OpSet _ _ (Some fields) _ => fields
  | OpSet _ _ None _ => []
  | OpDelete _ => []
  | OpSetField _ field _ => [field]
  | OpSetFields _ inFields _ => inFields
  end.

(** Every column below the number of fields has a name. *)
Definition columns_dense (m : gmap string nat) : Prop :=
  forall i, i < size m -> exists k, m !! k = Some i.

(** What holds of the outcome of a computation: [P] of the value and the
    environment when it returns, [Q] of the environment when the deadline
    unwinds it. *)
Definition holds {W A} (P : A -> Env W -> Prop) (Q : Env W -> Prop)
    (r : result W A) : Prop :=
  match r with
  | Done a e => P a e
  | DeadlinePanic e => Q e
  end.

(** The visits made since [base] are to distinct ids, all of them recorded
    in [matches]. *)
Definition visited_once {W} (base : list Call) (matches : gmap string bool)
    (e : Env W) : Prop :=
  exists news,
    calls e = base ++ news
    /\ NoDup (map call_id news)
    /\ forall k, k ∈ news -> matches !! call_id k = Some true.

(** ** The Kafka endpoint connection ([internal/endpoint/kafka.go])

    The connection is a small state machine under a mutex: each method runs
    from Lock to the deferred Unlock, so the methods are steps on the state.
    What the outside world answers (the clock, the loading of the TLS files,
    the dial, the broker's reply) is an input of the step; the producers
    that have been opened and not closed are kept in [Net]. *)

Module Kafka.

Inductive error : Type :=
  | errExpired
  | errInvalidReply                (* errors.New("invalid kafka reply") *)
  | errExternal (msg : string).    (* an error handed back by a callee *)

(** The part of [Endpoint.Kafka] that Send reads. *)
Record Endpoint := mkEndpoint {
  Host : string;
  Port : Z;
  TopicName : string;
  TLS : bool;
  CertFile : string;
  KeyFile : string;
  CACertFile : string
}.

(** A [sarama.SyncProducer], by the identity of the connection it holds. *)
Definition producer : Type := nat.

(** [time.Time] in nanoseconds; [conn = None] is the nil producer. *)
Record KafkaConn := mkKafkaConn {
  ep : Endpoint;
  conn : option producer;
  ex : bool;
  t : Z
}.

(** The producers that are open, and the handle the next dial returns. *)
Record Net := mkNet { next : producer; opened : gset producer }.

(** What the world answers during one Send: [time.Now()], the error of
    [newKafkaTLSConfig], the error of [sarama.NewSyncProducer], the error
    and the offset of [SendMessage].  [None] is the nil error. *)
Record Reply := mkReply {
  now : Z;
  tlsErr : option string;
  dialErr : option string;
  sendErr : option string;
  offset : Z
}.

(** [const kafkaExpiresAfter = time.Second * 30] *)
Definition kafkaExpiresAfter : Z := 30 * 10 ^ 9.

(** [a.Sub(b)]: a Duration is an int64 of nanoseconds, and Sub returns the
    largest or smallest Duration when the difference does not fit. *)
Definition Sub (a b : Z) : Z := Z.max (- 2 ^ 63) (Z.min (2 ^ 63 - 1) (a - b)).

Definition close (k : KafkaConn) (n : Net) : KafkaConn * Net :=
  match conn k with
  | Some p =>
      (mkKafkaConn (ep k) None (ex k) (t k),
       mkNet (next n) (opened n ∖ {[p]}))
  | None => (k, n)
  end.

(** Expired returns true if the connection has expired. *)
Definition Expired (now : Z) (k : KafkaConn) (n : Net)
    : bool * (KafkaConn * Net) :=
  if negb (ex k) then
    if Z.gtb (Sub now (t k)) kafkaExpiresAfter then
      let '(k, n) :=
        match conn k with
        | Some _ => close k n
        | None => (k, n)
        end in
      let k := mkKafkaConn (ep k) (conn k) true (t k) in
      (ex k, (k, n))
    else (ex k, (k, n))
  else (ex k, (k, n)).

(** Send sends a message.  [None] is the nil error.  The logger setting,
    the producer configuration and the message built from [msg] are handed
    to the callees and leave the connection alone; what the callees answer
    is in [r]. *)
Definition Send (msg : string) (r : Reply) (k : KafkaConn) (n : Net)
    : option error * (KafkaConn * Net) :=
  if ex k then (Some errExpired, (k, n))
  else
    let k := mkKafkaConn (ep k) (conn k) (ex k) (now r) in
    let dialled : option error + KafkaConn * Net :=
      match conn k with
      | None =>
          match (if TLS (ep k) then tlsErr r else None) with
          | Some err => inl (Some (errExternal err))
          | None =>
              match dialErr r with
              | Some err => inl (Some (errExternal err))
              | None =>
                  inr (mkKafkaConn (ep k) (Some (next n)) (ex k) (t k),
                       mkNet (S (next n)) ({[next n]} ∪ opened n))
              end
          end
      | Some _ => inr (k, n)
      end in
    match dialled with
    | inl err => (err, (k, n))
    | inr (k, n) =>
        match sendErr r with
        | Some err => (Some (errExternal err), close k n)
        | None =>
            if Z.ltb (offset r) 0 then (Some errInvalidReply, close k n)
            else (None, (k, n))
        end
    end.

(** [newKafkaConn(ep)] at the time [now]. *)
Definition newKafkaConn (e : Endpoint) (now : Z) : KafkaConn :=
  mkKafkaConn e None false now.

(** The calls made on a connection, with what the world answered. *)
Inductive call : Type :=
  | CallExpired (now : Z)
  | CallSend (msg : string) (r : Reply).

Definition step (s : KafkaConn * Net) (c : call) : KafkaConn * Net :=
  match c with
  | CallExpired now => (Expired now s.1 s.2).2
  | CallSend msg r => (Send msg r s.1 s.2).2
  end.

(** The connection after the calls [cs], made on a fresh connection while
    no producer is open. *)
Definition history (e : Endpoint) (now : Z) (cs : list call)
    : KafkaConn * Net :=
  fold_left step cs (newKafkaConn e now, mkNet 0 ∅).

(** The producers a connection accounts for. *)
Definition held (k : KafkaConn) : gset producer :=
  match conn k with
  | Some p => {[p]}
  | None => ∅
  end.

(** What every call keeps: the open producers are the ones the connection
    holds, and an expired connection holds none. *)
Definition tidy (s : KafkaConn * Net) : Prop :=
  opened s.2 = held s.1 /\ (ex s.1 = true -> conn s.1 = None).

Definition sample_endpoint : Endpoint :=
  mkEndpoint "localhost" 9092 "tiles" false "" "" "".

Definition sample_reply (now : Z) : Reply := mkReply now None None None 7.
End Kafka.

(** The computation adds at most [n] visits to those of [e]. *)
Definition adds_upto {W A} (n : nat) (e : Env W) (r : result W A) : Prop :=
  exists news, calls (env_of r) = calls e ++ news /\ length news <= n.

(** One candidate of a leaf quadrant: either nothing is visited, or one
    object is visited and the search of the quadrant stops. *)
Definition visits_then_stops {W A} (e : Env W) (r : result W (bool * A))
    : Prop :=
  match r with
  | Done (continue, _) e' =>
      calls e' = calls e
      \/ (continue = false /\ exists k, calls e' = calls e ++ [k])
  | DeadlinePanic e' => calls e' = calls e
  end.

(** The leaf quadrants of a sparse search, in the order they are searched,
    and the candidates the spatial index offers in them. *)
Fixpoint leaves (rect : Rect) (sparse : nat) : list Rect :=
  match sparse with
  | O => [rect]
  | S sparse' => concat (map (fun quad => leaves quad sparse') (quads rect))
  end.

Definition sparse_candidates (c : Collection) (rect : Rect) (sparse : nat)
    : list entry :=
  concat (map (fun quad => rt_search (rect_min quad) (rect_max quad) (index c))
              (leaves rect sparse)).

(** Two points in one leaf quadrant of the box from 0 to 5, and a test
    that only the second passes. *)
Definition sample_two : list op :=
  [ OpSet "a" (sample_point 1 1) None [];
    OpSet "b" (sample_point 1 2) None [] ].

Definition sample_test (o obj : Object) : bool :=
  PrimFloat.eqb (Y (oCenter o)) 2.

(** The closure geoSparse hands to geoSparseInner, around the callback of
    Within or Intersects; it captures the map [matches]. *)
Definition sparse_callback {W} (test : Object -> Object -> bool)
    (obj : Object) (offset : Z) (cursor : option (Cursor W))
    (deadline : option (Deadline W)) (iter : Visitor W)
    (id : string) (o : Object) (fields : list float64)
    (st : gmap string bool * Z)
    : M W ((bool * bool) * (gmap string bool * Z)) :=
  if negb (default false (st.1 !! id)) then
    bind (sparse_iter test obj offset cursor deadline iter id o fields st.2)
      (fun x => let '(mo, s) := x in
                let '(mtch, ok) := mo : bool * bool in
                ret ((mtch, ok),
                     (if mtch then <[id := true]> st.1 else st.1, s)))
  else ret ((false, true), st).

(** The closure geoSparseInner hands to geoSearch in a leaf quadrant; it
    captures [alive]. *)
Definition leaf_callback {W L}
    (iter : string -> Object -> list float64 -> L -> M W ((bool * bool) * L))
    (id : string) (o : Object) (fields : list float64) (st : bool * L)
    : M W (bool * (bool * L)) :=
  bind (iter id o fields st.2)
    (fun x => let '(mo, s) := x in
              let '(mtch, ok) := mo : bool * bool in
              if negb ok then ret (false, (false, s))
              else ret (negb mtch, (st.1, s))).

(** Five points in the box from 0 to 5, a visitor that refuses one id, and
    the predicate it answers by. *)
Definition sample_row : list op :=
  [ OpSet "a" (sample_point 1 2) None [];
    OpSet "b" (sample_point 1 1) None [];
    OpSet "c" (sample_point 2 2) None [];
    OpSet "d" (sample_point 3 2) None [];
    OpSet "e" (sample_point 4 2) None [] ].

Definition refuses (id0 : string) (k : Call) : bool :=
  negb (String.eqb (call_id k) id0).

Definition visit_refusing (id0 : string) : Visitor unit :=
  fun id _ _ w c => (negb (String.eqb id id0), w, c).

(** ** The vocabulary of the proofs about slices *)

(** The slice is not nil and lies within an array allocated below [b]. *)
Definition slice_ok (h : Aliased.heap) (b : nat) (s : Aliased.slice) : Prop :=
  Aliased.s_arr s < b
  /\ 0 < Aliased.s_len s <= Aliased.s_cap s
  /\ Aliased.s_off s + Aliased.s_cap s
     <= length (Aliased.array h (Aliased.s_arr s)).

(** A row as [getFieldValues] returns it: nil, or a slice that is in order. *)
Definition row_ok (h : Aliased.heap) (b : nat) (s : Aliased.slice) : Prop :=
  s = Aliased.nil_slice \/ slice_ok h b s.

(** Below address [b] the arrays keep their length, and they keep their
    contents except in array [a] at the positions [P]. *)
Definition mem_frame (b a : nat) (P : nat -> Prop) (h h' : Aliased.heap)
    : Prop :=
  forall a', a' < b ->
    length (Aliased.array h' a') = length (Aliased.array h a')
    /\ forall p, ~ (a' = a /\ P p) ->
                 Aliased.array h' a' !! p = Aliased.array h a' !! p.

(** The two stores differ in the memory at most. *)
Definition same_but_mem (c c' : Aliased.Store) : Prop :=
  Aliased.set_brk (Aliased.brk c) (Aliased.set_mem (Aliased.mem c) c') = c.

(** The slice [s'] that appends and writes made of the row [s]: still in
    the array of [s], or in an array made since the addresses stood at [b]. *)
Definition derived (h : Aliased.heap) (b : nat) (s s' : Aliased.slice)
    : Prop :=
  (slice_ok h b s
   /\ Aliased.s_arr s' = Aliased.s_arr s
   /\ Aliased.s_off s' = Aliased.s_off s
   /\ Aliased.s_len s <= Aliased.s_len s')
  \/ b <= Aliased.s_arr s'.

(** The cells of the array of the row [s] that a write to one of the columns
    [cols] or an append can reach; [beyond] are those of an append alone. *)
Definition cells_or_beyond (h : Aliased.heap) (b : nat) (s : Aliased.slice)
    (cols : nat -> Prop) (p : nat) : Prop :=
  slice_ok h b s
  /\ ((exists idx, cols idx /\ p = Aliased.s_off s + idx)
      \/ Aliased.s_off s + Aliased.s_len s <= p).

Definition beyond (h : Aliased.heap) (b : nat) (s : Aliased.slice)
    : nat -> Prop :=
  cells_or_beyond h b s (fun _ => False).

(** What holds of the store after any calls whose values are slices of
    their own: the key index is sorted, every row lies within an allocated
    array, and no two rows share an array. *)
Record aliased_ok (c : Aliased.Store) : Prop := mkAliasedOk {
  ao_sorted : StronglySorted id_lt (Aliased.items c);
  ao_rows : forall id s,
      Aliased.fieldValues c !! id = Some s ->
      slice_ok (Aliased.mem c) (Aliased.brk c) s;
  ao_apart : forall id1 id2 s1 s2,
      id1 <> id2 ->
      Aliased.fieldValues c !! id1 = Some s1 ->
      Aliased.fieldValues c !! id2 = Some s2 ->
      Aliased.s_arr s1 <> Aliased.s_arr s2
}.

(** What a mutation of the id [id] does to the rows and the arrays: the rows
    of the other ids stay; the row of [id], if there is one afterwards, is
    the old slice or one derived from it; and below the old addresses the
    arrays change only where the old row of [id] lies, in the columns [cols]
    and past its end. *)
Record row_step (id : string) (cols : nat -> Prop) (c c' : Aliased.Store)
    : Prop := mkRowStep {
  rs_brk : Aliased.brk c <= Aliased.brk c';
  rs_others : forall k, k <> id ->
      Aliased.fieldValues c' !! k = Aliased.fieldValues c !! k;
  rs_row : forall s1, Aliased.fieldValues c' !! id = Some s1 ->
      slice_ok (Aliased.mem c') (Aliased.brk c') s1
      /\ (Aliased.fieldValues c !! id = Some s1
          \/ derived (Aliased.mem c) (Aliased.brk c)
               (Aliased.getFieldValues c id) s1);
  rs_frame :
      mem_frame (Aliased.brk c) (Aliased.s_arr (Aliased.getFieldValues c id))
        (cells_or_beyond (Aliased.mem c) (Aliased.brk c)
           (Aliased.getFieldValues c id) cols)
        (Aliased.mem c) (Aliased.mem c')
}.

(** The calls that work on rows leave the objects alone. *)
Definition same_objects (c c' : Aliased.Store) : Prop :=
  Aliased.items c' = Aliased.items c
  /\ Aliased.index c' = Aliased.index c
  /\ Aliased.values c' = Aliased.values c
  /\ Aliased.points c' = Aliased.points c
  /\ Aliased.objects c' = Aliased.objects c
  /\ Aliased.nobjects c' = Aliased.nobjects c
  /\ Aliased.alloc c' = Aliased.alloc c.

(** The key index answers alike for every id but [id]. *)
Definition same_items_but (id : string) (c c' : Aliased.Store) : Prop :=
  forall id', id' <> id ->
    bt_get byID (keyItem id') (Aliased.items c')
    = bt_get byID (keyItem id') (Aliased.items c).

(** A growth of capacities that [append] can use. *)
Definition grows (grow : nat -> nat) : Prop := forall n, n < grow n.

Definition sample_grow (n : nat) : nat := S (2 * n).

(** The parts of the calls on the store, for the proofs. *)
Module Rows.

(** setField in two steps: the column of the field, registered when the
    name is new, and the write into the row. *)
Definition column_of (field : string) (c : Aliased.Store)
    : nat * Aliased.Store :=
  match Aliased.fieldMap c !! field with
  | Some idx => (idx, c)
  | None =>
      let idx := size (Aliased.fieldMap c) in
      (idx, Aliased.addToFieldArr field
              (Aliased.set_fieldMap (<[field := idx]> (Aliased.fieldMap c)) c))
  end.

Definition write_at (grow : nat -> nat) (id : string) (idx : nat)
    (value : float64) (c : Aliased.Store) : bool * Aliased.Store :=
  let fields := Aliased.getFieldValues c id in
  let c := Aliased.set_weight
             (GoInt.sub (Aliased.weight c)
                (GoInt.mul (Z.of_nat (Aliased.s_len fields)) 8)) c in
  let (fields, c) :=
    Aliased.append_zeros grow (S idx - Aliased.s_len fields) fields c in
  let c := Aliased.set_weight
             (GoInt.add (Aliased.weight c)
                (GoInt.mul (Z.of_nat (Aliased.s_len fields)) 8)) c in
  let ovalue := default 0%float (Aliased.at_index (Aliased.mem c) fields idx) in
  let c := Aliased.set_mem (Aliased.store (Aliased.mem c) fields idx value) c in
  let c := Aliased.setFieldValues id fields c in
  (negb (PrimFloat.eqb ovalue value), c).

(** Set in two halves, as for the collection by value: up to "add the new
    weights", and the field values. *)
Definition Set_replace (newItem : itemT) (c : Aliased.Store)
    : Aliased.Store * option itemT :=
  let c := Aliased.set_alloc (S (Aliased.alloc c)) c in
  let (oldItem, tr) := bt_set byID newItem (Aliased.items c) in
  let c := Aliased.set_items tr c in
  let c :=
    match oldItem with
    | Some oldItem =>
        let c :=
          if objIsSpatial (item_obj oldItem) then
            Aliased.set_objects (GoInt.sub (Aliased.objects c) 1)
              (Aliased.indexDelete oldItem c)
          else
            Aliased.set_nobjects (GoInt.sub (Aliased.nobjects c) 1)
              (Aliased.set_values
                 (bt_delete byValue oldItem (Aliased.values c)).2 c) in
        let c := Aliased.set_points
                   (GoInt.sub (Aliased.points c)
                      (oNumPoints (item_obj oldItem))) c in
        Aliased.set_weight
          (GoInt.sub (Aliased.weight c) (Aliased.objWeight c oldItem)) c
    | None => c
    end in
  let c :=
    if objIsSpatial (item_obj newItem) then
      Aliased.set_objects (GoInt.add (Aliased.objects c) 1)
        (Aliased.indexInsert newItem c)
    else
      Aliased.set_nobjects (GoInt.add (Aliased.nobjects c) 1)
        (Aliased.set_values (bt_set byValue newItem (Aliased.values c)).2 c) in
  let c := Aliased.set_points
             (GoInt.add (Aliased.points c) (oNumPoints (item_obj newItem))) c in
  (Aliased.set_weight
     (GoInt.add (Aliased.weight c) (Aliased.objWeight c newItem)) c, oldItem).

Definition Set_fields (grow : nat -> nat) (id : string) (newItem : itemT)
    (fields : option (list string)) (vals : Aliased.slice)
    (oldItem : option itemT) (c : Aliased.Store)
    : Aliased.outcome (option Object * Aliased.slice * Aliased.slice) :=
  let oldObject := item_obj <$> oldItem in
  let oldFields := match oldItem with
                   | Some _ => Aliased.getFieldValues c id
                   | None => Aliased.nil_slice
                   end in
  match fields with
  | None =>
      if Nat.ltb 0 (Aliased.s_len vals) then
        let c := Aliased.set_weight
                   (GoInt.sub (Aliased.weight c)
                      (GoInt.mul (Z.of_nat (Aliased.s_len oldFields)) 8)) c in
        let c := Aliased.setFieldValues id vals c in
        let c := Aliased.set_weight
                   (GoInt.add (Aliased.weight c)
                      (GoInt.mul (Z.of_nat (Aliased.s_len vals)) 8)) c in
        Aliased.Returns (oldObject, oldFields, vals) c
      else Aliased.Returns (oldObject, oldFields, oldFields) c
  | Some fields =>
      match Aliased.setField_range grow newItem fields vals 0 0 c with
      | Aliased.Returns _ c =>
          Aliased.Returns (oldObject, oldFields, Aliased.getFieldValues c id) c
      | Aliased.Panics c => Aliased.Panics c
      end
  end.
End Rows.

(** ** The store read by value *)

(** The collection a reader of the store sees: every row by its elements. *)
Definition erase (c : Aliased.Store) : Collection :=
  mkCollection (Aliased.items c) (Aliased.index c) (Aliased.values c)
    (Aliased.fieldMap c) (Aliased.fieldArr c)
    (Aliased.elems (Aliased.mem c) <$> Aliased.fieldValues c)
    (Aliased.weight c) (Aliased.points c) (Aliased.objects c)
    (Aliased.nobjects c) (Aliased.alloc c).

(** A call on the store whose values are a slice of their own, and the same
    call on the collection by value. *)
Inductive erases : Aliased.op -> op -> Prop :=
  | erases_Set id obj fields vals spare :
      erases (Aliased.OpSet id obj fields (Aliased.Fresh vals spare))
             (OpSet id obj fields vals)
  | erases_Delete id : erases (Aliased.OpDelete id) (OpDelete id)
  | erases_SetField id field value :
      erases (Aliased.OpSetField id field value) (OpSetField id field value)
  | erases_SetFields id inFields inValues spare :
      erases (Aliased.OpSetFields id inFields (Aliased.Fresh inValues spare))
             (OpSetFields id inFields inValues).

(** Calls on the store: a point with two fields and a string with one, all
    with values of their own; and the history in which the caller hands
    one slice to two ids. *)
Definition sample_calls : list Aliased.op :=
  [ Aliased.OpSet "a" (sample_point 1 2) (Some ["speed"; "age"])
      (Aliased.Fresh [10; 20]%float 0);
    Aliased.OpSet "b" (StringObject "hello") None
      (Aliased.Fresh [1; 2]%float 2) ].

Definition sample_shared : list Aliased.op :=
  [ Aliased.OpSet "a" (sample_point 1 2) None (Aliased.Fresh [1; 2]%float 0);
    Aliased.OpSet "b" (sample_point 3 4) None
      (Aliased.Held (Aliased.mkSlice 0 0 2 2)) ].

(** * Properties *)

(** ** Integer arithmetic *)

Module GoIntFacts.
Import GoInt.
Local Open Scope Z_scope.

Lemma wrap_eq_mod a b : a `mod` 2 ^ 64 = b `mod` 2 ^ 64 -> wrap a = wrap b.
Proof.
  intros H. unfold wrap. f_equal.
  rewrite <- (Zplus_mod_idemp_l a), <- (Zplus_mod_idemp_l b), H. reflexivity.
Qed.

Lemma wrap_mod a : wrap a `mod` 2 ^ 64 = a `mod` 2 ^ 64.
Proof.
  unfold wrap. rewrite Zminus_mod_idemp_l.
  f_equal. lia.
Qed.

Lemma wrap_small a : - 2 ^ 63 <= a < 2 ^ 63 -> wrap a = a.
Proof. intros H. unfold wrap. rewrite Z.mod_small; lia. Qed.

Lemma wrap_wrap a : wrap (wrap a) = wrap a.
Proof. apply wrap_eq_mod, wrap_mod. Qed.

Lemma wrap_add_l a b : wrap (wrap a + b) = wrap (a + b).
Proof.
  apply wrap_eq_mod.
  rewrite <- (Zplus_mod_idemp_l (wrap a)), wrap_mod, Zplus_mod_idemp_l.
  reflexivity.
Qed.

Lemma wrap_add_r a b : wrap (a + wrap b) = wrap (a + b).
Proof. rewrite (Z.add_comm a), wrap_add_l. f_equal. lia. Qed.

Lemma wrap_sub_l a b : wrap (wrap a - b) = wrap (a - b).
Proof. unfold Z.sub. apply wrap_add_l. Qed.

Lemma wrap_sub_r a b : wrap (a - wrap b) = wrap (a - b).
Proof.
  apply wrap_eq_mod.
  rewrite <- (Zminus_mod_idemp_r a (wrap b)), wrap_mod, Zminus_mod_idemp_r.
  reflexivity.
Qed.

Lemma wrap_mul_l a b : wrap (wrap a * b) = wrap (a * b).
Proof.
  apply wrap_eq_mod.
  rewrite <- (Zmult_mod_idemp_l (wrap a)), wrap_mod, Zmult_mod_idemp_l.
  reflexivity.
Qed.

Lemma wrap_decomp x : exists k, wrap x = x + k * 2 ^ 64.
Proof.
  unfold wrap. exists (- ((x + 2 ^ 63) `div` 2 ^ 64)).
  pose proof (Z.div_mod (x + 2 ^ 63) (2 ^ 64)). lia.
Qed.

Lemma u64_small a : 0 <= a < 2 ^ 64 -> u64 a = a.
Proof. intros H. unfold u64. apply Z.mod_small. exact H. Qed.
End GoIntFacts.

(** Every reduction differs from its argument by a multiple of [2 ^ 64]:
    name the multiples, then compare modulo [2 ^ 64]. *)
Ltac wrap_elim :=
  repeat match goal with
  | |- context [GoInt.wrap ?t] =>
      lazymatch t with
      | context [GoInt.wrap _] => fail
      | _ =>
          let k := fresh "k" in
          let Hk := fresh "Hk" in
          destruct (GoIntFacts.wrap_decomp t) as [k Hk]; rewrite Hk; clear Hk
      end
  end.

Ltac wrap_solve :=
  unfold GoInt.add, GoInt.sub, GoInt.mul;
  apply GoIntFacts.wrap_eq_mod; wrap_elim;
  Z.to_euclidean_division_equations; lia.

(** ** The order on strings *)

Module StrOrd.
Lemma ltb_lt a b : String.ltb a b = true <-> String_as_OT.lt a b.
Proof.
  unfold String.ltb. rewrite <- String_as_OT.cmp_lt. unfold String_as_OT.cmp.
  destruct (String.compare a b); split; congruence.
Qed.

Lemma ltb_irrefl a : String.ltb a a = false.
Proof.
  destruct (String.ltb a a) eqn:E; [|reflexivity].
  apply ltb_lt in E. exfalso. exact (String_as_OT.lt_not_eq _ _ E eq_refl).
Qed.

Lemma ltb_trans a b c :
  String.ltb a b = true -> String.ltb b c = true -> String.ltb a c = true.
Proof. rewrite !ltb_lt. apply String_as_OT.lt_trans. Qed.

Lemma ltb_asym a b : String.ltb a b = true -> String.ltb b a = false.
Proof.
  intros H. destruct (String.ltb b a) eqn:E; [|reflexivity].
  pose proof (ltb_trans _ _ _ H E) as H1. rewrite ltb_irrefl in H1. discriminate.
Qed.

Lemma ltb_total a b :
  String.ltb a b = false -> String.ltb b a = false -> a = b.
Proof.
  unfold String.ltb. intros H1 H2.
  apply String_as_OT.cmp_eq. unfold String_as_OT.cmp.
  pose proof (String_as_OT.cmp_antisym b a) as Ha. unfold String_as_OT.cmp in Ha.
  destruct (String.compare a b) eqn:E; [reflexivity|discriminate|].
  rewrite Ha in H2. discriminate.
Qed.

Lemma ltb_empty a : String.ltb a "" = false.
Proof. destruct a; reflexivity. Qed.

Lemma ltb_le_trans a b c :
  String.ltb a b = true -> String.ltb c b = false -> String.ltb a c = true.
Proof.
  intros H1 H2. destruct (String.ltb b c) eqn:E.
  - eapply ltb_trans; eassumption.
  - rewrite <- (ltb_total _ _ E H2). exact H1.
Qed.

Lemma le_ltb_trans a b c :
  String.ltb b a = false -> String.ltb b c = true -> String.ltb a c = true.
Proof.
  intros H1 H2. destruct (String.ltb a b) eqn:E.
  - eapply ltb_trans; eassumption.
  - rewrite (ltb_total _ _ E H1). exact H2.
Qed.
End StrOrd.

(** ** The ordered index *)

Section BTreeFacts.
Variable less : itemT -> itemT -> bool.

Abbreviation same_key := (same_key less).
Abbreviation lt := (lt_of less).

(** *** Sums over a tree: no order is needed *)

Lemma bt_set_sum (f : itemT -> Z) x t :
  sumZ f (bt_set less x t).2
  = (sumZ f t + f x - from_option f 0 (bt_set less x t).1)%Z.
Proof.
  induction t as [|y t IH]; simpl.
  - lia.
  - destruct (less x y); simpl; [lia|].
    destruct (less y x); simpl; [|lia].
    destruct (bt_set less x t) as [old r]. simpl in *. lia.
Qed.

Lemma bt_delete_sum (f : itemT -> Z) k t :
  sumZ f (bt_delete less k t).2
  = (sumZ f t - from_option f 0 (bt_delete less k t).1)%Z.
Proof.
  induction t as [|y t IH]; simpl.
  - lia.
  - destruct (less k y); simpl; [lia|].
    destruct (less y k); simpl; [|lia].
    destruct (bt_delete less k t) as [old r]. simpl in *. lia.
Qed.

(** *** Membership: no order is needed *)

Lemma bt_set_new x t : x ∈ (bt_set less x t).2.
Proof.
  induction t as [|y t IH]; simpl.
  - set_solver.
  - destruct (less x y); simpl; [set_solver|].
    destruct (less y x); simpl; [|set_solver].
    destruct (bt_set less x t). simpl in *. set_solver.
Qed.

Lemma bt_set_subset x t y : y ∈ (bt_set less x t).2 -> y = x \/ y ∈ t.
Proof.
  induction t as [|z t IH]; simpl.
  - set_solver.
  - destruct (less x z); simpl; [set_solver|].
    destruct (less z x); simpl; [|set_solver].
    destruct (bt_set less x t). simpl in *. set_solver.
Qed.

Lemma bt_set_old x t o :
  (bt_set less x t).1 = Some o -> o ∈ t /\ same_key o x.
Proof.
  induction t as [|z t IH]; simpl.
  - discriminate.
  - destruct (less x z) eqn:E1; simpl; [discriminate|].
    destruct (less z x) eqn:E2; simpl.
    + destruct (bt_set less x t). simpl in *.
      intros H. destruct (IH H) as [Hin Hk]. split; [|exact Hk].
      apply elem_of_cons. right. exact Hin.
    + intros [= <-]. split; [apply elem_of_cons; left; reflexivity|].
      split; assumption.
Qed.

(** Whatever was in the tree stays, except the displaced item. *)
Lemma bt_set_keeps x t y :
  y ∈ t -> y ∈ (bt_set less x t).2 \/ (bt_set less x t).1 = Some y.
Proof.
  induction t as [|z t IH]; simpl.
  - set_solver.
  - destruct (less x z); simpl; [set_solver|].
    destruct (less z x); simpl; [|set_solver].
    destruct (bt_set less x t). simpl in *. set_solver.
Qed.

Lemma bt_delete_subset k t y : y ∈ (bt_delete less k t).2 -> y ∈ t.
Proof.
  induction t as [|z t IH]; simpl.
  - set_solver.
  - destruct (less k z); simpl; [set_solver|].
    destruct (less z k); simpl; [|set_solver].
    destruct (bt_delete less k t). simpl in *. set_solver.
Qed.

Lemma bt_delete_old k t o :
  (bt_delete less k t).1 = Some o -> o ∈ t /\ same_key o k.
Proof.
  induction t as [|z t IH]; simpl.
  - discriminate.
  - destruct (less k z) eqn:E1; simpl; [discriminate|].
    destruct (less z k) eqn:E2; simpl.
    + destruct (bt_delete less k t). simpl in *.
      intros H. destruct (IH H) as [Hin Hk]. split; [|exact Hk].
      apply elem_of_cons. right. exact Hin.
    + intros [= <-]. split; [apply elem_of_cons; left; reflexivity|].
      split; assumption.
Qed.

Lemma bt_delete_keeps k t y :
  y ∈ t -> y ∈ (bt_delete less k t).2 \/ (bt_delete less k t).1 = Some y.
Proof.
  induction t as [|z t IH]; simpl.
  - set_solver.
  - destruct (less k z); simpl; [set_solver|].
    destruct (less z k); simpl; [|set_solver].
    destruct (bt_delete less k t). simpl in *. set_solver.
Qed.

Lemma bt_get_found k t o : bt_get less k t = Some o -> o ∈ t /\ same_key o k.
Proof.
  induction t as [|z t IH]; simpl.
  - discriminate.
  - destruct (less k z) eqn:E1; [discriminate|].
    destruct (less z k) eqn:E2.
    + intros H. destruct (IH H) as [Hin Hk]. split; [|exact Hk].
      apply elem_of_cons. right. exact Hin.
    + intros [= <-]. split; [apply elem_of_cons; left; reflexivity|].
      split; assumption.
Qed.

(** *** Sorted trees *)

Hypothesis less_irrefl : forall a, less a a = false.
Hypothesis less_trans :
  forall a b c, less a b = true -> less b c = true -> less a c = true.
Hypothesis less_same_key :
  forall a b, same_key a b ->
    forall z, less a z = less b z /\ less z a = less z b.

Lemma same_key_sym a b : same_key a b -> same_key b a.
Proof. intros [H1 H2]. split; assumption. Qed.

Lemma sorted_head_below x y t :
  StronglySorted lt (y :: t) -> less x y = true -> Forall (lt x) (y :: t).
Proof.
  intros Hs Hxy. apply StronglySorted_inv in Hs as [_ Hall].
  constructor; [exact Hxy|].
  eapply Forall_impl; [exact Hall|]. simpl. intros z Hz.
  eapply less_trans; eassumption.
Qed.

Lemma bt_set_sorted x t :
  StronglySorted lt t -> StronglySorted lt (bt_set less x t).2.
Proof.
  induction t as [|y t IH]; simpl; intros Hs.
  - repeat constructor.
  - destruct (less x y) eqn:E1; simpl.
    + constructor; [exact Hs|]. apply sorted_head_below; assumption.
    + pose proof (StronglySorted_inv Hs) as [Hst Hall].
      destruct (less y x) eqn:E2; simpl.
      * specialize (IH Hst).
        pose proof (bt_set_subset x t) as Hsub.
        destruct (bt_set less x t) as [old r]. simpl in *.
        constructor; [exact IH|].
        apply Forall_forall. intros z Hz.
        destruct (Hsub z Hz) as [->|Hin]; [exact E2|].
        rewrite Forall_forall in Hall. apply Hall. exact Hin.
      * constructor; [exact Hst|].
        eapply Forall_impl; [exact Hall|]. simpl. intros z Hz.
        unfold lt_of in *.
        destruct (less_same_key x y (conj E1 E2) z) as [-> _]. exact Hz.
Qed.

Lemma bt_delete_sorted k t :
  StronglySorted lt t -> StronglySorted lt (bt_delete less k t).2.
Proof.
  induction t as [|y t IH]; simpl; intros Hs.
  - constructor.
  - destruct (less k y) eqn:E1; simpl; [exact Hs|].
    pose proof (StronglySorted_inv Hs) as [Hst Hall].
    destruct (less y k) eqn:E2; simpl; [|exact Hst].
    specialize (IH Hst).
    pose proof (bt_delete_subset k t) as Hsub.
    destruct (bt_delete less k t) as [old r]. simpl in *.
    constructor; [exact IH|].
    apply Forall_forall. intros z Hz.
    rewrite Forall_forall in Hall. apply Hall, Hsub, Hz.
Qed.

(** In a sorted tree the key decides the item. *)
Lemma sorted_same_key_eq t a b :
  StronglySorted lt t -> a ∈ t -> b ∈ t -> same_key a b -> a = b.
Proof.
  induction t as [|y t IH]; intros Hs Ha Hb Hk.
  - set_solver.
  - pose proof (StronglySorted_inv Hs) as [Hst Hall].
    rewrite Forall_forall in Hall.
    apply elem_of_cons in Ha as [->|Ha]; apply elem_of_cons in Hb as [->|Hb].
    + reflexivity.
    + destruct Hk as [Hk _]. rewrite (Hall _ Hb) in Hk. discriminate.
    + destruct Hk as [_ Hk]. rewrite (Hall _ Ha) in Hk. discriminate.
    + apply IH; assumption.
Qed.

(** After [Set] no other item carries the key of the new one. *)
Lemma bt_set_unique x t y :
  StronglySorted lt t -> y ∈ (bt_set less x t).2 -> same_key y x -> y = x.
Proof.
  intros Hs Hy Hk.
  eapply sorted_same_key_eq; [apply bt_set_sorted, Hs|exact Hy|apply bt_set_new|exact Hk].
Qed.

(** After [Delete] no item carries the key. *)
Lemma bt_delete_gone k t y :
  StronglySorted lt t -> y ∈ (bt_delete less k t).2 -> ~ same_key y k.
Proof.
  induction t as [|z t IH]; simpl; intros Hs Hy Hk.
  - set_solver.
  - pose proof (StronglySorted_inv Hs) as [Hst Hall].
    rewrite Forall_forall in Hall.
    destruct (less k z) eqn:E1; simpl in *.
    + apply elem_of_cons in Hy as [->|Hy].
      * destruct Hk as [_ Hk]. congruence.
      * pose proof (less_trans _ _ _ E1 (Hall _ Hy)) as H.
        destruct Hk as [_ Hk]. congruence.
    + destruct (less z k) eqn:E2; simpl in *.
      * destruct (bt_delete less k t) as [old r] eqn:Ed. simpl in *.
        apply elem_of_cons in Hy as [->|Hy].
        -- destruct Hk as [Hk _]. congruence.
        -- exact (IH Hst Hy Hk).
      * destruct (less_same_key y k Hk z) as [_ Hzk].
        rewrite (Hall _ Hy) in Hzk. destruct Hk as [_ Hk].
        destruct (less_same_key z k (conj E2 E1) y) as [H1 _].
        rewrite (Hall _ Hy) in H1. congruence.
Qed.

(** [Delete] finds the item that carries the key. *)
Lemma bt_delete_finds k t y :
  StronglySorted lt t -> y ∈ t -> same_key y k ->
  (bt_delete less k t).1 = Some y.
Proof.
  intros Hs Hy Hk.
  destruct (bt_delete_keeps k t y Hy) as [Hin|Hold]; [|exact Hold].
  exfalso. exact (bt_delete_gone k t y Hs Hin Hk).
Qed.

Lemma bt_set_finds x t y :
  StronglySorted lt t -> y ∈ t -> same_key y x -> x ∉ t ->
  (bt_set less x t).1 = Some y.
Proof.
  intros Hs Hy Hk Hx.
  destruct (bt_set_keeps x t y Hy) as [Hin|Hold]; [|exact Hold].
  exfalso. apply Hx. rewrite <- (bt_set_unique x t y Hs Hin Hk). exact Hy.
Qed.

Lemma bt_get_finds k t y :
  StronglySorted lt t -> y ∈ t -> same_key y k -> bt_get less k t = Some y.
Proof.
  induction t as [|z t IH]; simpl; intros Hs Hy Hk.
  - set_solver.
  - pose proof (StronglySorted_inv Hs) as [Hst Hall].
    rewrite Forall_forall in Hall.
    apply elem_of_cons in Hy as [->|Hy].
    + destruct Hk as [-> ->]. reflexivity.
    + destruct (less_same_key y k Hk z) as [H1 H2].
      rewrite (Hall _ Hy) in H2. rewrite <- H2.
      destruct (less k z) eqn:E.
      * pose proof (less_trans _ _ _ E (Hall _ Hy)) as H.
        destruct Hk as [_ Hk]. congruence.
      * apply IH; assumption.
Qed.
End BTreeFacts.

(** ** The two comparators are strict orders on their keys *)

Lemma byID_irrefl a : byID a a = false.
Proof. apply StrOrd.ltb_irrefl. Qed.

Lemma byID_trans a b c : byID a b = true -> byID b c = true -> byID a c = true.
Proof. apply StrOrd.ltb_trans. Qed.

Lemma byID_same_key a b : same_key byID a b <-> item_id a = item_id b.
Proof.
  unfold same_key, byID. split.
  - intros [H1 H2]. apply StrOrd.ltb_total; assumption.
  - intros ->. split; apply StrOrd.ltb_irrefl.
Qed.

Lemma byID_compat a b :
  same_key byID a b -> forall z, byID a z = byID b z /\ byID z a = byID z b.
Proof. intros H z. apply byID_same_key in H. unfold byID. rewrite H. auto. Qed.

Lemma byValue_spec a b :
  byValue a b = true <->
  String.ltb (oString (item_obj a)) (oString (item_obj b)) = true
  \/ (oString (item_obj a) = oString (item_obj b)
      /\ String.ltb (item_id a) (item_id b) = true).
Proof.
  unfold byValue, byID.
  destruct (String.ltb (oString (item_obj a)) (oString (item_obj b))) eqn:E1.
  - tauto.
  - destruct (String.ltb (oString (item_obj b)) (oString (item_obj a))) eqn:E2.
    + split; [discriminate|]. intros [H|[H _]]; [discriminate|].
      rewrite H, StrOrd.ltb_irrefl in E2. discriminate.
    + pose proof (StrOrd.ltb_total _ _ E1 E2). split; [auto|].
      intros [H1|[_ H1]]; [discriminate|exact H1].
Qed.

Lemma byValue_irrefl a : byValue a a = false.
Proof.
  destruct (byValue a a) eqn:E; [|reflexivity].
  apply byValue_spec in E. rewrite !StrOrd.ltb_irrefl in E.
  destruct E as [E|[_ E]]; discriminate.
Qed.

Lemma byValue_trans a b c :
  byValue a b = true -> byValue b c = true -> byValue a c = true.
Proof.
  rewrite !byValue_spec. intros [H1|[H1 H1']] [H2|[H2 H2']].
  - left. eapply StrOrd.ltb_trans; eassumption.
  - left. rewrite <- H2. exact H1.
  - left. rewrite H1. exact H2.
  - right. split; [congruence|]. eapply StrOrd.ltb_trans; eassumption.
Qed.

Lemma byValue_same_key a b :
  same_key byValue a b <->
  oString (item_obj a) = oString (item_obj b) /\ item_id a = item_id b.
Proof.
  unfold same_key. split.
  - intros [H1 H2].
    assert (Hs : oString (item_obj a) = oString (item_obj b)).
    { apply StrOrd.ltb_total.
      - destruct (String.ltb (oString (item_obj a)) (oString (item_obj b))) eqn:E;
          [|reflexivity].
        rewrite (proj2 (byValue_spec a b)) in H1; [discriminate|auto].
      - destruct (String.ltb (oString (item_obj b)) (oString (item_obj a))) eqn:E;
          [|reflexivity].
        rewrite (proj2 (byValue_spec b a)) in H2; [discriminate|auto]. }
    split; [exact Hs|].
    apply StrOrd.ltb_total.
    + destruct (String.ltb (item_id a) (item_id b)) eqn:E; [|reflexivity].
      rewrite (proj2 (byValue_spec a b)) in H1; [discriminate|auto].
    + destruct (String.ltb (item_id b) (item_id a)) eqn:E; [|reflexivity].
      rewrite (proj2 (byValue_spec b a)) in H2; [discriminate|auto].
  - intros [Hs Hi]. unfold byValue, byID. rewrite Hs, Hi, !StrOrd.ltb_irrefl. auto.
Qed.

Lemma byValue_compat a b :
  same_key byValue a b ->
  forall z, byValue a z = byValue b z /\ byValue z a = byValue z b.
Proof.
  intros H z. apply byValue_same_key in H as [Hs Hi].
  unfold byValue, byID. rewrite Hs, Hi. auto.
Qed.

(** ** Sums *)

Lemma sumZ_app {A} (f : A -> Z) l1 l2 :
  sumZ f (l1 ++ l2) = (sumZ f l1 + sumZ f l2)%Z.
Proof. induction l1 as [|x l1 IH]; simpl; [reflexivity|]. rewrite IH. lia. Qed.

Lemma sumZ_ext {A} (f g : A -> Z) l :
  (forall x, x ∈ l -> f x = g x) -> sumZ f l = sumZ g l.
Proof.
  induction l as [|x l IH]; simpl; intros H; [reflexivity|].
  rewrite (H x), IH; [reflexivity| |].
  - intros y Hy. apply H. apply elem_of_cons. right. exact Hy.
  - apply elem_of_cons. left. reflexivity.
Qed.

Lemma sumZ_indicator (p : itemT -> bool) l :
  sumZ (fun it => if p it then 1 else 0)%Z l = GoInt.len (List.filter p l).
Proof.
  unfold GoInt.len. induction l as [|x l IH]; simpl; [reflexivity|].
  rewrite IH. destruct (p x); simpl; lia.
Qed.

(** ** Binary search and the sorted list of field names *)

Lemma midpoint_bounds i j : i < j -> i <= i + (j - i) / 2 < j.
Proof.
  intros H. assert ((j - i) / 2 < j - i) by (apply Nat.div_lt; lia). lia.
Qed.

Lemma sorted_below_middle (arr : list string) h s x :
  StronglySorted slt arr -> arr !! h = Some s -> x ∈ take h arr -> slt x s.
Proof.
  intros Hs Hh Hx. rewrite <- (take_drop_middle arr h s Hh) in Hs.
  apply StronglySorted_app in Hs as (Hc & _ & _).
  apply Hc; [exact Hx|]. apply elem_of_cons. left. reflexivity.
Qed.

Lemma sorted_above_middle (arr : list string) h s y :
  StronglySorted slt arr -> arr !! h = Some s -> y ∈ drop (S h) arr -> slt s y.
Proof.
  intros Hs Hh Hy. rewrite <- (take_drop_middle arr h s Hh) in Hs.
  apply StronglySorted_app in Hs as (_ & _ & Hs).
  apply StronglySorted_inv in Hs as [_ Hall].
  rewrite Forall_forall in Hall. apply Hall, Hy.
Qed.

(** The loop splits a sorted array at the first name above [val]. *)
Lemma bsearch_loop_split arr val :
  StronglySorted slt arr ->
  forall fuel i j,
    j - i < fuel -> i <= j <= length arr ->
    Forall (fun s => String.ltb val s = false) (take i arr) ->
    Forall (fun s => String.ltb val s = true) (drop j arr) ->
    let r := bsearch_loop fuel arr val i j in
    r <= length arr
    /\ Forall (fun s => String.ltb val s = false) (take r arr)
    /\ Forall (fun s => String.ltb val s = true) (drop r arr).
Proof.
  intros Hs. induction fuel as [|fuel IH]; intros i j Hf Hij Hlo Hhi; [lia|].
  cbn [bsearch_loop]. destruct (Nat.ltb_spec i j) as [Hlt|Hge].
  - pose proof (midpoint_bounds i j Hlt) as Hh.
    set (h := i + (j - i) / 2) in *.
    destruct (lookup_lt_is_Some_2 arr h) as [s Hs']; [lia|].
    rewrite Hs'. cbn [default from_option id].
    destruct (String.ltb val s) eqn:E; cbn [negb].
    + apply IH; [lia|lia|exact Hlo|].
      rewrite (drop_S arr s h Hs'). constructor; [exact E|].
      apply Forall_forall. intros y Hy.
      eapply StrOrd.ltb_trans; [exact E|].
      exact (sorted_above_middle arr h s y Hs Hs' Hy).
    + apply IH; [lia|lia| |exact Hhi].
      replace (h + 1) with (S h) by lia.
      rewrite (take_S_r arr h s Hs'). apply Forall_app. split.
      * apply Forall_forall. intros x Hx.
        pose proof (sorted_below_middle arr h s x Hs Hs' Hx) as Hxs.
        destruct (String.ltb val x) eqn:E'; [|reflexivity].
        rewrite (StrOrd.ltb_trans _ _ _ E' Hxs) in E. discriminate.
      * constructor; [exact E|constructor].
  - assert (i = j) as -> by lia. split; [lia|]. split; assumption.
Qed.

Lemma bsearch_split arr val :
  StronglySorted slt arr ->
  let r := bsearch_loop (S (length arr)) arr val 0 (length arr) in
  r <= length arr
  /\ Forall (fun s => String.ltb val s = false) (take r arr)
  /\ Forall (fun s => String.ltb val s = true) (drop r arr).
Proof.
  intros Hs. apply bsearch_loop_split; [exact Hs|lia|lia|constructor|].
  rewrite drop_ge; [constructor|lia].
Qed.

(** [found] says the name is there. *)
Lemma bsearch_found arr val i :
  StronglySorted slt arr -> bsearch arr val = (i, true) -> val ∈ arr.
Proof.
  intros Hs. unfold bsearch.
  destruct (bsearch_split arr val Hs) as (Hr & Hlo & _).
  set (r := bsearch_loop (S (length arr)) arr val 0 (length arr)) in *.
  destruct (Nat.ltb_spec 0 r) as [Hpos|]; simpl; [|discriminate].
  destruct (lookup_lt_is_Some_2 arr (r - 1)) as [s Hs']; [lia|].
  rewrite Hs'. simpl.
  destruct (String.ltb s val) eqn:E; simpl; [discriminate|]. intros _.
  assert (Hle : String.ltb val s = false).
  { rewrite Forall_lookup in Hlo. apply (Hlo (r - 1)).
    rewrite lookup_take_lt; [exact Hs'|lia]. }
  rewrite (StrOrd.ltb_total _ _ Hle E).
  apply list_elem_of_lookup. exists (r - 1). exact Hs'.
Qed.

(** Otherwise the index is where the name belongs. *)
Lemma bsearch_not_found arr val i :
  StronglySorted slt arr -> bsearch arr val = (i, false) ->
  i <= length arr
  /\ Forall (fun s => slt s val) (take i arr)
  /\ Forall (fun s => slt val s) (drop i arr).
Proof.
  intros Hs. unfold bsearch.
  destruct (bsearch_split arr val Hs) as (Hr & Hlo & Hhi).
  set (r := bsearch_loop (S (length arr)) arr val 0 (length arr)) in *.
  destruct (Nat.ltb_spec 0 r) as [Hpos|Hz]; simpl.
  - destruct (lookup_lt_is_Some_2 arr (r - 1)) as [s Hs']; [lia|].
    rewrite Hs'. simpl.
    destruct (String.ltb s val) eqn:E; simpl; [|discriminate].
    intros [= <-]. split; [exact Hr|]. split; [|exact Hhi].
    replace r with (S (r - 1)) by lia.
    rewrite (take_S_r arr (r - 1) s Hs'). apply Forall_app. split.
    + apply Forall_forall. intros x Hx.
      eapply StrOrd.ltb_trans; [|exact E].
      exact (sorted_below_middle arr (r - 1) s x Hs Hs' Hx).
    + constructor; [exact E|constructor].
  - intros [= <-]. assert (r = 0) as -> by lia.
    split; [lia|]. split; [constructor|exact Hhi].
Qed.

(** The append-copy-store sequence of [addToFieldArr] inserts the name. *)
Lemma shift_insert (arr : list string) (i : nat) (field : string) :
  i <= length arr ->
  <[i := field]>
    (take (i + 1) (arr ++ [""])
     ++ take (length (arr ++ [""]) - (i + 1))
          (take (length (arr ++ [""]) - 1 - i) (drop i (arr ++ [""])))
     ++ drop (i + 1 + length (take (length (arr ++ [""]) - 1 - i)
                                (drop i (arr ++ [""]))))
          (arr ++ [""]))
  = take i arr ++ field :: drop i arr.
Proof.
  intros Hi. rewrite !length_app. simpl length.
  replace (length arr + 1 - 1 - i) with (length arr - i) by lia.
  replace (length arr + 1 - (i + 1)) with (length arr - i) by lia.
  rewrite (drop_app_le arr [""] i Hi).
  assert (E1 : take (length arr - i) (drop i arr ++ [""]) = drop i arr).
  { apply take_app_length'. rewrite length_drop. reflexivity. }
  rewrite E1, length_drop.
  rewrite (take_ge (drop i arr)); [|rewrite length_drop; lia].
  rewrite (drop_ge (arr ++ [""])); [|rewrite length_app; simpl; lia].
  rewrite app_nil_r.
  destruct (lookup_lt_is_Some_2 (arr ++ [""]) i) as [x Hx];
    [rewrite length_app; simpl; lia|].
  replace (i + 1) with (S i) by lia.
  rewrite (take_S_r _ i x Hx), (take_app_le arr [""] i Hi).
  rewrite <- app_assoc. simpl.
  rewrite insert_app_r_alt; [|rewrite length_take; lia].
  rewrite length_take. replace (i - i `min` length arr) with 0 by lia.
  reflexivity.
Qed.

Lemma insert_sorted (arr : list string) i val :
  StronglySorted slt arr ->
  Forall (fun s => slt s val) (take i arr) ->
  Forall (fun s => slt val s) (drop i arr) ->
  StronglySorted slt (take i arr ++ val :: drop i arr).
Proof.
  intros Hs Hlo Hhi.
  rewrite <- (take_drop i arr) in Hs.
  apply StronglySorted_app in Hs as (Hc & Hs1 & Hs2).
  apply StronglySorted_app. split; [|split; [exact Hs1|]].
  - intros x y Hx Hy. apply elem_of_cons in Hy as [->|Hy].
    + rewrite Forall_forall in Hlo. apply Hlo, Hx.
    + apply Hc; assumption.
  - constructor; assumption.
Qed.

(** ** What each mutation leaves alone *)

Ltac frame_addToFieldArr :=
  unfold addToFieldArr;
  match goal with
  | |- context [bsearch ?a ?f] => destruct (bsearch a f) as [? []]
  end; reflexivity.

Lemma addToFieldArr_frame field c :
  let c' := addToFieldArr field c in
  items c' = items c /\ index c' = index c /\ values c' = values c
  /\ fieldMap c' = fieldMap c /\ fieldValues c' = fieldValues c
  /\ weight c' = weight c /\ points c' = points c
  /\ objects c' = objects c /\ nobjects c' = nobjects c /\ alloc c' = alloc c.
Proof. repeat split; frame_addToFieldArr. Qed.

Lemma setField_frame item field value c :
  let c' := (setField item field value c).2 in
  items c' = items c /\ index c' = index c /\ values c' = values c
  /\ points c' = points c /\ objects c' = objects c
  /\ nobjects c' = nobjects c /\ alloc c' = alloc c.
Proof.
  unfold setField.
  destruct (fieldMap c !! field); simpl; [repeat split; reflexivity|].
  pose proof (addToFieldArr_frame field
    (set_fieldMap (<[field:=size (fieldMap c)]> (fieldMap c)) c)) as H.
  simpl in H. tauto.
Qed.

Lemma setField_range_frame item fields vals :
  forall i n c,
    let c' := state_of (setField_range item fields vals i n c) in
    items c' = items c /\ index c' = index c /\ values c' = values c
    /\ points c' = points c /\ objects c' = objects c
    /\ nobjects c' = nobjects c /\ alloc c' = alloc c.
Proof.
  induction fields as [|field fields IH]; intros i n c; simpl.
  - repeat split; reflexivity.
  - destruct (vals !! i) as [v|]; simpl; [|repeat split; reflexivity].
    pose proof (setField_frame item field v c) as Hf.
    destruct (setField item field v c) as [updated c1]. simpl in Hf.
    specialize (IH (S i) (if updated then GoInt.add n 1 else n) c1).
    simpl in IH.
    destruct Hf as (<- & <- & <- & <- & <- & <- & <-). exact IH.
Qed.

(** ** The field table: [fieldMap] and [fieldArr] *)

Lemma addToFieldArr_sorted field c :
  StronglySorted slt (fieldArr c) ->
  StronglySorted slt (fieldArr (addToFieldArr field c))
  /\ (forall k, k ∈ fieldArr (addToFieldArr field c)
                <-> k = field \/ k ∈ fieldArr c).
Proof.
  intros Hs. unfold addToFieldArr.
  destruct (bsearch (fieldArr c) field) as [i found] eqn:E.
  destruct found; cbn [negb].
  - split; [exact Hs|]. intros k. split; [auto|].
    intros [->|H]; [|exact H]. eapply bsearch_found; eassumption.
  - destruct (bsearch_not_found _ _ _ Hs E) as (Hi & Hlo & Hhi).
    cbv zeta. rewrite (shift_insert (fieldArr c) i field Hi). simpl.
    split; [apply insert_sorted; assumption|].
    intros k. rewrite elem_of_app, elem_of_cons.
    rewrite <- (take_drop i (fieldArr c)) at 3. rewrite elem_of_app. tauto.
Qed.

Lemma New_fields_ok : fields_ok New.
Proof.
  unfold fields_ok, New. simpl. repeat split.
  - intros k v H. rewrite lookup_empty in H. discriminate.
  - intros k1 k2 v H. rewrite lookup_empty in H. discriminate.
  - constructor.
  - intros H. apply elem_of_nil in H. contradiction.
  - intros [v H]. rewrite lookup_empty in H. discriminate.
Qed.

Lemma setField_fields_ok item field value c :
  fields_ok c -> fields_ok (setField item field value c).2.
Proof.
  intros (Hlt & Hinj & Hs & Hdom). unfold setField.
  destruct (fieldMap c !! field) as [idx|] eqn:E; simpl.
  - repeat split; auto; apply Hdom.
  - set (c1 := set_fieldMap (<[field:=size (fieldMap c)]> (fieldMap c)) c).
    pose proof (addToFieldArr_frame field c1) as Hfr. simpl in Hfr.
    destruct Hfr as (_ & _ & _ & Hfm & _).
    destruct (addToFieldArr_sorted field c1 Hs) as [Hs' Hmem].
    unfold fields_ok. simpl. rewrite Hfm. simpl.
    rewrite (map_size_insert_None _ _ _ E).
    split; [|split; [|split]].
    + intros k v. rewrite lookup_insert. case_decide.
      * intros [= <-]. lia.
      * intros H1. specialize (Hlt _ _ H1). lia.
    + intros k1 k2 v. rewrite !lookup_insert.
      repeat case_decide; subst; try congruence.
      * intros [= <-] H2. specialize (Hlt _ _ H2). lia.
      * intros H1 [= <-]. specialize (Hlt _ _ H1). lia.
      * apply Hinj.
    + exact Hs'.
    + intros k. rewrite Hmem. simpl. rewrite lookup_insert.
      case_decide; subst.
      * split; [eauto|auto].
      * rewrite Hdom. split; [intros [->|H1]; [congruence|exact H1]|auto].
Qed.

Lemma setField_range_fields_ok item fields vals :
  forall i n c,
    fields_ok c -> fields_ok (state_of (setField_range item fields vals i n c)).
Proof.
  induction fields as [|field fields IH]; intros i n c Hok; simpl.
  - exact Hok.
  - destruct (vals !! i) as [v|]; simpl; [|exact Hok].
    pose proof (setField_fields_ok item field v c Hok) as H1.
    destruct (setField item field v c) as [updated c1]. simpl in H1.
    apply IH. exact H1.
Qed.

(** ** The two halves of Set *)

Lemma Set'_halves id obj fields vals c :
  Set' id obj fields vals c
  = Set_fields id (mkItem (alloc c) id obj) fields vals
      (Set_replace (mkItem (alloc c) id obj) c).2
      (Set_replace (mkItem (alloc c) id obj) c).1.
Proof.
  unfold Set', Set_replace, Set_fields, indexDelete, indexInsert, objIsSpatial.
  simpl.
  destruct (bt_set byID (mkItem (alloc c) id obj) (items c)) as [[o|] tr]; simpl;
    destruct fields; simpl;
    repeat match goal with
      | |- context [if ?b then _ else _] => destruct b; simpl
      end; reflexivity.
Qed.

(** ** The aggregate counters *)

Lemma objWeight_wrap c it :
  objWeight c it = GoInt.wrap (item_weight (fieldValues c) it).
Proof.
  unfold objWeight, item_weight, objIsSpatial, getFieldValues.
  destruct (oSpatial (item_obj it)); wrap_solve.
Qed.

Lemma Set_replace_items newItem c :
  items (Set_replace newItem c).1 = (bt_set byID newItem (items c)).2
  /\ (Set_replace newItem c).2 = (bt_set byID newItem (items c)).1
  /\ fieldValues (Set_replace newItem c).1 = fieldValues c
  /\ fieldMap (Set_replace newItem c).1 = fieldMap c
  /\ fieldArr (Set_replace newItem c).1 = fieldArr c
  /\ alloc (Set_replace newItem c).1 = S (alloc c).
Proof.
  unfold Set_replace, indexDelete, indexInsert. simpl.
  destruct (bt_set byID newItem (items c)) as [[o|] tr]; simpl;
    repeat match goal with
      | |- context [if ?b then _ else _] => destruct b; simpl
      end; repeat split; reflexivity.
Qed.

Lemma Set_replace_counters newItem c :
  counters_ok c -> counters_ok (Set_replace newItem c).1.
Proof.
  intros (Ho & Hn & Hp). unfold counters_ok, recount_points in *.
  destruct (Set_replace_items newItem c) as (Hi & _).
  rewrite Hi, !bt_set_sum. clear Hi.
  unfold Set_replace, indexDelete, indexInsert, objIsSpatial.
  unfold spatial_item, string_item in *.
  cbn -[sumZ GoInt.wrap GoInt.add GoInt.sub].
  destruct (bt_set byID newItem (items c)) as [[o|] tr];
    cbn -[sumZ GoInt.wrap GoInt.add GoInt.sub];
    repeat match goal with
      | |- context [if ?b then _ else _] =>
          destruct b; cbn -[sumZ GoInt.wrap GoInt.add GoInt.sub]
      end;
    rewrite ?Ho, ?Hn, ?Hp; repeat split; wrap_solve.
Qed.

Lemma Set_replace_weight newItem c :
  weight_ok c -> weight_ok (Set_replace newItem c).1.
Proof.
  unfold weight_ok, recount_weight. intros Hw.
  destruct (Set_replace_items newItem c) as (Hi & _ & Hfv & _).
  rewrite Hi, Hfv, bt_set_sum. clear Hi Hfv.
  unfold Set_replace, indexDelete, indexInsert, objIsSpatial.
  cbn -[sumZ GoInt.wrap GoInt.add GoInt.sub objWeight item_weight].
  destruct (bt_set byID newItem (items c)) as [[o|] tr];
    cbn -[sumZ GoInt.wrap GoInt.add GoInt.sub objWeight item_weight];
    repeat match goal with
      | |- context [if ?b then _ else _] =>
          destruct b;
          cbn -[sumZ GoInt.wrap GoInt.add GoInt.sub objWeight item_weight]
      end;
    rewrite ?objWeight_wrap;
    cbn -[sumZ GoInt.wrap GoInt.add GoInt.sub objWeight item_weight];
    rewrite Hw; wrap_solve.
Qed.

(** ** What setField computes *)

Lemma padded_length row idx : idx < length (padded row idx).
Proof. unfold padded. rewrite length_app, length_replicate. lia. Qed.

Lemma padded_lookup_old row idx :
  default 0%float (padded row idx !! idx) = default 0%float (row !! idx).
Proof.
  unfold padded. destruct (Nat.lt_ge_cases idx (length row)) as [H|H].
  - rewrite lookup_app_l; [reflexivity|exact H].
  - rewrite lookup_app_r; [|exact H].
    rewrite (lookup_ge_None_2 row idx H).
    rewrite lookup_replicate_2; [reflexivity|lia].
Qed.

Lemma setField_spec item field value c :
  let idx := column c field in
  let row := getFieldValues c (item_id item) in
  (setField item field value c).1
    = negb (PrimFloat.eqb (default 0%float (padded row idx !! idx)) value)
  /\ fieldValues (setField item field value c).2
     = <[item_id item := <[idx := value]> (padded row idx)]> (fieldValues c)
  /\ weight (setField item field value c).2
     = GoInt.add (GoInt.sub (weight c) (GoInt.mul (GoInt.len row) 8))
                 (GoInt.mul (GoInt.len (padded row idx)) 8)
  /\ fieldMap (setField item field value c).2 !! field = Some idx.
Proof.
  unfold setField, column, padded.
  destruct (fieldMap c !! field) as [idx|] eqn:E; simpl.
  - repeat split; try reflexivity. exact E.
  - set (c1 := set_fieldMap (<[field:=size (fieldMap c)]> (fieldMap c)) c).
    pose proof (addToFieldArr_frame field c1) as Hfr. simpl in Hfr.
    destruct Hfr as (_ & _ & _ & Hfm & Hfv & Hw & _).
    unfold getFieldValues. rewrite Hfv, Hw, Hfm. simpl.
    repeat split; try reflexivity. apply lookup_insert_eq.
Qed.

(** ** The weight and the rows *)

Lemma weight_other fv fv' (l : list itemT) id :
  (forall k, k <> id -> fv' !! k = fv !! k) ->
  (forall y, y ∈ l -> item_id y <> id) ->
  sumZ (item_weight fv') l = sumZ (item_weight fv) l.
Proof.
  intros Hfv Hl. apply sumZ_ext. intros y Hy. unfold item_weight.
  rewrite (Hfv (item_id y)); [reflexivity|]. apply Hl, Hy.
Qed.

Lemma sorted_ids_differ l1 it l2 :
  StronglySorted id_lt (l1 ++ it :: l2) ->
  forall y, y ∈ l1 ++ l2 -> item_id y <> item_id it.
Proof.
  intros Hs y Hy Heq.
  apply StronglySorted_app in Hs as (Hc & _ & Hs).
  apply StronglySorted_inv in Hs as [_ Hall]. rewrite Forall_forall in Hall.
  apply elem_of_app in Hy as [Hy|Hy].
  - assert (H : id_lt y it) by (apply Hc; [exact Hy|apply elem_of_cons; auto]).
    unfold lt_of, byID in H. rewrite Heq, StrOrd.ltb_irrefl in H.
    discriminate.
  - specialize (Hall _ Hy). unfold lt_of, byID in Hall.
    rewrite Heq, StrOrd.ltb_irrefl in Hall. discriminate.
Qed.

Lemma weight_update fv (l : list itemT) it r :
  StronglySorted id_lt l -> it ∈ l ->
  sumZ (item_weight (<[item_id it := r]> fv)) l
  = (sumZ (item_weight fv) l
     - 8 * GoInt.len (default [] (fv !! item_id it)) + 8 * GoInt.len r)%Z.
Proof.
  intros Hs Hin. apply list_elem_of_split in Hin as (l1 & l2 & ->).
  pose proof (sorted_ids_differ l1 it l2 Hs) as Hd.
  rewrite !sumZ_app. simpl.
  rewrite (weight_other fv (<[item_id it := r]> fv) l1 (item_id it)).
  - rewrite (weight_other fv (<[item_id it := r]> fv) l2 (item_id it)).
    + unfold item_weight at 2 5. rewrite lookup_insert_eq. simpl. lia.
    + intros k Hk. apply lookup_insert_ne. congruence.
    + intros y Hy. apply Hd, elem_of_app. auto.
  - intros k Hk. apply lookup_insert_ne. congruence.
  - intros y Hy. apply Hd, elem_of_app. auto.
Qed.

Lemma setField_weight item field value c :
  StronglySorted id_lt (items c) -> item ∈ items c ->
  weight_ok c -> weight_ok (setField item field value c).2.
Proof.
  intros Hs Hin Hw. unfold weight_ok, recount_weight in *.
  destruct (setField_spec item field value c) as (_ & Hfv & Hwt & _).
  destruct (setField_frame item field value c) as (Hi & _).
  cbv zeta in *. rewrite Hfv, Hwt, Hi, (weight_update _ _ _ _ Hs Hin), Hw.
  unfold getFieldValues, GoInt.len. rewrite length_insert. wrap_solve.
Qed.

Lemma setField_rows item field value c :
  item ∈ items c -> rows_ok c -> rows_ok (setField item field value c).2.
Proof.
  intros Hin Hr id Hid.
  destruct (setField_spec item field value c) as (_ & Hfv & _).
  destruct (setField_frame item field value c) as (Hi & _).
  cbv zeta in *. rewrite Hi in Hid. rewrite Hfv.
  rewrite lookup_insert_ne; [apply Hr, Hid|]. apply Hid, Hin.
Qed.

Lemma setField_range_weight_rows item fields vals :
  forall i n c,
    StronglySorted id_lt (items c) -> item ∈ items c ->
    weight_ok c -> rows_ok c ->
    weight_ok (state_of (setField_range item fields vals i n c))
    /\ rows_ok (state_of (setField_range item fields vals i n c)).
Proof.
  induction fields as [|field fields IH]; intros i n c Hs Hin Hw Hr; simpl.
  - split; assumption.
  - destruct (vals !! i) as [v|]; simpl; [|split; assumption].
    pose proof (setField_weight item field v c Hs Hin Hw) as H1.
    pose proof (setField_rows item field v c Hin Hr) as H2.
    destruct (setField_frame item field v c) as (Hi & _).
    destruct (setField item field v c) as [updated c1]. simpl in *.
    apply IH; rewrite ?Hi; assumption.
Qed.

(** ** The three indexes hold the right handles *)

Lemma rt_delete_subset data t e : e ∈ rt_delete data t -> e ∈ t.
Proof.
  induction t as [|e' t IH]; simpl; [auto|].
  destruct (Nat.eqb (item_ptr (edata e')) (item_ptr data)).
  - intros H. apply elem_of_cons. auto.
  - rewrite !elem_of_cons. intros [->|H]; auto.
Qed.

Lemma rt_delete_keeps data t e :
  e ∈ t -> item_ptr (edata e) <> item_ptr data -> e ∈ rt_delete data t.
Proof.
  induction t as [|e' t IH]; simpl; [auto|].
  intros Hin Hne. destruct (Nat.eqb_spec (item_ptr (edata e')) (item_ptr data)) as [Heq|Hneq].
  - apply elem_of_cons in Hin as [->|Hin]; [congruence|exact Hin].
  - apply elem_of_cons in Hin as [->|Hin]; apply elem_of_cons; auto.
Qed.

Lemma New_index_ok : index_ok New.
Proof.
  constructor; simpl; try constructor;
    intros; repeat match goal with H : _ ∈ [] |- _ => apply elem_of_nil in H end;
    contradiction.
Qed.

Lemma Set_replace_indexes newItem c :
  let old := (bt_set byID newItem (items c)).1 in
  values (Set_replace newItem c).1
  = (if oSpatial (item_obj newItem) then values_without old (values c)
     else (bt_set byValue newItem (values_without old (values c))).2)
  /\ index (Set_replace newItem c).1
     = (if oSpatial (item_obj newItem) && negb (oEmpty (item_obj newItem))
        then rt_insert (rect_min (oRect (item_obj newItem)))
               (rect_max (oRect (item_obj newItem))) newItem
               (index_without old (index c))
        else index_without old (index c)).
Proof.
  unfold Set_replace, indexDelete, indexInsert, objIsSpatial,
    values_without, index_without. simpl.
  destruct (bt_set byID newItem (items c)) as [[o|] tr]; simpl;
    repeat match goal with
      | |- context [if ?b then _ else _] => destruct b; simpl
      end; split; reflexivity.
Qed.

Lemma values_without_subset old t y : y ∈ values_without old t -> y ∈ t.
Proof.
  unfold values_without. destruct old as [o|]; [|auto].
  destruct (oSpatial (item_obj o)); [auto|]. apply bt_delete_subset.
Qed.

Lemma index_without_subset old t e : e ∈ index_without old t -> e ∈ t.
Proof.
  unfold index_without. destruct old as [o|]; [|auto].
  destruct (oSpatial (item_obj o) && negb (oEmpty (item_obj o))); [|auto].
  apply rt_delete_subset.
Qed.

Lemma values_without_sorted old t :
  StronglySorted value_lt t -> StronglySorted value_lt (values_without old t).
Proof.
  intros Hs. unfold values_without. destruct old as [o|]; [|exact Hs].
  destruct (oSpatial (item_obj o)); [exact Hs|].
  apply bt_delete_sorted, Hs.
Qed.

(** An item of the old tree that is still in the new one is not the
    displaced item. *)
Lemma survivor_not_old newItem t it o :
  StronglySorted id_lt t -> newItem ∉ t ->
  it ∈ (bt_set byID newItem t).2 -> it <> newItem ->
  (bt_set byID newItem t).1 = Some o -> it <> o.
Proof.
  intros Hs Hfresh Hin Hne Hold ->.
  apply bt_set_old in Hold as [_ Hk].
  apply Hne.
  exact (bt_set_unique byID byID_irrefl byID_trans byID_compat _ _ _ Hs Hin Hk).
Qed.

Lemma Set_replace_index_ok newItem c :
  item_ptr newItem = alloc c ->
  index_ok c -> index_ok (Set_replace newItem c).1.
Proof.
  intros Hptr [Hsi Hsv Hal Hpi His Hvs Hsp Hst Hlv].
  destruct (Set_replace_items newItem c) as (Hi & _ & _ & _ & _ & Ha).
  destruct (Set_replace_indexes newItem c) as [Hv Hx]. cbv zeta in *.
  assert (Hfresh : newItem ∉ items c).
  { intros H. apply Hal in H. lia. }
  set (old := (bt_set byID newItem (items c)).1) in *.
  assert (Hold_in : forall o, old = Some o -> o ∈ items c /\ item_id o = item_id newItem).
  { intros o Ho. apply bt_set_old in Ho as [H1 H2]. split; [exact H1|].
    apply byID_same_key, H2. }
  assert (Hsurv : forall it, it ∈ (bt_set byID newItem (items c)).2 ->
            it <> newItem -> it ∈ items c /\ forall o, old = Some o -> it <> o).
  { intros it Hin Hne. split.
    - destruct (bt_set_subset _ _ _ _ Hin) as [->|H]; [contradiction|exact H].
    - intros o Ho. eapply survivor_not_old; eauto. }
  constructor.
  - rewrite Hi. exact (bt_set_sorted byID byID_trans byID_compat _ _ Hsi).
  - rewrite Hv. destruct (oSpatial (item_obj newItem)).
    + apply values_without_sorted, Hsv.
    + apply (bt_set_sorted byValue byValue_trans byValue_compat).
      apply values_without_sorted, Hsv.
  - rewrite Hi, Ha. intros it Hin.
    destruct (bt_set_subset _ _ _ _ Hin) as [->|H]; [lia|].
    specialize (Hal _ H). lia.
  - rewrite Hi. intros a b Ha' Hb' Hab.
    destruct (bt_set_subset _ _ _ _ Ha') as [->|H1];
      destruct (bt_set_subset _ _ _ _ Hb') as [->|H2].
    + reflexivity.
    + specialize (Hal _ H2). lia.
    + specialize (Hal _ H1). lia.
    + apply Hpi; assumption.
  - rewrite Hx. intros e He.
    destruct (oSpatial (item_obj newItem) && negb (oEmpty (item_obj newItem))) eqn:E.
    + apply elem_of_app in He as [He|He].
      * apply His. eapply index_without_subset, He.
      * apply list_elem_of_singleton in He as ->. simpl.
        apply andb_true_iff in E as [E1 E2]. split; [exact E1|].
        destruct (oEmpty (item_obj newItem)); [discriminate|reflexivity].
    + apply His. eapply index_without_subset, He.
  - rewrite Hv. intros it Hin.
    destruct (oSpatial (item_obj newItem)) eqn:E.
    + apply Hvs. eapply values_without_subset, Hin.
    + destruct (bt_set_subset _ _ _ _ Hin) as [->|H]; [exact E|].
      apply Hvs. eapply values_without_subset, H.
  - unfold in_spatial_index. rewrite Hi, Hx. intros it Hin Hs He.
    destruct (bt_set_subset _ _ _ _ Hin) as [->|Hin0'].
    + rewrite Hs, He. simpl. unfold rt_insert. rewrite map_app, elem_of_app.
      right. simpl. apply list_elem_of_singleton. reflexivity.
    + assert (Hne : it <> newItem) by (intros ->; contradiction).
      destruct (Hsurv it Hin Hne) as [Hin0 Hno].
      specialize (Hsp it Hin0 Hs He). unfold in_spatial_index in Hsp.
      apply list_elem_of_fmap in Hsp as (e & -> & Hein).
      assert (Hkeep : e ∈ index_without old (index c)).
      { unfold index_without. destruct old as [o|] eqn:Eo; [|exact Hein].
        destruct (oSpatial (item_obj o) && negb (oEmpty (item_obj o))); [|exact Hein].
        apply rt_delete_keeps; [exact Hein|]. intros Hp.
        apply (Hno o eq_refl). apply Hpi; [exact Hin0| |exact Hp].
        apply (Hold_in o eq_refl). }
      apply list_elem_of_fmap. exists e. split; [reflexivity|].
      destruct (_ && _); [|exact Hkeep].
      unfold rt_insert. apply elem_of_app. left. exact Hkeep.
  - unfold in_value_index. rewrite Hi, Hv. intros it Hin Hs.
    destruct (bt_set_subset _ _ _ _ Hin) as [->|Hin0'].
    + rewrite Hs. apply bt_set_new.
    + assert (Hne : it <> newItem) by (intros ->; contradiction).
      destruct (Hsurv it Hin Hne) as [Hin0 Hno].
      specialize (Hst it Hin0 Hs). unfold in_value_index in Hst.
      assert (Hkeep : it ∈ values_without old (values c)).
      { unfold values_without. destruct old as [o|] eqn:Eo; [|exact Hst].
        destruct (oSpatial (item_obj o)); [exact Hst|].
        destruct (bt_delete_keeps byValue o (values c) it Hst) as [H|H]; [exact H|].
        exfalso. apply (Hno o eq_refl).
        apply bt_delete_old in H as [_ Hk].
        apply byValue_same_key in Hk as [_ Hk].
        apply (sorted_same_key_eq byID byID_irrefl byID_trans byID_compat
                 (items c)); [exact Hsi|exact Hin0| |].
        - apply (Hold_in o eq_refl).
        - apply byID_same_key. exact Hk. }
      destruct (oSpatial (item_obj newItem)); [exact Hkeep|].
      destruct (bt_set_keeps byValue newItem _ it Hkeep) as [H|H]; [exact H|].
      exfalso. apply Hne.
      apply bt_set_old in H as [_ Hk].
      apply byValue_same_key in Hk as [_ Hk].
      apply (bt_set_unique byID byID_irrefl byID_trans byID_compat
               newItem (items c)); [exact Hsi|exact Hin|].
      apply byID_same_key. exact Hk.
  - rewrite Hi, Hv. intros it Hin.
    assert (Hlive : it ∈ values_without old (values c) ->
                    it ∈ (bt_set byID newItem (items c)).2).
    { intros Hw. pose proof (values_without_subset _ _ _ Hw) as Hin0.
      destruct (bt_set_keeps byID newItem (items c) it (Hlv it Hin0)) as [H|H];
        [exact H|].
      exfalso. fold old in H. rewrite H in Hw. unfold values_without in Hw.
      rewrite (Hvs it Hin0) in Hw.
      apply (bt_delete_gone byValue byValue_irrefl byValue_trans byValue_compat
               it (values c) it Hsv Hw).
      split; apply byValue_irrefl. }
    destruct (oSpatial (item_obj newItem)); [apply Hlive, Hin|].
    destruct (bt_set_subset _ _ _ _ Hin) as [->|H]; [apply bt_set_new|].
    apply Hlive, H.
Qed.

Lemma Set_replace_rows newItem c :
  StronglySorted id_lt (items c) ->
  rows_ok c -> rows_ok (Set_replace newItem c).1.
Proof.
  intros Hs Hr id Hid.
  destruct (Set_replace_items newItem c) as (Hi & _ & Hfv & _).
  rewrite Hfv. rewrite Hi in Hid. apply Hr. intros it Hin.
  destruct (bt_set_keeps byID newItem (items c) it Hin) as [H|H].
  - apply Hid, H.
  - apply bt_set_old in H as [_ Hk]. apply byID_same_key in Hk.
    rewrite Hk. apply Hid, bt_set_new.
Qed.

Lemma Set_fields_weight_rows id newItem fields vals old c :
  StronglySorted id_lt (items c) -> newItem ∈ items c ->
  item_id newItem = id ->
  (old = None -> fieldValues c !! id = None) ->
  weight_ok c -> rows_ok c ->
  weight_ok (state_of (Set_fields id newItem fields vals old c))
  /\ rows_ok (state_of (Set_fields id newItem fields vals old c)).
Proof.
  intros Hs Hin Hid Hnone Hw Hr. unfold Set_fields.
  destruct fields as [fields|].
  - pose proof (setField_range_weight_rows newItem fields vals 0 0%Z c
                  Hs Hin Hw Hr) as H.
    destruct (setField_range newItem fields vals 0 0%Z c); exact H.
  - destruct (Nat.ltb 0 (length vals)); simpl; [|split; assumption].
    split.
    + unfold weight_ok, recount_weight in *. simpl.
      rewrite <- Hid, (weight_update _ _ _ _ Hs Hin), Hw, Hid.
      assert (Hlen : GoInt.len
                (match old with Some _ => getFieldValues c id | None => [] end)
              = GoInt.len (default [] (fieldValues c !! id))).
      { destruct old; [reflexivity|]. rewrite (Hnone eq_refl). reflexivity. }
      rewrite Hlen. wrap_solve.
    + intros id' Hid'. simpl in *.
      rewrite lookup_insert_ne; [apply Hr, Hid'|].
      rewrite <- Hid. apply Hid', Hin.
Qed.

(** ** Delete *)

Lemma bt_delete_none less k t :
  (bt_delete less k t).1 = None -> (bt_delete less k t).2 = t.
Proof.
  induction t as [|y t IH]; simpl; [reflexivity|].
  destruct (less k y); [reflexivity|].
  destruct (less y k); [|discriminate].
  destruct (bt_delete less k t) as [old r]. simpl in *.
  intros H. rewrite (IH H). reflexivity.
Qed.

Lemma set_items_same c : set_items (items c) c = c.
Proof. destruct c; reflexivity. Qed.

Lemma Delete_absent id c :
  (bt_delete byID (keyItem id) (items c)).1 = None -> Delete id c = (None, c).
Proof.
  intros H. pose proof (bt_delete_none _ _ _ H) as H2. unfold Delete.
  destruct (bt_delete byID (keyItem id) (items c)) as [old tr]. simpl in *.
  subst. rewrite set_items_same. reflexivity.
Qed.

Lemma Delete_present id c old :
  (bt_delete byID (keyItem id) (items c)).1 = Some old ->
  let c' := (Delete id c).2 in
  (Delete id c).1 = Some (item_obj old, getFieldValues c id)
  /\ items c' = (bt_delete byID (keyItem id) (items c)).2
  /\ values c' = values_without (Some old) (values c)
  /\ index c' = index_without (Some old) (index c)
  /\ fieldValues c' = delete id (fieldValues c)
  /\ fieldMap c' = fieldMap c /\ fieldArr c' = fieldArr c
  /\ alloc c' = alloc c
  /\ objects c' = (if oSpatial (item_obj old)
                   then GoInt.sub (objects c) 1 else objects c)
  /\ nobjects c' = (if oSpatial (item_obj old)
                    then nobjects c else GoInt.sub (nobjects c) 1)
  /\ points c' = GoInt.sub (points c) (oNumPoints (item_obj old))
  /\ weight c' = GoInt.sub (weight c) (GoInt.wrap (item_weight (fieldValues c) old)).
Proof.
  intros H. unfold Delete, indexDelete, objIsSpatial, values_without,
    index_without.
  destruct (bt_delete byID (keyItem id) (items c)) as [o tr]. simpl in H.
  subst o. cbn -[GoInt.sub GoInt.wrap item_weight objWeight].
  destruct (oSpatial (item_obj old));
    cbn -[GoInt.sub GoInt.wrap item_weight objWeight];
    [destruct (oEmpty (item_obj old));
     cbn -[GoInt.sub GoInt.wrap item_weight objWeight]|];
    rewrite objWeight_wrap; repeat split; reflexivity.
Qed.

Lemma Delete_counters id c : counters_ok c -> counters_ok (Delete id c).2.
Proof.
  intros Hc. destruct (bt_delete byID (keyItem id) (items c)).1 as [old|] eqn:E.
  - destruct (Delete_present id c old E)
      as (_ & Hi & _ & _ & _ & _ & _ & _ & Ho & Hn & Hp & _).
    cbv zeta in *. destruct Hc as (Ho' & Hn' & Hp').
    unfold counters_ok, recount_points in *.
    rewrite Hi, Ho, Hn, Hp, !bt_delete_sum, E, Ho', Hn', Hp'.
    unfold spatial_item, string_item.
    cbn -[sumZ GoInt.wrap GoInt.sub].
    destruct (oSpatial (item_obj old)); cbn -[sumZ GoInt.wrap GoInt.sub];
      repeat split; wrap_solve.
  - rewrite (Delete_absent id c E). exact Hc.
Qed.

Lemma Delete_weight_rows id c :
  StronglySorted id_lt (items c) ->
  weight_ok c -> rows_ok c ->
  weight_ok (Delete id c).2 /\ rows_ok (Delete id c).2.
Proof.
  intros Hs Hw Hr.
  destruct (bt_delete byID (keyItem id) (items c)).1 as [old|] eqn:E.
  - destruct (Delete_present id c old E)
      as (_ & Hi & _ & _ & Hfv & _ & _ & _ & _ & _ & _ & Hwt).
    cbv zeta in *.
    assert (Hgone : forall y, y ∈ (bt_delete byID (keyItem id) (items c)).2 ->
                              item_id y <> id).
    { intros y Hy Heq.
      apply (bt_delete_gone byID byID_irrefl byID_trans byID_compat
               _ _ _ Hs Hy).
      apply byID_same_key. exact Heq. }
    split.
    + unfold weight_ok, recount_weight in *. rewrite Hi, Hfv, Hwt.
      rewrite (weight_other (fieldValues c) (delete id (fieldValues c)) _ id);
        [|intros k Hk; apply lookup_delete_ne; congruence|exact Hgone].
      rewrite bt_delete_sum, E, Hw. simpl. wrap_solve.
    + intros id' Hid'. rewrite Hfv. rewrite Hi in Hid'.
      destruct (String.eqb_spec id id') as [->|Hne];
        [apply lookup_delete_eq|].
      rewrite lookup_delete_ne; [|exact Hne]. apply Hr.
      intros it Hin.
      destruct (bt_delete_keeps byID (keyItem id) (items c) it Hin) as [H|H].
      * apply Hid', H.
      * apply bt_delete_old in H as [_ Hk]. apply byID_same_key in Hk.
        simpl in Hk. congruence.
  - rewrite (Delete_absent id c E). split; assumption.
Qed.

Lemma Delete_index_ok id c : index_ok c -> index_ok (Delete id c).2.
Proof.
  intros Hok.
  destruct (bt_delete byID (keyItem id) (items c)).1 as [old|] eqn:E;
    [|rewrite (Delete_absent id c E); exact Hok].
  destruct Hok as [Hsi Hsv Hal Hpi His Hvs Hsp Hst Hlv].
  destruct (Delete_present id c old E)
    as (_ & Hi & Hv & Hx & _ & _ & _ & Ha & _).
  cbv zeta in *.
  destruct (bt_delete_old _ _ _ _ E) as [Hold Hkold].
  assert (Hsurv : forall it, it ∈ (bt_delete byID (keyItem id) (items c)).2 ->
                             it ∈ items c /\ it <> old).
  { intros it Hin. split; [eapply bt_delete_subset, Hin|]. intros ->.
    exact (bt_delete_gone byID byID_irrefl byID_trans byID_compat
             _ _ _ Hsi Hin Hkold). }
  constructor.
  - rewrite Hi. apply bt_delete_sorted, Hsi.
  - rewrite Hv. apply values_without_sorted, Hsv.
  - rewrite Hi, Ha. intros it Hin. apply Hal, (Hsurv it Hin).
  - rewrite Hi. intros a b Ha' Hb'. apply Hpi; [apply (Hsurv a Ha')|apply (Hsurv b Hb')].
  - rewrite Hx. intros e He. apply His. eapply index_without_subset, He.
  - rewrite Hv. intros it Hin. apply Hvs. eapply values_without_subset, Hin.
  - unfold in_spatial_index. rewrite Hi, Hx. intros it Hin Hs He.
    destruct (Hsurv it Hin) as [Hin0 Hne].
    specialize (Hsp it Hin0 Hs He). unfold in_spatial_index in Hsp.
    apply list_elem_of_fmap in Hsp as (e & -> & Hein).
    apply list_elem_of_fmap. exists e. split; [reflexivity|].
    unfold index_without.
    destruct (oSpatial (item_obj old) && negb (oEmpty (item_obj old))); [|exact Hein].
    apply rt_delete_keeps; [exact Hein|]. intros Hp.
    apply Hne. apply Hpi; assumption.
  - unfold in_value_index. rewrite Hi, Hv. intros it Hin Hs.
    destruct (Hsurv it Hin) as [Hin0 Hne].
    specialize (Hst it Hin0 Hs). unfold in_value_index in Hst.
    unfold values_without. destruct (oSpatial (item_obj old)); [exact Hst|].
    destruct (bt_delete_keeps byValue old (values c) it Hst) as [H|H]; [exact H|].
    exfalso. apply Hne. apply bt_delete_old in H as [_ Hk].
    apply byValue_same_key in Hk as [_ Hk].
    apply (sorted_same_key_eq byID byID_irrefl byID_trans byID_compat
             (items c)); [exact Hsi|exact Hin0|exact Hold|].
    apply byID_same_key. exact Hk.
  - rewrite Hi, Hv. intros it Hw.
    pose proof (values_without_subset _ _ _ Hw) as Hin0.
    destruct (bt_delete_keeps byID (keyItem id) (items c) it (Hlv it Hin0))
      as [H|H]; [exact H|].
    exfalso. rewrite E in H. injection H as <-.
    unfold values_without in Hw. rewrite (Hvs old Hin0) in Hw.
    apply (bt_delete_gone byValue byValue_irrefl byValue_trans byValue_compat
             old (values c) old Hsv Hw).
    split; apply byValue_irrefl.
Qed.

(** ** The invariant of every reachable collection *)

Lemma index_ok_frame c c' :
  items c' = items c -> index c' = index c -> values c' = values c ->
  alloc c' = alloc c -> index_ok c -> index_ok c'.
Proof.
  intros Hi Hx Hv Ha [Hsi Hsv Hal Hpi His Hvs Hsp Hst Hlv].
  constructor; unfold in_spatial_index, in_value_index in *;
    rewrite ?Hi, ?Hx, ?Hv, ?Ha; assumption.
Qed.

Lemma counters_ok_frame c c' :
  items c' = items c -> objects c' = objects c -> nobjects c' = nobjects c ->
  points c' = points c -> counters_ok c -> counters_ok c'.
Proof.
  intros Hi Ho Hn Hp. unfold counters_ok, recount_points.
  rewrite Hi, Ho, Hn, Hp. auto.
Qed.

Lemma fields_ok_frame c c' :
  fieldMap c' = fieldMap c -> fieldArr c' = fieldArr c ->
  fields_ok c -> fields_ok c'.
Proof. intros Hm Ha. unfold fields_ok. rewrite Hm, Ha. auto. Qed.

Lemma New_Inv : Inv New.
Proof.
  constructor.
  - exact New_index_ok.
  - repeat split.
  - reflexivity.
  - intros id _. apply lookup_empty.
  - exact New_fields_ok.
Qed.

Lemma setField_Inv item field value c :
  item ∈ items c -> Inv c -> Inv (setField item field value c).2.
Proof.
  intros Hin [Hx Hc Hw Hr Hf].
  destruct (setField_frame item field value c) as (Hi & Hix & Hv & Hp & Ho & Hn & Ha).
  cbv zeta in *. constructor.
  - apply (index_ok_frame c); assumption.
  - apply (counters_ok_frame c); assumption.
  - apply setField_weight; [apply Hx|exact Hin|exact Hw].
  - apply setField_rows; assumption.
  - apply setField_fields_ok, Hf.
Qed.

Lemma setField_range_Inv item fields vals :
  forall i n c,
    item ∈ items c -> Inv c ->
    Inv (state_of (setField_range item fields vals i n c)).
Proof.
  induction fields as [|field fields IH]; intros i n c Hin Hinv; simpl.
  - exact Hinv.
  - destruct (vals !! i) as [v|]; simpl; [|exact Hinv].
    pose proof (setField_Inv item field v c Hin Hinv) as H1.
    destruct (setField_frame item field v c) as (Hi & _).
    destruct (setField item field v c) as [updated c1]. simpl in *.
    apply IH; [rewrite Hi; exact Hin|exact H1].
Qed.

Lemma Set_replace_Inv newItem c :
  item_ptr newItem = alloc c -> Inv c -> Inv (Set_replace newItem c).1.
Proof.
  intros Hptr [Hx Hc Hw Hr Hf].
  destruct (Set_replace_items newItem c) as (_ & _ & _ & Hm & Ha & _).
  constructor.
  - apply Set_replace_index_ok; assumption.
  - apply Set_replace_counters, Hc.
  - apply Set_replace_weight, Hw.
  - apply Set_replace_rows; [apply Hx|exact Hr].
  - apply (fields_ok_frame c); assumption.
Qed.

(** A fresh item that displaces nothing finds no row under its id. *)
Lemma fresh_id_no_row newItem c :
  Inv c -> item_ptr newItem = alloc c ->
  (bt_set byID newItem (items c)).1 = None ->
  fieldValues c !! item_id newItem = None.
Proof.
  intros [Hx _ _ Hr _] Hptr Hnone. apply Hr. intros it Hin Heq.
  assert (Hfresh : newItem ∉ items c).
  { intros H. apply (ok_alloc c Hx) in H. lia. }
  destruct (bt_set_keeps byID newItem (items c) it Hin) as [H|H];
    [|rewrite Hnone in H; discriminate].
  apply Hfresh.
  rewrite <- (bt_set_unique byID byID_irrefl byID_trans byID_compat
                newItem (items c) it (ok_items_sorted c Hx) H); [exact Hin|].
  apply byID_same_key. exact Heq.
Qed.

Lemma Set_fields_frame id newItem fields vals old c :
  let c' := state_of (Set_fields id newItem fields vals old c) in
  items c' = items c /\ index c' = index c /\ values c' = values c
  /\ points c' = points c /\ objects c' = objects c
  /\ nobjects c' = nobjects c /\ alloc c' = alloc c.
Proof.
  unfold Set_fields. destruct fields as [fields|].
  - pose proof (setField_range_frame newItem fields vals 0 0%Z c) as H.
    destruct (setField_range newItem fields vals 0 0%Z c); exact H.
  - destruct (Nat.ltb 0 (length vals)); simpl; repeat split; reflexivity.
Qed.

Lemma Set_fields_fields_ok id newItem fields vals old c :
  fields_ok c -> fields_ok (state_of (Set_fields id newItem fields vals old c)).
Proof.
  intros Hf. unfold Set_fields. destruct fields as [fields|].
  - pose proof (setField_range_fields_ok newItem fields vals 0 0%Z c Hf) as H.
    destruct (setField_range newItem fields vals 0 0%Z c); exact H.
  - destruct (Nat.ltb 0 (length vals)); simpl; exact Hf.
Qed.

Lemma Set'_Inv id obj fields vals c :
  Inv c -> Inv (state_of (Set' id obj fields vals c)).
Proof.
  intros Hinv. rewrite Set'_halves.
  set (newItem := mkItem (alloc c) id obj).
  pose proof (Set_replace_Inv newItem c eq_refl Hinv) as [Hx Hc Hw Hr Hf].
  destruct (Set_replace_items newItem c) as (Hi & Hold & Hfv & _).
  assert (Hnew : newItem ∈ items (Set_replace newItem c).1).
  { rewrite Hi. apply bt_set_new. }
  destruct (Set_fields_frame id newItem fields vals
              (Set_replace newItem c).2 (Set_replace newItem c).1)
    as (Fi & Fx & Fv & Fp & Fo & Fn & Fa).
  cbv zeta in *.
  destruct (Set_fields_weight_rows id newItem fields vals
              (Set_replace newItem c).2 (Set_replace newItem c).1) as [Hw' Hr'];
    try assumption; try reflexivity.
  { apply Hx. }
  { intros Hnone. rewrite Hfv. rewrite Hold in Hnone.
    exact (fresh_id_no_row newItem c Hinv eq_refl Hnone). }
  constructor.
  - eapply index_ok_frame; eassumption.
  - eapply counters_ok_frame; eassumption.
  - exact Hw'.
  - exact Hr'.
  - apply Set_fields_fields_ok, Hf.
Qed.

Lemma Delete_Inv id c : Inv c -> Inv (Delete id c).2.
Proof.
  intros [Hx Hc Hw Hr Hf].
  destruct (Delete_weight_rows id c (ok_items_sorted c Hx) Hw Hr) as [Hw' Hr'].
  constructor.
  - apply Delete_index_ok, Hx.
  - apply Delete_counters, Hc.
  - exact Hw'.
  - exact Hr'.
  - destruct (bt_delete byID (keyItem id) (items c)).1 as [old|] eqn:E.
    + destruct (Delete_present id c old E)
        as (_ & _ & _ & _ & _ & Hm & Ha & _).
      apply (fields_ok_frame c); assumption.
    + rewrite (Delete_absent id c E). exact Hf.
Qed.

Lemma SetField_Inv id field value c : Inv c -> Inv (SetField id field value c).2.
Proof.
  intros Hinv. unfold SetField.
  destruct (bt_get byID (keyItem id) (items c)) as [item|] eqn:E; [|exact Hinv].
  apply bt_get_found in E as [Hin _].
  pose proof (setField_Inv item field value c Hin Hinv) as H.
  destruct (setField item field value c). exact H.
Qed.

Lemma SetFields_Inv id inFields inValues c :
  Inv c -> Inv (state_of (SetFields id inFields inValues c)).
Proof.
  intros Hinv. unfold SetFields.
  destruct (bt_get byID (keyItem id) (items c)) as [item|] eqn:E; [|exact Hinv].
  apply bt_get_found in E as [Hin _].
  pose proof (setField_range_Inv item inFields inValues 0 0%Z c Hin Hinv) as H.
  destruct (setField_range item inFields inValues 0 0%Z c); exact H.
Qed.

Lemma apply_op_Inv c o : Inv c -> Inv (apply_op c o).
Proof.
  destruct o; simpl.
  - apply Set'_Inv.
  - apply Delete_Inv.
  - apply SetField_Inv.
  - apply SetFields_Inv.
Qed.

Lemma fold_apply_op_Inv ops : forall c, Inv c -> Inv (fold_left apply_op ops c).
Proof.
  induction ops as [|o ops IH]; intros c Hinv; simpl; [exact Hinv|].
  apply IH, apply_op_Inv, Hinv.
Qed.

Lemma run_Inv ops : Inv (run ops).
Proof. apply fold_apply_op_Inv, New_Inv. Qed.

(** ** The aggregate observers (C3) *)

Lemma len_string_items l :
  (sumZ (fun it => if spatial_item it then 1 else 0) l
   + sumZ (fun it => if string_item it then 1 else 0) l)%Z
  = GoInt.len l.
Proof.
  unfold GoInt.len, spatial_item, string_item.
  induction l as [|x l IH]; simpl; [reflexivity|].
  destruct (oSpatial (item_obj x)); simpl; lia.
Qed.

(** C3.  After every finite sequence of Set, Delete, SetField and SetFields
    starting from the empty collection, Count() is the number of items in
    the key index, StringCount() the number of non-spatial items,
    PointCount() the sum of NumPoints over the stored items, and
    TotalWeight() the weight recomputed from scratch: the sum over the items
    of (NumPoints * 16 if spatial, else the length of the string form)
    + 8 * (length of the field row) + length of the id.  The counters are Go
    ints: each equals the recomputed number reduced to 64 bits, hence the
    number itself whenever that number fits an int. *)
Theorem counters_match_recomputation (ops : list op) :
  let c := run ops in
  (Count c = GoInt.wrap (GoInt.len (items c))
   /\ StringCount c = GoInt.wrap (recount_strings c)
   /\ PointCount c = GoInt.wrap (recount_points c)
   /\ TotalWeight c = GoInt.wrap (recount_weight c))
  /\ ((fits_int (GoInt.len (items c)) -> Count c = GoInt.len (items c))
      /\ (fits_int (recount_strings c) -> StringCount c = recount_strings c)
      /\ (fits_int (recount_points c) -> PointCount c = recount_points c)
      /\ (fits_int (recount_weight c) -> TotalWeight c = recount_weight c)).
Proof.
  intros c. destruct (run_Inv ops) as [_ (Ho & Hn & Hp) Hw _ _]. fold c in Ho, Hn, Hp, Hw.
  assert (H : Count c = GoInt.wrap (GoInt.len (items c))
              /\ StringCount c = GoInt.wrap (recount_strings c)
              /\ PointCount c = GoInt.wrap (recount_points c)
              /\ TotalWeight c = GoInt.wrap (recount_weight c)).
  { unfold Count, StringCount, PointCount, TotalWeight, recount_strings.
    rewrite Ho, Hn, Hp, Hw, <- sumZ_indicator, <- len_string_items.
    repeat split. wrap_solve. }
  split; [exact H|].
  destruct H as (-> & -> & -> & ->).
  repeat split; intros Hfit; apply GoIntFacts.wrap_small; exact Hfit.
Qed.

Lemma counters_match_recomputation_sample :
  let c := run sample_ops in
  Count c = 2%Z /\ StringCount c = 1%Z /\ PointCount c = 1%Z
  /\ TotalWeight c = 63%Z.
Proof.
  pose proof (counters_match_recomputation sample_ops) as [_ (H1 & H2 & H3 & H4)].
  cbv zeta.
  rewrite H1, H2, H3, H4; [| unfold fits_int; vm_compute; split; congruence ..].
  vm_compute. repeat split; reflexivity.
Defined.

(** ** Which index holds which item (C4) *)

(** C4.  After every finite sequence of Set, Delete, SetField and SetFields,
    every stored item whose object is spatial and non-empty is in the spatial
    index, every stored non-spatial item is in the value index, no item is in
    both, and an item whose spatial geometry is empty is in the key index
    only. *)
Theorem indexes_partition_items (ops : list op) (it : itemT) :
  let c := run ops in
  in_key_index it c ->
  (oSpatial (item_obj it) = true -> oEmpty (item_obj it) = false ->
   in_spatial_index it c)
  /\ (oSpatial (item_obj it) = false -> in_value_index it c)
  /\ ~ (in_spatial_index it c /\ in_value_index it c)
  /\ (oSpatial (item_obj it) = true -> oEmpty (item_obj it) = true ->
      ~ in_spatial_index it c /\ ~ in_value_index it c).
Proof.
  intros c Hin. destruct (run_Inv ops) as [Hx _ _ _ _]. fold c in Hx.
  destruct Hx as [_ _ _ _ His Hvs Hsp Hst].
  assert (Hsx : in_spatial_index it c ->
                oSpatial (item_obj it) = true /\ oEmpty (item_obj it) = false).
  { unfold in_spatial_index. intros H.
    apply list_elem_of_fmap in H as (e & -> & He). apply His, He. }
  repeat split.
  - apply Hsp, Hin.
  - apply Hst, Hin.
  - intros [H1 H2]. apply Hsx in H1 as [H1 _]. apply Hvs in H2. congruence.
  - intros Hi. apply Hsx in Hi as [_ Hi]. congruence.
  - intros Hi. apply Hvs in Hi. congruence.
Qed.

Lemma indexes_partition_items_sample :
  let it := mkItem 4 "x" (StringObject "world") in
  in_key_index it (run sample_ops) /\ in_value_index it (run sample_ops).
Proof.
  cbv zeta.
  assert (Hin : in_key_index (mkItem 4 "x" (StringObject "world")) (run sample_ops)).
  { unfold in_key_index.
    replace (items (run sample_ops))
      with [mkItem 1 "a" (sample_point 1 2); mkItem 4 "x" (StringObject "world")]
      by (vm_compute; reflexivity).
    apply list_elem_of_further, list_elem_of_here. }
  split; [exact Hin|].
  apply (indexes_partition_items sample_ops _ Hin). reflexivity.
Defined.

(** ** The field names (C9) *)

Lemma sorted_NoDup (l : list string) : StronglySorted slt l -> NoDup l.
Proof.
  induction 1 as [|x l Hs IH Hall]; constructor; [|exact IH].
  intros Hin. rewrite Forall_forall in Hall. specialize (Hall _ Hin).
  unfold slt in Hall. rewrite StrOrd.ltb_irrefl in Hall. discriminate.
Qed.

(** C9.  After every finite sequence of operations field_map is injective
    (no two field names share a column) and field_arr is exactly the set of
    keys of field_map, in ascending bytewise order and without duplicates. *)
Theorem field_names_sorted_injective (ops : list op) :
  let c := run ops in
  (forall k1 k2 v,
     FieldMap c !! k1 = Some v -> FieldMap c !! k2 = Some v -> k1 = k2)
  /\ StronglySorted slt (FieldArr c)
  /\ NoDup (FieldArr c)
  /\ (forall k, k ∈ FieldArr c <-> is_Some (FieldMap c !! k)).
Proof.
  intros c. destruct (run_Inv ops) as [_ _ _ _ (_ & Hinj & Hs & Hdom)].
  fold c in Hinj, Hs, Hdom. unfold FieldMap, FieldArr.
  repeat split; try assumption; try apply Hdom.
  apply sorted_NoDup, Hs.
Qed.

(** ** SetField (C5) *)

Lemma padded_covered row idx : idx < length row -> padded row idx = row.
Proof.
  intros H. unfold padded. replace (S idx - length row) with 0 by lia.
  apply app_nil_r.
Qed.

(** What SetField returns and leaves for an id that is stored. *)
Lemma SetField_spec id field v c o row :
  Get id c = Some (o, row) ->
  let idx := column c field in
  let row' := <[idx := v]> (padded row idx) in
  (SetField id field v c).1
    = Some (o, row', negb (PrimFloat.eqb (default 0%float (row !! idx)) v))
  /\ Get id (SetField id field v c).2 = Some (o, row')
  /\ fieldMap (SetField id field v c).2 !! field = Some idx
  /\ row' !! idx = Some v.
Proof.
  unfold Get, SetField.
  destruct (bt_get byID (keyItem id) (items c)) as [item|] eqn:E;
    [|discriminate].
  intros [= <- <-].
  pose proof (bt_get_found _ _ _ _ E) as [_ Hk].
  apply byID_same_key in Hk. simpl in Hk.
  destruct (setField_spec item field v c) as (Hu & Hfv & _ & Hm).
  destruct (setField_frame item field v c) as (Hi & _).
  destruct (setField item field v c) as [updated c1]. cbv zeta in *.
  simpl in *. subst updated.
  rewrite Hi, E, Hk in *. unfold getFieldValues in *. rewrite Hfv.
  rewrite lookup_insert_eq, padded_lookup_old. simpl.
  repeat split; try reflexivity; try assumption.
  apply list_lookup_insert_eq, padded_length.
Qed.

(** C5 (amended).  For every SetField(id, name, v) where id is stored: a name
    without a column is given the column index equal to the number of field
    names known so far; the row of id is extended with zeros until the
    column exists and v is written there; the updated flag is true iff the
    value stored before (0 for a fresh slot) compares unequal to v; a
    subsequent Get(id) reads v at field_map[name]; and writing the same
    value again returns updated = false provided v is not NaN (v == v). *)
Theorem SetField_law (id field : string) (v : float64) (c : Collection)
    (o : Object) (row : list float64) :
  Get id c = Some (o, row) ->
  let idx := column c field in
  let row' := <[idx := v]> (padded row idx) in
  let c' := (SetField id field v c).2 in
  (fieldMap c !! field = None -> idx = size (fieldMap c))
  /\ fieldMap c' !! field = Some idx
  /\ (SetField id field v c).1
     = Some (o, row', negb (PrimFloat.eqb (default 0%float (row !! idx)) v))
  /\ Get id c' = Some (o, row')
  /\ row' !! idx = Some v
  /\ (PrimFloat.eqb v v = true ->
      (SetField id field v c').1 = Some (o, row', false)).
Proof.
  intros Hget idx row' c'.
  destruct (SetField_spec id field v c o row Hget) as (H1 & H2 & H3 & H4).
  fold idx row' c' in H1, H2, H3, H4.
  split; [|split; [exact H3|split; [exact H1|split; [exact H2|split; [exact H4|]]]]].
  - intros Hnone. unfold idx, column. rewrite Hnone. reflexivity.
  - intros Hv.
    destruct (SetField_spec id field v c' o row' H2) as (H5 & _).
    assert (Hcol : column c' field = idx) by (unfold column; rewrite H3; reflexivity).
    rewrite Hcol in H5. rewrite H5, H4. simpl. rewrite Hv. simpl.
    rewrite padded_covered; [|apply lookup_lt_is_Some; eauto].
    rewrite list_insert_id; [reflexivity|exact H4].
Qed.

Lemma SetField_law_sample :
  let c := run sample_ops in
  (SetField "a" "mana" 5 c).1
    = Some (sample_point 1 2, [10; 20; 5]%float, false)
  /\ (SetField "a" "grit" 9 c).1
     = Some (sample_point 1 2, [10; 20; 5; 9]%float, true)
  /\ (SetField "a" "grit" 9 (SetField "a" "grit" 9 c).2).1
     = Some (sample_point 1 2, [10; 20; 5; 9]%float, false).
Proof.
  cbv zeta.
  assert (Hget : Get "a" (run sample_ops)
                 = Some (sample_point 1 2, [10; 20; 5]%float))
    by (vm_compute; reflexivity).
  destruct (SetField_law "a" "mana" 5 _ _ _ Hget) as (_ & _ & H1 & _).
  destruct (SetField_law "a" "grit" 9 _ _ _ Hget) as (_ & _ & H2 & _ & _ & H3).
  rewrite H1, H2, H3; [|reflexivity].
  vm_compute. repeat split; reflexivity.
Defined.

(** NaN compares unequal to itself: the second write of NaN reports an
    update again. *)
Lemma SetField_twice_nan :
  let c := (SetField "a" "mana" nan (run sample_ops)).2 in
  (SetField "a" "mana" nan c).1
  = Some (sample_point 1 2, [10; 20; nan]%float, true).
Proof. vm_compute. reflexivity. Qed.

(** ** Set with fields and values of different lengths (C2) *)





(** ** Queries leave the collection alone (C10) *)

Section Frame.
Context {W : Type}.

Lemma keeps_ret {A} (a : A) : keeps_col (ret (W:=W) a).
Proof. intros e. reflexivity. Qed.

Lemma keeps_bind {A B} (m : M W A) (k : A -> M W B) :
  keeps_col m -> (forall a, keeps_col (k a)) -> keeps_col (bind m k).
Proof.
  intros Hm Hk e. unfold bind. specialize (Hm e).
  destruct (m e) as [a e'|e']; simpl in *; [|exact Hm].
  rewrite (Hk a e'). exact Hm.
Qed.

Lemma keeps_get_col : keeps_col (get_col (W:=W)).
Proof. intros e. reflexivity. Qed.

Lemma keeps_callVisitor (iter : Visitor W) id o fields :
  harmless iter -> keeps_col (callVisitor iter id o fields).
Proof.
  intros H e. unfold callVisitor. specialize (H id o fields (world e) (col e)).
  destruct (iter id o fields (world e) (col e)) as [[keepon w] c]. exact H.
Qed.

Lemma keeps_cursor_Step (cursor : Cursor W) count :
  keeps_col (cursor_Step cursor count).
Proof. intros e. reflexivity. Qed.

Lemma keeps_deadline_Check (deadline : option (Deadline W)) :
  keeps_col (deadline_Check deadline).
Proof.
  intros e. unfold deadline_Check. destruct deadline as [d|]; [|reflexivity].
  destruct (Check d (world e)) as [[] w]; reflexivity.
Qed.

Lemma keeps_nextStep step (cursor : option (Cursor W)) deadline :
  keeps_col (nextStep step cursor deadline).
Proof.
  unfold nextStep. apply keeps_bind.
  - destruct (Z.eqb _ _); [apply keeps_deadline_Check|apply keeps_ret].
  - intros _. destruct cursor; [apply keeps_cursor_Step|apply keeps_ret].
Qed.

Lemma keeps_cursor_begin (cursor : option (Cursor W)) :
  keeps_col (cursor_begin cursor).
Proof.
  destruct cursor as [cur|]; simpl; [|apply keeps_ret].
  intros e. reflexivity.
Qed.

Lemma keeps_walk {A L} (f : A -> L -> M W (bool * L)) l :
  (forall x s, keeps_col (f x s)) -> forall s, keeps_col (walk f l s).
Proof.
  intros Hf. induction l as [|x l IH]; intros s; simpl.
  - apply keeps_ret.
  - apply keeps_bind; [apply Hf|]. intros [[] s']; [apply IH|apply keeps_ret].
Qed.

(** Take a computation apart along its binds, branches and walks. *)
Ltac keeps_step :=
  first
    [ assumption
    | apply keeps_ret
    | apply keeps_get_col
    | apply keeps_nextStep
    | apply keeps_cursor_begin
    | apply keeps_callVisitor; assumption
    | apply keeps_bind; [|intros ?]
    | apply keeps_walk; intros ? ?
    | match goal with
      | |- keeps_col (match ?x with _ => _ end) => destruct x
      end ].

Ltac keeps := repeat keeps_step.

Lemma keeps_scan_iter offset cursor deadline (iter : Visitor W) item s :
  harmless iter -> keeps_col (scan_iter offset cursor deadline iter item s).
Proof. intros H. unfold scan_iter. keeps. Qed.

Lemma keeps_range_iter end_ desc offset cursor deadline (iter : Visitor W) item s :
  harmless iter ->
  keeps_col (range_iter end_ desc offset cursor deadline iter item s).
Proof. intros H. unfold range_iter. keeps. Qed.

Lemma keeps_bounded_iter {L} bound (iter : itemT -> L -> M W (bool * L)) item s :
  (forall item s, keeps_col (iter item s)) ->
  keeps_col (bounded_iter bound iter item s).
Proof. intros H. unfold bounded_iter. destruct (bound item); [apply H|apply keeps_ret]. Qed.

Lemma keeps_geoSearch {L} rect
    (iter : string -> Object -> list float64 -> L -> M W (bool * L)) s :
  (forall id o fields s, keeps_col (iter id o fields s)) ->
  keeps_col (geoSearch rect iter s).
Proof. intros H. unfold geoSearch. keeps. apply H. Qed.

Lemma keeps_geoSparseInner {L} sparse :
  forall rect (iter : string -> Object -> list float64 -> L -> M W ((bool * bool) * L)) s,
    (forall id o fields s, keeps_col (iter id o fields s)) ->
    keeps_col (geoSparseInner rect sparse iter s).
Proof.
  induction sparse as [|sparse IH]; intros rect iter s H; cbn [geoSparseInner].
  - apply keeps_bind; [|intros [? ?]; apply keeps_ret].
    apply keeps_geoSearch. intros id o fields st. keeps. apply H.
  - apply keeps_walk. intros quad st. apply keeps_bind; [apply IH, H|].
    intros [? ?]. apply keeps_ret.
Qed.

Lemma keeps_geoSparse {L} obj sparse
    (iter : string -> Object -> list float64 -> L -> M W ((bool * bool) * L)) s :
  (forall id o fields s, keeps_col (iter id o fields s)) ->
  keeps_col (geoSparse obj sparse iter s).
Proof.
  intros H. unfold geoSparse. apply keeps_bind; [|intros [? ?]; apply keeps_ret].
  apply keeps_geoSparseInner. intros id o fields st. keeps. apply H.
Qed.

Lemma keeps_sparse_iter test obj offset cursor deadline (iter : Visitor W)
    id o fields count :
  harmless iter ->
  keeps_col (sparse_iter test obj offset cursor deadline iter id o fields count).
Proof. intros H. unfold sparse_iter. keeps. Qed.

Lemma keeps_search_iter test obj offset cursor deadline (iter : Visitor W)
    id o fields count :
  harmless iter ->
  keeps_col (search_iter test obj offset cursor deadline iter id o fields count).
Proof. intros H. unfold search_iter. keeps. Qed.

Lemma keeps_spatial_query test obj sparse cursor deadline (iter : Visitor W) :
  harmless iter ->
  keeps_col
    (bind (cursor_begin cursor) (fun offset =>
       if Nat.ltb 0 sparse then
         bind (geoSparse obj sparse
                 (sparse_iter test obj offset cursor deadline iter) 0%Z)
              (fun r => ret r.1)
       else
         bind (geoSearch (oRect obj)
                 (search_iter test obj offset cursor deadline iter) 0%Z)
              (fun r => ret r.1))).
Proof.
  intros H. apply keeps_bind; [apply keeps_cursor_begin|]. intros offset.
  destruct (Nat.ltb 0 sparse); (apply keeps_bind; [|intros ?; apply keeps_ret]).
  - apply keeps_geoSparse. intros. apply keeps_sparse_iter, H.
  - apply keeps_geoSearch. intros. apply keeps_search_iter, H.
Qed.

Lemma keeps_Nearby RectFromCenter target cursor deadline (iter : Visitor W) :
  harmless iter ->
  keeps_col (Nearby RectFromCenter target cursor deadline iter).
Proof.
  intros H. unfold Nearby, nearby_probe. apply keeps_bind.
  - destruct (oMeters target) as [meters|]; [|apply keeps_ret].
    destruct (PrimFloat.ltb 0 meters); [|apply keeps_ret].
    destruct (RectFromCenter _ _ _) as [[[minLat minLon] maxLat] maxLon].
    keeps.
  - intros candidates. destruct (negb candidates); [apply keeps_ret|].
    keeps. apply keeps_scan_iter, H.
Qed.

(** C10.  Provided the visitor does not itself change the collection, every
    query (Get, Scan, ScanRange, ScanGreaterOrEqual, SearchValues,
    SearchValuesRange, Within, Intersects, Nearby) and every observer
    (Count, StringCount, PointCount, TotalWeight, Bounds, FieldMap, FieldArr)
    ends, by return or by the deadline panic, with the collection it started
    from: key index, value index, spatial index, field values, field map,
    field array and the four counters. *)
Theorem queries_preserve_collection
    (objWithin objIntersects : Object -> Object -> bool)
    (RectFromCenter :
       float64 -> float64 -> float64 -> float64 * float64 * float64 * float64)
    (iter : Visitor W) (cursor : option (Cursor W))
    (deadline : option (Deadline W)) :
  harmless iter ->
  (forall id, keeps_col (Get_query (W:=W) id))
  /\ (forall desc, keeps_col (Scan desc cursor deadline iter))
  /\ (forall start end_ desc,
        keeps_col (ScanRange start end_ desc cursor deadline iter))
  /\ (forall id desc,
        keeps_col (ScanGreaterOrEqual id desc cursor deadline iter))
  /\ (forall desc, keeps_col (SearchValues desc cursor deadline iter))
  /\ (forall start end_ desc,
        keeps_col (SearchValuesRange start end_ desc cursor deadline iter))
  /\ (forall obj sparse,
        keeps_col (Within objWithin obj sparse cursor deadline iter))
  /\ (forall obj sparse,
        keeps_col (Intersects objIntersects obj sparse cursor deadline iter))
  /\ (forall target,
        keeps_col (Nearby RectFromCenter target cursor deadline iter))
  /\ keeps_col (observe (W:=W) Count)
  /\ keeps_col (observe (W:=W) StringCount)
  /\ keeps_col (observe (W:=W) PointCount)
  /\ keeps_col (observe (W:=W) TotalWeight)
  /\ keeps_col (observe (W:=W) Bounds)
  /\ keeps_col (observe (W:=W) FieldMap)
  /\ keeps_col (observe (W:=W) FieldArr).
Proof.
  intros H. repeat split; try (intros e; reflexivity).
  - intros desc. unfold Scan. keeps. apply keeps_scan_iter, H.
  - intros start end_ desc. unfold ScanRange. keeps. apply keeps_range_iter, H.
  - intros id desc. unfold ScanGreaterOrEqual. keeps. apply keeps_scan_iter, H.
  - intros desc. unfold SearchValues. keeps. apply keeps_scan_iter, H.
  - intros start end_ desc. unfold SearchValuesRange. keeps;
      apply keeps_bounded_iter; intros; apply keeps_scan_iter, H.
  - intros obj sparse. apply keeps_spatial_query, H.
  - intros obj sparse. apply keeps_spatial_query, H.
  - intros target. apply keeps_Nearby, H.
Qed.
End Frame.

Lemma queries_preserve_collection_sample :
  harmless visit_stop
  /\ keeps_col (Scan false None None visit_stop)
  /\ keeps_col (Within accept_all (sample_box 0 4) 1 None None visit_stop)
  /\ keeps_col (Nearby sample_RectFromCenter (sample_point 0 0) None None
                  visit_stop).
Proof.
  assert (H : harmless visit_stop) by (intros id o fields w c; reflexivity).
  destruct (queries_preserve_collection accept_all accept_all
              sample_RectFromCenter visit_stop None None H)
    as (_ & HS & _ & _ & _ & _ & HW & _ & HN & _).
  split; [exact H|]. split; [apply HS|]. split; [apply HW|apply HN].
Defined.

(** ** The alive flag of sparse searches (C1) *)

Section Sparse.
Context {W : Type}.

(** [geoSparse] returns its own [alive], which nothing ever clears. *)
Lemma geoSparse_alive {L} obj sparse
    (iter : string -> Object -> list float64 -> L -> M W ((bool * bool) * L))
    s e r e' :
  geoSparse obj sparse iter s e = Done r e' -> r.1 = true.
Proof.
  unfold geoSparse, bind.
  destruct (geoSparseInner _ _ _ _ e) as [[ok st] e1|e1]; [|discriminate].
  intros [= <- _]. reflexivity.
Qed.

(** Whatever the visitor answers, a sparse Within or Intersects that returns
    returns true. *)
Lemma sparse_query_alive test obj sparse cursor deadline (iter : Visitor W)
    e b e' :
  bind (cursor_begin cursor) (fun offset =>
    bind (geoSparse obj (S sparse)
            (sparse_iter test obj offset cursor deadline iter) 0%Z)
         (fun r => ret r.1)) e = Done b e' ->
  b = true.
Proof.
  unfold bind at 1 2.
  destruct (cursor_begin cursor e) as [offset e1|e1]; [|discriminate].
  destruct (geoSparse _ _ _ _ e1) as [r e2|e2] eqn:E; [|discriminate].
  intros [= <- _]. eapply geoSparse_alive, E.
Qed.

Lemma Within_sparse_never_false objWithin obj sparse cursor deadline
    (iter : Visitor W) e b e' :
  Within objWithin obj (S sparse) cursor deadline iter e = Done b e' ->
  b = true.
Proof. unfold Within. cbn [Nat.ltb Nat.leb]. apply sparse_query_alive. Qed.

Lemma Intersects_sparse_never_false objIntersects obj sparse cursor deadline
    (iter : Visitor W) e b e' :
  Intersects objIntersects obj (S sparse) cursor deadline iter e = Done b e' ->
  b = true.
Proof. unfold Intersects. cbn [Nat.ltb Nat.leb]. apply sparse_query_alive. Qed.
End Sparse.

(** C1 (the code at the failing input).  The spec has Within and Intersects
    with sparse > 0 return alive = false when the visitor returns false.
    Here the collection holds one point, the visitor is called on it once
    and returns false, and the sparse search still returns alive = true, for
    Within and for Intersects; the same search with sparse = 0 returns
    false. *)
Theorem Within_sparse_alive_after_stop :
  let e := mkEnv (run [OpSet "a" (sample_point 1 2) None []]) tt [] in
  (exists e',
     Within accept_all (sample_box 0 4) 1 None None visit_stop e = Done true e'
     /\ calls e' = [mkCall "a" (sample_point 1 2) []])
  /\ (exists e',
        Intersects accept_all (sample_box 0 4) 1 None None visit_stop e
        = Done true e'
        /\ calls e' = [mkCall "a" (sample_point 1 2) []])
  /\ (exists e',
        Within accept_all (sample_box 0 4) 0 None None visit_stop e
        = Done false e'
        /\ calls e' = [mkCall "a" (sample_point 1 2) []]).
Proof.
  cbv zeta.
  repeat split; eexists; (split; [vm_compute; reflexivity|reflexivity]).
Qed.

(** ** The fast negative of Nearby (C8) *)

Lemma filter_none {A} (p : A -> bool) l :
  Forall (fun x => p x = false) l -> List.filter p l = [].
Proof.
  induction 1 as [|x l Hx _ IH]; simpl; [reflexivity|].
  rewrite Hx. exact IH.
Qed.

(** C8.  When the target is a circle of positive radius in meters and no
    entry of the spatial index overlaps the rectangle derived from the
    circle's center and radius, Nearby returns true at once: the visitor is
    not invoked and neither the cursor nor the deadline is touched. *)
Theorem Nearby_fast_negative {W : Type}
    (RectFromCenter :
       float64 -> float64 -> float64 -> float64 * float64 * float64 * float64)
    (target : Object) (meters : float64) (cursor : option (Cursor W))
    (deadline : option (Deadline W)) (iter : Visitor W) (e : Env W) :
  oMeters target = Some meters ->
  PrimFloat.ltb 0 meters = true ->
  (let '(minLat, minLon, maxLat, maxLon) :=
     RectFromCenter (Y (oCenter target)) (X (oCenter target)) meters in
   Forall (fun en => rt_intersects (minLon, minLat) (maxLon, maxLat) en = false)
          (index (col e))) ->
  Nearby RectFromCenter target cursor deadline iter e = Done true e.
Proof.
  intros Hm Hpos Hnone. unfold Nearby, nearby_probe. rewrite Hm, Hpos.
  destruct (RectFromCenter _ _ _) as [[[minLat minLon] maxLat] maxLon].
  unfold bind, get_col, rt_search. rewrite (filter_none _ _ Hnone).
  reflexivity.
Qed.

Lemma Nearby_fast_negative_sample :
  Nearby sample_RectFromCenter (sample_circle 50 50 3) None None visit_all
    sample_env
  = Done true sample_env.
Proof.
  apply (Nearby_fast_negative sample_RectFromCenter (sample_circle 50 50 3) 3).
  - reflexivity.
  - reflexivity.
  - vm_compute. repeat constructor.
Defined.

(** ** Ordered range scans (C6, C7) *)

Section SortedLists.
Variable R : itemT -> itemT -> Prop.

Lemma filter_all (p : itemT -> bool) l :
  Forall (fun x => p x = true) l -> List.filter p l = l.
Proof.
  induction 1 as [|x l Hx _ IH]; simpl; [reflexivity|].
  rewrite Hx, IH. reflexivity.
Qed.

Lemma seek_sorted before l :
  StronglySorted R l -> StronglySorted R (bt_seek before l).
Proof.
  induction 1 as [|y l Hs IH Hall]; simpl; [constructor|].
  destruct (before y); [exact IH|constructor; assumption].
Qed.

(** On a sorted list, seeking is filtering. *)
Lemma seek_filter before l :
  StronglySorted R l ->
  (forall y z, R y z -> before y = false -> before z = false) ->
  bt_seek before l = List.filter (fun y => negb (before y)) l.
Proof.
  intros Hs Hmono. induction Hs as [|y l Hs IH Hall]; simpl; [reflexivity|].
  destruct (before y) eqn:E; simpl; [exact IH|].
  f_equal. symmetry. apply filter_all.
  eapply Forall_impl; [exact Hall|]. simpl. intros z Hz.
  rewrite (Hmono y z Hz E). reflexivity.
Qed.

(** On a sorted list, stopping at the first item out of range is filtering. *)
Lemma keep_while_filter keep l :
  StronglySorted R l ->
  (forall y z, R y z -> keep y = false -> keep z = false) ->
  keep_while keep l = List.filter keep l.
Proof.
  intros Hs Hmono. induction Hs as [|y l Hs IH Hall]; simpl; [reflexivity|].
  destruct (keep y) eqn:E; [rewrite IH; reflexivity|].
  symmetry. apply filter_none.
  eapply Forall_impl; [exact Hall|]. simpl. intros z Hz. exact (Hmono y z Hz E).
Qed.

Lemma sorted_rev l : StronglySorted R l -> StronglySorted (flip R) (rev l).
Proof.
  induction 1 as [|y l Hs IH Hall]; simpl; [constructor|].
  apply StronglySorted_app. split; [|split; [exact IH|repeat constructor]].
  intros x1 x2 H1 H2. apply list_elem_of_singleton in H2 as ->.
  rewrite Forall_forall in Hall. apply Hall.
  apply list_elem_of_In. apply list_elem_of_In in H1. apply in_rev. exact H1.
Qed.
End SortedLists.

Lemma filter_filter (p q : itemT -> bool) l :
  List.filter q (List.filter p l) = List.filter (fun x => p x && q x) l.
Proof.
  induction l as [|x l IH]; simpl; [reflexivity|].
  destruct (p x); simpl; [|exact IH]. destruct (q x); rewrite IH; reflexivity.
Qed.

(** A seek followed by a bounded walk visits the items between the bounds. *)
Lemma seek_keep_filter (R : itemT -> itemT -> Prop) before keep l :
  StronglySorted R l ->
  (forall y z, R y z -> before y = false -> before z = false) ->
  (forall y z, R y z -> keep y = false -> keep z = false) ->
  keep_while keep (bt_seek before l)
  = List.filter (fun y => negb (before y) && keep y) l.
Proof.
  intros Hs Hb Hk.
  rewrite (keep_while_filter R); [|apply seek_sorted, Hs|exact Hk].
  rewrite (seek_filter R); [|exact Hs|exact Hb].
  apply filter_filter.
Qed.

Section Scans.
Context {W : Type}.
Variable deadline : option (Deadline W).
Variable iter : Visitor W.
Hypothesis quiet : never_fires deadline.
Hypothesis pure : harmless iter.
Hypothesis eager : always_continues iter.

Lemma nextStep_quiet step (e : Env W) :
  exists w, nextStep step None deadline e = Done tt (mkEnv (col e) w (calls e)).
Proof.
  unfold nextStep, bind, deadline_Check, ret.
  destruct (Z.eqb _ _).
  - destruct deadline as [d|]; [|destruct e; eauto].
    simpl in quiet. specialize (quiet (world e)).
    destruct (Check d (world e)) as [fires w]. simpl in quiet. subst fires.
    eauto.
  - destruct e; eauto.
Qed.

Lemma callVisitor_continues id o fields (e : Env W) :
  exists w, callVisitor iter id o fields e
            = Done true (mkEnv (col e) w (calls e ++ [mkCall id o fields])).
Proof.
  unfold callVisitor.
  pose proof (pure id o fields (world e) (col e)) as Hp.
  pose proof (eager id o fields (world e) (col e)) as He.
  destruct (iter id o fields (world e) (col e)) as [[keepon w] c].
  simpl in *. subst. eauto.
Qed.

Lemma walk_bounded keep f :
  bounded_step keep f ->
  forall l count (e : Env W),
    (0 <= count)%Z -> (count + GoInt.len l < 2 ^ 64)%Z ->
    exists count' w,
      walk f l (count, true) e
      = Done (count', true)
          (mkEnv (col e) w
             (calls e ++ map (call_of (col e)) (keep_while keep l))).
Proof.
  intros Hstep. induction l as [|item l IH]; intros count e H0 Hlen.
  - simpl. rewrite app_nil_r. exists count, (world e). destruct e; reflexivity.
  - unfold GoInt.len in *. simpl length in Hlen.
    specialize (Hstep item count e). cbn [walk keep_while]. unfold bind.
    destruct (keep item).
    + destruct Hstep as [w ->]; [lia|].
      destruct (IH (count + 1)%Z
                  (mkEnv (col e) w (calls e ++ [call_of (col e) item])))
        as (count' & w' & ->); [lia|lia|].
      simpl. rewrite <- app_assoc. eauto.
    + destruct Hstep as (count' & w & ->); [lia|].
      simpl. rewrite app_nil_r. eauto.
Qed.

Lemma count_step count :
  (0 <= count < 2 ^ 64 - 1)%Z ->
  GoInt.u64 (count + 1) = (count + 1)%Z
  /\ Z.leb (GoInt.u64 (count + 1)) 0 = false.
Proof.
  intros H. rewrite GoIntFacts.u64_small; [|lia]. split; [reflexivity|].
  apply Z.leb_gt. lia.
Qed.

Lemma scan_iter_visits item count (e : Env W) :
  (0 <= count < 2 ^ 64 - 1)%Z ->
  exists w, scan_iter 0 None deadline iter item (count, true) e
            = Done (true, ((count + 1)%Z, true))
                (mkEnv (col e) w (calls e ++ [call_of (col e) item])).
Proof.
  intros Hc. unfold scan_iter. cbn [fst snd].
  destruct (count_step count Hc) as [-> ->].
  unfold bind. destruct (nextStep_quiet (count + 1) e) as [w1 ->].
  unfold get_col. cbn [col].
  destruct (callVisitor_continues (item_id item) (item_obj item)
              (getFieldValues (col e) (item_id item))
              (mkEnv (col e) w1 (calls e))) as [w2 ->].
  unfold ret. eauto.
Qed.

Lemma range_iter_step end_ desc :
  bounded_step
    (fun item => if negb desc then String.ltb (item_id item) end_
                 else String.ltb end_ (item_id item))
    (range_iter end_ desc 0 None deadline iter).
Proof.
  intros item count e Hc. unfold range_iter. cbn [fst snd].
  destruct (count_step count Hc) as [-> ->].
  unfold bind. destruct (nextStep_quiet (count + 1) e) as [w1 ->].
  destruct (negb desc).
  - destruct (String.ltb (item_id item) end_); cbn [negb].
    + unfold get_col. cbn [col].
      destruct (callVisitor_continues (item_id item) (item_obj item)
                  (getFieldValues (col e) (item_id item))
                  (mkEnv (col e) w1 (calls e))) as [w2 ->].
      unfold ret. eauto.
    + unfold ret. eauto.
  - destruct (String.ltb end_ (item_id item)); cbn [negb].
    + unfold get_col. cbn [col].
      destruct (callVisitor_continues (item_id item) (item_obj item)
                  (getFieldValues (col e) (item_id item))
                  (mkEnv (col e) w1 (calls e))) as [w2 ->].
      unfold ret. eauto.
    + unfold ret. eauto.
Qed.

Lemma bounded_iter_step bound :
  bounded_step bound (bounded_iter bound (scan_iter 0 None deadline iter)).
Proof.
  intros item count e Hc. unfold bounded_iter. destruct (bound item).
  - apply scan_iter_visits, Hc.
  - unfold ret. exists count, (world e). destruct e; reflexivity.
Qed.
End Scans.

Lemma byID_below_mono p y z :
  id_lt y z -> byID y p = false -> byID z p = false.
Proof.
  intros Hyz Hy. destruct (byID z p) eqn:E; [|reflexivity].
  rewrite (byID_trans _ _ _ Hyz E) in Hy. discriminate.
Qed.

Lemma byID_above_mono p y z :
  flip id_lt y z -> byID p y = false -> byID p z = false.
Proof.
  unfold flip. intros Hzy Hy. destruct (byID p z) eqn:E; [|reflexivity].
  rewrite (byID_trans _ _ _ E Hzy) in Hy. discriminate.
Qed.

Lemma byValue_below_mono p y z :
  value_lt y z -> byValue y p = false -> byValue z p = false.
Proof.
  intros Hyz Hy. destruct (byValue z p) eqn:E; [|reflexivity].
  rewrite (byValue_trans _ _ _ Hyz E) in Hy. discriminate.
Qed.

(** Against a sentinel, whose id is empty, only the string form counts. *)
Lemma byValue_sentinel it s :
  byValue it (valueItem s) = String.ltb (oString (item_obj it)) s.
Proof.
  unfold byValue, byID. simpl.
  destruct (String.ltb (oString (item_obj it)) s); [reflexivity|].
  rewrite StrOrd.ltb_empty. destruct (String.ltb s _); reflexivity.
Qed.

(** C6.  On a collection reached by mutations, scanned with no cursor by a
    visitor that keeps going and leaves the collection alone, and with no
    deadline firing: ascending ScanRange(start, end) walks up from start,
    stops at the first id >= end, and so invokes the visitor exactly on the
    stored ids of the half-open interval [start, end), in ascending order;
    descending ScanRange walks down from start, stops at the first
    id <= end, and so invokes the visitor exactly on the stored ids <= start
    with id > end, in descending order.  Both return true. *)
Theorem ScanRange_visits_interval {W : Type} (ops : list op)
    (start end_ : string) (deadline : option (Deadline W))
    (iter : Visitor W) (e : Env W) :
  col e = run ops ->
  never_fires deadline -> harmless iter -> always_continues iter ->
  (GoInt.len (items (col e)) < 2 ^ 64)%Z ->
  (exists w visited,
     ScanRange start end_ false None deadline iter e
     = Done true
         (mkEnv (col e) w (calls e ++ map (call_of (col e)) visited))
     /\ visited
        = keep_while (fun it => String.ltb (item_id it) end_)
            (bt_ascend byID (Some (keyItem start)) (items (col e)))
     /\ visited = List.filter (in_asc_range start end_) (items (col e)))
  /\ (exists w visited,
        ScanRange start end_ true None deadline iter e
        = Done true
            (mkEnv (col e) w (calls e ++ map (call_of (col e)) visited))
        /\ visited
           = keep_while (fun it => String.ltb end_ (item_id it))
               (bt_descend byID (Some (keyItem start)) (items (col e)))
        /\ visited
           = rev (List.filter (in_desc_range start end_) (items (col e))))
  /\ StronglySorted id_lt (items (col e)).
Proof.
  intros Hc Hq Hp Ha Hlen.
  assert (Hs : StronglySorted id_lt (items (col e))).
  { rewrite Hc. apply (run_Inv ops). }
  split; [|split; [|exact Hs]].
  - unfold ScanRange, bind, cursor_begin, ret, get_col. cbn [bt_ascend].
    destruct (walk_bounded _ _
                (range_iter_step deadline iter Hq Hp Ha end_ false)
                (bt_seek (fun y => byID y (keyItem start)) (items (col e)))
                0%Z e) as (count & w & ->); [lia| |].
    + assert (length (bt_seek (fun y => byID y (keyItem start)) (items (col e)))
              <= length (items (col e))) as Hle.
      { clear. induction (items (col e)) as [|y l IH]; simpl; [lia|].
        destruct (byID y (keyItem start)); simpl; lia. }
      unfold GoInt.len in *. lia.
    + cbn [negb]. eexists w, _. split; [reflexivity|]. split; [reflexivity|].
      apply (seek_keep_filter id_lt); [exact Hs| |].
      * apply byID_below_mono.
      * intros y z. apply (byID_below_mono (keyItem end_)).
  - unfold ScanRange, bind, cursor_begin, ret, get_col. cbn [bt_descend].
    destruct (walk_bounded _ _
                (range_iter_step deadline iter Hq Hp Ha end_ true)
                (bt_seek (fun y => byID (keyItem start) y) (rev (items (col e))))
                0%Z e) as (count & w & ->); [lia| |].
    + assert (length (bt_seek (fun y => byID (keyItem start) y)
                        (rev (items (col e))))
              <= length (items (col e))) as Hle.
      { rewrite <- (length_rev (items (col e))). clear.
        induction (rev (items (col e))) as [|y l IH]; simpl; [lia|].
        destruct (byID (keyItem start) y); simpl; lia. }
      unfold GoInt.len in *. lia.
    + cbn [negb]. eexists w, _. split; [reflexivity|]. split; [reflexivity|].
      rewrite <- filter_rev.
      apply (seek_keep_filter (flip id_lt)); [apply sorted_rev, Hs| |].
      * apply byID_above_mono.
      * intros y z. apply (byID_above_mono (keyItem end_)).
Qed.

Lemma ScanRange_visits_interval_sample :
  (exists w,
     ScanRange "a" "x" false None None visit_all sample_env
     = Done true
         (mkEnv (col sample_env) w
            (calls sample_env
             ++ map (call_of (col sample_env))
                  (List.filter (in_asc_range "a" "x") (items (col sample_env))))))
  /\ (exists w,
        ScanRange "x" "a" true None None visit_all sample_env
        = Done true
            (mkEnv (col sample_env) w
               (calls sample_env
                ++ map (call_of (col sample_env))
                     (rev (List.filter (in_desc_range "x" "a")
                             (items (col sample_env)))))))
  /\ StronglySorted id_lt (items (col sample_env)).
Proof.
  assert (Hp : harmless visit_all) by (intros id o fields w c; reflexivity).
  assert (Ha : always_continues visit_all)
    by (intros id o fields w c; reflexivity).
  assert (Hc : col sample_env = run sample_ops) by (vm_compute; reflexivity).
  assert (Hlen : (GoInt.len (items (col sample_env)) < 2 ^ 64)%Z)
    by (vm_compute; reflexivity).
  destruct (ScanRange_visits_interval sample_ops "a" "x" None visit_all
              sample_env Hc I Hp Ha Hlen)
    as ((w1 & v1 & H1 & _ & E1) & _ & H3).
  destruct (ScanRange_visits_interval sample_ops "x" "a" None visit_all
              sample_env Hc I Hp Ha Hlen)
    as (_ & (w2 & v2 & H2 & _ & E2) & _).
  subst v1 v2.
  split; [exists w1; exact H1|split; [exists w2; exact H2|exact H3]].
Defined.

(** C7.  On a collection reached by mutations, searched with no cursor by a
    visitor that keeps going and leaves the collection alone, and with no
    deadline firing: ascending SearchValuesRange(start, end) walks the value
    index up from the sentinel (start, empty id), stops at the first item
    not below the sentinel (end, empty id), and so invokes the visitor
    exactly on the items of the value index whose (string form, id) key is
    at least the first sentinel and strictly below the second, in ascending
    key order.  Those are the stored non-spatial items with
    start <= string form < end. *)
Theorem SearchValuesRange_visits_interval {W : Type} (ops : list op)
    (start end_ : string) (deadline : option (Deadline W))
    (iter : Visitor W) (e : Env W) :
  col e = run ops ->
  never_fires deadline -> harmless iter -> always_continues iter ->
  (GoInt.len (values (col e)) < 2 ^ 64)%Z ->
  (exists w visited,
     SearchValuesRange start end_ false None deadline iter e
     = Done true
         (mkEnv (col e) w (calls e ++ map (call_of (col e)) visited))
     /\ visited
        = keep_while (fun it => byValue it (valueItem end_))
            (bt_ascend byValue (Some (valueItem start)) (values (col e)))
     /\ visited = List.filter (in_value_range start end_) (values (col e)))
  /\ StronglySorted value_lt (values (col e))
  /\ (forall it, in_value_index it (col e)
                 <-> in_key_index it (col e) /\ oSpatial (item_obj it) = false)
  /\ (forall it, in_value_range start end_ it
                 = negb (String.ltb (oString (item_obj it)) start)
                   && String.ltb (oString (item_obj it)) end_).
Proof.
  intros Hc Hq Hp Ha Hlen.
  pose proof (run_Inv ops) as [Hx _ _ _ _]. rewrite <- Hc in Hx.
  pose proof (ok_values_sorted _ Hx) as Hs.
  split; [|split; [exact Hs|split]].
  - unfold SearchValuesRange, bind, cursor_begin, ret, get_col, bLT.
    cbn [bt_ascend].
    destruct (walk_bounded _ _
                (bounded_iter_step deadline iter Hq Hp Ha
                   (fun item => byValue item (valueItem end_)))
                (bt_seek (fun y => byValue y (valueItem start)) (values (col e)))
                0%Z e) as (count & w & ->); [lia| |].
    + assert (length (bt_seek (fun y => byValue y (valueItem start))
                        (values (col e)))
              <= length (values (col e))) as Hle.
      { clear. induction (values (col e)) as [|y l IH]; simpl; [lia|].
        destruct (byValue y (valueItem start)); simpl; lia. }
      unfold GoInt.len in *. lia.
    + eexists w, _. split; [reflexivity|]. split; [reflexivity|].
      apply (seek_keep_filter value_lt); [exact Hs| |].
      * apply byValue_below_mono.
      * intros y z. apply (byValue_below_mono (valueItem end_)).
  - intros it. unfold in_value_index, in_key_index. split.
    + intros H. split; [apply (ok_values_live _ Hx), H|].
      apply (ok_values_string _ Hx), H.
    + intros [H1 H2]. apply (ok_string_indexed _ Hx); assumption.
  - intros it. unfold in_value_range. rewrite !byValue_sentinel. reflexivity.
Qed.

Lemma SearchValuesRange_visits_interval_sample :
  (exists w,
     SearchValuesRange "hello" "zebra" false None None visit_all sample_env
     = Done true
         (mkEnv (col sample_env) w
            (calls sample_env
             ++ map (call_of (col sample_env))
                  (List.filter (in_value_range "hello" "zebra")
                     (values (col sample_env))))))
  /\ StronglySorted value_lt (values (col sample_env)).
Proof.
  assert (Hp : harmless visit_all) by (intros id o fields w c; reflexivity).
  assert (Ha : always_continues visit_all)
    by (intros id o fields w c; reflexivity).
  assert (Hc : col sample_env = run sample_ops) by (vm_compute; reflexivity).
  assert (Hlen : (GoInt.len (values (col sample_env)) < 2 ^ 64)%Z)
    by (vm_compute; reflexivity).
  destruct (SearchValuesRange_visits_interval sample_ops "hello" "zebra" None
              visit_all sample_env Hc I Hp Ha Hlen)
    as ((w & v & H1 & _ & E) & H2 & _).
  subst v. split; [exists w; exact H1|exact H2].
Defined.

(** ** The scenarios of the specification, run on the model *)

Example scenario_first_point :
  let c := run [OpSet "a" (sample_point 1 2) None []] in
  Count c = 1%Z /\ PointCount c = 1%Z /\ Bounds c = (1, 2, 1, 2)%float.
Proof. vm_compute. repeat split; reflexivity. Qed.

Example scenario_values :
  let e : Env unit :=
    mkEnv (run [OpSet "x" (StringObject "hello") None [];
                OpSet "y" (StringObject "world") None []]) tt [] in
  map call_id (calls (env_of (SearchValues false None None visit_all e)))
  = ["x"; "y"]
  /\ map call_id
       (calls (env_of (SearchValuesRange "h" "w" false None None visit_all e)))
     = ["x"].
Proof. vm_compute. split; reflexivity. Qed.

Example scenario_fields :
  let c := run [OpSet "a" (sample_point 1 2) (Some ["speed"; "hp"])
                  [10; 20]%float] in
  (snd <$> (SetField "a" "speed" 10 c).1) = Some false
  /\ Get "a" (SetField "a" "mana" 5 c).2
     = Some (sample_point 1 2, [10; 20; 5]%float)
  /\ TotalWeight (SetField "a" "mana" 5 c).2 = (TotalWeight c + 8)%Z.
Proof. vm_compute. repeat split; reflexivity. Qed.

Example scenario_scan_range :
  map call_id
    (calls (env_of (ScanRange "a" "x" false None None visit_all sample_env)))
  = ["a"]
  /\ map call_id
       (calls (env_of (ScanRange "x" "a" true None None visit_all sample_env)))
     = ["x"].
Proof. vm_compute. split; reflexivity. Qed.

(** * Further properties of the collection *)

(** ** Lookups in the key index *)

Lemma items_get_Some t id y :
  StronglySorted id_lt t ->
  bt_get byID (keyItem id) t = Some y <-> y ∈ t /\ item_id y = id.
Proof.
  intros Hs. split.
  - intros H. apply bt_get_found in H as [Hin Hk]. split; [exact Hin|].
    apply byID_same_key in Hk. exact Hk.
  - intros [Hin Hid].
    apply (bt_get_finds byID byID_irrefl byID_trans byID_compat); auto.
    apply byID_same_key. exact Hid.
Qed.

Lemma items_get_None t id :
  StronglySorted id_lt t ->
  bt_get byID (keyItem id) t = None <-> forall y, y ∈ t -> item_id y <> id.
Proof.
  intros Hs. split.
  - intros H y Hin Hid.
    rewrite (proj2 (items_get_Some t id y Hs) (conj Hin Hid)) in H.
    discriminate.
  - intros H. destruct (bt_get byID (keyItem id) t) as [y|] eqn:E;
      [|reflexivity].
    apply (items_get_Some t id y Hs) in E as [Hin Hid].
    exfalso. exact (H y Hin Hid).
Qed.

(** Two sorted trees with the same items under an id answer alike. *)
Lemma items_get_ext t t' id :
  StronglySorted id_lt t -> StronglySorted id_lt t' ->
  (forall y, item_id y = id -> (y ∈ t' <-> y ∈ t)) ->
  bt_get byID (keyItem id) t' = bt_get byID (keyItem id) t.
Proof.
  intros Hs Hs' Hiff.
  destruct (bt_get byID (keyItem id) t) as [y|] eqn:E.
  - apply (items_get_Some t id y Hs) in E as [Hin Hid].
    apply (items_get_Some t' id y Hs'). split; [apply Hiff; assumption|exact Hid].
  - apply (items_get_None t' id Hs'). intros y Hin Hid.
    rewrite (items_get_None t id Hs) in E.
    apply (E y); [apply Hiff; assumption|exact Hid].
Qed.

(** The deleted item is the one a lookup finds. *)
Lemma items_delete_get t id :
  StronglySorted id_lt t ->
  (bt_delete byID (keyItem id) t).1 = bt_get byID (keyItem id) t.
Proof.
  intros Hs. destruct (bt_get byID (keyItem id) t) as [y|] eqn:E.
  - apply (items_get_Some t id y Hs) in E as [Hin Hid].
    apply (bt_delete_finds byID byID_irrefl byID_trans byID_compat); auto.
    apply byID_same_key. exact Hid.
  - destruct (bt_delete byID (keyItem id) t).1 as [y|] eqn:E'; [|reflexivity].
    apply bt_delete_old in E' as [Hin Hk]. apply byID_same_key in Hk.
    rewrite (items_get_None t id Hs) in E. exfalso. exact (E y Hin Hk).
Qed.

(** The key index after Set: the new item, and the old items of other ids. *)
Lemma items_after_set newItem t y :
  StronglySorted id_lt t -> newItem ∉ t ->
  y ∈ (bt_set byID newItem t).2
  <-> y = newItem \/ (y ∈ t /\ item_id y <> item_id newItem).
Proof.
  intros Hs Hfresh. split.
  - intros Hin. destruct (bt_set_subset _ _ _ _ Hin) as [->|H]; [auto|].
    right. split; [exact H|]. intros Hid. apply Hfresh.
    rewrite <- (bt_set_unique byID byID_irrefl byID_trans byID_compat
                  newItem t y Hs Hin); [exact H|].
    apply byID_same_key. exact Hid.
  - intros [->|[Hin Hid]]; [apply bt_set_new|].
    destruct (bt_set_keeps byID newItem t y Hin) as [H|H]; [exact H|].
    apply bt_set_old in H as [_ Hk]. apply byID_same_key in Hk. contradiction.
Qed.

(** The key index after Delete: the items of other ids. *)
Lemma items_after_delete t id y :
  StronglySorted id_lt t ->
  y ∈ (bt_delete byID (keyItem id) t).2 <-> y ∈ t /\ item_id y <> id.
Proof.
  intros Hs. split.
  - intros Hin. split; [eapply bt_delete_subset, Hin|]. intros Hid.
    apply (bt_delete_gone byID byID_irrefl byID_trans byID_compat
             _ _ _ Hs Hin).
    apply byID_same_key. exact Hid.
  - intros [Hin Hid].
    destruct (bt_delete_keeps byID (keyItem id) t y Hin) as [H|H]; [exact H|].
    apply bt_delete_old in H as [_ Hk]. apply byID_same_key in Hk.
    contradiction.
Qed.

(** ** The rows setField leaves alone *)

Lemma setField_other_rows item field value c k :
  k <> item_id item ->
  fieldValues (setField item field value c).2 !! k = fieldValues c !! k.
Proof.
  intros Hk. destruct (setField_spec item field value c) as (_ & -> & _).
  apply lookup_insert_ne. congruence.
Qed.

Lemma setField_range_other_rows item fields vals k :
  k <> item_id item ->
  forall i n c,
    fieldValues (state_of (setField_range item fields vals i n c)) !! k
    = fieldValues c !! k.
Proof.
  intros Hk. induction fields as [|field fields IH]; intros i n c; simpl.
  - reflexivity.
  - destruct (vals !! i) as [v|]; [|reflexivity].
    pose proof (setField_other_rows item field v c k Hk) as H.
    destruct (setField item field v c) as [updated c1]. simpl in H.
    rewrite IH. exact H.
Qed.

(** The state Set leaves: its key index, and the rows of the other ids. *)
Lemma Set'_items id obj fields vals c :
  items (state_of (Set' id obj fields vals c))
  = (bt_set byID (mkItem (alloc c) id obj) (items c)).2.
Proof.
  rewrite Set'_halves.
  destruct (Set_fields_frame id (mkItem (alloc c) id obj) fields vals
              (Set_replace (mkItem (alloc c) id obj) c).2
              (Set_replace (mkItem (alloc c) id obj) c).1) as (-> & _).
  apply Set_replace_items.
Qed.

Lemma Set'_other_rows id obj fields vals c k :
  k <> id ->
  fieldValues (state_of (Set' id obj fields vals c)) !! k = fieldValues c !! k.
Proof.
  intros Hk. rewrite Set'_halves.
  set (newItem := mkItem (alloc c) id obj).
  destruct (Set_replace_items newItem c) as (_ & _ & Hfv & _).
  rewrite <- Hfv. unfold Set_fields. destruct fields as [fields|].
  - pose proof (setField_range_other_rows newItem fields vals k Hk 0 0%Z
                  (Set_replace newItem c).1) as H.
    destruct (setField_range newItem fields vals 0 0%Z _); exact H.
  - destruct (Nat.ltb 0 (length vals)); simpl; [|reflexivity].
    apply lookup_insert_ne. congruence.
Qed.

Lemma fresh_handle c id obj : Inv c -> mkItem (alloc c) id obj ∉ items c.
Proof.
  intros [Hx _ _ _ _] H. apply (ok_alloc c Hx) in H. simpl in H. lia.
Qed.

(** ** Set, Get and Delete on one id *)

Lemma items_set_get newItem t :
  StronglySorted id_lt t -> newItem ∉ t ->
  (bt_set byID newItem t).1 = bt_get byID (keyItem (item_id newItem)) t.
Proof.
  intros Hs Hfresh.
  destruct (bt_get byID (keyItem (item_id newItem)) t) as [y|] eqn:E.
  - apply (items_get_Some t _ y Hs) in E as [Hin Hid].
    apply (bt_set_finds byID byID_irrefl byID_trans byID_compat); auto.
    apply byID_same_key. exact Hid.
  - destruct (bt_set byID newItem t).1 as [y|] eqn:E'; [|reflexivity].
    apply bt_set_old in E' as [Hin Hk]. apply byID_same_key in Hk.
    rewrite (items_get_None t _ Hs) in E. exfalso. exact (E y Hin Hk).
Qed.

Lemma Get_after_Set id obj fields vals c :
  Inv c ->
  Get id (state_of (Set' id obj fields vals c))
  = Some (obj, getFieldValues (state_of (Set' id obj fields vals c)) id).
Proof.
  intros Hinv. unfold Get. rewrite Set'_items.
  pose proof (ok_items_sorted c (inv_index c Hinv)) as Hs.
  rewrite (proj2 (items_get_Some _ id (mkItem (alloc c) id obj)
                    (bt_set_sorted byID byID_trans byID_compat _ _ Hs)));
    [reflexivity|].
  split; [apply bt_set_new|reflexivity].
Qed.

Lemma Get_as_lookup c id :
  Get id c
  = (fun it => (item_obj it, getFieldValues c id))
      <$> bt_get byID (keyItem id) (items c).
Proof. unfold Get. destruct (bt_get _ _ _); reflexivity. Qed.

(** What Set returns, and what a Get finds afterwards. *)
Lemma Set'_Returns_spec id obj fields vals c old oldF newF c' :
  Inv c ->
  Set' id obj fields vals c = Returns (old, oldF, newF) c' ->
  old = fst <$> Get id c
  /\ oldF = default [] (snd <$> Get id c)
  /\ Get id c' = Some (obj, newF).
Proof.
  intros Hinv Hset.
  pose proof (Get_after_Set id obj fields vals c Hinv) as Hget.
  rewrite Hset in Hget. simpl in Hget.
  pose proof (ok_items_sorted c (inv_index c Hinv)) as Hs.
  pose proof (fresh_handle c id obj Hinv) as Hfresh.
  pose proof (items_set_get (mkItem (alloc c) id obj) (items c) Hs Hfresh) as Hold.
  simpl in Hold.
  rewrite Set'_halves in Hset.
  set (newItem := mkItem (alloc c) id obj) in *.
  destruct (Set_replace_items newItem c) as (_ & Ho & Hfv & _).
  rewrite Ho, Hold in Hset. unfold Set_fields, getFieldValues in Hset.
  rewrite Hfv in Hset. rewrite (Get_as_lookup c id).
  assert (Hrow : bt_get byID (keyItem id) (items c) = None ->
                 fieldValues c !! id = None).
  { intros Hn. rewrite <- Hold in Hn.
    exact (fresh_id_no_row newItem c Hinv eq_refl Hn). }
  destruct (bt_get byID (keyItem id) (items c)) as [o|]; simpl in *.
  - destruct fields as [fields|].
    + destruct (setField_range newItem fields vals 0 0%Z _); [|discriminate].
      injection Hset as <- <- <- <-. rewrite Hget. auto.
    + destruct (Nat.ltb 0 (length vals)); simpl in Hset;
        injection Hset as <- <- <- <-; rewrite Hget; repeat split.
      * unfold getFieldValues. simpl. rewrite lookup_insert_eq. reflexivity.
      * unfold getFieldValues. rewrite Hfv. reflexivity.
  - specialize (Hrow eq_refl). destruct fields as [fields|].
    + destruct (setField_range newItem fields vals 0 0%Z _); [|discriminate].
      injection Hset as <- <- <- <-. rewrite Hget. auto.
    + destruct (Nat.ltb 0 (length vals)); simpl in Hset;
        injection Hset as <- <- <- <-; rewrite Hget; repeat split.
      * unfold getFieldValues. simpl. rewrite lookup_insert_eq. reflexivity.
      * unfold getFieldValues. rewrite Hfv, Hrow. reflexivity.
Qed.

(** X1.  Set then Get: on a collection reached by mutations, after
    Set(id, obj, fields, values) returns, Get(id) yields obj together with
    the new fields Set returned; if Set panicked on a short values list, the
    item is stored all the same. *)
Theorem Set_then_Get (ops : list op) (id : string) (obj : Object)
    (fields : option (list string)) (vals : list float64) :
  match Set' id obj fields vals (run ops) with
  | Returns r c' => Get id c' = Some (obj, r.2)
  | Panics c' => exists row, Get id c' = Some (obj, row)
  end.
Proof.
  pose proof (run_Inv ops) as Hinv.
  destruct (Set' id obj fields vals (run ops)) as [[[old oldF] newF] c'|c'] eqn:E.
  - apply (Set'_Returns_spec _ _ _ _ _ _ _ _ _ Hinv E).
  - pose proof (Get_after_Set id obj fields vals _ Hinv) as H.
    rewrite E in H. simpl in H. eauto.
Qed.

(** X3.  Delete returns what Get would have: on a collection reached by
    mutations Delete(id) returns exactly the object and fields of Get(id)
    (and ok = false when Get does); afterwards Get(id) finds nothing, and a
    second Delete(id) returns ok = false and changes nothing. *)
Theorem Delete_then_Get (ops : list op) (id : string) :
  let c := run ops in
  (Delete id c).1 = Get id c
  /\ Get id (Delete id c).2 = None
  /\ Delete id (Delete id c).2 = (None, (Delete id c).2).
Proof.
  intros c. pose proof (run_Inv ops) as Hinv. fold c in Hinv.
  pose proof (ok_items_sorted c (inv_index c Hinv)) as Hs.
  pose proof (Delete_Inv id c Hinv) as Hinv'.
  pose proof (ok_items_sorted _ (inv_index _ Hinv')) as Hs'.
  assert (Hgone : bt_get byID (keyItem id) (items (Delete id c).2) = None).
  { apply (items_get_None _ id Hs'). intros y Hin.
    destruct (bt_delete byID (keyItem id) (items c)).1 as [old|] eqn:E.
    - destruct (Delete_present id c old E) as (_ & Hi & _).
      rewrite Hi in Hin. apply (items_after_delete _ _ _ Hs) in Hin. tauto.
    - rewrite (Delete_absent id c E) in Hin.
      rewrite items_delete_get in E; [|exact Hs].
      rewrite (items_get_None _ id Hs) in E. apply E, Hin. }
  split; [|split].
  - rewrite Get_as_lookup, <- (items_delete_get _ id Hs).
    destruct (bt_delete byID (keyItem id) (items c)).1 as [old|] eqn:E.
    + destruct (Delete_present id c old E) as (-> & _). reflexivity.
    + rewrite (Delete_absent id c E). reflexivity.
  - rewrite Get_as_lookup, Hgone. reflexivity.
  - apply Delete_absent. rewrite items_delete_get; [exact Hgone|exact Hs'].
Qed.

Lemma Get_ext c c' id :
  StronglySorted id_lt (items c) -> StronglySorted id_lt (items c') ->
  (forall y, item_id y = id -> (y ∈ items c' <-> y ∈ items c)) ->
  fieldValues c' !! id = fieldValues c !! id ->
  Get id c' = Get id c.
Proof.
  intros Hs Hs' Hiff Hfv. rewrite !Get_as_lookup.
  rewrite (items_get_ext _ _ id Hs Hs' Hiff). unfold getFieldValues.
  rewrite Hfv. reflexivity.
Qed.

(** ** Set without field names *)

Lemma Set'_nil_fields id obj vals c :
  Inv c ->
  exists c',
    Set' id obj None vals c
    = Returns (fst <$> Get id c, default [] (snd <$> Get id c),
               if Nat.ltb 0 (length vals) then vals
               else default [] (snd <$> Get id c)) c'
    /\ Get id c' = Some (obj, if Nat.ltb 0 (length vals) then vals
                              else default [] (snd <$> Get id c)).
Proof.
  intros Hinv.
  destruct (Set' id obj None vals c) as [[[old oldF] newF] c'|c'] eqn:E.
  - destruct (Set'_Returns_spec _ _ _ _ _ _ _ _ _ Hinv E) as (H1 & H2 & H3).
    assert (HnewF : newF = if Nat.ltb 0 (length vals) then vals else oldF).
    { rewrite Set'_halves in E. unfold Set_fields in E.
      destruct (Nat.ltb 0 (length vals)); injection E as _ E2 E3 _.
      - symmetry. exact E3.
      - rewrite <- E3. exact E2. }
    exists c'. rewrite H3. subst old oldF. rewrite HnewF. split; reflexivity.
  - exfalso. rewrite Set'_halves in E. unfold Set_fields in E.
    destruct (Nat.ltb 0 (length vals)); discriminate.
Qed.

(** X5.  Set without field names: on a collection reached by mutations,
    Set(id, obj, nil, values) always returns; with no values the object
    keeps the row it had (the empty row for a new id), with values the row
    becomes exactly those values, however long the old row was.  Get(id)
    then reports obj with that row. *)
Theorem Set_without_field_names (ops : list op) (id : string) (obj : Object)
    (vals : list float64) :
  let c := run ops in
  let oldRow := default [] (snd <$> Get id c) in
  let newRow := match vals with [] => oldRow | _ => vals end in
  exists c',
    Set' id obj None vals c = Returns (fst <$> Get id c, oldRow, newRow) c'
    /\ Get id c' = Some (obj, newRow).
Proof.
  intros c oldRow newRow.
  destruct (Set'_nil_fields id obj vals c (run_Inv ops)) as (c' & H1 & H2).
  exists c'. subst oldRow newRow. destruct vals; simpl in *; auto.
Qed.

(** X6.  A row does not survive its object: on a collection reached by
    mutations, Delete(id) followed by Set(id, obj, nil, no values) reports
    no old object and no old fields, and the object starts with the empty
    row, whatever row the deleted object had. *)
Theorem Delete_then_Set_starts_empty (ops : list op) (id : string)
    (obj : Object) :
  exists c',
    Set' id obj None [] (Delete id (run ops)).2 = Returns (None, [], []) c'
    /\ Get id c' = Some (obj, []).
Proof.
  pose proof (run_Inv (ops ++ [OpDelete id])) as Hinv.
  unfold run in Hinv. rewrite fold_left_app in Hinv. simpl in Hinv.
  fold (run ops) in Hinv.
  destruct (Set'_nil_fields id obj [] _ Hinv) as (c' & H1 & H2).
  assert (Hgone : Get id (Delete id (run ops)).2 = None).
  { pose proof (run_Inv ops) as Hinv0.
    pose proof (ok_items_sorted _ (inv_index _ Hinv0)) as Hs.
    pose proof (ok_items_sorted _ (inv_index _ Hinv)) as Hs'.
    rewrite Get_as_lookup.
    rewrite (proj2 (items_get_None _ id Hs')); [reflexivity|].
    intros y Hin.
    destruct (bt_delete byID (keyItem id) (items (run ops))).1 as [old|] eqn:E.
    - destruct (Delete_present id _ old E) as (_ & Hi & _).
      rewrite Hi in Hin. apply (items_after_delete _ _ _ Hs) in Hin. tauto.
    - rewrite (Delete_absent id _ E) in Hin.
      rewrite items_delete_get in E; [|exact Hs].
      rewrite (items_get_None _ id Hs) in E. apply E, Hin. }
  rewrite Hgone in H1, H2. simpl in H1, H2. eauto.
Qed.

(** X7.  Unknown ids: on a collection reached by mutations, when Get(id)
    finds nothing, Delete, SetField and SetFields on that id all report
    ok = false and leave the collection exactly as it was; SetFields does
    not even panic on a values list shorter than the field list, and no
    field name is registered. *)
Theorem unknown_id_is_noop (ops : list op) (id field : string)
    (value : float64) (inFields : list string) (inValues : list float64) :
  Get id (run ops) = None ->
  Delete id (run ops) = (None, run ops)
  /\ SetField id field value (run ops) = (None, run ops)
  /\ SetFields id inFields inValues (run ops) = Returns None (run ops).
Proof.
  intros Hget. pose proof (run_Inv ops) as Hinv.
  pose proof (ok_items_sorted _ (inv_index _ Hinv)) as Hs.
  rewrite Get_as_lookup in Hget.
  destruct (bt_get byID (keyItem id) (items (run ops))) as [it|] eqn:E;
    [discriminate|].
  split; [|split].
  - apply Delete_absent. rewrite items_delete_get; [exact E|exact Hs].
  - unfold SetField. rewrite E. reflexivity.
  - unfold SetFields. rewrite E. reflexivity.
Qed.

Lemma unknown_id_is_noop_sample :
  Delete "zz" (run sample_ops) = (None, run sample_ops)
  /\ SetField "zz" "hp" 1 (run sample_ops) = (None, run sample_ops)
  /\ SetFields "zz" ["hp"; "mana"] [] (run sample_ops)
     = Returns None (run sample_ops).
Proof.
  apply (unknown_id_is_noop sample_ops "zz" "hp" 1%float ["hp"; "mana"] []).
  vm_compute. reflexivity.
Defined.

(** ** SetFields as repeated SetField *)

Lemma setField_range_shift item fields v vals :
  forall i n c,
    setField_range item fields (v :: vals) (S i) n c
    = setField_range item fields vals i n c.
Proof.
  induction fields as [|f fields IH]; intros i n c; [reflexivity|].
  cbn [setField_range]. change ((v :: vals) !! S i) with (vals !! i).
  destruct (vals !! i) as [x|]; [|reflexivity].
  destruct (setField item f x c) as [updated c1]. apply IH.
Qed.

(** The count a run of setField adds does not depend on where it starts. *)
Lemma setField_range_count item fields vals :
  forall i n c,
    setField_range item fields vals i n c
    = match setField_range item fields vals i 0 c with
      | Returns k c' => Returns (GoInt.add n k) c'
      | Panics c' => Panics c'
      end \/ ~ (- 2 ^ 63 <= n < 2 ^ 63)%Z.
Proof.
  induction fields as [|f fields IH]; intros i n c.
  - cbn [setField_range].
    destruct (Z_le_dec (- 2 ^ 63) n); [|right; lia].
    destruct (Z_lt_dec n (2 ^ 63)); [|right; lia].
    left. f_equal. unfold GoInt.add. rewrite Z.add_0_r.
    symmetry. apply GoIntFacts.wrap_small. lia.
  - destruct (Z_le_dec (- 2 ^ 63) n); [|right; lia].
    destruct (Z_lt_dec n (2 ^ 63)); [|right; lia].
    left. cbn [setField_range]. destruct (vals !! i) as [x|]; [|reflexivity].
    destruct (setField item f x c) as [updated c1].
    assert (Hw : forall z, (- 2 ^ 63 <= GoInt.add z 1 < 2 ^ 63)%Z).
    { intros z. unfold GoInt.add, GoInt.wrap.
      pose proof (Z.mod_pos_bound (z + 1 + 2 ^ 63) (2 ^ 64)). lia. }
    destruct updated.
    + destruct (IH (S i) (GoInt.add n 1) c1) as [->|Hbad];
        [|exfalso; apply Hbad, Hw].
      destruct (IH (S i) (GoInt.add 0 1) c1) as [->|Hbad];
        [|exfalso; apply Hbad, Hw].
      destruct (setField_range item fields vals (S i) 0 c1); [|reflexivity].
      f_equal. unfold GoInt.add. wrap_solve.
    + destruct (IH (S i) n c1) as [->|Hbad]; [|exfalso; apply Hbad; lia].
      reflexivity.
Qed.

Lemma setField_range_cons item f fields v vals c :
  setField_range item (f :: fields) (v :: vals) 0 0 c
  = match setField_range item fields vals 0 0 (setField item f v c).2 with
    | Returns k c2 =>
        Returns (GoInt.add (if (setField item f v c).1 then 1 else 0) k) c2
    | Panics c2 => Panics c2
    end.
Proof.
  destruct (setField item f v c) as [updated c1] eqn:Esf. cbn [fst snd].
  cbn [setField_range]. change ((v :: vals) !! 0) with (Some v).
  cbv beta iota. rewrite Esf, setField_range_shift.
  destruct (setField_range_count item fields vals 0
              (if updated then GoInt.add 0 1 else 0%Z) c1) as [->|Hbad].
  - destruct (setField_range item fields vals 0 0 c1) as [k c2|c2];
      [|reflexivity].
    destruct updated; reflexivity.
  - exfalso. apply Hbad. destruct updated; vm_compute; split; congruence.
Qed.

(** X8.  SetFields is SetField, field by field: SetFields on (f :: fields,
    v :: values) ends in the state, and with the object and row, that
    SetField(f, v) followed by SetFields(fields, values) ends in; its count
    is the second count plus one when the first update changed the value;
    it panics exactly when the second call does. *)
Theorem SetFields_unfolds (id f : string) (v : float64)
    (fields : list string) (vals : list float64) (c : Collection) :
  match SetField id f v c with
  | (None, c1) => SetFields id (f :: fields) (v :: vals) c = Returns None c
  | (Some (_, _, updated), c1) =>
      match SetFields id fields vals c1 with
      | Returns (Some (o, row, n)) c2 =>
          SetFields id (f :: fields) (v :: vals) c
          = Returns (Some (o, row, GoInt.add (if updated then 1 else 0) n)) c2
      | Returns None c2 => False
      | Panics c2 => SetFields id (f :: fields) (v :: vals) c = Panics c2
      end
  end.
Proof.
  unfold SetField, SetFields.
  destruct (bt_get byID (keyItem id) (items c)) as [item|] eqn:E;
    [|reflexivity].
  rewrite setField_range_cons.
  destruct (setField_frame item f v c) as (Hi & _).
  destruct (setField item f v c) as [updated c1]. cbn [fst snd] in *.
  rewrite Hi, E.
  destruct (setField_range item fields vals 0 0 c1) as [k c2|c2]; reflexivity.
Qed.

(** ** Scans with a cursor and a visitor that may stop *)

Section Paging.
Context {W : Type}.
Variable cursor : option (Cursor W).
Variable deadline : option (Deadline W).
Variable iter : Visitor W.
Variable p : Call -> bool.
Hypothesis quiet : never_fires deadline.
Hypothesis pure : harmless iter.
Hypothesis told : answers iter p.

Lemma nextStep_pages step (e : Env W) :
  exists w, nextStep step cursor deadline e
            = Done tt (mkEnv (col e) w (calls e)).
Proof.
  unfold nextStep, bind, deadline_Check, ret, cursor_Step.
  destruct (Z.eqb _ _).
  - destruct deadline as [d|].
    + simpl in quiet. specialize (quiet (world e)).
      destruct (Check d (world e)) as [fires w]. simpl in quiet. subst fires.
      destruct cursor; simpl; eauto.
    + destruct cursor; destruct e; simpl; eauto.
  - destruct cursor; destruct e; simpl; eauto.
Qed.

Lemma callVisitor_answers id o fields (e : Env W) :
  exists w, callVisitor iter id o fields e
            = Done (p (mkCall id o fields))
                (mkEnv (col e) w (calls e ++ [mkCall id o fields])).
Proof.
  unfold callVisitor.
  pose proof (pure id o fields (world e) (col e)) as Hp.
  pose proof (told id o fields (world e) (col e)) as Ht.
  destruct (iter id o fields (world e) (col e)) as [[keepon w] c].
  simpl in *. subst. eauto.
Qed.

Lemma cursor_begin_pages (e : Env W) :
  exists offset w,
    cursor_begin cursor e = Done offset (mkEnv (col e) w (calls e))
    /\ Z.to_nat offset = cursor_offset cursor (world e).
Proof.
  unfold cursor_begin, cursor_offset. destruct cursor as [cur|].
  - unfold bind, cursor_Step, ret. simpl. eauto.
  - unfold ret. exists 0%Z, (world e). destruct e. split; reflexivity.
Qed.

(** The closure of the ordered scans, walked over any list of candidates:
    the first [offset] candidates are passed over, the rest are visited up
    to the first refusal. *)
Lemma walk_scan_iter {A} (item_of : A -> itemT) offset :
  forall (l : list A) count (e : Env W),
    (0 <= count)%Z -> (count + GoInt.len l < 2 ^ 64)%Z ->
    let cs := map (fun x => call_of (col e) (item_of x))
                (drop (Z.to_nat (offset - count)) l) in
    exists count' w,
      walk (fun x s => scan_iter offset cursor deadline iter (item_of x) s)
        l (count, true) e
      = Done (count', forallb p cs)
          (mkEnv (col e) w (calls e ++ upto_reject p cs)).
Proof.
  induction l as [|x l IH]; intros count e H0 Hlen cs.
  - subst cs. rewrite drop_nil. simpl. rewrite app_nil_r.
    exists count, (world e). destruct e; reflexivity.
  - unfold GoInt.len in *. simpl length in Hlen.
    cbn [walk]. unfold bind at 1. unfold scan_iter at 1. cbn [fst snd].
    destruct (count_step count ltac:(lia)) as [Hu _]. rewrite Hu.
    destruct (Z.leb (count + 1) offset) eqn:Hle.
    + apply Z.leb_le in Hle. unfold ret at 1.
      destruct (IH (count + 1)%Z e ltac:(lia) ltac:(lia))
        as (count' & w & ->).
      subst cs.
      replace (Z.to_nat (offset - count))
        with (S (Z.to_nat (offset - (count + 1)))) by lia.
      eauto.
    + apply Z.leb_gt in Hle. subst cs.
      replace (Z.to_nat (offset - count)) with 0 by lia.
      rewrite drop_0. unfold bind.
      destruct (nextStep_pages (count + 1) e) as [w1 ->].
      unfold get_col. cbn [col].
      destruct (callVisitor_answers (item_id (item_of x))
                  (item_obj (item_of x))
                  (getFieldValues (col e) (item_id (item_of x)))
                  (mkEnv (col e) w1 (calls e))) as [w2 ->].
      unfold ret. cbn [map forallb upto_reject]. fold (call_of (col e) (item_of x)).
      destruct (p (call_of (col e) (item_of x))) eqn:Hp.
      * destruct (IH (count + 1)%Z
                    (mkEnv (col e) w2 (calls e ++ [call_of (col e) (item_of x)]))
                    ltac:(lia) ltac:(lia)) as (count' & w & Hw).
        cbn [col calls] in Hw.
        replace (Z.to_nat (offset - (count + 1))) with 0 in Hw by lia.
        rewrite drop_0 in Hw. cbn [col calls]. rewrite Hw.
        rewrite <- app_assoc. simpl. eauto.
      * simpl. eauto.
Qed.

(** A whole ordered scan over the candidates [cands] of an index. *)
Lemma scan_pages (cands : Collection -> list itemT) (e : Env W) :
  (GoInt.len (cands (col e)) < 2 ^ 64)%Z ->
  let cs := map (call_of (col e))
              (drop (cursor_offset cursor (world e)) (cands (col e))) in
  exists w,
    bind (cursor_begin cursor) (fun offset =>
      bind get_col (fun c =>
        bind (walk (scan_iter offset cursor deadline iter) (cands c)
                (0%Z, true))
             (fun s => ret s.2))) e
    = Done (forallb p cs) (mkEnv (col e) w (calls e ++ upto_reject p cs)).
Proof.
  intros Hlen cs. unfold bind at 1.
  destruct (cursor_begin_pages e) as (offset & w0 & -> & Hoff).
  unfold bind at 1. unfold get_col at 1. cbn [col]. unfold bind.
  destruct (walk_scan_iter (fun x => x) offset (cands (col e)) 0%Z
              (mkEnv (col e) w0 (calls e)) ltac:(lia) ltac:(lia))
    as (count' & w & Hw).
  cbn [col calls] in Hw. rewrite Z.sub_0_r, Hoff in Hw.
  change (walk (scan_iter offset cursor deadline iter) (cands (col e))
            (0%Z, true) (mkEnv (col e) w0 (calls e))
          = Done (count', forallb p cs)
              (mkEnv (col e) w (calls e ++ upto_reject p cs))) in Hw.
  rewrite Hw. unfold ret. simpl. eauto.
Qed.
End Paging.

Lemma forallb_true {A} (l : list A) : forallb (fun _ => true) l = true.
Proof. induction l; simpl; auto. Qed.

Lemma upto_reject_true {A} (l : list A) : upto_reject (fun _ => true) l = l.
Proof. induction l; simpl; congruence. Qed.

Lemma continues_answers {W} (iter : Visitor W) :
  always_continues iter -> answers iter (fun _ => true).
Proof. intros H id o fields w c. apply H. Qed.

(** A whole ordered scan with a visitor that always goes on and no cursor. *)
Lemma scan_visits_all {W} (deadline : option (Deadline W)) (iter : Visitor W)
    (cands : Collection -> list itemT) (e : Env W) :
  never_fires deadline -> harmless iter -> always_continues iter ->
  (GoInt.len (cands (col e)) < 2 ^ 64)%Z ->
  exists w,
    bind (cursor_begin None) (fun offset =>
      bind get_col (fun c =>
        bind (walk (scan_iter offset None deadline iter) (cands c)
                (0%Z, true))
             (fun s => ret s.2))) e
    = Done true
        (mkEnv (col e) w (calls e ++ map (call_of (col e)) (cands (col e)))).
Proof.
  intros Hq Hp Ha Hlen.
  destruct (scan_pages None deadline iter (fun _ => true) Hq Hp
              (continues_answers iter Ha) cands e Hlen) as [w Hw].
  cbn [cursor_offset] in Hw. rewrite drop_0 in Hw.
  rewrite forallb_true, upto_reject_true in Hw. eauto.
Qed.

(** X9.  Paging and stopping a Scan: with a deadline that does not fire and
    a visitor that leaves the collection alone and answers by the predicate
    p, Scan passes over the first cursor.Offset() items of the key order
    (ascending, or descending when desc), visits the following ones up to
    and including the first that p refuses, and returns whether none was
    refused.  With a nil cursor nothing is passed over. *)
Theorem Scan_offset_and_stop {W} (desc : bool) (cursor : option (Cursor W))
    (deadline : option (Deadline W)) (iter : Visitor W) (p : Call -> bool)
    (e : Env W) :
  never_fires deadline -> harmless iter -> answers iter p ->
  (GoInt.len (items (col e)) < 2 ^ 64)%Z ->
  let l := if desc then rev (items (col e)) else items (col e) in
  let cs := map (call_of (col e)) (drop (cursor_offset cursor (world e)) l) in
  exists w,
    Scan desc cursor deadline iter e
    = Done (forallb p cs) (mkEnv (col e) w (calls e ++ upto_reject p cs)).
Proof.
  intros Hq Hp Ht Hlen l cs.
  apply (scan_pages cursor deadline iter p Hq Hp Ht
           (fun c => if desc then bt_descend byID None (items c)
                     else bt_ascend byID None (items c)) e).
  unfold GoInt.len in *. destruct desc; simpl; [rewrite length_rev|]; exact Hlen.
Qed.

Lemma Get_call c id o fs :
  StronglySorted id_lt (items c) ->
  Get id c = Some (o, fs)
  <-> exists it, it ∈ items c /\ call_of c it = mkCall id o fs.
Proof.
  intros Hs. rewrite Get_as_lookup. split.
  - destruct (bt_get byID (keyItem id) (items c)) as [it|] eqn:E;
      [|discriminate].
    apply (items_get_Some _ _ _ Hs) in E as [Hin Hid]. simpl.
    intros [= <- <-]. exists it. split; [exact Hin|].
    unfold call_of. rewrite Hid. reflexivity.
  - intros (it & Hin & Hc). unfold call_of in Hc.
    injection Hc as Hid Ho Hf.
    rewrite (proj2 (items_get_Some _ id it Hs) (conj Hin Hid)). simpl.
    rewrite <- Ho, <- Hf, Hid. reflexivity.
Qed.

Lemma in_calls c (l : list itemT) k :
  k ∈ map (call_of c) l <-> exists it, it ∈ l /\ call_of c it = k.
Proof.
  rewrite list_elem_of_In, in_map_iff. split.
  - intros (it & H1 & H2). exists it. rewrite list_elem_of_In. auto.
  - intros (it & H1 & H2). exists it. rewrite <- list_elem_of_In. auto.
Qed.

Lemma calls_sorted (R : itemT -> itemT -> Prop) (R' : Call -> Call -> Prop)
    c l :
  (forall x y, R x y -> R' (call_of c x) (call_of c y)) ->
  StronglySorted R l -> StronglySorted R' (map (call_of c) l).
Proof.
  intros HR. induction 1 as [|x l Hs IH Hall]; simpl; constructor; [exact IH|].
  rewrite Forall_forall in Hall. apply Forall_forall. intros k Hk.
  apply in_calls in Hk as (y & Hy & <-). apply HR, Hall, Hy.
Qed.

(** X10.  Scan visits every object once, in key order: on a collection
    reached by mutations, with a visitor that always goes on and leaves the
    collection alone, Scan returns true with the collection unchanged, its
    visits are strictly ascending by id (strictly descending when desc), and
    (id, obj, fields) is visited exactly when Get(id) reports obj and
    fields. *)
Theorem Scan_visits_every_object {W} (ops : list op) (desc : bool)
    (deadline : option (Deadline W)) (iter : Visitor W) (w0 : W) :
  never_fires deadline -> harmless iter -> always_continues iter ->
  (GoInt.len (items (run ops)) < 2 ^ 64)%Z ->
  exists w cs,
    Scan desc None deadline iter (mkEnv (run ops) w0 [])
    = Done true (mkEnv (run ops) w cs)
    /\ StronglySorted (if desc then flip call_lt else call_lt) cs
    /\ forall id o fs,
         mkCall id o fs ∈ cs <-> Get id (run ops) = Some (o, fs).
Proof.
  intros Hq Hp Ha Hlen. set (c := run ops) in *.
  pose proof (ok_items_sorted c (inv_index c (run_Inv ops))) as Hs.
  destruct (scan_visits_all deadline iter
              (fun c => if desc then bt_descend byID None (items c)
                        else bt_ascend byID None (items c))
              (mkEnv c w0 []) Hq Hp Ha) as [w Hw].
  { unfold GoInt.len in *. cbn [col].
    destruct desc; simpl; [rewrite length_rev|]; exact Hlen. }
  cbn [col calls app] in Hw.
  exists w, (map (call_of c) (if desc then rev (items c) else items c)).
  split; [|split].
  - destruct desc; exact Hw.
  - destruct desc.
    + apply (calls_sorted (flip id_lt)); [|apply sorted_rev, Hs].
      intros x y H. exact H.
    + apply (calls_sorted id_lt); [|exact Hs]. intros x y H. exact H.
  - intros id o fs. rewrite (Get_call c id o fs Hs), in_calls.
    destruct desc; [|reflexivity].
    split; intros (it & Hin & Hc); exists it; split; try exact Hc.
    + apply list_elem_of_In. apply in_rev. apply list_elem_of_In. exact Hin.
    + apply list_elem_of_In. apply -> in_rev. apply list_elem_of_In. exact Hin.
Qed.

Lemma Scan_offset_and_stop_sample :
  let l := if true then rev (items (col sample_env))
           else items (col sample_env) in
  let cs := map (call_of (col sample_env))
              (drop (cursor_offset (Some (sample_cursor 1)) (world sample_env))
                 l) in
  exists w,
    Scan true (Some (sample_cursor 1)) None visit_stop sample_env
    = Done (forallb (fun _ => false) cs)
        (mkEnv (col sample_env) w
           (calls sample_env ++ upto_reject (fun _ => false) cs)).
Proof.
  apply (Scan_offset_and_stop true (Some (sample_cursor 1)) None visit_stop
           (fun _ => false) sample_env).
  - exact I.
  - intros id o fields w c. reflexivity.
  - intros id o fields w c. reflexivity.
  - vm_compute. reflexivity.
Defined.

Lemma Scan_visits_every_object_sample :
  exists w cs,
    Scan false None None visit_all (mkEnv (run sample_ops) tt [])
    = Done true (mkEnv (run sample_ops) w cs)
    /\ StronglySorted (if false then flip call_lt else call_lt) cs
    /\ forall id o fs,
         mkCall id o fs ∈ cs <-> Get id (run sample_ops) = Some (o, fs).
Proof.
  apply (Scan_visits_every_object sample_ops false None visit_all tt).
  - exact I.
  - intros id o fields w c. reflexivity.
  - intros id o fields w c. reflexivity.
  - vm_compute. reflexivity.
Defined.

(** X11.  SearchValues visits every string object once, in value order: on
    a collection reached by mutations, with a visitor that always goes on
    and leaves the collection alone, SearchValues returns true, its visits
    are strictly ascending by (string value, id) (descending when desc), and
    (id, obj, fields) is visited exactly when Get(id) reports obj and fields
    and obj is not spatial. *)
Theorem SearchValues_visits_strings {W} (ops : list op) (desc : bool)
    (deadline : option (Deadline W)) (iter : Visitor W) (w0 : W) :
  never_fires deadline -> harmless iter -> always_continues iter ->
  (GoInt.len (values (run ops)) < 2 ^ 64)%Z ->
  exists w cs,
    SearchValues desc None deadline iter (mkEnv (run ops) w0 [])
    = Done true (mkEnv (run ops) w cs)
    /\ StronglySorted (if desc then flip call_value_lt else call_value_lt) cs
    /\ forall id o fs,
         mkCall id o fs ∈ cs
         <-> Get id (run ops) = Some (o, fs) /\ objIsSpatial o = false.
Proof.
  intros Hq Hp Ha Hlen. set (c := run ops) in *.
  pose proof (inv_index c (run_Inv ops)) as Hix.
  pose proof (ok_items_sorted c Hix) as Hs.
  pose proof (ok_values_sorted c Hix) as Hv.
  destruct (scan_visits_all deadline iter
              (fun c => if desc then bt_descend byValue None (values c)
                        else bt_ascend byValue None (values c))
              (mkEnv c w0 []) Hq Hp Ha) as [w Hw].
  { unfold GoInt.len in *. cbn [col].
    destruct desc; simpl; [rewrite length_rev|]; exact Hlen. }
  cbn [col calls app] in Hw.
  exists w, (map (call_of c) (if desc then rev (values c) else values c)).
  split; [|split].
  - destruct desc; exact Hw.
  - destruct desc.
    + apply (calls_sorted (flip value_lt)); [|apply sorted_rev; exact Hv].
      intros x y H. exact H.
    + apply (calls_sorted value_lt); [|exact Hv]. intros x y H. exact H.
  - intros id o fs. rewrite (Get_call c id o fs Hs), in_calls.
    assert (Hrev : forall it, it ∈ (if desc then rev (values c) else values c)
                              <-> it ∈ values c).
    { intros it. destruct desc; [|reflexivity].
      rewrite !list_elem_of_In. symmetry. apply in_rev. }
    split.
    + intros (it & Hin & Hc). apply Hrev in Hin. split.
      * exists it. split; [apply (ok_values_live c Hix), Hin|exact Hc].
      * injection Hc as _ <- _. apply (ok_values_string c Hix), Hin.
    + intros [(it & Hin & Hc) Hsp]. exists it. split; [|exact Hc].
      apply Hrev. apply (ok_string_indexed c Hix it Hin).
      injection Hc as _ Ho _. rewrite Ho. exact Hsp.
Qed.

Lemma SearchValues_visits_strings_sample :
  exists w cs,
    SearchValues true None None visit_all (mkEnv (run sample_ops) tt [])
    = Done true (mkEnv (run sample_ops) w cs)
    /\ StronglySorted (if true then flip call_value_lt else call_value_lt) cs
    /\ forall id o fs,
         mkCall id o fs ∈ cs
         <-> Get id (run sample_ops) = Some (o, fs) /\ objIsSpatial o = false.
Proof.
  apply (SearchValues_visits_strings sample_ops true None visit_all tt).
  - exact I.
  - intros id o fields w c. reflexivity.
  - intros id o fields w c. reflexivity.
  - vm_compute. reflexivity.
Defined.

Lemma sorted_filter {A} (R : A -> A -> Prop) (q : A -> bool) l :
  StronglySorted R l -> StronglySorted R (List.filter q l).
Proof.
  induction 1 as [|x l Hs IH Hall]; simpl; [constructor|].
  destruct (q x); [|exact IH]. constructor; [exact IH|].
  rewrite Forall_forall in Hall. apply Forall_forall. intros y Hy.
  apply Hall. apply list_elem_of_In in Hy. apply filter_In in Hy as [Hy _].
  apply list_elem_of_In. exact Hy.
Qed.

(** X12.  ScanGreaterOrEqual from an id: on a collection reached by
    mutations, with a visitor that always goes on and leaves the collection
    alone, ascending it visits, in ascending id order, exactly the objects
    whose id is not below the given id; descending it visits, in descending
    order, exactly the objects whose id is not above the given id. *)
Theorem ScanGreaterOrEqual_visits {W} (ops : list op) (id0 : string)
    (desc : bool) (deadline : option (Deadline W)) (iter : Visitor W)
    (w0 : W) :
  never_fires deadline -> harmless iter -> always_continues iter ->
  (GoInt.len (items (run ops)) < 2 ^ 64)%Z ->
  exists w cs,
    ScanGreaterOrEqual id0 desc None deadline iter (mkEnv (run ops) w0 [])
    = Done true (mkEnv (run ops) w cs)
    /\ StronglySorted (if desc then flip call_lt else call_lt) cs
    /\ forall id o fs,
         mkCall id o fs ∈ cs
         <-> Get id (run ops) = Some (o, fs)
             /\ (if desc then String.ltb id0 id else String.ltb id id0) = false.
Proof.
  intros Hq Hp Ha Hlen. set (c := run ops) in *.
  pose proof (ok_items_sorted c (inv_index c (run_Inv ops))) as Hs.
  pose proof (sorted_rev id_lt _ Hs) as Hr.
  set (cands := fun c : Collection =>
                  if desc then bt_descend byID (Some (keyItem id0)) (items c)
                  else bt_ascend byID (Some (keyItem id0)) (items c)).
  assert (Hcands : cands c
                   = if desc
                     then List.filter (fun y => negb (byID (keyItem id0) y))
                            (rev (items c))
                     else List.filter (fun y => negb (byID y (keyItem id0)))
                            (items c)).
  { unfold cands. destruct desc; simpl.
    - apply (seek_filter (flip id_lt)); [exact Hr|].
      intros y z. apply (byID_above_mono (keyItem id0)).
    - apply (seek_filter id_lt); [exact Hs|].
      intros y z. apply (byID_below_mono (keyItem id0)). }
  assert (Hsub : (length (cands c) <= length (items c))%nat).
  { rewrite Hcands. destruct desc.
    - rewrite <- (length_rev (items c)). apply List.filter_length_le.
    - apply List.filter_length_le. }
  destruct (scan_visits_all deadline iter cands (mkEnv c w0 []) Hq Hp Ha)
    as [w Hw].
  { unfold GoInt.len in *. cbn [col]. lia. }
  cbn [col calls app] in Hw.
  exists w, (map (call_of c) (cands c)).
  split; [exact Hw|split].
  - rewrite Hcands. destruct desc.
    + apply (calls_sorted (flip id_lt)); [intros x y H; exact H|].
      apply sorted_filter. exact Hr.
    + apply (calls_sorted id_lt); [intros x y H; exact H|].
      apply sorted_filter. exact Hs.
  - intros id o fs. rewrite (Get_call c id o fs Hs), in_calls, Hcands.
    split.
    + intros (it & Hin & Hc). apply list_elem_of_In in Hin.
      assert (Hid : item_id it = id) by (injection Hc; auto).
      destruct desc; apply filter_In in Hin as [Hin Hk];
        unfold byID in Hk; simpl in Hk; rewrite Hid in Hk;
        apply negb_true_iff in Hk; (split; [|exact Hk]);
        exists it; (split; [|exact Hc]); apply list_elem_of_In.
      * apply in_rev. exact Hin.
      * exact Hin.
    + intros [(it & Hin & Hc) Hk]. exists it. split; [|exact Hc].
      assert (Hid : item_id it = id) by (injection Hc; auto).
      apply list_elem_of_In in Hin. apply list_elem_of_In.
      destruct desc; apply filter_In; unfold byID; simpl; rewrite Hid, Hk;
        (split; [|reflexivity]).
      * apply -> in_rev. exact Hin.
      * exact Hin.
Qed.

Lemma ScanGreaterOrEqual_visits_sample :
  exists w cs,
    ScanGreaterOrEqual "b" true None None visit_all
      (mkEnv (run sample_ops) tt [])
    = Done true (mkEnv (run sample_ops) w cs)
    /\ StronglySorted (if true then flip call_lt else call_lt) cs
    /\ forall id o fs,
         mkCall id o fs ∈ cs
         <-> Get id (run sample_ops) = Some (o, fs)
             /\ (if true then String.ltb "b" id else String.ltb id "b") = false.
Proof.
  apply (ScanGreaterOrEqual_visits sample_ops "b" true None visit_all tt).
  - exact I.
  - intros id o fields w c. reflexivity.
  - intros id o fields w c. reflexivity.
  - vm_compute. reflexivity.
Defined.

(** ** No stale handle in the spatial index *)

Lemma in_ptrs (t : list entry) n :
  n ∈ map entry_ptr t <-> exists e, e ∈ t /\ entry_ptr e = n.
Proof.
  rewrite list_elem_of_In, in_map_iff. split.
  - intros (e & H1 & H2). exists e. rewrite list_elem_of_In. auto.
  - intros (e & H1 & H2). exists e. rewrite <- list_elem_of_In. auto.
Qed.

Lemma rt_delete_ptrs data t :
  NoDup (map entry_ptr t) ->
  NoDup (map entry_ptr (rt_delete data t))
  /\ forall e, e ∈ rt_delete data t -> entry_ptr e <> item_ptr data.
Proof.
  induction t as [|e t IH]; simpl; intros Hnd.
  - split; [constructor|]. intros e He. inversion He.
  - apply NoDup_cons in Hnd as [Hnot Hnd].
    destruct (Nat.eqb (item_ptr (edata e)) (item_ptr data)) eqn:E.
    + apply Nat.eqb_eq in E. split; [exact Hnd|].
      intros e' He' Heq. apply Hnot. apply in_ptrs. exists e'.
      split; [exact He'|]. unfold entry_ptr in *. congruence.
    + apply Nat.eqb_neq in E. destruct (IH Hnd) as [IH1 IH2]. split.
      * simpl. apply NoDup_cons. split; [|exact IH1].
        intros Hin. apply Hnot. apply in_ptrs in Hin as (e' & He' & Hp).
        apply in_ptrs. exists e'. split; [|exact Hp].
        eapply rt_delete_subset, He'.
      * intros e' He'. apply elem_of_cons in He' as [->|He'];
          [exact E|apply IH2, He'].
Qed.

Lemma index_without_ptrs old t :
  NoDup (map entry_ptr t) -> NoDup (map entry_ptr (index_without old t)).
Proof.
  intros Hnd. unfold index_without. destruct old as [o|]; [|exact Hnd].
  destruct (oSpatial (item_obj o) && negb (oEmpty (item_obj o)));
    [|exact Hnd].
  apply rt_delete_ptrs, Hnd.
Qed.

(** The displaced item is in no entry that is left. *)
Lemma index_without_old c o e :
  index_ok c -> index_live c ->
  e ∈ index_without (Some o) (index c) -> edata e <> o.
Proof.
  intros Hix Hlive He Heq. unfold index_without in He.
  destruct (oSpatial (item_obj o) && negb (oEmpty (item_obj o))) eqn:E.
  - destruct (rt_delete_ptrs o (index c) (live_once c Hlive)) as [_ H].
    apply (H e He). unfold entry_ptr. rewrite Heq. reflexivity.
  - destruct (ok_index_spatial c Hix e He) as [H1 H2].
    rewrite Heq in H1, H2. rewrite H1, H2 in E. discriminate.
Qed.

Lemma New_index_live : index_live New.
Proof.
  constructor; simpl.
  - intros e He. inversion He.
  - constructor.
  - intros e He. inversion He.
Qed.

Lemma index_live_frame c c' :
  items c' = items c -> index c' = index c -> index_live c -> index_live c'.
Proof.
  intros Hi Hx [H1 H2 H3]. constructor; rewrite ?Hi, Hx; assumption.
Qed.

Lemma Set_replace_index_live newItem c :
  item_ptr newItem = alloc c ->
  index_ok c -> index_live c -> index_live (Set_replace newItem c).1.
Proof.
  intros Hptr Hix Hlive.
  pose proof (ok_items_sorted c Hix) as Hs.
  assert (Hfresh : newItem ∉ items c).
  { intros Hin. pose proof (ok_alloc c Hix _ Hin). lia. }
  destruct (Set_replace_items newItem c) as (Hi & _).
  destruct (Set_replace_indexes newItem c) as (_ & Hx). cbv zeta in Hx.
  set (old := (bt_set byID newItem (items c)).1) in *.
  assert (Hkeep : forall e, e ∈ index_without old (index c) ->
                            edata e ∈ (bt_set byID newItem (items c)).2
                            /\ entry_ptr e < alloc c).
  { intros e He.
    pose proof (live_stored c Hlive e (index_without_subset _ _ _ He)) as Hin.
    split; [|apply (ok_alloc c Hix), Hin].
    apply (items_after_set _ _ _ Hs Hfresh). right. split; [exact Hin|].
    intros Hid.
    assert (Hold : old = Some (edata e)).
    { apply (bt_set_finds byID byID_irrefl byID_trans byID_compat); auto.
      apply byID_same_key. exact Hid. }
    rewrite Hold in He. exact (index_without_old c _ e Hix Hlive He eq_refl). }
  assert (Hrect : forall e, e ∈ index_without old (index c) ->
                  emin e = rect_min (oRect (item_obj (edata e)))
                  /\ emax e = rect_max (oRect (item_obj (edata e)))).
  { intros e He. apply (live_rect c Hlive), (index_without_subset _ _ _ He). }
  pose proof (index_without_ptrs old _ (live_once c Hlive)) as Hnd.
  constructor; rewrite ?Hi, Hx;
    destruct (oSpatial (item_obj newItem) && negb (oEmpty (item_obj newItem))).
  - intros e He. unfold rt_insert in He.
    apply elem_of_app in He as [He|He]; [apply Hkeep, He|].
    apply list_elem_of_singleton in He as ->. simpl. apply bt_set_new.
  - intros e He. apply Hkeep, He.
  - unfold rt_insert. rewrite map_app. apply NoDup_app. split; [exact Hnd|].
    split; [|simpl; apply NoDup_singleton].
    intros n Hn Hn'. simpl in Hn'. apply list_elem_of_singleton in Hn' as ->.
    apply in_ptrs in Hn as (e & He & Hp). destruct (Hkeep e He) as [_ Hlt].
    unfold entry_ptr in *. simpl in Hp. lia.
  - exact Hnd.
  - intros e He. unfold rt_insert in He.
    apply elem_of_app in He as [He|He]; [apply Hrect, He|].
    apply list_elem_of_singleton in He as ->. simpl. auto.
  - exact Hrect.
Qed.

Lemma Delete_index_live id c :
  index_ok c -> index_live c -> index_live (Delete id c).2.
Proof.
  intros Hix Hlive. pose proof (ok_items_sorted c Hix) as Hs.
  destruct (bt_delete byID (keyItem id) (items c)).1 as [old|] eqn:E.
  - destruct (Delete_present id c old E) as (_ & Hi & _ & Hx & _).
    cbv zeta in Hi, Hx. constructor; rewrite ?Hi, Hx.
    + intros e He.
      pose proof (live_stored c Hlive e (index_without_subset _ _ _ He)) as Hin.
      apply (items_after_delete _ _ _ Hs). split; [exact Hin|]. intros Hid.
      assert (Hold : (bt_delete byID (keyItem id) (items c)).1
                     = Some (edata e)).
      { apply (bt_delete_finds byID byID_irrefl byID_trans byID_compat); auto.
        apply byID_same_key. exact Hid. }
      rewrite E in Hold. injection Hold as ->.
      exact (index_without_old c _ e Hix Hlive He eq_refl).
    + apply index_without_ptrs, (live_once c Hlive).
    + intros e He.
      apply (live_rect c Hlive), (index_without_subset _ _ _ He).
  - rewrite (Delete_absent id c E). exact Hlive.
Qed.

Lemma apply_op_index_live c o :
  Inv c -> index_live c -> index_live (apply_op c o).
Proof.
  intros Hinv Hlive. pose proof (inv_index c Hinv) as Hix.
  destruct o as [id obj fields vals|id|id field value|id fs vs]; simpl.
  - rewrite Set'_halves.
    set (newItem := mkItem (alloc c) id obj).
    destruct (Set_fields_frame id newItem fields vals
                (Set_replace newItem c).2 (Set_replace newItem c).1)
      as (Hi & Hx & _).
    apply (index_live_frame _ _ Hi Hx).
    apply Set_replace_index_live; auto.
  - apply Delete_index_live; assumption.
  - unfold SetField. destruct (bt_get byID (keyItem id) (items c)) as [item|];
      [|exact Hlive].
    destruct (setField_frame item field value c) as (Hi & Hx & _).
    destruct (setField item field value c). simpl in *.
    apply (index_live_frame _ _ Hi Hx Hlive).
  - unfold SetFields. destruct (bt_get byID (keyItem id) (items c)) as [item|];
      [|exact Hlive].
    destruct (setField_range_frame item fs vs 0 0%Z c) as (Hi & Hx & _).
    destruct (setField_range item fs vs 0 0%Z c); simpl in *;
      apply (index_live_frame _ _ Hi Hx Hlive).
Qed.

Lemma fold_index_live ops :
  forall c, Inv c -> index_live c -> index_live (fold_left apply_op ops c).
Proof.
  induction ops as [|o ops IH]; intros c Hinv Hlive; [exact Hlive|].
  simpl. apply IH; [apply apply_op_Inv, Hinv|apply apply_op_index_live; auto].
Qed.

Lemma run_index_live ops : index_live (run ops).
Proof. apply fold_index_live; [exact New_Inv|exact New_index_live]. Qed.

Lemma NoDup_map_by {A B C} (f : A -> B) (g : A -> C) (l : list A) :
  (forall x y, x ∈ l -> y ∈ l -> f x = f y -> g x = g y) ->
  NoDup (map g l) -> NoDup (map f l).
Proof.
  induction l as [|x l IH]; simpl; intros Hfg Hnd; [constructor|].
  apply NoDup_cons in Hnd as [Hnot Hnd]. apply NoDup_cons. split.
  - intros Hin. apply Hnot. apply list_elem_of_In, in_map_iff in Hin
      as (y & Hy & Hin).
    apply list_elem_of_In, in_map_iff. exists y. split; [|exact Hin].
    symmetry. apply Hfg; [left|right; apply list_elem_of_In, Hin|auto].
  - apply IH; [|exact Hnd]. intros a b Ha Hb. apply Hfg; right; assumption.
Qed.

Lemma index_ids_once c :
  index_ok c -> index_live c -> NoDup (map entry_id (index c)).
Proof.
  intros Hix Hlive. apply (NoDup_map_by entry_id entry_ptr);
    [|apply (live_once c Hlive)].
  intros x y Hx Hy Hid. unfold entry_ptr. f_equal.
  apply (sorted_same_key_eq byID byID_irrefl byID_trans byID_compat
           (items c)).
  - apply (ok_items_sorted c Hix).
  - apply (live_stored c Hlive), Hx.
  - apply (live_stored c Hlive), Hy.
  - apply byID_same_key. exact Hid.
Qed.

(** X13.  No stale handle: after every sequence of mutations the spatial
    index holds exactly the stored items whose object is spatial and
    non-empty, no id twice, each under the rectangle of its object, and the
    value index holds exactly the stored items whose object is not spatial;
    nothing a Set replaced or a Delete removed is left in either. *)
Theorem indexes_hold_stored_items_only (ops : list op) :
  let c := run ops in
  (forall it, in_spatial_index it c
              <-> in_key_index it c /\ objIsSpatial (item_obj it) = true
                  /\ oEmpty (item_obj it) = false)
  /\ (forall it, in_value_index it c
                 <-> in_key_index it c /\ objIsSpatial (item_obj it) = false)
  /\ NoDup (map entry_id (index c))
  /\ (forall e, e ∈ index c ->
        emin e = rect_min (oRect (item_obj (edata e)))
        /\ emax e = rect_max (oRect (item_obj (edata e)))).
Proof.
  intros c. pose proof (inv_index c (run_Inv ops)) as Hix.
  pose proof (run_index_live ops) as Hlive. fold c in Hlive.
  unfold in_spatial_index, in_value_index, in_key_index, objIsSpatial.
  split; [|split; [|split]].
  - intros it. split.
    + intros Hin. apply list_elem_of_In, in_map_iff in Hin as (e & <- & He).
      apply list_elem_of_In in He.
      destruct (ok_index_spatial c Hix e He) as [H1 H2].
      split; [apply (live_stored c Hlive), He|auto].
    + intros (Hin & H1 & H2). apply (ok_spatial_indexed c Hix it Hin H1 H2).
  - intros it. split.
    + intros Hin. split; [apply (ok_values_live c Hix), Hin|].
      apply (ok_values_string c Hix), Hin.
    + intros [Hin H1]. apply (ok_string_indexed c Hix it Hin H1).
  - apply index_ids_once; assumption.
  - apply (live_rect c Hlive).
Qed.

(** ** Searches of the spatial index *)

Section SpatialPaging.
Context {W : Type}.
Variable cursor : option (Cursor W).
Variable deadline : option (Deadline W).
Variable iter : Visitor W.
Variable p : Call -> bool.
Variable test : Object -> Object -> bool.
Variable obj : Object.
Hypothesis quiet : never_fires deadline.
Hypothesis pure : harmless iter.
Hypothesis told : answers iter p.

Lemma walk_search_step offset f :
  search_step test obj offset p f ->
  forall (l : list entry) count (e : Env W),
    (0 <= count)%Z -> (count + GoInt.len l < 2 ^ 64)%Z ->
    let cs := map (fun en => call_of (col e) (edata en))
                (List.filter (fun en => test (item_obj (edata en)) obj)
                   (drop (Z.to_nat (offset - count)) l)) in
    exists count' w,
      walk f l (true, count) e
      = Done (forallb p cs, count')
          (mkEnv (col e) w (calls e ++ upto_reject p cs)).
Proof.
  intros Hstep. induction l as [|x l IH]; intros count e H0 Hlen cs.
  - subst cs. rewrite drop_nil. simpl. rewrite app_nil_r.
    exists count, (world e). destruct e; reflexivity.
  - unfold GoInt.len in *. simpl length in Hlen.
    specialize (Hstep x true count e ltac:(lia)). cbn [walk]. unfold bind at 1.
    destruct (Z.leb (count + 1) offset) eqn:Hle.
    + apply Z.leb_le in Hle. rewrite Hstep.
      destruct (IH (count + 1)%Z e ltac:(lia) ltac:(lia))
        as (count' & w & ->).
      subst cs.
      replace (Z.to_nat (offset - count))
        with (S (Z.to_nat (offset - (count + 1)))) by lia.
      eauto.
    + apply Z.leb_gt in Hle. subst cs.
      replace (Z.to_nat (offset - count)) with 0 by lia.
      rewrite drop_0. cbn [List.filter].
      destruct (test (item_obj (edata x)) obj).
      * destruct Hstep as [w1 ->]. cbn [map forallb upto_reject].
        destruct (p (call_of (col e) (edata x))) eqn:Hp.
        -- destruct (IH (count + 1)%Z
                       (mkEnv (col e) w1
                          (calls e ++ [call_of (col e) (edata x)]))
                       ltac:(lia) ltac:(lia)) as (count' & w & Hw).
           cbn [col calls] in Hw.
           replace (Z.to_nat (offset - (count + 1))) with 0 in Hw by lia.
           rewrite drop_0 in Hw. rewrite Hw.
           rewrite <- app_assoc. simpl. eauto.
        -- unfold ret. simpl. eauto.
      * destruct Hstep as [w1 ->].
        destruct (IH (count + 1)%Z (mkEnv (col e) w1 (calls e))
                    ltac:(lia) ltac:(lia)) as (count' & w & Hw).
        cbn [col calls] in Hw.
        replace (Z.to_nat (offset - (count + 1))) with 0 in Hw by lia.
        rewrite drop_0 in Hw. rewrite Hw. eauto.
Qed.

Lemma search_iter_step offset :
  search_step test obj offset p
    (fun (en : entry) (st : bool * Z) =>
       let item := edata en in
       bind get_col (fun c =>
         bind (search_iter test obj offset cursor deadline iter
                 (item_id item) (item_obj item)
                 (getFieldValues c (item_id item)) st.2)
              (fun x => let '(alive, s) := x in ret (alive, (alive, s))))).
Proof.
  intros en a count e Hc. destruct (count_step count Hc) as [Hu _].
  destruct (nextStep_pages cursor deadline quiet (count + 1) e) as [w1 Hn].
  destruct (Z.leb (count + 1) offset) eqn:Hle.
  - cbv zeta. unfold search_iter. unfold bind, get_col, ret. cbn [fst snd].
    rewrite Hu, Hle. reflexivity.
  - destruct (test (item_obj (edata en)) obj) eqn:Ht.
    + destruct (callVisitor_answers iter p pure told (item_id (edata en))
                  (item_obj (edata en))
                  (getFieldValues (col e) (item_id (edata en)))
                  (mkEnv (col e) w1 (calls e))) as [w2 Hv].
      exists w2. cbv zeta. unfold search_iter. unfold bind, get_col, ret. cbn [fst snd].
      rewrite Hu, Hle. cbv beta iota. rewrite Hn. cbv beta iota.
      rewrite Ht. cbv beta iota. cbn [col]. rewrite Hv. reflexivity.
    + exists w1. cbv zeta. unfold search_iter. unfold bind, get_col, ret. cbn [fst snd].
      rewrite Hu, Hle. cbv beta iota. rewrite Hn. cbv beta iota.
      rewrite Ht. reflexivity.
Qed.

Lemma geoSearch_pages rect offset (e : Env W) :
  (GoInt.len (index (col e)) < 2 ^ 64)%Z ->
  let cs := map (fun en => call_of (col e) (edata en))
              (List.filter (fun en => test (item_obj (edata en)) obj)
                 (drop (Z.to_nat offset)
                    (rt_search (rect_min rect) (rect_max rect)
                       (index (col e))))) in
  exists count' w,
    geoSearch rect (search_iter test obj offset cursor deadline iter) 0%Z e
    = Done (forallb p cs, count')
        (mkEnv (col e) w (calls e ++ upto_reject p cs)).
Proof.
  intros Hlen cs. unfold geoSearch. unfold bind at 1. unfold get_col at 1.
  assert (Hsub : (length (rt_search (rect_min rect) (rect_max rect)
                            (index (col e)))
                  <= length (index (col e)))%nat)
    by apply List.filter_length_le.
  destruct (walk_search_step offset _ (search_iter_step offset)
              (rt_search (rect_min rect) (rect_max rect) (index (col e)))
              0%Z e ltac:(lia) ltac:(unfold GoInt.len in *; lia))
    as (count' & w & Hw).
  rewrite Z.sub_0_r in Hw. exists count', w. exact Hw.
Qed.

(** Within and Intersects without sparse splitting are one search. *)
Lemma spatial_query_pages (e : Env W) :
  (GoInt.len (index (col e)) < 2 ^ 64)%Z ->
  let cs := map (fun en => call_of (col e) (edata en))
              (List.filter (fun en => test (item_obj (edata en)) obj)
                 (drop (cursor_offset cursor (world e))
                    (rt_search (rect_min (oRect obj)) (rect_max (oRect obj))
                       (index (col e))))) in
  exists w,
    Within test obj 0 cursor deadline iter e
    = Done (forallb p cs) (mkEnv (col e) w (calls e ++ upto_reject p cs))
    /\ Intersects test obj 0 cursor deadline iter e
       = Within test obj 0 cursor deadline iter e.
Proof.
  intros Hlen cs. unfold Within, Intersects. cbn [Nat.ltb Nat.leb].
  unfold bind at 1.
  destruct (cursor_begin_pages cursor e) as (offset & w0 & -> & Hoff).
  unfold bind at 1.
  destruct (geoSearch_pages (oRect obj) offset (mkEnv (col e) w0 (calls e))
              Hlen) as (count' & w & Hw).
  cbn [col calls] in Hw. rewrite Hoff in Hw. rewrite Hw.
  unfold ret. simpl. exists w. split; reflexivity.
Qed.
End SpatialPaging.

(** X14.  Paging and stopping Within and Intersects: without sparse
    splitting, with a deadline that does not fire and a visitor that leaves
    the collection alone and answers by the predicate p, the search takes
    the index entries whose rectangle overlaps the rectangle of obj, passes
    over the first cursor.Offset() of them whether or not they match, hands
    those of the rest that pass the geometric test to the visitor up to and
    including the first that p refuses, and returns whether none was
    refused. *)
Theorem spatial_search_offset_and_stop {W}
    (objWithin objIntersects : Object -> Object -> bool) (obj : Object)
    (cursor : option (Cursor W)) (deadline : option (Deadline W))
    (iter : Visitor W) (p : Call -> bool) (e : Env W) :
  never_fires deadline -> harmless iter -> answers iter p ->
  (GoInt.len (index (col e)) < 2 ^ 64)%Z ->
  let cands := drop (cursor_offset cursor (world e))
                 (rt_search (rect_min (oRect obj)) (rect_max (oRect obj))
                    (index (col e))) in
  let visits test :=
    map (fun en => call_of (col e) (edata en))
      (List.filter (fun en => test (item_obj (edata en)) obj : bool) cands) in
  (exists w,
     Within objWithin obj 0 cursor deadline iter e
     = Done (forallb p (visits objWithin))
         (mkEnv (col e) w (calls e ++ upto_reject p (visits objWithin))))
  /\ (exists w,
        Intersects objIntersects obj 0 cursor deadline iter e
        = Done (forallb p (visits objIntersects))
            (mkEnv (col e) w
               (calls e ++ upto_reject p (visits objIntersects)))).
Proof.
  intros Hq Hp Ht Hlen cands visits. split.
  - destruct (spatial_query_pages cursor deadline iter p objWithin obj
                Hq Hp Ht e Hlen) as (w & Hw & _).
    exists w. exact Hw.
  - destruct (spatial_query_pages cursor deadline iter p objIntersects obj
                Hq Hp Ht e Hlen) as (w & Hw & Hi).
    exists w. rewrite Hi. exact Hw.
Qed.

Lemma spatial_search_offset_and_stop_sample :
  (let cands := drop (cursor_offset (Some (sample_cursor 1))
                        (world (mkEnv (run sample_row) tt [])))
                  (rt_search (rect_min (oRect (sample_box 0 5)))
                     (rect_max (oRect (sample_box 0 5)))
                     (index (col (mkEnv (run sample_row) tt [])))) in
   let visits test :=
     map (fun en => call_of (col (mkEnv (run sample_row) tt [])) (edata en))
       (List.filter
          (fun en => test (item_obj (edata en)) (sample_box 0 5) : bool)
          cands) in
   (exists w,
      Within sample_test (sample_box 0 5) 0 (Some (sample_cursor 1)) None
        (visit_refusing "d") (mkEnv (run sample_row) tt [])
      = Done (forallb (refuses "d") (visits sample_test))
          (mkEnv (col (mkEnv (run sample_row) tt [])) w
             (calls (mkEnv (run sample_row) tt [])
              ++ upto_reject (refuses "d") (visits sample_test))))
   /\ (exists w,
         Intersects sample_test (sample_box 0 5) 0 (Some (sample_cursor 1))
           None (visit_refusing "d") (mkEnv (run sample_row) tt [])
         = Done (forallb (refuses "d") (visits sample_test))
             (mkEnv (col (mkEnv (run sample_row) tt [])) w
                (calls (mkEnv (run sample_row) tt [])
                 ++ upto_reject (refuses "d") (visits sample_test)))))
  /\ map call_id
       (calls (env_of (Within sample_test (sample_box 0 5) 0
                         (Some (sample_cursor 1)) None (visit_refusing "d")
                         (mkEnv (run sample_row) tt []))))
     = ["c"; "d"].
Proof.
  split.
  - apply (spatial_search_offset_and_stop sample_test sample_test
             (sample_box 0 5) (Some (sample_cursor 1)) None
             (visit_refusing "d") (refuses "d")
             (mkEnv (run sample_row) tt [])).
    + exact I.
    + intros id o fields w c. reflexivity.
    + intros id o fields w c. reflexivity.
    + vm_compute. reflexivity.
  - vm_compute. reflexivity.
Defined.

Lemma NoDup_map_filter {A B} (f : A -> B) (q : A -> bool) l :
  NoDup (map f l) -> NoDup (map f (List.filter q l)).
Proof.
  induction l as [|x l IH]; simpl; intros Hnd; [constructor|].
  apply NoDup_cons in Hnd as [Hnot Hnd]. destruct (q x); [|apply IH, Hnd].
  simpl. apply NoDup_cons. split; [|apply IH, Hnd].
  intros Hin. apply Hnot. apply list_elem_of_In, in_map_iff in Hin
    as (y & Hy & Hin).
  apply filter_In in Hin as [Hin _].
  apply list_elem_of_In, in_map_iff. exists y. auto.
Qed.

Lemma filter_twice {A} (p q : A -> bool) l :
  List.filter q (List.filter p l) = List.filter (fun x => p x && q x) l.
Proof.
  induction l as [|x l IH]; simpl; [reflexivity|].
  destruct (p x); simpl; [|exact IH]. destruct (q x); rewrite IH; reflexivity.
Qed.

Lemma entry_overlap mn mx en r :
  emin en = rect_min r -> emax en = rect_max r ->
  rt_intersects mn mx en
  = rt_intersects mn mx (mkEntry (rect_min r) (rect_max r) (keyItem "")).
Proof. intros H1 H2. unfold rt_intersects. simpl. rewrite H1, H2. reflexivity. Qed.

(** The visits of a complete search over a sub-list of the spatial index
    picked by [q]. *)
Lemma index_visits c (q : entry -> bool) (hit : Object -> bool) :
  index_ok c -> index_live c ->
  (forall en, en ∈ index c -> q en = hit (item_obj (edata en))) ->
  visits_exactly c (fun o => indexed_spatially o && hit o)
    (map (fun en => call_of c (edata en)) (List.filter q (index c))).
Proof.
  intros Hix Hlive Hq. pose proof (ok_items_sorted c Hix) as Hs. split.
  - rewrite map_map. simpl.
    apply (NoDup_map_filter entry_id), index_ids_once; assumption.
  - intros id o fs. rewrite (Get_call c id o fs Hs). split.
    + intros Hin. apply list_elem_of_In, in_map_iff in Hin as (en & Hc & Hin).
      apply filter_In in Hin as [Hin Hqe]. apply list_elem_of_In in Hin.
      destruct (ok_index_spatial c Hix en Hin) as [H1 H2].
      rewrite (Hq en Hin) in Hqe.
      assert (Ho : item_obj (edata en) = o) by (injection Hc; auto).
      rewrite Ho in *. split.
      * exists (edata en). split; [apply (live_stored c Hlive), Hin|exact Hc].
      * unfold indexed_spatially, objIsSpatial. rewrite H1, H2, Hqe.
        reflexivity.
    + intros [(it & Hin & Hc) Hhit].
      assert (Ho : item_obj it = o) by (injection Hc; auto).
      unfold indexed_spatially, objIsSpatial in Hhit.
      apply andb_true_iff in Hhit as [Hsp Hhit].
      apply andb_true_iff in Hsp as [H1 H2]. apply negb_true_iff in H2.
      rewrite <- Ho in H1, H2.
      pose proof (ok_spatial_indexed c Hix it Hin H1 H2) as Hidx.
      apply list_elem_of_In, in_map_iff in Hidx as (en & <- & Hen).
      apply list_elem_of_In, in_map_iff. exists en. split; [exact Hc|].
      apply filter_In. split; [exact Hen|].
      apply list_elem_of_In in Hen. rewrite (Hq en Hen), Ho. exact Hhit.
Qed.

(** X15.  What Within and Intersects visit: on a collection reached by
    mutations, searched without sparse splitting and without cursor by a
    visitor that always goes on and leaves the collection alone, both return
    true, visit no id twice, and visit (id, obj', fields) exactly when
    Get(id) reports obj' and fields, obj' is spatial and not empty, its
    rectangle overlaps the rectangle of obj, and obj' passes the geometric
    test against obj. *)
Theorem spatial_search_visits_matches {W} (ops : list op)
    (objWithin objIntersects : Object -> Object -> bool) (obj : Object)
    (deadline : option (Deadline W)) (iter : Visitor W) (w0 : W) :
  never_fires deadline -> harmless iter -> always_continues iter ->
  (GoInt.len (index (run ops)) < 2 ^ 64)%Z ->
  let hit test o :=
    indexed_spatially o && (rects_meet (oRect obj) (oRect o) && test o obj) in
  (exists w cs,
     Within objWithin obj 0 None deadline iter (mkEnv (run ops) w0 [])
     = Done true (mkEnv (run ops) w cs)
     /\ visits_exactly (run ops) (hit objWithin) cs)
  /\ (exists w cs,
        Intersects objIntersects obj 0 None deadline iter
          (mkEnv (run ops) w0 [])
        = Done true (mkEnv (run ops) w cs)
        /\ visits_exactly (run ops) (hit objIntersects) cs).
Proof.
  intros Hq Hp Ha Hlen hit. set (c := run ops) in *.
  pose proof (inv_index c (run_Inv ops)) as Hix.
  pose proof (run_index_live ops) as Hlive. fold c in Hlive.
  assert (H : forall test,
             exists w cs,
               Within test obj 0 None deadline iter (mkEnv c w0 [])
               = Done true (mkEnv c w cs)
               /\ Intersects test obj 0 None deadline iter (mkEnv c w0 [])
                  = Within test obj 0 None deadline iter (mkEnv c w0 [])
               /\ visits_exactly c (hit test) cs).
  { intros test.
    destruct (spatial_query_pages None deadline iter (fun _ => true) test obj
                Hq Hp (continues_answers iter Ha) (mkEnv c w0 []) Hlen)
      as (w & Hw & Hi).
    cbn [cursor_offset col world calls app] in Hw.
    rewrite drop_0, forallb_true, upto_reject_true in Hw.
    unfold rt_search in Hw. rewrite filter_twice in Hw.
    eexists w, _. split; [exact Hw|split; [exact Hi|]].
    apply (index_visits c _ (fun o => rects_meet (oRect obj) (oRect o)
                                     && test o obj) Hix Hlive).
    intros en Hen. destruct (live_rect c Hlive en Hen) as [H1 H2].
    rewrite (entry_overlap _ _ en _ H1 H2). reflexivity. }
  split.
  - destruct (H objWithin) as (w & cs & Hw & _ & Hv). eauto.
  - destruct (H objIntersects) as (w & cs & Hw & Hi & Hv).
    exists w, cs. rewrite Hi. auto.
Qed.

Lemma spatial_search_visits_matches_sample :
  let hit test o :=
    indexed_spatially o
    && (rects_meet (oRect (sample_box 0 5)) (oRect o)
        && test o (sample_box 0 5)) in
  (exists w cs,
     Within accept_all (sample_box 0 5) 0 None None visit_all
       (mkEnv (run sample_ops) tt [])
     = Done true (mkEnv (run sample_ops) w cs)
     /\ visits_exactly (run sample_ops) (hit accept_all) cs)
  /\ (exists w cs,
        Intersects accept_all (sample_box 0 5) 0 None None visit_all
          (mkEnv (run sample_ops) tt [])
        = Done true (mkEnv (run sample_ops) w cs)
        /\ visits_exactly (run sample_ops) (hit accept_all) cs).
Proof.
  apply (spatial_search_visits_matches sample_ops accept_all accept_all
           (sample_box 0 5) None visit_all tt).
  - exact I.
  - intros id o fields w c. reflexivity.
  - intros id o fields w c. reflexivity.
  - vm_compute. reflexivity.
Defined.

(** ** Nearby *)

Lemma rt_enqueue_perm p e q : Permutation (rt_enqueue p e q) (e :: q).
Proof.
  induction q as [|e' q IH]; simpl; [reflexivity|].
  destruct (PrimFloat.ltb _ _); [reflexivity|].
  rewrite IH. apply perm_swap.
Qed.

Lemma rt_nearby_perm p t : Permutation (rt_nearby p t) t.
Proof.
  unfold rt_nearby.
  assert (H : forall q, Permutation
                          (fold_left (fun q e => rt_enqueue p e q) t q)
                          (t ++ q)).
  { induction t as [|e t IH]; intros q; simpl; [reflexivity|].
    rewrite IH, rt_enqueue_perm. symmetry. apply Permutation_middle. }
  rewrite H, app_nil_r. reflexivity.
Qed.

Lemma visits_exactly_perm c hit (l l' : list entry) :
  Permutation l l' ->
  visits_exactly c hit (map (fun en => call_of c (edata en)) l') ->
  visits_exactly c hit (map (fun en => call_of c (edata en)) l).
Proof.
  intros Hperm [Hnd Hiff]. split.
  - assert (Hp2 : Permutation
                    (map call_id (map (fun en => call_of c (edata en)) l))
                    (map call_id (map (fun en => call_of c (edata en)) l')))
      by (apply Permutation_map, Permutation_map, Hperm).
    rewrite Hp2. exact Hnd.
  - intros id o fs. rewrite <- Hiff. rewrite !list_elem_of_In.
    split; apply Permutation_in, Permutation_map;
      [exact Hperm|symmetry; exact Hperm].
Qed.

Lemma filter_all_entries {A} (l : list A) : List.filter (fun _ => true) l = l.
Proof. induction l; simpl; congruence. Qed.

(** X16.  What Nearby visits: on a collection reached by mutations, for a
    target that carries no positive radius in meters, with no cursor and a
    visitor that always goes on and leaves the collection alone, Nearby
    returns true, visits no id twice, and visits (id, obj, fields) exactly
    when Get(id) reports obj and fields and obj is spatial and not empty. *)
Theorem Nearby_visits_every_spatial_object {W} (ops : list op)
    (RectFromCenter :
       float64 -> float64 -> float64 -> float64 * float64 * float64 * float64)
    (target : Object) (deadline : option (Deadline W)) (iter : Visitor W)
    (w0 : W) :
  never_fires deadline -> harmless iter -> always_continues iter ->
  (GoInt.len (index (run ops)) < 2 ^ 64)%Z ->
  (forall meters, oMeters target = Some meters ->
                  PrimFloat.ltb 0 meters = false) ->
  exists w cs,
    Nearby RectFromCenter target None deadline iter (mkEnv (run ops) w0 [])
    = Done true (mkEnv (run ops) w cs)
    /\ visits_exactly (run ops) indexed_spatially cs.
Proof.
  intros Hq Hp Ha Hlen Hm. set (c := run ops) in *.
  pose proof (inv_index c (run_Inv ops)) as Hix.
  pose proof (run_index_live ops) as Hlive. fold c in Hlive.
  pose proof (rt_nearby_perm (oCenter target) (index c)) as Hperm.
  unfold Nearby.
  assert (Hprobe :
    match oMeters target with
    | Some meters =>
        if PrimFloat.ltb 0 meters
        then nearby_probe RectFromCenter (oCenter target) meters
        else ret true
    | None => ret true
    end = (ret true : M W bool)).
  { destruct (oMeters target) as [m|]; [|reflexivity].
    rewrite (Hm m eq_refl). reflexivity. }
  rewrite Hprobe. unfold bind at 1. unfold ret at 1. cbn [negb].
  unfold bind at 1. unfold cursor_begin, ret at 1.
  unfold bind at 1. unfold get_col at 1. cbn [col]. unfold bind.
  destruct (walk_scan_iter None deadline iter (fun _ => true) Hq Hp
              (continues_answers iter Ha) edata 0%Z
              (rt_nearby (oCenter target) (index c)) 0%Z (mkEnv c w0 []))
    as (count' & w & Hw); [lia| |].
  { unfold GoInt.len in *. rewrite (Permutation_length Hperm). lia. }
  cbn [col calls app] in Hw. rewrite Z.sub_0_r in Hw. simpl Z.to_nat in Hw.
  rewrite drop_0, forallb_true, upto_reject_true in Hw.
  rewrite Hw. unfold ret. simpl. eexists w, _. split; [reflexivity|].
  apply (visits_exactly_perm c _ _ _ Hperm).
  rewrite <- (filter_all_entries (index c)).
  pose proof (index_visits c (fun _ => true) (fun _ => true) Hix Hlive
                (fun en _ => eq_refl)) as Hv.
  destruct Hv as [Hnd Hiff]. split; [exact Hnd|].
  intros id o fs. rewrite Hiff, andb_true_r. reflexivity.
Qed.

Lemma Nearby_visits_every_spatial_object_sample :
  exists w cs,
    Nearby sample_RectFromCenter (sample_point 0 0) None None visit_all
      (mkEnv (run sample_ops) tt [])
    = Done true (mkEnv (run sample_ops) w cs)
    /\ visits_exactly (run sample_ops) indexed_spatially cs.
Proof.
  apply (Nearby_visits_every_spatial_object sample_ops sample_RectFromCenter
           (sample_point 0 0) None visit_all tt).
  - exact I.
  - intros id o fields w c. reflexivity.
  - intros id o fields w c. reflexivity.
  - vm_compute. reflexivity.
  - intros meters H. discriminate H.
Defined.

(** ** When the deadline is consulted *)

Lemma no_check_below step :
  (0 <= step < 255)%Z -> Z.eqb (Z.land step yieldStep) yieldStep = false.
Proof.
  intros H. change yieldStep with (Z.ones 8).
  rewrite Z.land_ones by lia. change (2 ^ 8)%Z with 256%Z.
  rewrite Z.mod_small by lia. apply Z.eqb_neq.
  change (Z.ones 8) with 255%Z. lia.
Qed.

Lemma nextStep_no_check {W} step (cursor : option (Cursor W)) deadline :
  (0 <= step < 255)%Z ->
  nextStep step cursor deadline = nextStep step cursor None.
Proof.
  intros H. unfold nextStep. rewrite (no_check_below step H). reflexivity.
Qed.

Lemma scan_iter_no_check {W} offset (cursor : option (Cursor W)) deadline
    iter item s :
  (0 <= s.1 < 254)%Z ->
  scan_iter offset cursor deadline iter item s
  = scan_iter offset cursor None iter item s.
Proof.
  intros H. unfold scan_iter. rewrite GoIntFacts.u64_small by lia.
  rewrite (nextStep_no_check (s.1 + 1) cursor deadline) by lia. reflexivity.
Qed.

Lemma scan_iter_count {W} offset (cursor : option (Cursor W)) deadline iter
    item s (e : Env W) k s' e' :
  scan_iter offset cursor deadline iter item s e = Done (k, s') e' ->
  s'.1 = GoInt.u64 (s.1 + 1).
Proof.
  unfold scan_iter. destruct (Z.leb _ _).
  - unfold ret. intros [= _ <- _]. reflexivity.
  - unfold bind. destruct (nextStep _ _ _ e) as [[] e1|e1]; [|discriminate].
    unfold get_col, callVisitor.
    destruct (iter _ _ _ _ _) as [[keepon w] c]. unfold ret.
    intros [= _ <- _]. reflexivity.
Qed.

Lemma walk_no_check {W} offset (cursor : option (Cursor W)) deadline iter :
  forall l s (e : Env W),
    (0 <= s.1)%Z -> (s.1 + GoInt.len l < 255)%Z ->
    walk (scan_iter offset cursor deadline iter) l s e
    = walk (scan_iter offset cursor None iter) l s e.
Proof.
  induction l as [|x l IH]; intros s e H0 Hlen; [reflexivity|].
  unfold GoInt.len in *. simpl length in Hlen. cbn [walk]. unfold bind.
  rewrite scan_iter_no_check by lia.
  destruct (scan_iter offset cursor None iter x s e) as [[k s'] e'|e'] eqn:E;
    [|reflexivity].
  destruct k; [|reflexivity].
  apply scan_iter_count in E. rewrite GoIntFacts.u64_small in E by lia.
  apply IH; lia.
Qed.

(** X17.  The deadline is looked at only every 256th candidate: a Scan over
    fewer than 255 items never consults the deadline, so with any deadline,
    even one that has passed, any cursor and any visitor it runs exactly as
    with no deadline at all. *)
Theorem Scan_short_never_checks_deadline {W} (desc : bool)
    (cursor : option (Cursor W)) (deadline : option (Deadline W))
    (iter : Visitor W) (e : Env W) :
  (GoInt.len (items (col e)) < 255)%Z ->
  Scan desc cursor deadline iter e = Scan desc cursor None iter e.
Proof.
  intros Hlen. unfold Scan. unfold bind at 1 4.
  destruct (cursor_begin_pages cursor e) as (offset & w0 & -> & _).
  unfold bind at 1 3. unfold get_col. cbn [col]. unfold bind.
  rewrite walk_no_check; [reflexivity|simpl; lia|].
  unfold GoInt.len in *. cbn [fst].
  destruct desc; simpl; [rewrite length_rev|]; lia.
Qed.

Lemma Scan_short_never_checks_deadline_sample :
  Scan false None (Some sample_passed) visit_all sample_env
  = Scan false None None visit_all sample_env.
Proof.
  apply (Scan_short_never_checks_deadline false None (Some sample_passed)
           visit_all sample_env).
  vm_compute. reflexivity.
Defined.

Lemma walk_until_check {W} (d : Deadline W) (iter : Visitor W) :
  always_fires d -> harmless iter -> always_continues iter ->
  forall l count (e : Env W),
    (0 <= count <= 254)%Z -> (255 <= count + GoInt.len l)%Z ->
    exists w,
      walk (scan_iter 0 None (Some d) iter) l (count, true) e
      = DeadlinePanic
          (mkEnv (col e) w
             (calls e ++ map (call_of (col e))
                           (take (Z.to_nat (254 - count)) l))).
Proof.
  intros Hf Hp Ha. induction l as [|x l IH]; intros count e Hc Hlen.
  - unfold GoInt.len in Hlen. simpl in Hlen. lia.
  - unfold GoInt.len in *. simpl length in Hlen. cbn [walk]. unfold bind at 1.
    destruct (Z.eq_dec count 254%Z) as [->|Hne].
    + unfold scan_iter. cbn [fst snd]. change (GoInt.u64 (254 + 1)) with 255%Z.
      change (Z.leb 255 0) with false. cbv iota. unfold bind at 1.
      unfold nextStep. change (Z.eqb (Z.land 255 yieldStep) yieldStep) with true.
      cbv iota. unfold bind at 1. unfold deadline_Check.
      specialize (Hf (world e)).
      destruct (Check d (world e)) as [fires w]. simpl in Hf. subst fires.
      exists w. simpl. rewrite app_nil_r. reflexivity.
    + rewrite (scan_iter_no_check 0 None (Some d) iter x (count, true))
        by (simpl; lia).
      destruct (scan_iter_visits None iter I Hp Ha x count e ltac:(lia))
        as [w1 ->].
      destruct (IH (count + 1)%Z
                  (mkEnv (col e) w1 (calls e ++ [call_of (col e) x]))
                  ltac:(lia) ltac:(lia)) as [w Hw].
      cbn [col calls] in Hw. rewrite Hw. exists w.
      replace (Z.to_nat (254 - count))
        with (S (Z.to_nat (254 - (count + 1)))) by lia.
      cbn [take map]. rewrite <- app_assoc. reflexivity.
Qed.

(** X18.  A passed deadline stops a long Scan at the 255th item: with a
    deadline whose every Check fires, no cursor and a visitor that always
    goes on and leaves the collection alone, a Scan over 255 items or more
    visits the first 254 items of the key order and is then unwound by the
    deadline panic; the collection is as before. *)
Theorem Scan_deadline_fires_at_255 {W} (desc : bool) (d : Deadline W)
    (iter : Visitor W) (e : Env W) :
  always_fires d -> harmless iter -> always_continues iter ->
  (255 <= GoInt.len (items (col e)))%Z ->
  exists w,
    Scan desc None (Some d) iter e
    = DeadlinePanic
        (mkEnv (col e) w
           (calls e ++ map (call_of (col e))
                         (take 254 (if desc then rev (items (col e))
                                    else items (col e))))).
Proof.
  intros Hf Hp Ha Hlen. unfold Scan. unfold bind at 1.
  unfold cursor_begin, ret at 1. unfold bind at 1. unfold get_col at 1.
  unfold bind.
  destruct (walk_until_check d iter Hf Hp Ha
              (if desc then bt_descend byID None (items (col e))
               else bt_ascend byID None (items (col e)))
              0%Z e ltac:(lia)) as [w Hw].
  { unfold GoInt.len in *. destruct desc; simpl; [rewrite length_rev|]; lia. }
  rewrite Hw. exists w. destruct desc; reflexivity.
Qed.

Lemma Scan_deadline_fires_at_255_sample :
  exists w,
    Scan false None (Some sample_passed) visit_all
      (mkEnv (run sample_many) tt [])
    = DeadlinePanic
        (mkEnv (col (mkEnv (run sample_many) tt [])) w
           (calls (mkEnv (run sample_many) tt [])
            ++ map (call_of (col (mkEnv (run sample_many) tt [])))
                 (take 254 (if false
                            then rev (items (col (mkEnv (run sample_many) tt [])))
                            else items (col (mkEnv (run sample_many) tt [])))))).
Proof.
  apply (Scan_deadline_fires_at_255 false sample_passed visit_all
           (mkEnv (run sample_many) tt [])).
  - intros w. reflexivity.
  - intros id o fields w c. reflexivity.
  - intros id o fields w c. reflexivity.
  - vm_compute. discriminate.
Defined.

(** ** The binary search of the field names *)

Lemma bsearch_found_at arr val i :
  StronglySorted slt arr -> bsearch arr val = (i, true) ->
  arr !! i = Some val.
Proof.
  intros Hs. unfold bsearch.
  destruct (bsearch_split arr val Hs) as (Hr & Hlo & _).
  set (r := bsearch_loop (S (length arr)) arr val 0 (length arr)) in *.
  destruct (Nat.ltb_spec 0 r) as [Hpos|]; simpl; [|discriminate].
  destruct (lookup_lt_is_Some_2 arr (r - 1)) as [s Hs']; [lia|].
  rewrite Hs'. simpl.
  destruct (String.ltb s val) eqn:E; simpl; [discriminate|]. intros [= <-].
  assert (Hle : String.ltb val s = false).
  { rewrite Forall_lookup in Hlo. apply (Hlo (r - 1)).
    rewrite lookup_take_lt; [exact Hs'|lia]. }
  rewrite (StrOrd.ltb_total _ _ Hle E). exact Hs'.
Qed.

(** X19.  The contract of bsearch: on an array in strictly ascending order
    it reports found exactly when the value is an element, and then returns
    the index that holds it; otherwise it returns the insertion point, with
    every element before it below the value and every element from it on
    above. *)
Theorem bsearch_contract (arr : list string) (val : string) :
  StronglySorted slt arr ->
  match bsearch arr val with
  | (i, true) => arr !! i = Some val
  | (i, false) =>
      (val ∉ arr) /\ i <= length arr
      /\ Forall (fun s => slt s val) (take i arr)
      /\ Forall (fun s => slt val s) (drop i arr)
  end.
Proof.
  intros Hs. destruct (bsearch arr val) as [i [|]] eqn:E.
  - exact (bsearch_found_at arr val i Hs E).
  - destruct (bsearch_not_found arr val i Hs E) as (Hi & Hlo & Hhi).
    split; [|auto]. intros Hin.
    rewrite <- (take_drop i arr) in Hin. apply elem_of_app in Hin as [Hin|Hin].
    + rewrite Forall_forall in Hlo. specialize (Hlo _ Hin). unfold slt in Hlo.
      rewrite StrOrd.ltb_irrefl in Hlo. discriminate.
    + rewrite Forall_forall in Hhi. specialize (Hhi _ Hin). unfold slt in Hhi.
      rewrite StrOrd.ltb_irrefl in Hhi. discriminate.
Qed.

Lemma bsearch_contract_sample :
  match bsearch ["hp"; "mana"; "speed"] "luck" with
  | (i, true) => ["hp"; "mana"; "speed"] !! i = Some "luck"
  | (i, false) =>
      ("luck" ∉ ["hp"; "mana"; "speed"])
      /\ i <= length ["hp"; "mana"; "speed"]
      /\ Forall (fun s => slt s "luck") (take i ["hp"; "mana"; "speed"])
      /\ Forall (fun s => slt "luck" s) (drop i ["hp"; "mana"; "speed"])
  end.
Proof.
  apply (bsearch_contract ["hp"; "mana"; "speed"] "luck").
  repeat constructor.
Defined.

(** ** The columns of the field names *)

Lemma setField_fieldMap item field value c :
  fieldMap (setField item field value c).2 = register [field] (fieldMap c).
Proof.
  unfold setField, register. simpl.
  destruct (fieldMap c !! field) as [idx|] eqn:E; simpl.
  - reflexivity.
  - destruct (addToFieldArr_frame field
                (set_fieldMap (<[field := size (fieldMap c)]> (fieldMap c)) c))
      as (_ & _ & _ & Hm & _).
    cbv zeta in Hm. unfold setFieldValues. simpl. rewrite Hm. reflexivity.
Qed.

Lemma register_app ks ks' m :
  register (ks ++ ks') m = register ks' (register ks m).
Proof. unfold register. apply fold_left_app. Qed.

Lemma setField_range_fieldMap item fields vals :
  forall i n c,
    exists ks, ks `prefix_of` fields
      /\ fieldMap (state_of (setField_range item fields vals i n c))
         = register ks (fieldMap c)
      /\ (forall k c', setField_range item fields vals i n c = Returns k c' ->
                       ks = fields).
Proof.
  induction fields as [|f fields IH]; intros i n c.
  - exists []. simpl. auto.
  - cbn [setField_range]. destruct (vals !! i) as [v|].
    + pose proof (setField_fieldMap item f v c) as Hm.
      destruct (setField item f v c) as [updated c1]. simpl in Hm.
      destruct (IH (S i) (if updated then GoInt.add n 1 else n) c1)
        as (ks & Hpre & Hks & Hret).
      exists (f :: ks). split; [apply prefix_cons, Hpre|]. split.
      * rewrite Hks, Hm. symmetry. apply (register_app [f] ks).
      * intros k c' H. f_equal. eapply Hret, H.
    + exists []. split; [apply prefix_nil|]. split; [reflexivity|].
      intros k c' H. discriminate H.
Qed.

(** The names an operation registers: a prefix of the names it was given,
    all of them when it returns. *)
Lemma apply_op_fieldMap c o :
  exists ks, ks `prefix_of` op_fields o
    /\ fieldMap (apply_op c o) = register ks (fieldMap c).
Proof.
  destruct o as [id obj fields vals|id|id field value|id fs vs]; simpl.
  - rewrite Set'_halves. set (newItem := mkItem (alloc c) id obj).
    destruct (Set_replace_items newItem c) as (_ & _ & _ & Hm & _).
    unfold Set_fields. destruct fields as [fields|].
    + destruct (setField_range_fieldMap newItem fields vals 0 0%Z
                  (Set_replace newItem c).1) as (ks & Hpre & Hks & _).
      exists ks. split; [exact Hpre|]. rewrite <- Hm, <- Hks.
      destruct (setField_range newItem fields vals 0 0%Z _); reflexivity.
    + exists []. split; [reflexivity|].
      destruct (Nat.ltb 0 (length vals)); simpl; exact Hm.
  - exists []. split; [reflexivity|].
    destruct (bt_delete byID (keyItem id) (items c)).1 as [old|] eqn:E.
    + destruct (Delete_present id c old E) as (_ & _ & _ & _ & _ & Hm & _).
      exact Hm.
    + rewrite (Delete_absent id c E). reflexivity.
  - unfold SetField. destruct (bt_get byID (keyItem id) (items c)) as [item|].
    + exists [field]. split; [reflexivity|].
      pose proof (setField_fieldMap item field value c) as Hm.
      destruct (setField item field value c). exact Hm.
    + exists []. split; [apply prefix_nil|reflexivity].
  - unfold SetFields. destruct (bt_get byID (keyItem id) (items c)) as [item|].
    + destruct (setField_range_fieldMap item fs vs 0 0%Z c)
        as (ks & Hpre & Hks & _).
      exists ks. split; [exact Hpre|]. rewrite <- Hks.
      destruct (setField_range item fs vs 0 0%Z c); reflexivity.
    + exists []. split; [apply prefix_nil|reflexivity].
Qed.

Lemma fold_apply_op_fieldMap ops :
  forall c, exists ks,
    fieldMap (fold_left apply_op ops c) = register ks (fieldMap c).
Proof.
  induction ops as [|o ops IH]; intros c; [exists []; reflexivity|].
  simpl. destruct (apply_op_fieldMap c o) as (ks1 & _ & H1).
  destruct (IH (apply_op c o)) as (ks2 & H2).
  exists (ks1 ++ ks2). rewrite H2, H1. symmetry. apply register_app.
Qed.

Lemma register_keeps ks :
  forall m k v, m !! k = Some v -> register ks m !! k = Some v.
Proof.
  induction ks as [|f ks IH]; intros m k v H; [exact H|].
  change (register (f :: ks) m)
    with (register ks (match m !! f with
                       | Some _ => m
                       | None => <[f := size m]> m
                       end)).
  apply IH. destruct (m !! f) eqn:E; [exact H|].
  rewrite lookup_insert_ne; [exact H|]. intros ->. congruence.
Qed.

Lemma register_dense ks :
  forall m, columns_dense m -> columns_dense (register ks m).
Proof.
  induction ks as [|f ks IH]; intros m H; [exact H|].
  change (register (f :: ks) m)
    with (register ks (match m !! f with
                       | Some _ => m
                       | None => <[f := size m]> m
                       end)).
  apply IH. destruct (m !! f) eqn:E; [exact H|].
  intros i Hi. rewrite map_size_insert_None in Hi by exact E.
  destruct (decide (i = size m)) as [->|Hne].
  - exists f. apply lookup_insert_eq.
  - destruct (H i ltac:(lia)) as [k Hk]. exists k.
    rewrite lookup_insert_ne; [exact Hk|]. intros ->. congruence.
Qed.

(** X20.  A field keeps its column: once a field name has a column, every
    later sequence of Set, Delete, SetField and SetFields, returning or
    panicking, leaves the name in that column, so the rows written before
    are still read by the same name. *)
Theorem field_columns_stable (ops ops' : list op) (k : string) (v : nat) :
  FieldMap (run ops) !! k = Some v ->
  FieldMap (run (ops ++ ops')) !! k = Some v.
Proof.
  unfold FieldMap, run. rewrite fold_left_app. intros H.
  destruct (fold_apply_op_fieldMap ops' (fold_left apply_op ops New))
    as [ks ->].
  apply register_keeps, H.
Qed.

Lemma field_columns_stable_sample :
  FieldMap (run (sample_ops ++ [OpSetField "a" "luck" 1; OpDelete "a"]))
    !! "speed" = Some 0.
Proof.
  apply (field_columns_stable sample_ops
           [OpSetField "a" "luck" 1%float; OpDelete "a"] "speed" 0).
  vm_compute. reflexivity.
Defined.

(** X21.  Columns are handed out densely: after every sequence of mutations
    the columns in use are exactly 0 .. n-1 for the n registered field
    names, and the array of field names has n elements. *)
Theorem field_columns_dense (ops : list op) :
  let c := run ops in
  (forall i, i < size (FieldMap c) <-> exists k, FieldMap c !! k = Some i)
  /\ length (FieldArr c) = size (FieldMap c).
Proof.
  intros c. unfold FieldMap, FieldArr.
  destruct (inv_fields c (run_Inv ops)) as (Hlt & Hinj & Hs & Hdom). split.
  - intros i. split.
    + revert i. change (columns_dense (fieldMap c)).
      destruct (fold_apply_op_fieldMap ops New) as [ks Hks].
      unfold c, run. rewrite Hks. apply register_dense.
      intros i Hi. simpl in Hi. rewrite map_size_empty in Hi. lia.
    + intros [k Hk]. exact (Hlt k i Hk).
  - transitivity (length ((map_to_list (fieldMap c)).*1));
      [|rewrite length_fmap; apply length_map_to_list].
    apply Permutation_length. apply NoDup_Permutation.
    + clear -Hs. induction Hs as [|x l Hs' IH Hall]; constructor; auto.
      intros Hin. rewrite Forall_forall in Hall. specialize (Hall _ Hin).
      unfold slt in Hall. rewrite StrOrd.ltb_irrefl in Hall. discriminate.
    + apply NoDup_fst_map_to_list.
    + intros k. rewrite Hdom. rewrite list_elem_of_fmap. split.
      * intros [v Hv]. exists (k, v). split; [reflexivity|].
        apply elem_of_map_to_list. exact Hv.
      * intros ([k' v] & -> & Hkv). apply elem_of_map_to_list in Hkv.
        simpl. eauto.
Qed.

(** ** A sparse search visits no id twice *)

Section Invariance.
Context {W : Type}.
Variable Q : Env W -> Prop.

Lemma holds_bind {A B} (P1 : A -> Env W -> Prop) (P2 : B -> Env W -> Prop)
    (m : M W A) (k : A -> M W B) e :
  holds P1 Q (m e) ->
  (forall a e', P1 a e' -> holds P2 Q (k a e')) ->
  holds P2 Q (bind m k e).
Proof.
  unfold bind. destruct (m e) as [a e'|e']; simpl; intros H Hk; auto.
Qed.

Lemma walk_inv {A L} (P : L -> Env W -> Prop)
    (f : A -> L -> M W (bool * L)) :
  (forall x s e, P s e -> holds (fun r => P r.2) Q (f x s e)) ->
  forall l s e, P s e -> holds P Q (walk f l s e).
Proof.
  intros Hf. induction l as [|x l IH]; intros s e H; [exact H|].
  cbn [walk]. apply (holds_bind (fun r => P r.2)); [apply Hf, H|].
  intros [k s'] e' H'. simpl in H'. destruct k; [apply IH, H'|exact H'].
Qed.

Lemma geoSearch_inv {L} (P : L -> Env W -> Prop) rect
    (iter : string -> Object -> list float64 -> L -> M W (bool * L)) :
  (forall id o fs s e, P s e -> holds (fun r => P r.2) Q (iter id o fs s e)) ->
  forall s e, P s e -> holds (fun r => P r.2) Q (geoSearch rect iter s e).
Proof.
  intros Hi s e H. unfold geoSearch.
  apply (holds_bind (fun _ e' => P s e')); [exact H|].
  intros c e' H'. apply (walk_inv (fun st => P st.2)); [|exact H'].
  intros en st e1 H1. cbv zeta.
  apply (holds_bind (fun _ e2 => P st.2 e2)); [exact H1|].
  intros c2 e2 H2.
  apply (holds_bind (fun r => P r.2)); [apply Hi, H2|].
  intros [alive s'] e3 H3. exact H3.
Qed.

Lemma geoSparseInner_inv {L} (P : L -> Env W -> Prop)
    (iter : string -> Object -> list float64 -> L
            -> M W ((bool * bool) * L)) :
  (forall id o fs s e, P s e -> holds (fun r => P r.2) Q (iter id o fs s e)) ->
  forall sparse rect s e,
    P s e -> holds (fun r => P r.2) Q (geoSparseInner rect sparse iter s e).
Proof.
  intros Hi. induction sparse as [|sparse IH]; intros rect s e H.
  - cbn [geoSparseInner].
    apply (holds_bind (fun r => P r.2.2)).
    + apply (geoSearch_inv (fun st => P st.2)); [|exact H].
      intros id o fs st e1 H1.
      apply (holds_bind (fun r => P r.2)); [apply Hi, H1|].
      intros [[mtch ok] s'] e2 H2. simpl in H2.
      destruct (negb ok); exact H2.
    + intros [alive st] e1 H1. exact H1.
  - cbn [geoSparseInner].
    apply (walk_inv (fun st => P st.2)); [|exact H].
    intros quad st e1 H1.
    apply (holds_bind (fun r => P r.2)); [apply IH, H1|].
    intros [ok s'] e2 H2. exact H2.
Qed.
End Invariance.

Section SparseOnce.
Context {W : Type}.
Variable test : Object -> Object -> bool.
Variable obj : Object.
Variable cursor : option (Cursor W).
Variable deadline : option (Deadline W).
Variable iter : Visitor W.
Variable base : list Call.

Lemma nextStep_calls step (e : Env W) :
  calls (env_of (nextStep step cursor deadline e)) = calls e.
Proof.
  unfold nextStep, bind, deadline_Check, ret, cursor_Step.
  destruct (Z.eqb _ _).
  - destruct deadline as [d|].
    + destruct (Check d (world e)) as [[|] w]; [reflexivity|].
      destruct cursor; reflexivity.
    + destruct cursor; reflexivity.
  - destruct cursor; reflexivity.
Qed.

Lemma visited_once_calls m (e e' : Env W) :
  calls e' = calls e -> visited_once base m e -> visited_once base m e'.
Proof. intros Hc (news & H1 & H2). exists news. rewrite Hc. auto. Qed.

(** The callback of geoSparse around the callback of Within or Intersects. *)
Lemma sparse_callback_once offset id o fs (st : gmap string bool * Z) e :
  visited_once base st.1 e ->
  holds (fun r e' => visited_once base r.2.1 e')
        (fun e' => exists m, visited_once base m e')
    ((if negb (default false (st.1 !! id)) then
        bind (sparse_iter test obj offset cursor deadline iter id o fs st.2)
          (fun x => let '(mo, s) := x in
                    let '(mtch, ok) := mo : bool * bool in
                    ret ((mtch, ok),
                         (if mtch then <[id := true]> st.1 else st.1, s)))
      else ret ((false, true), st)) e).
Proof.
  intros H. destruct (default false (st.1 !! id)) eqn:Em; cbn [negb];
    [exact H|].
  unfold sparse_iter. destruct (Z.leb _ _); [exact H|].
  unfold bind at 1. unfold bind at 1.
  pose proof (nextStep_calls (GoInt.u64 (st.2 + 1)) e) as Hn.
  destruct (nextStep _ cursor deadline e) as [[] e1|e1]; simpl in Hn.
  2:{ exists st.1. apply (visited_once_calls _ e); auto. }
  apply (visited_once_calls _ _ _ Hn) in H.
  destruct (test o obj); [|exact H].
  unfold bind, callVisitor.
  destruct (iter id o fs (world e1) (col e1)) as [[ok w] c]. simpl.
  destruct H as (news & Hc & Hnd & Hm).
  exists (news ++ [mkCall id o fs]). split; [|split].
  - rewrite Hc, app_assoc. reflexivity.
  - rewrite map_app. apply NoDup_app. split; [exact Hnd|]. split.
    + intros k Hk Hk'. simpl in Hk'. apply list_elem_of_singleton in Hk' as ->.
      apply list_elem_of_In, in_map_iff in Hk as (x & Hx & Hin).
      apply list_elem_of_In in Hin. specialize (Hm x Hin).
      rewrite Hx in Hm. rewrite Hm in Em. discriminate.
    + simpl. apply NoDup_singleton.
  - intros k Hk. apply elem_of_app in Hk as [Hk|Hk].
    + destruct (decide (call_id k = id)) as [<-|Hne].
      * apply lookup_insert_eq.
      * rewrite lookup_insert_ne by auto. apply Hm, Hk.
    + apply list_elem_of_singleton in Hk as ->. apply lookup_insert_eq.
Qed.

Lemma geoSparse_once offset sparse (e : Env W) :
  calls e = base ->
  exists news,
    calls (env_of (geoSparse obj sparse
                     (sparse_iter test obj offset cursor deadline iter)
                     0%Z e))
    = base ++ news
    /\ NoDup (map call_id news).
Proof.
  intros Hb. unfold geoSparse.
  assert (H0 : visited_once base (∅ : gmap string bool) e).
  { exists []. rewrite app_nil_r. split; [exact Hb|]. split; [constructor|].
    intros k Hk. inversion Hk. }
  pose proof (geoSparseInner_inv
                (fun e' => exists m, visited_once base m e')
                (fun (st : gmap string bool * Z) e' =>
                   visited_once base st.1 e')
                _ (fun id o fs st e => sparse_callback_once offset id o fs st e)
                sparse (oRect obj) (∅, 0%Z) e H0) as H.
  unfold bind.
  match goal with
  | H : holds _ _ ?r |- context [match ?r' with _ => _ end] =>
      change r' with r; destruct r as [[ok st] e'|e']
  end; simpl in *.
  - destruct H as (news & H1 & H2 & _). eauto.
  - destruct H as (m & news & H1 & H2 & _). eauto.
Qed.
End SparseOnce.

(** X22.  A sparse search visits no id twice: with sparse above zero,
    whatever the cursor, the deadline and the visitor do, and however the
    quadrants overlap, the visits Within and Intersects add are to pairwise
    distinct ids, also when the search is unwound by the deadline. *)
Theorem sparse_search_visits_once {W}
    (objWithin objIntersects : Object -> Object -> bool) (obj : Object)
    (sparse : nat) (cursor : option (Cursor W))
    (deadline : option (Deadline W)) (iter : Visitor W) (e : Env W) :
  (exists news,
     calls (env_of (Within objWithin obj (S sparse) cursor deadline iter e))
     = calls e ++ news
     /\ NoDup (map call_id news))
  /\ (exists news,
        calls (env_of (Intersects objIntersects obj (S sparse) cursor deadline
                         iter e))
        = calls e ++ news
        /\ NoDup (map call_id news)).
Proof.
  assert (H : forall test,
             exists news,
               calls (env_of (Within test obj (S sparse) cursor deadline
                                iter e))
               = calls e ++ news
               /\ NoDup (map call_id news)
               /\ Intersects test obj (S sparse) cursor deadline iter e
                  = Within test obj (S sparse) cursor deadline iter e).
  { intros test.
    assert (Heq : Intersects test obj (S sparse) cursor deadline iter e
                  = Within test obj (S sparse) cursor deadline iter e)
      by reflexivity.
    unfold Within. cbn [Nat.ltb Nat.leb]. unfold bind at 1.
    destruct (cursor_begin_pages cursor e) as (offset & w0 & -> & _).
    destruct (geoSparse_once test obj cursor deadline iter (calls e) offset
                (S sparse) (mkEnv (col e) w0 (calls e)) eq_refl)
      as (news & Hc & Hnd).
    exists news. split; [|split; [exact Hnd|exact Heq]].
    unfold bind.
    destruct (geoSparse obj (S sparse) _ 0%Z _) as [r e'|e']; exact Hc. }
  split.
  - destruct (H objWithin) as (news & H1 & H2 & _). eauto.
  - destruct (H objIntersects) as (news & H1 & H2 & H3).
    exists news. rewrite H3. auto.
Qed.

(** * The Kafka endpoint connection *)

Ltac kafka_done :=
  split; simpl; auto; try (intros; congruence); try set_solver.

Lemma kafka_Expired_tidy now k n :
  Kafka.tidy (k, n) -> Kafka.tidy (Kafka.Expired now k n).2.
Proof.
  unfold Kafka.tidy, Kafka.Expired, Kafka.close, Kafka.held. simpl.
  intros [Ho Hx]. destruct (Kafka.ex k) eqn:Ex; simpl; [auto|].
  destruct (Z.gtb _ _); simpl; [|kafka_done].
  destruct (Kafka.conn k) as [p|] eqn:E; simpl; rewrite ?E; kafka_done.
Qed.

Lemma kafka_Send_tidy msg r k n :
  Kafka.tidy (k, n) -> Kafka.tidy (Kafka.Send msg r k n).2.
Proof.
  unfold Kafka.tidy, Kafka.Send, Kafka.close, Kafka.held. simpl.
  intros [Ho Hx]. destruct (Kafka.ex k) eqn:Ex; simpl; [auto|].
  destruct (Kafka.conn k) as [p|] eqn:E; simpl.
  - destruct (Kafka.sendErr r); [|destruct (Z.ltb _ _)]; simpl;
      rewrite ?E; simpl; rewrite ?E; kafka_done.
  - destruct (if Kafka.TLS (Kafka.ep k) then Kafka.tlsErr r else None);
      simpl; rewrite ?E; [kafka_done|].
    destruct (Kafka.dialErr r); simpl; rewrite ?E; [kafka_done|].
    destruct (Kafka.sendErr r); [|destruct (Z.ltb _ _)]; simpl; kafka_done.
Qed.

Lemma kafka_step_tidy s c : Kafka.tidy s -> Kafka.tidy (Kafka.step s c).
Proof.
  destruct s as [k n]. destruct c as [now|msg r]; simpl.
  - apply kafka_Expired_tidy.
  - apply kafka_Send_tidy.
Qed.

Lemma kafka_fold_tidy cs :
  forall s, Kafka.tidy s -> Kafka.tidy (fold_left Kafka.step cs s).
Proof.
  induction cs as [|c cs IH]; intros s H; [exact H|].
  simpl. apply IH, kafka_step_tidy, H.
Qed.

Lemma kafka_history_tidy e now cs : Kafka.tidy (Kafka.history e now cs).
Proof. apply kafka_fold_tidy. split; simpl; [reflexivity|discriminate]. Qed.

(** X23.  No producer is leaked: after any calls of Expired and Send on a
    fresh connection, whatever the clock, the dials and the broker answered,
    the only producer still open is the one the connection holds; a
    connection that has expired holds none, so none is open. *)
Theorem kafka_no_producer_leak (e : Kafka.Endpoint) (now : Z)
    (cs : list Kafka.call) :
  let s := Kafka.history e now cs in
  Kafka.opened s.2 = Kafka.held s.1
  /\ (Kafka.ex s.1 = true -> Kafka.conn s.1 = None /\ Kafka.opened s.2 = ∅).
Proof.
  intros s. destruct (kafka_history_tidy e now cs) as [Ho Hx].
  fold s in Ho, Hx. split; [exact Ho|]. intros H.
  split; [apply Hx, H|]. rewrite Ho. unfold Kafka.held.
  rewrite (Hx H). reflexivity.
Qed.

Lemma kafka_expired_step s c :
  Kafka.ex s.1 = true -> Kafka.step s c = s.
Proof.
  destruct s as [k n]. simpl. intros H.
  destruct c as [now|msg r]; simpl.
  - unfold Kafka.Expired. rewrite H. reflexivity.
  - unfold Kafka.Send. rewrite H. reflexivity.
Qed.

Lemma kafka_expired_fold cs :
  forall s, Kafka.ex s.1 = true -> fold_left Kafka.step cs s = s.
Proof.
  induction cs as [|c cs IH]; intros s H; [reflexivity|].
  simpl. rewrite (kafka_expired_step s c H). apply IH, H.
Qed.

(** X24.  Expiry is final: once a connection has expired, every later
    Expired returns true and every later Send returns errExpired without
    dialling or sending, so no further calls change the connection or the
    open producers. *)
Theorem kafka_expired_is_final (e : Kafka.Endpoint) (now : Z)
    (cs cs' : list Kafka.call) :
  let s := Kafka.history e now cs in
  Kafka.ex s.1 = true ->
  Kafka.history e now (cs ++ cs') = s
  /\ (forall now', Kafka.Expired now' s.1 s.2 = (true, s))
  /\ (forall msg r, Kafka.Send msg r s.1 s.2 = (Some Kafka.errExpired, s)).
Proof.
  intros s H. split; [|split].
  - unfold Kafka.history. rewrite fold_left_app.
    apply kafka_expired_fold, H.
  - intros now'. unfold Kafka.Expired. rewrite H. destruct s; reflexivity.
  - intros msg r. unfold Kafka.Send. rewrite H. destruct s; reflexivity.
Qed.

Lemma kafka_expired_is_final_sample :
  let s := Kafka.history Kafka.sample_endpoint 0
             [Kafka.CallSend "m" (Kafka.sample_reply 5);
              Kafka.CallExpired 40000000000] in
  Kafka.history Kafka.sample_endpoint 0
    ([Kafka.CallSend "m" (Kafka.sample_reply 5);
      Kafka.CallExpired 40000000000]
     ++ [Kafka.CallSend "m" (Kafka.sample_reply 6)]) = s
  /\ (forall now', Kafka.Expired now' s.1 s.2 = (true, s))
  /\ (forall msg r, Kafka.Send msg r s.1 s.2 = (Some Kafka.errExpired, s)).
Proof.
  apply (kafka_expired_is_final Kafka.sample_endpoint 0
           [Kafka.CallSend "m" (Kafka.sample_reply 5);
            Kafka.CallExpired 40000000000]
           [Kafka.CallSend "m" (Kafka.sample_reply 6)]).
  vm_compute. reflexivity.
Defined.

(** X25.  The thirty seconds count from the last Send: after a Send on a
    connection that has not expired, whether it succeeded or failed, the
    next Expired returns true exactly when more than thirty seconds have
    passed since that Send; exactly thirty seconds is not yet expired. *)
Theorem kafka_send_keeps_alive (msg : string) (r : Kafka.Reply)
    (k : Kafka.KafkaConn) (n : Kafka.Net) (now' : Z) :
  Kafka.ex k = false ->
  let s := (Kafka.Send msg r k n).2 in
  (Kafka.Expired now' s.1 s.2).1
  = Z.gtb (Kafka.Sub now' (Kafka.now r)) Kafka.kafkaExpiresAfter.
Proof.
  intros H s.
  assert (Hs : Kafka.ex s.1 = false /\ Kafka.t s.1 = Kafka.now r).
  { subst s. unfold Kafka.Send. rewrite H. simpl.
    destruct (Kafka.conn k) as [p|]; simpl.
    - destruct (Kafka.sendErr r); [|destruct (Z.ltb _ _)];
        unfold Kafka.close; simpl; auto.
    - destruct (if Kafka.TLS (Kafka.ep k) then Kafka.tlsErr r else None);
        [simpl; auto|].
      destruct (Kafka.dialErr r); [simpl; auto|].
      destruct (Kafka.sendErr r); [|destruct (Z.ltb _ _)];
        unfold Kafka.close; simpl; auto. }
  destruct Hs as [Hex Ht]. unfold Kafka.Expired. rewrite Hex, Ht. simpl.
  destruct (Z.gtb _ _); [|reflexivity].
  unfold Kafka.close. destruct (Kafka.conn s.1); reflexivity.
Qed.

Lemma kafka_send_keeps_alive_sample :
  let s := (Kafka.Send "m" (Kafka.sample_reply 5)
              (Kafka.newKafkaConn Kafka.sample_endpoint 0)
              (Kafka.mkNet 0 ∅)).2 in
  (Kafka.Expired 30000000005 s.1 s.2).1
  = Z.gtb (Kafka.Sub 30000000005 (Kafka.now (Kafka.sample_reply 5)))
      Kafka.kafkaExpiresAfter.
Proof.
  apply (kafka_send_keeps_alive "m" (Kafka.sample_reply 5)
           (Kafka.newKafkaConn Kafka.sample_endpoint 0) (Kafka.mkNet 0 ∅)
           30000000005).
  reflexivity.
Defined.

(** X26.  A failed Send keeps no producer: on a connection that has not
    expired, a Send that returns an error leaves the connection without a
    producer (the one it had or dialled is closed), so the next Send dials
    again; a Send that returns nil leaves it with a producer, the one it
    already had if it had one. *)
Theorem kafka_failed_send_drops_producer (msg : string) (r : Kafka.Reply)
    (k : Kafka.KafkaConn) (n : Kafka.Net) :
  Kafka.ex k = false ->
  match Kafka.Send msg r k n with
  | (Some _, (k', _)) => Kafka.conn k' = None
  | (None, (k', _)) =>
      match Kafka.conn k with
      | Some p => Kafka.conn k' = Some p
      | None => Kafka.conn k' = Some (Kafka.next n)
      end
  end.
Proof.
  intros H. unfold Kafka.Send. rewrite H. simpl.
  destruct (Kafka.conn k) as [p|] eqn:E; simpl.
  - destruct (Kafka.sendErr r); [|destruct (Z.ltb _ _)];
      unfold Kafka.close; simpl; rewrite ?E; auto.
  - destruct (if Kafka.TLS (Kafka.ep k) then Kafka.tlsErr r else None);
      [simpl; auto|].
    destruct (Kafka.dialErr r); [simpl; auto|].
    destruct (Kafka.sendErr r); [|destruct (Z.ltb _ _)];
      unfold Kafka.close; simpl; auto.
Qed.

Lemma kafka_failed_send_drops_producer_sample :
  match Kafka.Send "m" (Kafka.mkReply 5 None None (Some "broken pipe") 0)
          (Kafka.newKafkaConn Kafka.sample_endpoint 0) (Kafka.mkNet 0 ∅) with
  | (Some _, (k', _)) => Kafka.conn k' = None
  | (None, (k', _)) =>
      match Kafka.conn (Kafka.newKafkaConn Kafka.sample_endpoint 0) with
      | Some p => Kafka.conn k' = Some p
      | None => Kafka.conn k' = Some (Kafka.next (Kafka.mkNet 0 ∅))
      end
  end.
Proof.
  apply (kafka_failed_send_drops_producer "m"
           (Kafka.mkReply 5 None None (Some "broken pipe") 0)
           (Kafka.newKafkaConn Kafka.sample_endpoint 0) (Kafka.mkNet 0 ∅)).
  reflexivity.
Defined.

(** * Edge cases of the collection *)

(** ** Queries on a collection that stores nothing *)

Lemma nothing_stored c :
  index_ok c -> index_live c ->
  (forall id, Get id c = None) ->
  items c = [] /\ values c = [] /\ index c = [].
Proof.
  intros Hix Hlive Hnone. pose proof (ok_items_sorted c Hix) as Hs.
  assert (Hi : items c = []).
  { destruct (items c) as [|it l] eqn:E; [reflexivity|]. exfalso.
    rewrite <- E in Hs.
    specialize (Hnone (item_id it)). rewrite Get_as_lookup in Hnone.
    rewrite (proj2 (items_get_Some (items c) (item_id it) it Hs)) in Hnone;
      [discriminate|].
    rewrite E. split; [left|reflexivity]. }
  split; [exact Hi|]. split.
  - destruct (values c) as [|it l] eqn:E; [reflexivity|]. exfalso.
    assert (Hin : it ∈ items c) by (apply (ok_values_live c Hix); rewrite E; left).
    rewrite Hi in Hin. inversion Hin.
  - destruct (index c) as [|en l] eqn:E; [reflexivity|]. exfalso.
    assert (Hin : edata en ∈ items c)
      by (apply (live_stored c Hlive); rewrite E; left).
    rewrite Hi in Hin. inversion Hin.
Qed.

Lemma geoSearch_empty {W L} rect
    (iter : string -> Object -> list float64 -> L -> M W (bool * L)) s e :
  index (col e) = [] -> geoSearch rect iter s e = Done (true, s) e.
Proof.
  intros H. unfold geoSearch, bind, get_col, rt_search. rewrite H. reflexivity.
Qed.

Lemma geoSparseInner_empty {W L}
    (iter : string -> Object -> list float64 -> L -> M W ((bool * bool) * L))
    sparse :
  forall rect s e,
    index (col e) = [] -> geoSparseInner rect sparse iter s e = Done (true, s) e.
Proof.
  induction sparse as [|sparse IH]; intros rect s e H; cbn [geoSparseInner].
  - unfold bind. rewrite geoSearch_empty by exact H. reflexivity.
  - unfold quads. cbn [walk]. unfold bind, ret.
    rewrite !IH by exact H. reflexivity.
Qed.

(** X27.  Queries on a collection that stores nothing: on a collection
    reached by mutations in which Get finds no id (never filled, or emptied
    again by Delete), every query with a nil cursor returns true at once,
    whatever its arguments: the visitor is not called, the deadline is not
    consulted and nothing changes. *)
Theorem queries_on_empty_collection {W} (ops : list op)
    (objWithin objIntersects : Object -> Object -> bool)
    (RectFromCenter :
       float64 -> float64 -> float64 -> float64 * float64 * float64 * float64)
    (start end_ : string) (desc : bool) (obj : Object) (sparse : nat)
    (deadline : option (Deadline W)) (iter : Visitor W) (w : W)
    (cs : list Call) :
  (forall id, Get id (run ops) = None) ->
  let e := mkEnv (run ops) w cs in
  Scan desc None deadline iter e = Done true e
  /\ ScanRange start end_ desc None deadline iter e = Done true e
  /\ ScanGreaterOrEqual start desc None deadline iter e = Done true e
  /\ SearchValues desc None deadline iter e = Done true e
  /\ SearchValuesRange start end_ desc None deadline iter e = Done true e
  /\ Within objWithin obj sparse None deadline iter e = Done true e
  /\ Intersects objIntersects obj sparse None deadline iter e = Done true e
  /\ Nearby RectFromCenter obj None deadline iter e = Done true e.
Proof.
  intros Hnone e.
  destruct (nothing_stored (run ops) (inv_index _ (run_Inv ops))
              (run_index_live ops) Hnone) as (Hi & Hv & Hx).
  assert (Hsp : forall test,
             Within test obj sparse None deadline iter e = Done true e).
  { intros test. unfold Within, bind, cursor_begin, ret.
    destruct (Nat.ltb 0 sparse).
    - unfold geoSparse, bind. rewrite geoSparseInner_empty by exact Hx.
      reflexivity.
    - rewrite geoSearch_empty by exact Hx. reflexivity. }
  repeat split.
  - unfold Scan, bind, cursor_begin, ret, get_col. cbn [col e].
    rewrite Hi. destruct desc; reflexivity.
  - unfold ScanRange, bind, cursor_begin, ret, get_col. cbn [col e].
    rewrite Hi. destruct desc; reflexivity.
  - unfold ScanGreaterOrEqual, bind, cursor_begin, ret, get_col. cbn [col e].
    rewrite Hi. destruct desc; reflexivity.
  - unfold SearchValues, bind, cursor_begin, ret, get_col. cbn [col e].
    rewrite Hv. destruct desc; reflexivity.
  - unfold SearchValuesRange, bind, cursor_begin, ret, get_col. cbn [col e].
    rewrite Hv. destruct desc; reflexivity.
  - apply Hsp.
  - apply (Hsp objIntersects).
  - unfold Nearby, nearby_probe.
    destruct (oMeters obj) as [m|]; [destruct (PrimFloat.ltb 0 m)|].
    + destruct (RectFromCenter _ _ _) as [[[a b] c'] d].
      unfold bind, get_col, rt_search. cbn [col e]. rewrite Hx. reflexivity.
    + unfold bind, cursor_begin, ret, get_col, rt_nearby. cbn [col e negb].
      rewrite Hx. reflexivity.
    + unfold bind, cursor_begin, ret, get_col, rt_nearby. cbn [col e negb].
      rewrite Hx. reflexivity.
Qed.

Lemma queries_on_empty_collection_sample :
  let e := mkEnv (run [OpSet "a" (sample_point 1 2) None []; OpDelete "a"])
             tt [] in
  Scan false None (Some sample_passed) visit_stop e = Done true e
  /\ ScanRange "a" "z" false None (Some sample_passed) visit_stop e
     = Done true e
  /\ ScanGreaterOrEqual "a" false None (Some sample_passed) visit_stop e
     = Done true e
  /\ SearchValues false None (Some sample_passed) visit_stop e = Done true e
  /\ SearchValuesRange "a" "z" false None (Some sample_passed) visit_stop e
     = Done true e
  /\ Within accept_all (sample_box 0 5) 2 None (Some sample_passed)
       visit_stop e = Done true e
  /\ Intersects accept_all (sample_box 0 5) 2 None (Some sample_passed)
       visit_stop e = Done true e
  /\ Nearby sample_RectFromCenter (sample_box 0 5) None (Some sample_passed)
       visit_stop e = Done true e.
Proof.
  apply (queries_on_empty_collection
           [OpSet "a" (sample_point 1 2) None []; OpDelete "a"]
           accept_all accept_all sample_RectFromCenter "a" "z" false
           (sample_box 0 5) 2 (Some sample_passed) visit_stop tt []).
  intros id. unfold Get. reflexivity.
Defined.

(** ** Set of a new id, undone by Delete *)

Lemma bt_delete_set_fresh (less : itemT -> itemT -> bool) x k t :
  less x x = false ->
  (forall y, less k y = less x y) -> (forall y, less y k = less y x) ->
  (forall y, y ∈ t -> ~ same_key less y x) ->
  (bt_set less x t).1 = None
  /\ bt_delete less k (bt_set less x t).2 = (Some x, t).
Proof.
  intros Hirr Hk1 Hk2. induction t as [|y t IH]; intros Hfresh; simpl.
  - rewrite Hk1, Hk2, Hirr. auto.
  - destruct (less x y) eqn:E1; simpl.
    + rewrite Hk1, Hk2, Hirr. auto.
    + destruct (less y x) eqn:E2.
      * destruct (IH (fun z Hz => Hfresh z (list_elem_of_further _ _ _ Hz)))
          as [H1 H2].
        destruct (bt_set less x t) as [old r]. simpl in *.
        rewrite Hk1, Hk2, E1, E2, H2. auto.
      * exfalso. apply (Hfresh y (list_elem_of_here _ _)). split; assumption.
Qed.

Lemma rt_delete_insert_fresh x a b t :
  (forall e, e ∈ t -> entry_ptr e <> item_ptr x) ->
  rt_delete x (rt_insert a b x t) = t.
Proof.
  unfold rt_insert. induction t as [|e t IH]; intros Hfresh; simpl.
  - rewrite Nat.eqb_refl. reflexivity.
  - pose proof (Hfresh e (list_elem_of_here _ _)) as He.
    apply Nat.eqb_neq in He. unfold entry_ptr in He. rewrite He.
    rewrite IH; [reflexivity|].
    intros e' He'. apply Hfresh. right. exact He'.
Qed.

Lemma Collection_ext (a b : Collection) :
  items a = items b -> index a = index b -> values a = values b ->
  fieldMap a = fieldMap b -> fieldArr a = fieldArr b ->
  fieldValues a = fieldValues b -> weight a = weight b ->
  points a = points b -> objects a = objects b -> nobjects a = nobjects b ->
  alloc a = alloc b -> a = b.
Proof. destruct a, b. simpl. intros. subst. reflexivity. Qed.

(** X28.  Set of a new id is undone by Delete: on a collection reached by
    mutations, when Get(id) finds nothing, Set(id, obj) without fields
    followed by Delete(id) returns obj with the empty row and leaves the
    items, the three indexes, the field table, the rows and the four
    counters exactly as they were; only the supply of fresh handles has
    moved on. *)
Theorem Set_then_Delete_restores (ops : list op) (id : string) (obj : Object) :
  Get id (run ops) = None ->
  exists c1,
    Set' id obj None [] (run ops) = Returns (None, [], []) c1
    /\ Delete id c1
       = (Some (obj, []), set_alloc (S (alloc (run ops))) (run ops)).
Proof.
  intros Hnone. set (c := run ops) in *.
  pose proof (run_Inv ops) as Hinv. fold c in Hinv.
  pose proof (run_index_live ops) as Hlive. fold c in Hlive.
  pose proof (inv_index c Hinv) as Hix.
  pose proof (ok_items_sorted c Hix) as Hs.
  set (new := mkItem (alloc c) id obj).
  assert (Hfree : forall y, y ∈ items c -> item_id y <> id).
  { apply (items_get_None _ id Hs). rewrite Get_as_lookup in Hnone.
    destruct (bt_get byID (keyItem id) (items c)); [discriminate|reflexivity]. }
  destruct (bt_delete_set_fresh byID new (keyItem id) (items c)
              (byID_irrefl new) (fun y => eq_refl) (fun y => eq_refl))
    as [Hold Hdel].
  { intros y Hy Hk. apply byID_same_key in Hk. exact (Hfree y Hy Hk). }
  destruct (Set_replace_items new c) as (Hi1 & Ho1 & Hfv1 & Hfm1 & Hfa1 & Hal1).
  destruct (Set_replace_indexes new c) as (Hv1 & Hx1). cbv zeta in Hv1, Hx1.
  rewrite Hold in Hv1, Hx1. simpl in Hv1, Hx1.
  set (c1 := (Set_replace new c).1) in *.
  assert (Hset : Set' id obj None [] c = Returns (None, [], []) c1).
  { rewrite Set'_halves. fold new. fold c1. rewrite Ho1, Hold. reflexivity. }
  exists c1. split; [exact Hset|].
  assert (Hinv1 : Inv c1).
  { pose proof (Set'_Inv id obj None [] c Hinv) as H. rewrite Hset in H.
    exact H. }
  pose proof (Delete_Inv id c1 Hinv1) as Hinv2.
  assert (Hd : (bt_delete byID (keyItem id) (items c1)).1 = Some new)
    by (rewrite Hi1, Hdel; reflexivity).
  destruct (Delete_present id c1 new Hd)
    as (Hr & Hi2 & Hv2 & Hx2 & Hfv2 & Hfm2 & Hfa2 & Hal2 & _).
  cbv zeta in *. set (c2 := (Delete id c1).2) in *.
  assert (Hrow : fieldValues c !! id = None).
  { apply (inv_rows c Hinv). exact Hfree. }
  assert (Hitems : items c2 = items c) by (rewrite Hi2, Hi1, Hdel; reflexivity).
  assert (Hrows : fieldValues c2 = fieldValues c).
  { rewrite Hfv2, Hfv1. apply delete_id, Hrow. }
  assert (Hvalues : values c2 = values c).
  { rewrite Hv2. unfold values_without. simpl. rewrite Hv1.
    destruct (oSpatial obj) eqn:Esp; [reflexivity|].
    destruct (bt_delete_set_fresh byValue new new (values c)
                (byValue_irrefl new) (fun y => eq_refl) (fun y => eq_refl))
      as [_ H]; [|rewrite H; reflexivity].
    intros y Hy Hk. apply byValue_same_key in Hk as [_ Hk].
    exact (Hfree y (ok_values_live c Hix y Hy) Hk). }
  assert (Hindex : index c2 = index c).
  { rewrite Hx2. unfold index_without. simpl. rewrite Hx1.
    destruct (oSpatial obj && negb (oEmpty obj)); [|reflexivity].
    apply rt_delete_insert_fresh. intros en Hen. unfold entry_ptr. simpl.
    pose proof (ok_alloc c Hix _ (live_stored c Hlive en Hen)). lia. }
  assert (Heq : c2 = set_alloc (S (alloc c)) c).
  { destruct (inv_counters c Hinv) as (Hc1 & Hc2 & Hc3).
    destruct (inv_counters c2 Hinv2) as (Hc1' & Hc2' & Hc3').
    pose proof (inv_weight c Hinv) as Hw. pose proof (inv_weight c2 Hinv2) as Hw'.
    unfold weight_ok, recount_weight, recount_points in *.
    rewrite Hitems in Hc1', Hc2', Hc3', Hw'. rewrite Hrows in Hw'.
    apply Collection_ext; simpl; try assumption; try congruence. }
  rewrite <- Heq. rewrite (surjective_pairing (Delete id c1)). f_equal.
  rewrite Hr. unfold getFieldValues. rewrite Hfv1, Hrow. reflexivity.
Qed.

Lemma Set_then_Delete_restores_sample :
  exists c1,
    Set' "q" (sample_point 3 4) None [] (run sample_ops)
    = Returns (None, [], []) c1
    /\ Delete "q" c1
       = (Some (sample_point 3 4, []),
          set_alloc (S (alloc (run sample_ops))) (run sample_ops)).
Proof.
  apply (Set_then_Delete_restores sample_ops "q" (sample_point 3 4)).
  vm_compute. reflexivity.
Defined.

(** ** How many objects a sparse search visits *)

Section SparseBound.
Context {W : Type}.
Variable test : Object -> Object -> bool.
Variable obj : Object.
Variable cursor : option (Cursor W).
Variable deadline : option (Deadline W).
Variable iter : Visitor W.

Lemma adds_upto_ret {A} (a : A) (e : Env W) n : adds_upto n e (ret a e).
Proof. exists []. simpl. rewrite app_nil_r. split; [reflexivity|lia]. Qed.

Lemma adds_upto_bind {A B} (m : M W A) (k : A -> M W B) a b (e : Env W) :
  adds_upto a e (m e) ->
  (forall x e', adds_upto b e' (k x e')) ->
  adds_upto (a + b) e (bind m k e).
Proof.
  intros (n1 & H1 & L1) Hk. unfold bind.
  destruct (m e) as [x e'|e']; simpl in H1.
  - destruct (Hk x e') as (n2 & H2 & L2). exists (n1 ++ n2).
    rewrite H2, H1, app_assoc, length_app. split; [reflexivity|lia].
  - exists n1. simpl. split; [exact H1|lia].
Qed.

Lemma walk_adds {A L} (f : A -> L -> M W (bool * L)) b :
  (forall x s e, adds_upto b e (f x s e)) ->
  forall l s e, adds_upto (length l * b) e (walk f l s e).
Proof.
  intros Hf. induction l as [|x l IH]; intros s e.
  - apply adds_upto_ret.
  - cbn [walk]. simpl length. apply (adds_upto_bind _ _ b (length l * b)).
    + apply Hf.
    + intros [k s'] e'. destruct k; [apply IH|apply adds_upto_ret].
Qed.

Lemma walk_visits_then_stops {A L} (f : A -> L -> M W (bool * L)) :
  (forall x s e, visits_then_stops e (f x s e)) ->
  forall l s e, adds_upto 1 e (walk f l s e).
Proof.
  intros Hf. induction l as [|x l IH]; intros s e.
  - apply adds_upto_ret.
  - cbn [walk]. unfold bind. specialize (Hf x s e).
    destruct (f x s e) as [[k s'] e'|e']; simpl in Hf.
    + destruct Hf as [Hc|(-> & kc & Hc)].
      * destruct k.
        -- destruct (IH s' e') as (news & H1 & H2). exists news.
           rewrite H1, Hc. auto.
        -- exists []. simpl. rewrite app_nil_r. split; [exact Hc|lia].
      * exists [kc]. simpl. split; [exact Hc|lia].
    + exists []. simpl. rewrite app_nil_r. split; [exact Hf|lia].
Qed.

Lemma geoSparse_unfold sparse offset (e : Env W) :
  geoSparse obj sparse (sparse_iter test obj offset cursor deadline iter) 0%Z e
  = bind (geoSparseInner (oRect obj) sparse
            (sparse_callback test obj offset cursor deadline iter) (∅, 0%Z))
      (fun x => let '(_, st) := x in ret (true, st.2)) e.
Proof. reflexivity. Qed.

Lemma geoSparseInner_leaf {L} rect
    (it : string -> Object -> list float64 -> L -> M W ((bool * bool) * L))
    s (e : Env W) :
  geoSparseInner rect 0 it s e
  = bind (geoSearch rect (leaf_callback it) (true, s))
      (fun x => let '(_, st) := x in ret st) e.
Proof. reflexivity. Qed.

Lemma sparse_leaf_step offset id o fs (st : bool * (gmap string bool * Z)) e :
  visits_then_stops e
    (leaf_callback (sparse_callback test obj offset cursor deadline iter)
       id o fs st e).
Proof.
  unfold leaf_callback, sparse_callback.
  destruct (default false (st.2.1 !! id)); cbn [negb].
  - unfold bind, ret. simpl. left. reflexivity.
  - unfold sparse_iter. destruct (Z.leb _ _).
    + unfold bind, ret. simpl. left. reflexivity.
    + unfold bind at 1 2 3.
      pose proof (nextStep_calls cursor deadline (GoInt.u64 (st.2.2 + 1)) e)
        as Hn.
      destruct (nextStep _ cursor deadline e) as [[] e1|e1]; simpl in Hn;
        [|exact Hn].
      destruct (test o obj).
      * unfold bind, callVisitor, ret.
        destruct (iter id o fs (world e1) (col e1)) as [[ok w] c]. simpl.
        destruct ok; simpl; right; rewrite Hn; eauto.
      * unfold ret. simpl. left. exact Hn.
Qed.

Lemma geoSearch_adds_one {L} rect
    (it : string -> Object -> list float64 -> L -> M W (bool * L)) :
  (forall id o fs s e, visits_then_stops e (it id o fs s e)) ->
  forall s e, adds_upto 1 e (geoSearch rect it s e).
Proof.
  intros Hit s e. unfold geoSearch. unfold bind at 1. unfold get_col at 1.
  apply walk_visits_then_stops. intros en st e1. cbv zeta.
  unfold bind at 1. unfold get_col at 1. unfold bind.
  specialize (Hit (item_id (edata en)) (item_obj (edata en))
                (getFieldValues (col e1) (item_id (edata en))) st.2 e1).
  destruct (it _ _ _ st.2 e1) as [[alive s'] e2|e2]; exact Hit.
Qed.

Lemma geoSparseInner_adds offset :
  forall sparse rect st e,
    adds_upto (4 ^ sparse) e
      (geoSparseInner rect sparse
         (sparse_callback test obj offset cursor deadline iter) st e).
Proof.
  induction sparse as [|sparse IH]; intros rect st e.
  - rewrite geoSparseInner_leaf.
    apply (adds_upto_bind _ _ 1 0); [|intros [a st'] e'; apply adds_upto_ret].
    apply geoSearch_adds_one. intros id o fs s e1. apply sparse_leaf_step.
  - cbn [geoSparseInner].
    replace (4 ^ S sparse) with (length (quads rect) * (4 ^ sparse + 0))
      by (simpl; lia).
    apply walk_adds. intros quad s e1.
    apply adds_upto_bind; [apply IH|].
    intros [ok s'] e2. apply adds_upto_ret.
Qed.

Lemma sparse_query_adds sparse (e : Env W) :
  adds_upto (4 ^ S sparse) e
    (Within test obj (S sparse) cursor deadline iter e).
Proof.
  unfold Within. cbn [Nat.ltb Nat.leb]. unfold bind at 1.
  destruct (cursor_begin_pages cursor e) as (offset & w0 & -> & _).
  assert (H : adds_upto (4 ^ S sparse + 0 + 0) (mkEnv (col e) w0 (calls e))
                (bind (geoSparse obj (S sparse)
                         (sparse_iter test obj offset cursor deadline iter)
                         0%Z)
                   (fun r => ret r.1) (mkEnv (col e) w0 (calls e)))).
  { apply adds_upto_bind; [|intros r e'; apply adds_upto_ret].
    unfold adds_upto. rewrite geoSparse_unfold.
    apply adds_upto_bind; [apply geoSparseInner_adds|].
    intros [a st] e'. apply adds_upto_ret. }
  rewrite !Nat.add_0_r in H. exact H.
Qed.
End SparseBound.

(** X29.  A sparse search visits at most 4^sparse objects: with sparse
    above zero, whatever the cursor, the deadline and the visitor do, Within
    and Intersects call the visitor at most once in each of the 4^sparse
    leaf quadrants, so they add at most 4^sparse visits. *)
Theorem sparse_search_visits_at_most {W}
    (objWithin objIntersects : Object -> Object -> bool) (obj : Object)
    (sparse : nat) (cursor : option (Cursor W))
    (deadline : option (Deadline W)) (iter : Visitor W) (e : Env W) :
  (exists news,
     calls (env_of (Within objWithin obj (S sparse) cursor deadline iter e))
     = calls e ++ news
     /\ length news <= 4 ^ S sparse)
  /\ (exists news,
        calls (env_of (Intersects objIntersects obj (S sparse) cursor deadline
                         iter e))
        = calls e ++ news
        /\ length news <= 4 ^ S sparse).
Proof.
  split.
  - exact (sparse_query_adds objWithin obj cursor deadline iter sparse e).
  - exact (sparse_query_adds objIntersects obj cursor deadline iter sparse e).
Qed.

(** ** A sparse search ends at the first candidate that fails the test *)

Lemma concat_map_concat {A B C} (f : B -> list C) (g : A -> list B) l :
  concat (map f (concat (map g l)))
  = concat (map (fun x => concat (map f (g x))) l).
Proof.
  induction l as [|x l IH]; simpl; [reflexivity|].
  rewrite map_app, concat_app, IH. reflexivity.
Qed.

Lemma sparse_candidates_quads c rect sparse :
  sparse_candidates c rect (S sparse)
  = concat (map (fun quad => sparse_candidates c quad sparse) (quads rect)).
Proof. unfold sparse_candidates. cbn [leaves]. apply concat_map_concat. Qed.

Section SparseAbort.
Context {W L : Type}.
Variable it : string -> Object -> list float64 -> L -> M W ((bool * bool) * L).

Lemma geoSparseInner_no_candidates sparse :
  forall rect s (e : Env W),
    sparse_candidates (col e) rect sparse = [] ->
    geoSparseInner rect sparse it s e = Done (true, s) e.
Proof.
  induction sparse as [|sparse IH]; intros rect s e Hc.
  - unfold sparse_candidates in Hc. simpl in Hc. rewrite app_nil_r in Hc.
    cbn [geoSparseInner]. unfold bind at 1. unfold geoSearch.
    unfold bind at 1. unfold get_col at 1. rewrite Hc. reflexivity.
  - rewrite sparse_candidates_quads in Hc. cbn [geoSparseInner].
    revert Hc. generalize (quads rect). intros ql.
    induction ql as [|q ql IHq]; intros Hc; [reflexivity|].
    simpl in Hc. apply app_eq_nil in Hc as [H1 H2].
    cbn [walk]. unfold bind at 1. unfold bind at 1. cbn [snd].
    rewrite (IH q s e H1). unfold ret at 1. cbv beta iota.
    unfold ret at 1. cbv beta iota. exact (IHq H2).
Qed.

Lemma geoSparseInner_stops sparse :
  forall rect s (e : Env W) en rest m s' e',
    sparse_candidates (col e) rect sparse = en :: rest ->
    it (item_id (edata en)) (item_obj (edata en))
       (getFieldValues (col e) (item_id (edata en))) s e
    = Done ((m, false), s') e' ->
    geoSparseInner rect sparse it s e = Done (false, s') e'.
Proof.
  induction sparse as [|sparse IH]; intros rect s e en rest m s' e' Hc Hit.
  - unfold sparse_candidates in Hc. simpl in Hc. rewrite app_nil_r in Hc.
    cbn [geoSparseInner]. unfold bind at 1. unfold geoSearch.
    unfold bind at 1. unfold get_col at 1. rewrite Hc.
    cbn [walk]. cbv zeta. unfold bind at 1. unfold bind at 1.
    unfold get_col at 1. unfold bind at 1. unfold bind at 1.
    cbn [snd]. rewrite Hit. reflexivity.
  - rewrite sparse_candidates_quads in Hc. cbn [geoSparseInner].
    revert Hc. generalize (quads rect). intros ql.
    induction ql as [|q ql IHq]; intros Hc; [discriminate|].
    simpl in Hc. cbn [walk]. unfold bind at 1. unfold bind at 1. cbn [snd].
    destruct (sparse_candidates (col e) q sparse) as [|en1 rest1] eqn:Eq.
    + rewrite (geoSparseInner_no_candidates sparse q s e Eq).
      unfold ret at 1. cbv beta iota. unfold ret at 1. cbv beta iota.
      exact (IHq Hc).
    + simpl in Hc. injection Hc as -> _.
      rewrite (IH q s e en rest1 m s' e' Eq Hit). reflexivity.
Qed.
End SparseAbort.

(** X30.  A sparse search ends at the first candidate that fails the test:
    with sparse above zero and a nil cursor, when the first entry the
    spatial index offers, taking the leaf quadrants in the order they are
    searched, fails the geometric test, Within and Intersects return true at
    once; the visitor is never called and the deadline is not consulted,
    whatever objects the other entries hold. *)
Theorem sparse_search_ends_at_first_mismatch {W}
    (test : Object -> Object -> bool) (obj : Object) (sparse : nat)
    (deadline : option (Deadline W)) (iter : Visitor W) (e : Env W)
    (en : entry) :
  head (sparse_candidates (col e) (oRect obj) (S sparse)) = Some en ->
  test (item_obj (edata en)) obj = false ->
  Within test obj (S sparse) None deadline iter e = Done true e
  /\ Intersects test obj (S sparse) None deadline iter e = Done true e.
Proof.
  intros Hhd Htest.
  assert (H : Within test obj (S sparse) None deadline iter e = Done true e);
    [|split; [exact H|exact H]].
  destruct (sparse_candidates (col e) (oRect obj) (S sparse))
    as [|en' rest] eqn:Hc; [discriminate|].
  injection Hhd as ->.
  unfold Within. cbn [Nat.ltb Nat.leb]. unfold bind at 1.
  unfold cursor_begin, ret at 1.
  unfold bind at 1. rewrite geoSparse_unfold. unfold bind at 1.
  rewrite (geoSparseInner_stops
             (sparse_callback test obj 0 None deadline iter) (S sparse)
             (oRect obj) (∅, 0%Z) e en rest false (∅, 1%Z) e Hc);
    [reflexivity|].
  unfold sparse_callback. cbn [fst snd]. rewrite lookup_empty. cbn [default negb].
  unfold sparse_iter. change (GoInt.u64 (0 + 1)) with 1%Z.
  change (Z.leb 1 0) with false. cbv iota.
  unfold bind at 1. unfold bind at 1. unfold nextStep.
  change (Z.eqb (Z.land 1 yieldStep) yieldStep) with false. cbv iota.
  unfold bind at 1. unfold ret at 1. unfold ret at 1.
  rewrite Htest. reflexivity.
Qed.

Lemma sparse_search_ends_at_first_mismatch_sample :
  Within sample_test (sample_box 0 5) 1 None None visit_all
    (mkEnv (run sample_two) tt [])
  = Done true (mkEnv (run sample_two) tt [])
  /\ Intersects sample_test (sample_box 0 5) 1 None None visit_all
       (mkEnv (run sample_two) tt [])
     = Done true (mkEnv (run sample_two) tt []).
Proof.
  apply (sparse_search_ends_at_first_mismatch sample_test (sample_box 0 5) 0
           None visit_all (mkEnv (run sample_two) tt [])
           (mkEntry (1%float, 1%float) (1%float, 1%float)
              (mkItem 1 "a" (sample_point 1 1)))).
  - vm_compute. reflexivity.
  - vm_compute. reflexivity.
Defined.

(** * Set with fields and values of different lengths (C2) *)








(** * Rows that share arrays *)

(** ** Slices over the heap *)

Lemma lookup_elems h s i :
  Aliased.elems h s !! i
  = if decide (i < Aliased.s_len s)
    then Aliased.array h (Aliased.s_arr s) !! (Aliased.s_off s + i)
    else None.
Proof.
  unfold Aliased.elems. destruct (decide (i < Aliased.s_len s)).
  - rewrite lookup_take_lt by lia. apply lookup_drop.
  - apply lookup_take_ge. lia.
Qed.

Lemma length_elems h b s :
  slice_ok h b s -> length (Aliased.elems h s) = Aliased.s_len s.
Proof.
  intros (_ & Hl & Hb). unfold Aliased.elems.
  rewrite length_take, length_drop. lia.
Qed.

Lemma mem_frame_refl b a P h : mem_frame b a P h h.
Proof. intros a' _. auto. Qed.

Lemma mem_frame_trans b a P h1 h2 h3 :
  mem_frame b a P h1 h2 -> mem_frame b a P h2 h3 -> mem_frame b a P h1 h3.
Proof.
  intros H12 H23 a' Ha. destruct (H12 a' Ha) as [L1 E1].
  destruct (H23 a' Ha) as [L2 E2]. split; [congruence|].
  intros p Hp. rewrite E2, E1; auto.
Qed.

Lemma mem_frame_weaken b b' a a' (P P' : nat -> Prop) h h' :
  b' <= b ->
  (forall p, a < b' -> P p -> a' = a /\ P' p) ->
  mem_frame b a P h h' -> mem_frame b' a' P' h h'.
Proof.
  intros Hb HP H x Hx. destruct (H x ltac:(lia)) as [L E]. split; [exact L|].
  intros p Hp. apply E. intros [-> HPp]. apply Hp.
  destruct (HP p Hx HPp) as [-> HP']. auto.
Qed.

(** A slice below [b] whose cells are not among the written ones reads the
    same. *)
Lemma elems_frame b a P h h' s :
  mem_frame b a P h h' ->
  Aliased.s_arr s < b ->
  (Aliased.s_arr s = a ->
   forall i, i < Aliased.s_len s -> ~ P (Aliased.s_off s + i)) ->
  Aliased.elems h' s = Aliased.elems h s.
Proof.
  intros Hf Hs HP. apply list_eq. intros i. rewrite !lookup_elems.
  destruct (decide (i < Aliased.s_len s)); [|reflexivity].
  destruct (Hf _ Hs) as [_ E]. apply E. intros [Ha HPp].
  exact (HP Ha i ltac:(assumption) HPp).
Qed.

Lemma array_insert_same h a l : Aliased.array (<[a := l]> h) a = l.
Proof. unfold Aliased.array. rewrite lookup_insert_eq. reflexivity. Qed.

Lemma array_insert_other h a a' l :
  a' <> a -> Aliased.array (<[a := l]> h) a' = Aliased.array h a'.
Proof. intros H. unfold Aliased.array. rewrite lookup_insert_ne; auto. Qed.

(** One cell of one array is overwritten. *)
Lemma mem_frame_write b h a q v :
  mem_frame b a (fun p => p = q) h
    (<[a := <[q := v]> (Aliased.array h a)]> h).
Proof.
  intros a' _. destruct (decide (a' = a)) as [->|Hne].
  - rewrite array_insert_same. split; [apply length_insert|].
    intros p Hp. apply list_lookup_insert_ne. intros ->. apply Hp. auto.
  - rewrite array_insert_other by exact Hne. auto.
Qed.

(** A new array is placed at or above [b]. *)
Lemma mem_frame_new b a P h a0 l :
  b <= a0 -> mem_frame b a P h (<[a0 := l]> h).
Proof.
  intros Hb a' Ha. rewrite array_insert_other by lia. auto.
Qed.

Lemma same_but_mem_fields c c' :
  same_but_mem c c' ->
  Aliased.items c' = Aliased.items c
  /\ Aliased.index c' = Aliased.index c
  /\ Aliased.values c' = Aliased.values c
  /\ Aliased.fieldMap c' = Aliased.fieldMap c
  /\ Aliased.fieldArr c' = Aliased.fieldArr c
  /\ Aliased.fieldValues c' = Aliased.fieldValues c
  /\ Aliased.weight c' = Aliased.weight c
  /\ Aliased.points c' = Aliased.points c
  /\ Aliased.objects c' = Aliased.objects c
  /\ Aliased.nobjects c' = Aliased.nobjects c
  /\ Aliased.alloc c' = Aliased.alloc c.
Proof.
  unfold same_but_mem. destruct c, c'. simpl. intros [= -> -> -> -> -> -> -> -> -> -> ->].
  repeat split.
Qed.

Lemma same_but_mem_refl c : same_but_mem c c.
Proof. destruct c. reflexivity. Qed.

Lemma same_but_mem_trans c1 c2 c3 :
  same_but_mem c1 c2 -> same_but_mem c2 c3 -> same_but_mem c1 c3.
Proof.
  unfold same_but_mem. destruct c1, c2, c3. simpl.
  intros [= -> -> -> -> -> -> -> -> -> -> ->] [= -> -> -> -> -> -> -> -> -> -> ->].
  reflexivity.
Qed.

Lemma length_elems_row h b s :
  row_ok h b s -> length (Aliased.elems h s) = Aliased.s_len s.
Proof. intros [->|H]; [reflexivity|eapply length_elems, H]. Qed.

Lemma row_ok_cases h b s :
  row_ok h b s ->
  (Aliased.s_len s = 0 /\ Aliased.s_cap s = 0 /\ Aliased.elems h s = [])
  \/ slice_ok h b s.
Proof.
  intros [->|H]; [left|right; exact H]. repeat split.
Qed.

(** Arrays that keep their length keep their slices in order. *)
Lemma slice_ok_frame h h' b b' a P s :
  b <= b' -> mem_frame b a P h h' -> slice_ok h b s -> slice_ok h' b' s.
Proof.
  intros Hb Hf (H1 & H2 & H3). repeat split; try lia.
  destruct (Hf _ H1) as [-> _]. exact H3.
Qed.

Lemma derived_refl h b s : slice_ok h b s -> derived h b s s.
Proof. intros H. left. split; [exact H|]. repeat split; lia. Qed.

Lemma derived_trans h1 b1 h2 b2 s1 s2 s3 :
  b1 <= b2 ->
  derived h1 b1 s1 s2 -> derived h2 b2 s2 s3 -> derived h1 b1 s1 s3.
Proof.
  intros Hb [(Hok & Ha & Ho & Hl)|H12] [(Hok' & Ha' & Ho' & Hl')|H23].
  - left. split; [exact Hok|]. repeat split; try congruence; lia.
  - right. lia.
  - right. lia.
  - right. lia.
Qed.

(** [append(s, v)]. *)
Lemma append_spec grow v s c :
  grows grow -> row_ok (Aliased.mem c) (Aliased.brk c) s ->
  let s' := (Aliased.append grow v s c).1 in
  let c' := (Aliased.append grow v s c).2 in
  same_but_mem c c'
  /\ Aliased.brk c <= Aliased.brk c'
  /\ mem_frame (Aliased.brk c) (Aliased.s_arr s)
       (beyond (Aliased.mem c) (Aliased.brk c) s)
       (Aliased.mem c) (Aliased.mem c')
  /\ (derived (Aliased.mem c) (Aliased.brk c) s s'
      /\ slice_ok (Aliased.mem c') (Aliased.brk c') s')
  /\ Aliased.s_len s' = S (Aliased.s_len s)
  /\ Aliased.elems (Aliased.mem c') s' = Aliased.elems (Aliased.mem c) s ++ [v].
Proof.
  intros Hg Hrow. unfold Aliased.append.
  destruct (Nat.ltb_spec (Aliased.s_len s) (Aliased.s_cap s)) as [Hlt|Hge];
    cbn [fst snd].
  - assert (Hok : slice_ok (Aliased.mem c) (Aliased.brk c) s).
    { destruct (row_ok_cases _ _ s Hrow) as [(H1 & H2 & _)|H]; [lia|exact H]. }
    pose proof Hok as (Ha & Hl & Hb).
    split; [destruct c; reflexivity|]. split; [destruct c; simpl; lia|].
    split; [|split; [split|split]].
    + eapply mem_frame_weaken; [reflexivity| |apply mem_frame_write].
      intros p _ ->. split; [reflexivity|]. split; [exact Hok|right; lia].
    + left. simpl. repeat split; auto; lia.
    + destruct c; simpl in *. repeat split; simpl; try lia.
      rewrite array_insert_same, length_insert. exact Hb.
    + reflexivity.
    + apply list_eq. intros i. rewrite lookup_elems. simpl.
      replace (Aliased.mem (Aliased.set_mem _ c))
        with (<[Aliased.s_arr s := <[Aliased.s_off s + Aliased.s_len s := v]>
                 (Aliased.array (Aliased.mem c) (Aliased.s_arr s))]>
                (Aliased.mem c)) by (destruct c; reflexivity).
      rewrite array_insert_same.
      destruct (decide (i < S (Aliased.s_len s))) as [Hi|Hi].
      * destruct (decide (i = Aliased.s_len s)) as [->|Hne].
        -- rewrite list_lookup_insert_eq by lia.
           rewrite lookup_app_r; rewrite (length_elems _ _ s Hok); [|lia].
           rewrite Nat.sub_diag. reflexivity.
        -- rewrite list_lookup_insert_ne by lia.
           rewrite lookup_app_l by (rewrite (length_elems _ _ s Hok); lia).
           rewrite lookup_elems. rewrite decide_True by lia. reflexivity.
      * symmetry. apply lookup_ge_None.
        rewrite length_app, (length_elems _ _ s Hok). simpl. lia.
  - assert (Hlen : length (Aliased.elems (Aliased.mem c) s) = Aliased.s_len s
                   /\ Aliased.s_len s = Aliased.s_cap s).
    { destruct (row_ok_cases _ _ s Hrow) as [(H1 & H2 & H3)|H].
      - rewrite H3. simpl. lia.
      - split; [eapply length_elems, H|]. destruct H as (_ & H & _). lia. }
    destruct Hlen as [Hlen Hcap]. pose proof (Hg (Aliased.s_cap s)) as Hgrow.
    split; [destruct c; reflexivity|]. split; [destruct c; simpl; lia|].
    split; [|split; [split|split]].
    + unfold Aliased.set_brk, Aliased.set_mem. cbn [Aliased.mem].
      apply mem_frame_new. lia.
    + right. simpl. lia.
    + destruct c; simpl in *. repeat split; simpl; try lia.
      rewrite array_insert_same, length_app. simpl.
      rewrite length_replicate. lia.
    + reflexivity.
    + unfold Aliased.elems at 1.
      unfold Aliased.set_brk, Aliased.set_mem.
      cbn [Aliased.mem Aliased.s_arr Aliased.s_off Aliased.s_len].
      rewrite array_insert_same, drop_0.
      rewrite (app_assoc _ [v] _ : _ ++ v :: _ = (_ ++ [v]) ++ _).
      apply take_app_length'. rewrite length_app. simpl. lia.
Qed.

(** The cells a later slice of the row can reach are cells the row could
    reach. *)
Lemma cells_derived h0 b0 h1 b1 s0 s1 (cols0 cols1 : nat -> Prop) p :
  derived h0 b0 s0 s1 -> (forall i, cols1 i -> cols0 i) ->
  Aliased.s_arr s1 < b0 -> cells_or_beyond h1 b1 s1 cols1 p ->
  Aliased.s_arr s0 = Aliased.s_arr s1 /\ cells_or_beyond h0 b0 s0 cols0 p.
Proof.
  intros [(Hok & Ha & Ho & Hl)|Hb] Hcols Hlt [_ Hp]; [|lia].
  split; [congruence|]. split; [exact Hok|].
  destruct Hp as [(idx & Hc & ->)|Hp].
  - left. exists idx. split; [auto|congruence].
  - right. lia.
Qed.

Lemma mem_frame_step b0 b1 h0 h1 h2 s0 s1 (cols0 cols1 : nat -> Prop) :
  b0 <= b1 ->
  derived h0 b0 s0 s1 -> (forall i, cols1 i -> cols0 i) ->
  mem_frame b0 (Aliased.s_arr s0) (cells_or_beyond h0 b0 s0 cols0) h0 h1 ->
  mem_frame b1 (Aliased.s_arr s1) (cells_or_beyond h1 b1 s1 cols1) h1 h2 ->
  mem_frame b0 (Aliased.s_arr s0) (cells_or_beyond h0 b0 s0 cols0) h0 h2.
Proof.
  intros Hb Hd Hcols H01 H12. eapply mem_frame_trans; [exact H01|].
  eapply mem_frame_weaken; [exact Hb| |exact H12].
  intros p Hlt Hp. eapply cells_derived; eauto.
Qed.

(** [for idx >= len(fields) { fields = append(fields, 0) }]. *)
Lemma append_zeros_spec grow n :
  grows grow ->
  forall s c,
    row_ok (Aliased.mem c) (Aliased.brk c) s ->
    let s' := (Aliased.append_zeros grow n s c).1 in
    let c' := (Aliased.append_zeros grow n s c).2 in
    same_but_mem c c'
    /\ Aliased.brk c <= Aliased.brk c'
    /\ mem_frame (Aliased.brk c) (Aliased.s_arr s)
         (beyond (Aliased.mem c) (Aliased.brk c) s)
         (Aliased.mem c) (Aliased.mem c')
    /\ ((n = 0 /\ s' = s /\ c' = c)
        \/ (derived (Aliased.mem c) (Aliased.brk c) s s'
            /\ slice_ok (Aliased.mem c') (Aliased.brk c') s'))
    /\ Aliased.s_len s' = Aliased.s_len s + n
    /\ Aliased.elems (Aliased.mem c') s'
       = Aliased.elems (Aliased.mem c) s ++ replicate n 0%float.
Proof.
  intros Hg. induction n as [|n IH]; intros s c Hrow.
  - simpl. split; [apply same_but_mem_refl|]. split; [lia|].
    split; [apply mem_frame_refl|]. split; [left; auto|].
    split; [lia|]. rewrite app_nil_r. reflexivity.
  - cbn [Aliased.append_zeros].
    pose proof (append_spec grow 0%float s c Hg Hrow) as Ha.
    destruct (Aliased.append grow 0%float s c) as [s1 c1]. cbn [fst snd] in Ha.
    destruct Ha as (Hsame1 & Hbrk1 & Hf1 & [Hd1 Hok1] & Hlen1 & Hel1).
    specialize (IH s1 c1 (or_intror Hok1)). cbv zeta in IH.
    destruct (Aliased.append_zeros grow n s1 c1) as [s2 c2].
    cbn [fst snd] in *.
    destruct IH as (Hsame2 & Hbrk2 & Hf2 & Hcase & Hlen2 & Hel2).
    split; [eapply same_but_mem_trans; eauto|]. split; [lia|].
    split; [|split; [right|split]].
    + eapply mem_frame_step; [exact Hbrk1|exact Hd1| |exact Hf1|exact Hf2].
      auto.
    + destruct Hcase as [(-> & -> & ->)|[Hd2 Hok2]]; [auto|].
      split; [|exact Hok2]. eapply derived_trans; [exact Hbrk1|exact Hd1|exact Hd2].
    + lia.
    + rewrite Hel2, Hel1, <- app_assoc. reflexivity.
Qed.

(** [s[i]] and [s[i] = v] through the elements of the slice. *)
Lemma at_index_elems h s i :
  Aliased.at_index h s i
  = if Nat.ltb i (Aliased.s_len s)
    then Some (default 0%float (Aliased.elems h s !! i))
    else None.
Proof.
  unfold Aliased.at_index. destruct (Nat.ltb_spec i (Aliased.s_len s)); auto.
  rewrite lookup_elems, decide_True by assumption. reflexivity.
Qed.

Lemma elems_store h b s i v :
  slice_ok h b s -> i < Aliased.s_len s ->
  Aliased.elems (Aliased.store h s i v) s = <[i := v]> (Aliased.elems h s).
Proof.
  intros (Ha & Hl & Hb) Hi. apply list_eq. intros j.
  rewrite lookup_elems. unfold Aliased.store. rewrite array_insert_same.
  destruct (decide (j = i)) as [->|Hne].
  - rewrite decide_True by assumption.
    rewrite !list_lookup_insert_eq; auto.
    + unfold Aliased.elems. rewrite length_take, length_drop. lia.
    + lia.
  - rewrite (list_lookup_insert_ne (Aliased.elems h s)) by auto.
    rewrite lookup_elems.
    destruct (decide (j < Aliased.s_len s)); [|reflexivity].
    apply list_lookup_insert_ne. lia.
Qed.

Lemma slice_ok_store h b s s' i v :
  slice_ok h b s' -> slice_ok (Aliased.store h s i v) b s'.
Proof.
  intros (Ha & Hl & Hb). repeat split; try lia.
  unfold Aliased.store.
  destruct (decide (Aliased.s_arr s' = Aliased.s_arr s)) as [E|Hne].
  - rewrite E in *. rewrite array_insert_same, length_insert. exact Hb.
  - rewrite array_insert_other by exact Hne. exact Hb.
Qed.

Lemma slice_ok_not_nil h b s : slice_ok h b s -> s <> Aliased.nil_slice.
Proof. intros (_ & Hl & _) ->. simpl in Hl. lia. Qed.

Lemma row_ok_slice_ok h b s :
  row_ok h b s -> 0 < Aliased.s_len s -> slice_ok h b s.
Proof. intros [->|H] Hl; [simpl in Hl; lia|exact H]. Qed.

Lemma same_but_mem_eq c c' :
  same_but_mem c c' ->
  c' = Aliased.set_brk (Aliased.brk c') (Aliased.set_mem (Aliased.mem c') c).
Proof.
  unfold same_but_mem. destruct c, c'. simpl.
  intros [= -> -> -> -> -> -> -> -> -> -> ->]. reflexivity.
Qed.

(** ** setField on the store *)

Lemma setField_steps grow item field value c :
  Aliased.setField grow item field value c
  = Rows.write_at grow (item_id item) (Rows.column_of field c).1 value
      (Rows.column_of field c).2.
Proof.
  unfold Aliased.setField, Rows.write_at, Rows.column_of.
  destruct (Aliased.fieldMap c !! field); reflexivity.
Qed.

(** The write into the row: the row is padded with zeros up to the column,
    in its array while the capacity lasts, and the cell of the column is
    overwritten in place. *)
Lemma write_at_spec grow id idx value c :
  grows grow ->
  row_ok (Aliased.mem c) (Aliased.brk c) (Aliased.getFieldValues c id) ->
  let s0 := Aliased.getFieldValues c id in
  let old := Aliased.elems (Aliased.mem c) s0
             ++ replicate (S idx - Aliased.s_len s0) 0%float in
  exists s1 h' b',
    (Rows.write_at grow id idx value c).2
    = Aliased.set_brk b'
        (Aliased.set_mem h'
           (Aliased.setFieldValues id s1
              (Aliased.set_weight
                 (GoInt.add
                    (GoInt.sub (Aliased.weight c)
                       (GoInt.mul (Z.of_nat (Aliased.s_len s0)) 8))
                    (GoInt.mul (Z.of_nat (Aliased.s_len s1)) 8)) c)))
    /\ (Rows.write_at grow id idx value c).1
       = negb (PrimFloat.eqb (default 0%float (old !! idx)) value)
    /\ Aliased.brk c <= b'
    /\ mem_frame (Aliased.brk c) (Aliased.s_arr s0)
         (cells_or_beyond (Aliased.mem c) (Aliased.brk c) s0 (eq idx))
         (Aliased.mem c) h'
    /\ derived (Aliased.mem c) (Aliased.brk c) s0 s1
    /\ slice_ok h' b' s1
    /\ Aliased.s_len s1 = Aliased.s_len s0 + (S idx - Aliased.s_len s0)
    /\ Aliased.elems h' s1 = <[idx := value]> old.
Proof.
  intros Hg Hrow s0 old. unfold Rows.write_at. fold s0.
  set (cw := Aliased.set_weight _ c).
  pose proof (append_zeros_spec grow (S idx - Aliased.s_len s0) Hg s0 cw Hrow)
    as Hz.
  destruct (Aliased.append_zeros grow (S idx - Aliased.s_len s0) s0 cw)
    as [s1 c2]. cbn [fst snd] in Hz.
  destruct Hz as (Hsame & Hbrk & Hf & Hcase & Hlen & Hel).
  change (Aliased.mem cw) with (Aliased.mem c) in *.
  change (Aliased.brk cw) with (Aliased.brk c) in *.
  assert (Hd : derived (Aliased.mem c) (Aliased.brk c) s0 s1
               /\ slice_ok (Aliased.mem c2) (Aliased.brk c2) s1).
  { destruct Hcase as [(Hn & -> & ->)|H]; [|exact H].
    assert (Hok : slice_ok (Aliased.mem c) (Aliased.brk c) s0)
      by (apply row_ok_slice_ok; [exact Hrow|lia]).
    split; [apply derived_refl, Hok|exact Hok]. }
  destruct Hd as [Hd Hok1].
  assert (Hidx : idx < Aliased.s_len s1) by lia.
  exists s1, (Aliased.store (Aliased.mem c2) s1 idx value), (Aliased.brk c2).
  split; [|split; [|split; [exact Hbrk|split; [|split; [exact Hd|split;
    [apply slice_ok_store, Hok1|split; [exact Hlen|]]]]]]].
  - pose proof (same_but_mem_eq cw c2 Hsame) as E.
    clear -E. set (b2 := Aliased.brk c2) in *. set (h2 := Aliased.mem c2) in *.
    clearbody b2 h2. subst c2 cw. destruct c. reflexivity.
  - cbn [fst]. f_equal. f_equal. rewrite at_index_elems.
    change (Aliased.mem (Aliased.set_weight _ c2)) with (Aliased.mem c2).
    rewrite (proj2 (Nat.ltb_lt _ _) Hidx). cbn [default]. rewrite Hel.
    reflexivity.
  - eapply mem_frame_trans.
    + eapply mem_frame_weaken; [reflexivity| |exact Hf].
      intros p _ [Hok [(? & [] & _)|Hp]]. split; [reflexivity|].
      split; [exact Hok|]. right. exact Hp.
    + eapply mem_frame_weaken; [reflexivity| |apply mem_frame_write].
      intros p Hlt ->.
      eapply (cells_derived _ _ (Aliased.mem c2) (Aliased.brk c2) s0 s1
                (eq idx) (eq idx)); [exact Hd|auto|exact Hlt|].
      split; [exact Hok1|]. left. exists idx. auto.
  - rewrite (elems_store _ _ _ _ _ Hok1 Hidx), Hel. reflexivity.
Qed.

Lemma addToFieldArr_frame_store field c :
  Aliased.addToFieldArr field c
  = Aliased.set_fieldArr (Aliased.fieldArr (Aliased.addToFieldArr field c)) c.
Proof.
  unfold Aliased.addToFieldArr. destruct (bsearch (Aliased.fieldArr c) field) as [i found].
  destruct (negb found); destruct c; reflexivity.
Qed.

Lemma column_of_spec field c :
  let idx := (Rows.column_of field c).1 in
  let c1 := (Rows.column_of field c).2 in
  Aliased.fieldMap c1 !! field = Some idx
  /\ Aliased.fieldMap c1 = register [field] (Aliased.fieldMap c)
  /\ c1 = Aliased.set_fieldArr (Aliased.fieldArr c1)
            (Aliased.set_fieldMap (Aliased.fieldMap c1) c).
Proof.
  unfold Rows.column_of, register. cbn [fold_left].
  destruct (Aliased.fieldMap c !! field) as [idx|] eqn:E; cbn [fst snd].
  - split; [exact E|]. split; [reflexivity|]. destruct c; reflexivity.
  - rewrite addToFieldArr_frame_store.
    set (arr := Aliased.fieldArr _). clearbody arr.
    split; [|split].
    + destruct c; simpl. apply lookup_insert_eq.
    + destruct c; reflexivity.
    + destruct c; reflexivity.
Qed.

Lemma same_objects_refl c : same_objects c c.
Proof. repeat split. Qed.

Lemma same_objects_trans c1 c2 c3 :
  same_objects c1 c2 -> same_objects c2 c3 -> same_objects c1 c3.
Proof.
  intros (A1 & A2 & A3 & A4 & A5 & A6 & A7) (B1 & B2 & B3 & B4 & B5 & B6 & B7).
  repeat split; congruence.
Qed.

Lemma row_ok_get c id :
  (forall s, Aliased.fieldValues c !! id = Some s ->
             slice_ok (Aliased.mem c) (Aliased.brk c) s) ->
  row_ok (Aliased.mem c) (Aliased.brk c) (Aliased.getFieldValues c id).
Proof.
  intros H. unfold Aliased.getFieldValues.
  destruct (Aliased.fieldValues c !! id) as [s|]; [right; auto|left; reflexivity].
Qed.

Lemma get_slice_ok c id :
  slice_ok (Aliased.mem c) (Aliased.brk c) (Aliased.getFieldValues c id) ->
  Aliased.fieldValues c !! id = Some (Aliased.getFieldValues c id).
Proof.
  unfold Aliased.getFieldValues.
  destruct (Aliased.fieldValues c !! id) as [s|]; [reflexivity|].
  intros H. exfalso. exact (slice_ok_not_nil _ _ _ H eq_refl).
Qed.

(** ** Steps of one row *)

Lemma row_step_refl id cols c :
  (forall s, Aliased.fieldValues c !! id = Some s ->
             slice_ok (Aliased.mem c) (Aliased.brk c) s) ->
  row_step id cols c c.
Proof.
  intros H. split; auto using mem_frame_refl.
Qed.

Lemma row_step_weaken id (cols cols' : nat -> Prop) c c' :
  (forall i, cols i -> cols' i) ->
  row_step id cols c c' -> row_step id cols' c c'.
Proof.
  intros Hc [H1 H2 H3 H4]. split; auto.
  eapply mem_frame_weaken; [reflexivity| |exact H4].
  intros p _ [Hok Hp]. split; [reflexivity|]. split; [exact Hok|].
  destruct Hp as [(i & Hi & ->)|Hp]; [left; eauto|right; exact Hp].
Qed.

Lemma row_step_trans id cols c1 c2 c3 :
  (forall s, Aliased.fieldValues c1 !! id = Some s ->
             slice_ok (Aliased.mem c1) (Aliased.brk c1) s) ->
  row_step id cols c1 c2 -> row_step id cols c2 c3 -> row_step id cols c1 c3.
Proof.
  intros Hrow [A1 A2 A3 A4] [B1 B2 B3 B4].
  assert (Hd : forall s2, Aliased.fieldValues c2 !! id = Some s2 ->
             derived (Aliased.mem c1) (Aliased.brk c1)
               (Aliased.getFieldValues c1 id) s2).
  { intros s2 H2. destruct (A3 s2 H2) as [_ [E|Hd]]; [|exact Hd].
    unfold Aliased.getFieldValues. rewrite E. apply derived_refl, Hrow, E. }
  split.
  - lia.
  - intros k Hk. rewrite B2, A2; auto.
  - intros s3 H3. destruct (B3 s3 H3) as [Hok [E|Hd3]].
    + split; [exact Hok|]. destruct (A3 s3 E) as [_ H]. exact H.
    + split; [exact Hok|]. right.
      destruct Hd3 as [(Hok2 & Ha & Ho & Hl)|Hb]; [|right; lia].
      apply get_slice_ok in Hok2 as E2.
      eapply derived_trans; [exact A1|apply Hd, E2|].
      left. split; [|auto]. apply (A3 _ E2).
  - eapply mem_frame_trans; [exact A4|].
    eapply mem_frame_weaken; [exact A1| |exact B4].
    intros p Hlt Hp. pose proof Hp as [Hok2 _].
    apply get_slice_ok in Hok2 as E2.
    eapply cells_derived; [apply Hd, E2| |exact Hlt|exact Hp]. auto.
Qed.

(** A step of the row of [id] keeps the rows in order and apart. *)
Lemma row_step_rows id cols c c' :
  aliased_ok c -> row_step id cols c c' ->
  (forall k s, Aliased.fieldValues c' !! k = Some s ->
               slice_ok (Aliased.mem c') (Aliased.brk c') s)
  /\ (forall id1 id2 s1 s2, id1 <> id2 ->
        Aliased.fieldValues c' !! id1 = Some s1 ->
        Aliased.fieldValues c' !! id2 = Some s2 ->
        Aliased.s_arr s1 <> Aliased.s_arr s2).
Proof.
  intros [_ Hrows Hapart] [H1 H2 H3 H4].
  assert (Hone : forall k s s1, k <> id ->
            Aliased.fieldValues c !! k = Some s ->
            Aliased.fieldValues c' !! id = Some s1 ->
            Aliased.s_arr s <> Aliased.s_arr s1).
  { intros k s s1 Hk Hs Hs1. destruct (H3 s1 Hs1) as [_ [E|Hd]].
    - exact (Hapart k id s s1 Hk Hs E).
    - pose proof (Hrows k s Hs) as (Hlt & _).
      destruct Hd as [(Hok & Ha & _)|Hb]; [|lia].
      rewrite Ha. apply get_slice_ok in Hok.
      exact (Hapart k id _ _ Hk Hs Hok). }
  split.
  - intros k s Hs. destruct (decide (k = id)) as [->|Hk].
    + apply (H3 s Hs).
    + rewrite H2 in Hs by exact Hk.
      eapply slice_ok_frame; [exact H1|exact H4|eapply Hrows, Hs].
  - intros id1 id2 s1 s2 Hne Hs1 Hs2.
    destruct (decide (id1 = id)) as [->|Hk1];
      destruct (decide (id2 = id)) as [->|Hk2]; try congruence.
    + rewrite H2 in Hs2 by exact Hk2. intros E. symmetry in E. revert E.
      exact (Hone id2 s2 s1 Hk2 Hs2 Hs1).
    + rewrite H2 in Hs1 by exact Hk1. exact (Hone id1 s1 s2 Hk1 Hs1 Hs2).
    + rewrite H2 in Hs1, Hs2 by assumption.
      exact (Hapart id1 id2 s1 s2 Hne Hs1 Hs2).
Qed.

(** A step of the row of [id] leaves the elements of the other rows. *)
Lemma row_step_reads id cols c c' k :
  aliased_ok c -> row_step id cols c c' -> k <> id ->
  Aliased.getFieldValues c' k = Aliased.getFieldValues c k
  /\ Aliased.elems (Aliased.mem c') (Aliased.getFieldValues c k)
     = Aliased.elems (Aliased.mem c) (Aliased.getFieldValues c k).
Proof.
  intros [_ Hrows Hapart] [H1 H2 H3 H4] Hk.
  split; [unfold Aliased.getFieldValues; rewrite H2; auto|].
  unfold Aliased.getFieldValues.
  destruct (Aliased.fieldValues c !! k) as [s|] eqn:Es; [|reflexivity].
  cbn [default]. eapply elems_frame; [exact H4|apply (Hrows k s Es)|].
  intros Ha i _ [Hok _]. apply get_slice_ok in Hok.
  exact (Hapart k id _ _ Hk Es Hok Ha).
Qed.

(** setField on the store: the field has a column, the columns of the
    other fields stay, and the row of the item takes one step. *)
Lemma setField_row_step grow item field value c :
  grows grow ->
  (forall s, Aliased.fieldValues c !! item_id item = Some s ->
             slice_ok (Aliased.mem c) (Aliased.brk c) s) ->
  let c' := (Aliased.setField grow item field value c).2 in
  exists idx s1,
    Aliased.fieldMap c' !! field = Some idx
    /\ Aliased.fieldMap c' = register [field] (Aliased.fieldMap c)
    /\ same_objects c c'
    /\ Aliased.fieldValues c' = <[item_id item := s1]> (Aliased.fieldValues c)
    /\ row_step (item_id item) (eq idx) c c'.
Proof.
  intros Hg Hrow0. rewrite setField_steps.
  destruct (column_of_spec field c) as (Hidx & Hreg & Hc1). cbv zeta in *.
  set (idx := (Rows.column_of field c).1) in *.
  set (c1 := (Rows.column_of field c).2) in *.
  assert (Hfv : Aliased.fieldValues c1 = Aliased.fieldValues c)
    by (rewrite Hc1; destruct c; reflexivity).
  assert (Hmem : Aliased.mem c1 = Aliased.mem c)
    by (rewrite Hc1; destruct c; reflexivity).
  assert (Hbrk : Aliased.brk c1 = Aliased.brk c)
    by (rewrite Hc1; destruct c; reflexivity).
  assert (Hobj : same_objects c c1)
    by (rewrite Hc1; destruct c; repeat split).
  assert (Hget : Aliased.getFieldValues c1 (item_id item)
                 = Aliased.getFieldValues c (item_id item))
    by (unfold Aliased.getFieldValues; rewrite Hfv; reflexivity).
  assert (Hrow : row_ok (Aliased.mem c1) (Aliased.brk c1)
                   (Aliased.getFieldValues c1 (item_id item))).
  { rewrite Hmem, Hbrk, Hget. apply row_ok_get, Hrow0. }
  destruct (write_at_spec grow (item_id item) idx value c1 Hg Hrow)
    as (s1 & h' & b' & Hc' & _ & Hb' & Hf & Hd & Hok & _ & _).
  rewrite Hmem, Hbrk, Hget in *.
  exists idx, s1. rewrite Hc'.
  split; [rewrite <- Hidx; destruct c1; reflexivity|].
  split; [rewrite <- Hreg; destruct c1; reflexivity|].
  split; [eapply same_objects_trans; [exact Hobj|]; destruct c1; repeat split|].
  split; [rewrite <- Hfv; destruct c1; reflexivity|].
  split.
  - destruct c1; exact Hb'.
  - intros k Hk. rewrite <- Hfv. destruct c1; simpl.
    apply lookup_insert_ne. congruence.
  - intros s Hs.
    assert (s = s1) as ->.
    { destruct c1; simpl in Hs. rewrite lookup_insert_eq in Hs. congruence. }
    split; [destruct c1; exact Hok|right; exact Hd].
  - destruct c1; exact Hf.
Qed.

Lemma at_index_Some h s i :
  i < Aliased.s_len s -> exists v, Aliased.at_index h s i = Some v.
Proof.
  intros H. unfold Aliased.at_index.
  rewrite (proj2 (Nat.ltb_lt _ _) H). eauto.
Qed.

Lemma at_index_None h s i :
  Aliased.s_len s <= i -> Aliased.at_index h s i = None.
Proof.
  intros H. unfold Aliased.at_index.
  rewrite (proj2 (Nat.ltb_ge _ _) H). reflexivity.
Qed.

(** The loop over the field names. *)
Lemma setField_range_row_step grow item fields vals :
  grows grow ->
  forall i n c,
    (forall s, Aliased.fieldValues c !! item_id item = Some s ->
               slice_ok (Aliased.mem c) (Aliased.brk c) s) ->
    let c' := Aliased.state_of
                (Aliased.setField_range grow item fields vals i n c) in
    (forall k v, Aliased.fieldMap c !! k = Some v ->
                 Aliased.fieldMap c' !! k = Some v)
    /\ same_objects c c'
    /\ row_step (item_id item)
         (fun j => exists f, f ∈ fields /\ Aliased.fieldMap c' !! f = Some j)
         c c'.
Proof.
  intros Hg. induction fields as [|f fields IH]; intros i n c Hrow.
  - simpl. split; [auto|]. split; [apply same_objects_refl|].
    apply row_step_refl, Hrow.
  - cbn [Aliased.setField_range].
    destruct (Aliased.at_index (Aliased.mem c) vals i) as [v|].
    + destruct (setField_row_step grow item f v c Hg Hrow)
        as (idx & s1 & Hidx & Hreg & Hobj & Hfv & Hstep).
      destruct (Aliased.setField grow item f v c) as [updated c1].
      cbn [snd] in *.
      assert (Hrow1 : forall s,
                 Aliased.fieldValues c1 !! item_id item = Some s ->
                 slice_ok (Aliased.mem c1) (Aliased.brk c1) s)
        by (intros s Hs; apply (rs_row _ _ _ _ Hstep s Hs)).
      specialize (IH (S i) (if updated then GoInt.add n 1 else n) c1 Hrow1).
      cbv zeta in IH. destruct IH as (Hkeep & Hobj' & Hstep').
      set (c' := Aliased.state_of _) in *.
      split; [|split].
      * intros k v0 Hk. apply Hkeep. rewrite Hreg.
        apply register_keeps, Hk.
      * eapply same_objects_trans; eauto.
      * eapply row_step_trans; [exact Hrow| |].
        -- eapply row_step_weaken; [|exact Hstep].
           intros j <-. exists f. split; [apply list_elem_of_here|].
           apply Hkeep, Hidx.
        -- eapply row_step_weaken; [|exact Hstep'].
           intros j (f' & Hin & Hj). exists f'.
           split; [apply list_elem_of_further, Hin|exact Hj].
    + simpl. split; [auto|]. split; [apply same_objects_refl|].
      apply row_step_refl, Hrow.
Qed.

(** The loop returns when there is a value for every name. *)
Lemma setField_range_returns_store grow item fields vals :
  forall i n c,
    i + length fields <= Aliased.s_len vals ->
    exists k c', Aliased.setField_range grow item fields vals i n c
                 = Aliased.Returns k c'.
Proof.
  induction fields as [|f fields IH]; intros i n c Hlen.
  - simpl. eauto.
  - cbn [Aliased.setField_range]. simpl in Hlen.
    destruct (at_index_Some (Aliased.mem c) vals i ltac:(lia)) as [v ->].
    destruct (Aliased.setField grow item f v c) as [updated c1].
    apply IH. lia.
Qed.

(** ** The key index of the store *)

Lemma bt_set_old_is_get x t :
  (bt_set byID x t).1 = bt_get byID (keyItem (item_id x)) t.
Proof.
  induction t as [|y t IH]; [reflexivity|]. cbn [bt_set bt_get].
  change (byID (keyItem (item_id x)) y) with (byID x y).
  change (byID y (keyItem (item_id x))) with (byID y x).
  destruct (byID x y); [reflexivity|]. destruct (byID y x); [|reflexivity].
  destruct (bt_set byID x t). exact IH.
Qed.

Lemma bt_get_set_other x t id' :
  StronglySorted id_lt t -> id' <> item_id x ->
  bt_get byID (keyItem id') (bt_set byID x t).2 = bt_get byID (keyItem id') t.
Proof.
  intros Hs Hne. apply items_get_ext;
    [exact Hs|exact (bt_set_sorted byID byID_trans byID_compat _ _ Hs)|].
  intros y Hy. split.
  - intros Hin. destruct (bt_set_subset _ _ _ _ Hin) as [->|H]; [|exact H].
    contradiction Hne. auto.
  - intros Hin. destruct (bt_set_keeps byID x t y Hin) as [H|H]; [exact H|].
    apply bt_set_old in H as [_ Hk]. apply byID_same_key in Hk. congruence.
Qed.

Lemma bt_get_set_same x t :
  StronglySorted id_lt t ->
  bt_get byID (keyItem (item_id x)) (bt_set byID x t).2 = Some x.
Proof.
  intros Hs. apply items_get_Some;
    [exact (bt_set_sorted byID byID_trans byID_compat _ _ Hs)|].
  split; [apply bt_set_new|reflexivity].
Qed.

Lemma bt_get_delete_other t id id' :
  StronglySorted id_lt t -> id' <> id ->
  bt_get byID (keyItem id') (bt_delete byID (keyItem id) t).2
  = bt_get byID (keyItem id') t.
Proof.
  intros Hs Hne. apply items_get_ext;
    [exact Hs|apply bt_delete_sorted, Hs|].
  intros y Hy. rewrite (items_after_delete t id y Hs). split; [tauto|].
  intros Hin. split; [exact Hin|congruence].
Qed.

Lemma bt_get_delete_same t id :
  StronglySorted id_lt t ->
  bt_get byID (keyItem id) (bt_delete byID (keyItem id) t).2 = None.
Proof.
  intros Hs. apply items_get_None;
    [apply bt_delete_sorted, Hs|].
  intros y Hin. apply (items_after_delete t id y Hs) in Hin. tauto.
Qed.

(** ** Set on the store *)

Lemma Set'_halves_store grow id obj fields vals c :
  Aliased.Set' grow id obj fields vals c
  = Rows.Set_fields grow id (mkItem (Aliased.alloc c) id obj) fields vals
      (Rows.Set_replace (mkItem (Aliased.alloc c) id obj) c).2
      (Rows.Set_replace (mkItem (Aliased.alloc c) id obj) c).1.
Proof.
  unfold Aliased.Set', Rows.Set_replace, Rows.Set_fields,
    Aliased.indexDelete, Aliased.indexInsert, objIsSpatial.
  simpl.
  destruct (bt_set byID (mkItem (Aliased.alloc c) id obj) (Aliased.items c))
    as [[o|] tr]; simpl;
    destruct fields; simpl;
    repeat match goal with
      | |- context [if ?b then _ else _] => destruct b; simpl
      end; reflexivity.
Qed.

Lemma Set_replace_store newItem c :
  Aliased.items (Rows.Set_replace newItem c).1
  = (bt_set byID newItem (Aliased.items c)).2
  /\ (Rows.Set_replace newItem c).2 = (bt_set byID newItem (Aliased.items c)).1
  /\ Aliased.fieldValues (Rows.Set_replace newItem c).1 = Aliased.fieldValues c
  /\ Aliased.fieldMap (Rows.Set_replace newItem c).1 = Aliased.fieldMap c
  /\ Aliased.mem (Rows.Set_replace newItem c).1 = Aliased.mem c
  /\ Aliased.brk (Rows.Set_replace newItem c).1 = Aliased.brk c.
Proof.
  unfold Rows.Set_replace, Aliased.indexDelete, Aliased.indexInsert. simpl.
  destruct (bt_set byID newItem (Aliased.items c)) as [[o|] tr]; simpl;
    repeat match goal with
      | |- context [if ?b then _ else _] => destruct b; simpl
      end; repeat split; reflexivity.
Qed.

(** A step seen from a store with the same rows and arrays. *)
Lemma row_step_from id cols c0 c c' :
  Aliased.fieldValues c = Aliased.fieldValues c0 ->
  Aliased.mem c = Aliased.mem c0 ->
  Aliased.brk c = Aliased.brk c0 ->
  row_step id cols c c' -> row_step id cols c0 c'.
Proof.
  intros Hfv Hm Hb [H1 H2 H3 H4].
  unfold Aliased.getFieldValues in *. rewrite Hfv, Hm, Hb in *.
  split; assumption.
Qed.

Lemma row_step_same id cols c c' :
  (forall s, Aliased.fieldValues c !! id = Some s ->
             slice_ok (Aliased.mem c) (Aliased.brk c) s) ->
  Aliased.fieldValues c' = Aliased.fieldValues c ->
  Aliased.mem c' = Aliased.mem c ->
  Aliased.brk c' = Aliased.brk c ->
  row_step id cols c c'.
Proof.
  intros Hrow Hfv Hm Hb. eapply (row_step_from id cols c c');
    [exact Hfv|exact Hm|exact Hb|].
  apply row_step_refl. rewrite Hfv, Hm, Hb. exact Hrow.
Qed.

Lemma state_of_Set_fields grow id newItem fields vals oldItem c :
  Aliased.state_of (Rows.Set_fields grow id newItem (Some fields) vals oldItem c)
  = Aliased.state_of (Aliased.setField_range grow newItem fields vals 0 0 c).
Proof.
  unfold Rows.Set_fields.
  destruct (Aliased.setField_range grow newItem fields vals 0 0 c); reflexivity.
Qed.

(** Set on the store: the key index takes the new item; the values either
    become the row as they are (no field names, some values), or the row of
    the id takes steps. *)
Lemma Set'_store_step grow id obj fields vals c :
  grows grow -> aliased_ok c ->
  let c' := Aliased.state_of (Aliased.Set' grow id obj fields vals c) in
  Aliased.items c'
  = (bt_set byID (mkItem (Aliased.alloc c) id obj) (Aliased.items c)).2
  /\ (forall k v, Aliased.fieldMap c !! k = Some v ->
                  Aliased.fieldMap c' !! k = Some v)
  /\ ((fields = None /\ 0 < Aliased.s_len vals
       /\ Aliased.fieldValues c' = <[id := vals]> (Aliased.fieldValues c)
       /\ Aliased.mem c' = Aliased.mem c /\ Aliased.brk c' = Aliased.brk c)
      \/ row_step id
           (fun j => exists f, f ∈ default [] fields
                               /\ Aliased.fieldMap c' !! f = Some j)
           c c').
Proof.
  intros Hg Hok. rewrite Set'_halves_store.
  set (newItem := mkItem (Aliased.alloc c) id obj).
  destruct (Set_replace_store newItem c) as (Hi & _ & Hfv & Hfm & Hm & Hb).
  set (cR := (Rows.Set_replace newItem c).1) in *.
  set (old := (Rows.Set_replace newItem c).2) in *.
  assert (Hrow : forall s, Aliased.fieldValues cR !! id = Some s ->
                   slice_ok (Aliased.mem cR) (Aliased.brk cR) s).
  { rewrite Hfv, Hm, Hb. apply (ao_rows c Hok). }
  destruct fields as [fields|].
  - rewrite state_of_Set_fields.
    destruct (setField_range_row_step grow newItem fields vals Hg 0 0%Z cR Hrow)
      as (Hkeep & Hobj & Hstep).
    set (c' := Aliased.state_of _) in *.
    split; [destruct Hobj as (-> & _); exact Hi|].
    split; [rewrite <- Hfm; exact Hkeep|].
    right. eapply row_step_from; [exact Hfv|exact Hm|exact Hb|exact Hstep].
  - unfold Rows.Set_fields.
    destruct (Nat.ltb_spec 0 (Aliased.s_len vals)) as [Hlt|Hge].
    + cbn [Aliased.state_of].
      split; [rewrite <- Hi; destruct cR; reflexivity|].
      split; [rewrite <- Hfm; destruct cR; auto|].
      left. split; [reflexivity|]. split; [exact Hlt|].
      rewrite <- Hfv, <- Hm, <- Hb. destruct cR; repeat split.
    + cbn [Aliased.state_of]. split; [exact Hi|].
      split; [rewrite <- Hfm; auto|].
      right. eapply row_step_from; [exact Hfv|exact Hm|exact Hb|].
      apply row_step_refl, Hrow.
Qed.

(** What Set returns when there is a value for every name: the object of
    the item that was stored under the id, and the slice of its row. *)
Lemma Set'_store_returns grow id obj fields vals c :
  match fields with
  | Some fs => length fs <= Aliased.s_len vals
  | None => True
  end ->
  exists newF c',
    Aliased.Set' grow id obj fields vals c
    = Aliased.Returns
        (item_obj <$> bt_get byID (keyItem id) (Aliased.items c),
         match bt_get byID (keyItem id) (Aliased.items c) with
         | Some _ => Aliased.getFieldValues c id
         | None => Aliased.nil_slice
         end, newF) c'.
Proof.
  intros Hlen. rewrite Set'_halves_store.
  set (newItem := mkItem (Aliased.alloc c) id obj).
  destruct (Set_replace_store newItem c) as (_ & Ho & Hfv & _).
  rewrite Ho, (bt_set_old_is_get newItem). cbn [item_id newItem].
  change (item_id newItem) with id.
  unfold Rows.Set_fields, Aliased.getFieldValues. rewrite Hfv.
  destruct fields as [fields|].
  - destruct (setField_range_returns_store grow newItem fields vals 0 0%Z
                (Rows.Set_replace newItem c).1 Hlen) as (k & c' & ->).
    eauto.
  - destruct (Nat.ltb 0 (Aliased.s_len vals)); eauto.
Qed.

(** ** The values a caller hands over *)

Lemma pass_fresh vals spare c :
  Aliased.pass (Aliased.Fresh vals spare) c
  = (Aliased.mkSlice (Aliased.brk c) 0 (length vals) (length vals + spare),
     Aliased.set_brk (S (Aliased.brk c))
       (Aliased.set_mem
          (<[Aliased.brk c := vals ++ replicate spare 0%float]> (Aliased.mem c))
          c)).
Proof. reflexivity. Qed.

Lemma pass_fresh_step id cols vals spare c :
  aliased_ok c ->
  let c1 := (Aliased.pass (Aliased.Fresh vals spare) c).2 in
  aliased_ok c1
  /\ row_step id cols c c1
  /\ same_objects c c1
  /\ Aliased.fieldMap c1 = Aliased.fieldMap c
  /\ Aliased.fieldValues c1 = Aliased.fieldValues c.
Proof.
  intros Hok. rewrite pass_fresh. cbn [snd].
  assert (Hstep : forall id cols, row_step id cols c
            (Aliased.set_brk (S (Aliased.brk c))
               (Aliased.set_mem
                  (<[Aliased.brk c := vals ++ replicate spare 0%float]>
                     (Aliased.mem c)) c))).
  { intros id0 cols0. split.
    - destruct c; simpl; lia.
    - intros k _. destruct c; reflexivity.
    - intros s Hs. assert (Hs0 : Aliased.fieldValues c !! id0 = Some s)
        by (destruct c; exact Hs).
      split; [|left; exact Hs0].
      pose proof (ao_rows c Hok id0 s Hs0) as (H1 & H2 & H3).
      destruct c; simpl in *. repeat split; try lia.
      rewrite array_insert_other by lia. exact H3.
    - destruct c; simpl. apply mem_frame_new. lia. }
  split; [|split; [apply Hstep|split; [destruct c; repeat split|
                                       split; destruct c; reflexivity]]].
  destruct (row_step_rows id cols c _ Hok (Hstep id cols)) as [Hr Ha].
  split; [destruct c; exact (ao_sorted _ Hok)|exact Hr|exact Ha].
Qed.

(** Set with values of its own. *)
Lemma Set_fresh_step grow id obj fields vals spare c :
  grows grow -> aliased_ok c ->
  let s := (Aliased.pass (Aliased.Fresh vals spare) c).1 in
  let c1 := (Aliased.pass (Aliased.Fresh vals spare) c).2 in
  let c' := Aliased.state_of (Aliased.Set' grow id obj fields s c1) in
  Aliased.items c'
  = (bt_set byID (mkItem (Aliased.alloc c) id obj) (Aliased.items c)).2
  /\ (forall k v, Aliased.fieldMap c !! k = Some v ->
                  Aliased.fieldMap c' !! k = Some v)
  /\ row_step id
       (fun j => exists f, f ∈ default [] fields
                           /\ Aliased.fieldMap c' !! f = Some j)
       c c'.
Proof.
  intros Hg Hok s c1 c'.
  set (cols := fun j => exists f, f ∈ default [] fields
                                  /\ Aliased.fieldMap c' !! f = Some j).
  destruct (pass_fresh_step id cols vals spare c Hok)
    as (Hok1 & Hstep1 & Hobj1 & Hfm1 & Hfv1).
  fold c1 in Hok1, Hstep1, Hobj1, Hfm1, Hfv1.
  destruct (Set'_store_step grow id obj fields s c1 Hg Hok1)
    as (Hi & Hkeep & Hcase).
  fold c' in Hi, Hkeep, Hcase. fold cols in Hcase.
  destruct Hobj1 as (Hi1 & _ & _ & _ & _ & _ & Ha1).
  split; [rewrite Hi, Hi1, Ha1; reflexivity|].
  split; [rewrite <- Hfm1; exact Hkeep|].
  destruct Hcase as [(_ & Hlen & Hfv & Hm & Hb)|Hstep].
  - assert (Es : s = Aliased.mkSlice (Aliased.brk c) 0 (length vals)
                       (length vals + spare)) by reflexivity.
    assert (Em : Aliased.mem c1
                 = <[Aliased.brk c := vals ++ replicate spare 0%float]>
                     (Aliased.mem c)) by (destruct c; reflexivity).
    assert (Eb : Aliased.brk c1 = S (Aliased.brk c))
      by (destruct c; reflexivity).
    split.
    + rewrite Hb, Eb. lia.
    + intros k Hk. rewrite Hfv, Hfv1. apply lookup_insert_ne. congruence.
    + intros s1 Hs1. rewrite Hfv, lookup_insert_eq in Hs1.
      injection Hs1 as <-. split.
      * rewrite Hm, Hb, Em, Eb, Es. repeat split; simpl; try lia.
        -- rewrite Es in Hlen. simpl in Hlen. lia.
        -- rewrite array_insert_same, length_app, length_replicate. lia.
      * right. right. rewrite Es. simpl. lia.
    + rewrite Hm, Em. apply mem_frame_new. lia.
  - eapply row_step_trans; [apply (ao_rows c Hok)|exact Hstep1|exact Hstep].
Qed.

Lemma Delete_store_step id cols c :
  aliased_ok c ->
  let c' := (Aliased.Delete id c).2 in
  Aliased.items c' = (bt_delete byID (keyItem id) (Aliased.items c)).2
  /\ Aliased.fieldMap c' = Aliased.fieldMap c
  /\ row_step id cols c c'.
Proof.
  intros Hok. unfold Aliased.Delete, Aliased.indexDelete.
  destruct (bt_delete byID (keyItem id) (Aliased.items c)) as [[old|] tr];
    cbn [snd].
  - assert (E : forall c1,
        Aliased.fieldValues c1 = Aliased.fieldValues c ->
        Aliased.mem c1 = Aliased.mem c -> Aliased.brk c1 = Aliased.brk c ->
        row_step id cols c (Aliased.deleteFieldValues id c1)).
    { intros c1 Hfv Hm Hb. split.
      - destruct c1; simpl in *; lia.
      - intros k Hk. destruct c1; simpl in *. rewrite Hfv.
        apply lookup_delete_ne. congruence.
      - intros s Hs. destruct c1; simpl in *.
        rewrite lookup_delete_eq in Hs. discriminate.
      - destruct c1; simpl in *. rewrite Hm. apply mem_frame_refl. }
    repeat match goal with
      | |- context [if ?b then _ else _] => destruct b
      end; (split; [reflexivity|split; [reflexivity|]]);
      apply E; reflexivity.
  - split; [reflexivity|split; [reflexivity|]].
    apply row_step_same; [apply (ao_rows c Hok)|reflexivity..].
Qed.

Lemma SetField_store_step grow id field value c :
  grows grow -> aliased_ok c ->
  let c' := (Aliased.SetField grow id field value c).2 in
  same_objects c c'
  /\ (forall k v, Aliased.fieldMap c !! k = Some v ->
                  Aliased.fieldMap c' !! k = Some v)
  /\ row_step id (fun _ => True) c c'.
Proof.
  intros Hg Hok. unfold Aliased.SetField.
  destruct (bt_get byID (keyItem id) (Aliased.items c)) as [item|] eqn:E.
  - apply (items_get_Some _ _ _ (ao_sorted c Hok)) in E as [_ Hid].
    destruct (setField_row_step grow item field value c Hg)
      as (idx & s1 & Hidx & Hreg & Hobj & Hfv & Hstep).
    { rewrite Hid. apply (ao_rows c Hok). }
    destruct (Aliased.setField grow item field value c) as [updated c1].
    cbn [snd] in *. split; [exact Hobj|]. split.
    + intros k v Hk. rewrite Hreg. apply register_keeps, Hk.
    + rewrite Hid in Hstep. eapply row_step_weaken; [|exact Hstep]. auto.
  - cbn [snd]. split; [apply same_objects_refl|]. split; [auto|].
    apply row_step_refl, (ao_rows c Hok).
Qed.

Lemma SetFields_store_step grow id inFields vals c :
  grows grow -> aliased_ok c ->
  let c' := Aliased.state_of (Aliased.SetFields grow id inFields vals c) in
  same_objects c c'
  /\ (forall k v, Aliased.fieldMap c !! k = Some v ->
                  Aliased.fieldMap c' !! k = Some v)
  /\ row_step id (fun _ => True) c c'.
Proof.
  intros Hg Hok. unfold Aliased.SetFields.
  destruct (bt_get byID (keyItem id) (Aliased.items c)) as [item|] eqn:E.
  - apply (items_get_Some _ _ _ (ao_sorted c Hok)) in E as [_ Hid].
    destruct (setField_range_row_step grow item inFields vals Hg 0 0%Z c)
      as (Hkeep & Hobj & Hstep).
    { rewrite Hid. apply (ao_rows c Hok). }
    assert (Est : forall r : Aliased.outcome Z,
              Aliased.state_of
                match r with
                | Aliased.Returns updatedCount c0 =>
                    Aliased.Returns
                      (Some (item_obj item, Aliased.getFieldValues c0 id,
                             updatedCount)) c0
                | Aliased.Panics c0 => Aliased.Panics c0
                end = Aliased.state_of r) by (intros []; reflexivity).
    rewrite Est. split; [exact Hobj|]. split; [exact Hkeep|].
    rewrite Hid in Hstep. eapply row_step_weaken; [|exact Hstep]. auto.
  - cbn [Aliased.state_of]. split; [apply same_objects_refl|]. split; [auto|].
    apply row_step_refl, (ao_rows c Hok).
Qed.

(** ** Histories of calls with values of their own *)

Lemma same_items_but_refl id c c' :
  Aliased.items c' = Aliased.items c -> same_items_but id c c'.
Proof. intros E id' _. rewrite E. reflexivity. Qed.

Lemma apply_op_store grow c o :
  grows grow -> aliased_ok c -> Aliased.fresh_values o ->
  let c' := Aliased.apply_op grow c o in
  aliased_ok c'
  /\ same_items_but (Aliased.op_id o) c c'
  /\ (forall k v, Aliased.fieldMap c !! k = Some v ->
                  Aliased.fieldMap c' !! k = Some v)
  /\ row_step (Aliased.op_id o) (fun _ => True) c c'.
Proof.
  intros Hg Hok Hfresh.
  assert (Hfin : forall c',
            StronglySorted id_lt (Aliased.items c') ->
            same_items_but (Aliased.op_id o) c c' ->
            (forall k v, Aliased.fieldMap c !! k = Some v ->
                         Aliased.fieldMap c' !! k = Some v) ->
            row_step (Aliased.op_id o) (fun _ => True) c c' ->
            aliased_ok c'
            /\ same_items_but (Aliased.op_id o) c c'
            /\ (forall k v, Aliased.fieldMap c !! k = Some v ->
                            Aliased.fieldMap c' !! k = Some v)
            /\ row_step (Aliased.op_id o) (fun _ => True) c c').
  { intros c' Hs Hi Hm Hstep. split; [|auto].
    destruct (row_step_rows _ _ c c' Hok Hstep) as [Hr Ha].
    split; assumption. }
  pose proof (ao_sorted c Hok) as Hs.
  destruct o as [id obj fields [vals spare|s]|id|id field value
                |id inFields [vals spare|s]];
    try contradiction; cbn [Aliased.op_id]; cbv zeta.
  - cbn [Aliased.apply_op].
    destruct (Set_fresh_step grow id obj fields vals spare c Hg Hok)
      as (Hi & Hm & Hstep).
    destruct (Aliased.pass (Aliased.Fresh vals spare) c) as [s c1].
    cbn [fst snd] in *. apply Hfin.
    + rewrite Hi. exact (bt_set_sorted byID byID_trans byID_compat _ _ Hs).
    + intros id' Hne. rewrite Hi. apply bt_get_set_other; auto.
    + exact Hm.
    + eapply row_step_weaken; [|exact Hstep]. auto.
  - cbn [Aliased.apply_op].
    destruct (Delete_store_step id (fun _ => True) c Hok) as (Hi & Hm & Hstep).
    apply Hfin.
    + rewrite Hi. apply bt_delete_sorted, Hs.
    + intros id' Hne. rewrite Hi. apply bt_get_delete_other; auto.
    + rewrite Hm. auto.
    + exact Hstep.
  - cbn [Aliased.apply_op].
    destruct (SetField_store_step grow id field value c Hg Hok)
      as ((Hi & _) & Hm & Hstep).
    apply Hfin; [rewrite Hi; exact Hs|apply same_items_but_refl, Hi|
                 exact Hm|exact Hstep].
  - cbn [Aliased.apply_op].
    destruct (pass_fresh_step id (fun _ => True) vals spare c Hok)
      as (Hok1 & Hstep1 & Hobj1 & Hfm1 & Hfv1).
    destruct (Aliased.pass (Aliased.Fresh vals spare) c) as [s c1].
    cbn [fst snd] in *.
    destruct (SetFields_store_step grow id inFields s c1 Hg Hok1)
      as (Hobj & Hm & Hstep).
    pose proof (same_objects_trans _ _ _ Hobj1 Hobj) as (Hi & _).
    apply Hfin; [rewrite Hi; exact Hs|apply same_items_but_refl, Hi| |].
    + rewrite <- Hfm1. exact Hm.
    + eapply row_step_trans; [apply (ao_rows c Hok)|exact Hstep1|exact Hstep].
Qed.

Lemma New_aliased_ok : aliased_ok Aliased.New.
Proof.
  split.
  - constructor.
  - intros id s H. simpl in H. rewrite lookup_empty in H. discriminate.
  - intros id1 id2 s1 s2 _ H. simpl in H. rewrite lookup_empty in H.
    discriminate.
Qed.

Lemma run_snoc grow ops o :
  Aliased.run grow (ops ++ [o])
  = Aliased.apply_op grow (Aliased.run grow ops) o.
Proof. unfold Aliased.run. rewrite fold_left_app. reflexivity. Qed.

Lemma run_aliased_ok grow ops :
  grows grow -> Forall Aliased.fresh_values ops ->
  aliased_ok (Aliased.run grow ops).
Proof.
  intros Hg. induction ops as [|o ops IH] using rev_ind; intros Hall.
  - exact New_aliased_ok.
  - apply Forall_app in Hall as [Hall Ho]. rewrite run_snoc.
    apply apply_op_store; [exact Hg|apply IH, Hall|].
    inversion Ho; assumption.
Qed.

(** ** What a mutation leaves of the rows *)

(** The old slice of the row after a step: as long as before, and with the
    old elements in the columns that were not written. *)
Lemma row_step_old_row id cols c c' :
  aliased_ok c -> row_step id cols c c' ->
  let s0 := Aliased.getFieldValues c id in
  length (Aliased.elems (Aliased.mem c') s0)
  = length (Aliased.elems (Aliased.mem c) s0)
  /\ forall j, ~ cols j ->
       Aliased.elems (Aliased.mem c') s0 !! j
       = Aliased.elems (Aliased.mem c) s0 !! j.
Proof.
  intros Hok Hstep s0.
  assert (Hrow : row_ok (Aliased.mem c) (Aliased.brk c) s0)
    by apply row_ok_get, (ao_rows c Hok).
  destruct Hrow as [E|Hs0]; [rewrite E; split; reflexivity|].
  pose proof (slice_ok_frame _ _ _ _ _ _ s0 (rs_brk _ _ _ _ Hstep)
                (rs_frame _ _ _ _ Hstep) Hs0) as Hs0'.
  split.
  - rewrite (length_elems _ _ _ Hs0), (length_elems _ _ _ Hs0'). reflexivity.
  - intros j Hj. rewrite !lookup_elems.
    destruct (decide (j < Aliased.s_len s0)) as [Hlt|]; [|reflexivity].
    destruct Hs0 as (Ha & _).
    destruct (rs_frame _ _ _ _ Hstep _ Ha) as [_ Hsame]. apply Hsame.
    intros [_ [_ [(idx & Hc & Hp)|Hp]]]; [|fold s0 in Hp; lia].
    fold s0 in Hp. assert (j = idx) as -> by lia. exact (Hj Hc).
Qed.

Lemma read_as_lookup id c :
  Aliased.read id c
  = match bt_get byID (keyItem id) (Aliased.items c) with
    | Some item =>
        Some (item_obj item,
              Aliased.elems (Aliased.mem c) (Aliased.getFieldValues c id))
    | None => None
    end.
Proof.
  unfold Aliased.read, Aliased.Get.
  destruct (bt_get byID (keyItem id) (Aliased.items c)); reflexivity.
Qed.

(** X4. Mutations are local to their id, as long as every call hands over
    values of its own: on a store reached by such calls, a Set, Delete,
    SetField or SetFields on one id, returning or panicking, leaves what Get
    reports for every other id (the object and the elements of the row)
    unchanged.  The rows are slices over arrays (Set keeps the caller's
    slice, setField writes in place), so the calls must not hand over a
    slice that is already a row: see [shared_values_are_not_local]. *)
Theorem other_ids_untouched (grow : nat -> nat) (ops : list Aliased.op)
    (o : Aliased.op) (id' : string) :
  grows grow ->
  Forall Aliased.fresh_values ops -> Aliased.fresh_values o ->
  Aliased.op_id o <> id' ->
  Aliased.read id' (Aliased.apply_op grow (Aliased.run grow ops) o)
  = Aliased.read id' (Aliased.run grow ops).
Proof.
  intros Hg Hall Ho Hne.
  pose proof (run_aliased_ok grow ops Hg Hall) as Hok.
  destruct (apply_op_store grow _ o Hg Hok Ho) as (_ & Hi & _ & Hstep).
  destruct (row_step_reads _ _ _ _ id' Hok Hstep ltac:(congruence))
    as [Hget Hel].
  rewrite !read_as_lookup, (Hi id') by congruence.
  rewrite Hget, Hel. reflexivity.
Qed.

Lemma other_ids_untouched_sample :
  Aliased.read "a"
    (Aliased.apply_op sample_grow (Aliased.run sample_grow sample_calls)
       (Aliased.OpSetField "b" "speed" 9))
  = Aliased.read "a" (Aliased.run sample_grow sample_calls).
Proof.
  apply (other_ids_untouched sample_grow sample_calls
           (Aliased.OpSetField "b" "speed" 9) "a").
  - intros n. unfold sample_grow. lia.
  - repeat constructor.
  - exact I.
  - discriminate.
Defined.

(** The same slice handed to two ids makes one row of the two: a field set
    for the one is read under the other. *)
Lemma shared_values_are_not_local :
  let c := Aliased.run sample_grow sample_shared in
  let c' := Aliased.apply_op sample_grow c (Aliased.OpSetField "a" "f" 9) in
  snd <$> Aliased.read "b" c = Some [1; 2]%float
  /\ snd <$> Aliased.read "b" c' = Some [9; 2]%float.
Proof. vm_compute. split; reflexivity. Qed.

(** X2. On a store reached by calls with values of their own, a Set with
    values of its own and a value for every field name returns; the old
    object it returns is the one Get reported for the id before the call
    (none for an id that was not stored); the old fields it returns are the
    slice of the old row, not a copy: read after the call, it is as long as
    the row Get reported before, and it holds the old value in every column
    but those of the field names of this call, so all of the old row when
    no field names are given. *)
Theorem Set_returns_previous (grow : nat -> nat) (ops : list Aliased.op)
    (id : string) (obj : Object) (fields : option (list string))
    (vals : list float64) (spare : nat) :
  grows grow -> Forall Aliased.fresh_values ops ->
  match fields with
  | Some fs => length fs <= length vals
  | None => True
  end ->
  let c := Aliased.run grow ops in
  let a := Aliased.pass (Aliased.Fresh vals spare) c in
  let row := default [] (snd <$> Aliased.read id c) in
  exists oldF newF c',
    Aliased.Set' grow id obj fields a.1 a.2
    = Aliased.Returns (fst <$> Aliased.read id c, oldF, newF) c'
    /\ length (Aliased.elems (Aliased.mem c') oldF) = length row
    /\ (forall j,
          (forall f, f ∈ default [] fields ->
                     Aliased.fieldMap c' !! f <> Some j) ->
          Aliased.elems (Aliased.mem c') oldF !! j = row !! j)
    /\ (fields = None -> Aliased.elems (Aliased.mem c') oldF = row).
Proof.
  intros Hg Hall Hlen c a row.
  pose proof (run_aliased_ok grow ops Hg Hall) as Hok. fold c in Hok.
  destruct (pass_fresh_step id (fun _ => True) vals spare c Hok)
    as (_ & _ & (Hi1 & _) & _ & Hfv1).
  destruct (Set'_store_returns grow id obj fields a.1 a.2 Hlen)
    as (newF & c' & Hret).
  pose proof (Set_fresh_step grow id obj fields vals spare c Hg Hok)
    as (_ & _ & Hstep).
  cbv zeta in Hstep. fold a in Hstep. rewrite Hret in Hstep.
  cbn [Aliased.state_of] in Hstep.
  destruct (row_step_old_row _ _ _ _ Hok Hstep) as [Hl Hcol].
  fold a in Hi1, Hfv1. rewrite Hi1 in Hret.
  replace (Aliased.getFieldValues a.2 id) with (Aliased.getFieldValues c id)
    in Hret by (unfold Aliased.getFieldValues; rewrite Hfv1; reflexivity).
  subst row. rewrite (read_as_lookup id c).
  assert (Hmain :
    exists oldF,
      Aliased.Set' grow id obj fields a.1 a.2
      = Aliased.Returns
          (fst <$> match bt_get byID (keyItem id) (Aliased.items c) with
                   | Some item =>
                       Some (item_obj item,
                             Aliased.elems (Aliased.mem c)
                               (Aliased.getFieldValues c id))
                   | None => None
                   end, oldF, newF) c'
      /\ length (Aliased.elems (Aliased.mem c') oldF)
         = length (default []
             (snd <$> match bt_get byID (keyItem id) (Aliased.items c) with
                      | Some item =>
                          Some (item_obj item,
                                Aliased.elems (Aliased.mem c)
                                  (Aliased.getFieldValues c id))
                      | None => None
                      end))
      /\ (forall j,
            (forall f, f ∈ default [] fields ->
                       Aliased.fieldMap c' !! f <> Some j) ->
            Aliased.elems (Aliased.mem c') oldF !! j
            = default []
                (snd <$> match bt_get byID (keyItem id) (Aliased.items c) with
                         | Some item =>
                             Some (item_obj item,
                                   Aliased.elems (Aliased.mem c)
                                     (Aliased.getFieldValues c id))
                         | None => None
                         end) !! j)).
  { destruct (bt_get byID (keyItem id) (Aliased.items c)) as [item|].
    - exists (Aliased.getFieldValues c id). split; [exact Hret|].
      split; [exact Hl|]. intros j Hj. apply Hcol.
      intros (f & Hin & Hf). exact (Hj f Hin Hf).
    - exists Aliased.nil_slice. split; [exact Hret|]. split; reflexivity. }
  destruct Hmain as (oldF & H1 & H2 & H3).
  exists oldF, newF, c'. split; [exact H1|]. split; [exact H2|].
  split; [exact H3|]. intros ->. apply list_eq. intros j. apply H3.
  intros f Hin. simpl in Hin. apply elem_of_nil in Hin. contradiction.
Qed.

Lemma Set_returns_previous_sample :
  let c := Aliased.run sample_grow sample_calls in
  let a := Aliased.pass (Aliased.Fresh [99]%float 0) c in
  let row := default [] (snd <$> Aliased.read "a" c) in
  exists oldF newF c',
    Aliased.Set' sample_grow "a" (sample_point 3 4) (Some ["speed"]) a.1 a.2
    = Aliased.Returns (fst <$> Aliased.read "a" c, oldF, newF) c'
    /\ length (Aliased.elems (Aliased.mem c') oldF) = length row
    /\ (forall j,
          (forall f, f ∈ default [] (Some ["speed"]) ->
                     Aliased.fieldMap c' !! f <> Some j) ->
          Aliased.elems (Aliased.mem c') oldF !! j = row !! j)
    /\ (Some ["speed"] = None -> Aliased.elems (Aliased.mem c') oldF = row).
Proof.
  apply (Set_returns_previous sample_grow sample_calls "a" (sample_point 3 4)
           (Some ["speed"]) [99]%float 0).
  - intros n. unfold sample_grow. lia.
  - repeat constructor.
  - simpl. lia.
Defined.

(** The old fields Set returns are the live row: the column this call
    writes reads the new value through them, the other column the old one. *)
Lemma old_fields_are_live :
  let c := Aliased.run sample_grow sample_calls in
  let a := Aliased.pass (Aliased.Fresh [99]%float 0) c in
  exists old oldF newF c',
    Aliased.Set' sample_grow "a" (sample_point 3 4) (Some ["speed"]) a.1 a.2
    = Aliased.Returns (old, oldF, newF) c'
    /\ snd <$> Aliased.read "a" c = Some [10; 20]%float
    /\ Aliased.elems (Aliased.mem c') oldF = [99; 20]%float.
Proof.
  eexists _, _, _, _. split; [vm_compute; reflexivity|].
  split; vm_compute; reflexivity.
Qed.

(** * The store read by value *)

(** ** Rows and weights *)

Lemma erase_row c id :
  getFieldValues (erase c) id
  = Aliased.elems (Aliased.mem c) (Aliased.getFieldValues c id).
Proof.
  unfold getFieldValues, Aliased.getFieldValues, erase. cbn [fieldValues].
  rewrite lookup_fmap. destruct (Aliased.fieldValues c !! id); reflexivity.
Qed.

Lemma erase_row_len (h : Aliased.heap) b (fv : gmap string Aliased.slice) id :
  (forall s, fv !! id = Some s -> slice_ok h b s) ->
  GoInt.len (default [] ((Aliased.elems h <$> fv) !! id))
  = Z.of_nat (Aliased.s_len (default Aliased.nil_slice (fv !! id))).
Proof.
  intros H. rewrite lookup_fmap. unfold GoInt.len. f_equal.
  destruct (fv !! id) as [s|]; [|reflexivity].
  cbn [fmap option_fmap option_map default]. eapply length_elems, H. reflexivity.
Qed.

Lemma objWeight_erase c item :
  (forall id s, Aliased.fieldValues c !! id = Some s ->
                slice_ok (Aliased.mem c) (Aliased.brk c) s) ->
  objWeight (erase c) item = Aliased.objWeight c item.
Proof.
  intros H. unfold objWeight, Aliased.objWeight, getFieldValues,
    Aliased.getFieldValues, erase. cbn [fieldValues].
  rewrite (erase_row_len _ (Aliased.brk c)); [reflexivity|apply H].
Qed.

(** ** The calls, read by value *)

Lemma addToFieldArr_erase field c :
  addToFieldArr field (erase c) = erase (Aliased.addToFieldArr field c).
Proof.
  unfold addToFieldArr, Aliased.addToFieldArr.
  change (fieldArr (erase c)) with (Aliased.fieldArr c).
  destruct (bsearch (Aliased.fieldArr c) field) as [i found].
  destruct (negb found); reflexivity.
Qed.

(** Both records, field by field. *)
Ltac by_fields :=
  unfold erase, objWeight, Aliased.objWeight, getFieldValues,
    Aliased.getFieldValues, setFieldValues, Aliased.setFieldValues,
    deleteFieldValues, Aliased.deleteFieldValues;
  cbn [Aliased.items Aliased.index Aliased.values Aliased.fieldMap
       Aliased.fieldArr Aliased.fieldValues Aliased.weight Aliased.points
       Aliased.objects Aliased.nobjects Aliased.alloc Aliased.mem
       Aliased.brk Aliased.set_items Aliased.set_index Aliased.set_values
       Aliased.set_fieldMap Aliased.set_fieldArr
       Aliased.set_fieldValues Aliased.set_weight Aliased.set_points
       Aliased.set_objects Aliased.set_nobjects Aliased.set_alloc
       Aliased.set_mem Aliased.set_brk
       items index values fieldMap fieldArr fieldValues weight points
       objects nobjects alloc set_items set_index set_values set_fieldMap
       set_fieldArr set_fieldValues set_weight set_points set_objects
       set_nobjects set_alloc fst snd].

Lemma Delete_erase id c :
  aliased_ok c ->
  (Delete id (erase c)).2 = erase (Aliased.Delete id c).2.
Proof.
  intros Hok. unfold Delete, Aliased.Delete.
  change (items (erase c)) with (Aliased.items c).
  destruct (bt_delete byID (keyItem id) (Aliased.items c)) as [[old|] tr];
    [|reflexivity].
  unfold indexDelete, Aliased.indexDelete.
  destruct (objIsSpatial (item_obj old));
    [destruct (negb (oEmpty (item_obj old)))|].
  all: by_fields; rewrite fmap_delete;
    rewrite (erase_row_len _ (Aliased.brk c)) by apply (ao_rows c Hok);
    reflexivity.
Qed.

(** Writes to the row of one id leave the elements of the other rows. *)
Lemma frame_other_rows id cols c h' :
  aliased_ok c ->
  mem_frame (Aliased.brk c) (Aliased.s_arr (Aliased.getFieldValues c id))
    (cells_or_beyond (Aliased.mem c) (Aliased.brk c)
       (Aliased.getFieldValues c id) cols)
    (Aliased.mem c) h' ->
  forall k s, k <> id -> Aliased.fieldValues c !! k = Some s ->
    Aliased.elems h' s = Aliased.elems (Aliased.mem c) s.
Proof.
  intros [_ Hrows Hapart] Hf k s Hk Hs.
  eapply elems_frame; [exact Hf|apply (Hrows k s Hs)|].
  intros Ha i _ [Hok _]. apply get_slice_ok in Hok.
  exact (Hapart k id _ _ Hk Hs Hok Ha).
Qed.

Lemma erase_rows_insert id cols c h' (x : list float64) :
  aliased_ok c ->
  mem_frame (Aliased.brk c) (Aliased.s_arr (Aliased.getFieldValues c id))
    (cells_or_beyond (Aliased.mem c) (Aliased.brk c)
       (Aliased.getFieldValues c id) cols)
    (Aliased.mem c) h' ->
  <[id := x]> (Aliased.elems h' <$> Aliased.fieldValues c)
  = <[id := x]> (Aliased.elems (Aliased.mem c) <$> Aliased.fieldValues c).
Proof.
  intros Hok Hf. apply map_eq. intros k.
  destruct (decide (k = id)) as [->|Hk].
  - rewrite !lookup_insert_eq. reflexivity.
  - rewrite !lookup_insert_ne by congruence. rewrite !lookup_fmap.
    destruct (Aliased.fieldValues c !! k) as [s|] eqn:Es; [|reflexivity].
    cbn. f_equal. eapply frame_other_rows; eauto.
Qed.

(** The write into the row, read by value. *)
Lemma write_at_erase grow id idx value c :
  grows grow -> aliased_ok c ->
  (let fields := getFieldValues (erase c) id in
   let cb := set_weight
               (GoInt.sub (weight (erase c)) (GoInt.mul (GoInt.len fields) 8))
               (erase c) in
   let fields := fields ++ replicate (S idx - length fields) 0%float in
   let cb := set_weight
               (GoInt.add (weight cb) (GoInt.mul (GoInt.len fields) 8)) cb in
   let ovalue := default 0%float (fields !! idx) in
   let fields := <[idx := value]> fields in
   let cb := setFieldValues id fields cb in
   (negb (PrimFloat.eqb ovalue value), cb))
  = ((Rows.write_at grow id idx value c).1,
     erase (Rows.write_at grow id idx value c).2).
Proof.
  intros Hg Hok.
  pose proof (row_ok_get c id (ao_rows c Hok id)) as Hrow.
  destruct (write_at_spec grow id idx value c Hg Hrow)
    as (s1 & h' & b' & Hc' & Hb1 & Hbrk & Hf & Hd & Hok1 & Hlen & Hel).
  rewrite Hc', Hb1. cbv zeta. rewrite erase_row. unfold GoInt.len.
  rewrite !length_app, !length_replicate, !(length_elems_row _ _ _ Hrow).
  rewrite <- Hlen.
  set (old := Aliased.elems (Aliased.mem c) (Aliased.getFieldValues c id)
              ++ replicate (S idx - Aliased.s_len (Aliased.getFieldValues c id))
                   0%float) in *.
  f_equal. rewrite <- Hel.
  pose proof (erase_rows_insert id (eq idx) c h' (Aliased.elems h' s1) Hok Hf)
    as Hins.
  clearbody old. clear -Hins. revert Hins. by_fields. intros Hins.
  rewrite fmap_insert, Hins. reflexivity.
Qed.

Lemma aliased_ok_same c c1 :
  Aliased.items c1 = Aliased.items c ->
  Aliased.fieldValues c1 = Aliased.fieldValues c ->
  Aliased.mem c1 = Aliased.mem c ->
  Aliased.brk c1 = Aliased.brk c ->
  aliased_ok c -> aliased_ok c1.
Proof.
  intros Hi Hfv Hm Hb [H1 H2 H3].
  split; rewrite ?Hi, ?Hfv, ?Hm, ?Hb; assumption.
Qed.

(** setField, read by value. *)
Lemma setField_erase grow item field value c :
  grows grow -> aliased_ok c ->
  setField item field value (erase c)
  = ((Aliased.setField grow item field value c).1,
     erase (Aliased.setField grow item field value c).2).
Proof.
  intros Hg Hok. rewrite setField_steps. unfold setField, Rows.column_of.
  change (fieldMap (erase c)) with (Aliased.fieldMap c).
  destruct (Aliased.fieldMap c !! field) as [idx|] eqn:E.
  - exact (write_at_erase grow (item_id item) idx value c Hg Hok).
  - change (set_fieldMap (<[field := size (Aliased.fieldMap c)]>
                            (Aliased.fieldMap c)) (erase c))
      with (erase (Aliased.set_fieldMap
                     (<[field := size (Aliased.fieldMap c)]>
                        (Aliased.fieldMap c)) c)).
    rewrite addToFieldArr_erase.
    apply (write_at_erase grow (item_id item)); [exact Hg|].
    rewrite addToFieldArr_frame_store.
    eapply aliased_ok_same; [..|exact Hok]; reflexivity.
Qed.

(** The store after setField is in order again. *)
Lemma setField_aliased_ok grow item field value c :
  grows grow -> aliased_ok c ->
  aliased_ok (Aliased.setField grow item field value c).2.
Proof.
  intros Hg Hok.
  destruct (setField_row_step grow item field value c Hg
              (ao_rows c Hok (item_id item)))
    as (idx & s1 & _ & _ & (Hi & _) & _ & Hstep).
  destruct (row_step_rows _ _ _ _ Hok Hstep) as [Hr Ha].
  split; [rewrite Hi; apply (ao_sorted c Hok)|exact Hr|exact Ha].
Qed.

Lemma at_index_list h s (vals : list float64) i :
  Aliased.elems h s = vals -> length vals = Aliased.s_len s ->
  Aliased.at_index h s i = vals !! i.
Proof.
  intros He Hl. rewrite at_index_elems, He.
  destruct (Nat.ltb_spec i (Aliased.s_len s)) as [Hi|Hi].
  - destruct (lookup_lt_is_Some_2 vals i ltac:(lia)) as [x ->]. reflexivity.
  - symmetry. apply lookup_ge_None. lia.
Qed.

(** The values a call reads from a slice that is no row stay what they
    were while the row of the item is written. *)
Lemma values_stay id cols c c' vs :
  aliased_ok c -> row_step id cols c c' ->
  Aliased.s_arr vs < Aliased.brk c ->
  (forall s, Aliased.fieldValues c !! id = Some s ->
             Aliased.s_arr s <> Aliased.s_arr vs) ->
  Aliased.s_arr vs < Aliased.brk c'
  /\ (forall s, Aliased.fieldValues c' !! id = Some s ->
                Aliased.s_arr s <> Aliased.s_arr vs)
  /\ Aliased.elems (Aliased.mem c') vs = Aliased.elems (Aliased.mem c) vs.
Proof.
  intros Hok [H1 H2 H3 H4] Ha Hb. split; [lia|]. split.
  - intros s Hs. destruct (H3 s Hs) as [_ [E|[(Hok0 & E & _)|Hge]]].
    + apply Hb, E.
    + rewrite E. apply Hb, get_slice_ok, Hok0.
    + lia.
  - eapply elems_frame; [exact H4|exact Ha|].
    intros E i _ [Hok0 _]. apply get_slice_ok in Hok0.
    exact (Hb _ Hok0 (eq_sym E)).
Qed.

(** The loop over the field names, read by value. *)
Lemma setField_range_erase grow item fields vs vals :
  grows grow -> length vals = Aliased.s_len vs ->
  forall i n c,
    aliased_ok c ->
    Aliased.s_arr vs < Aliased.brk c ->
    (forall s, Aliased.fieldValues c !! item_id item = Some s ->
               Aliased.s_arr s <> Aliased.s_arr vs) ->
    Aliased.elems (Aliased.mem c) vs = vals ->
    setField_range item fields vals i n (erase c)
    = match Aliased.setField_range grow item fields vs i n c with
      | Aliased.Returns k c' => Returns k (erase c')
      | Aliased.Panics c' => Panics (erase c')
      end.
Proof.
  intros Hg Hl. induction fields as [|f fields IH]; intros i n c Hok Ha Hb He.
  - reflexivity.
  - cbn [setField_range Aliased.setField_range].
    rewrite (at_index_list _ _ vals i He Hl).
    destruct (vals !! i) as [v|]; [|reflexivity].
    rewrite (setField_erase grow item f v c Hg Hok).
    pose proof (setField_aliased_ok grow item f v c Hg Hok) as Hok1.
    destruct (setField_row_step grow item f v c Hg
                (ao_rows c Hok (item_id item)))
      as (idx & s1 & _ & _ & _ & _ & Hstep).
    destruct (values_stay _ _ _ _ vs Hok Hstep Ha Hb) as (Ha1 & Hb1 & He1).
    destruct (Aliased.setField grow item f v c) as [updated c1].
    cbn [fst snd] in *. apply IH; try assumption. congruence.
Qed.

Lemma SetField_erase grow id field value c :
  grows grow -> aliased_ok c ->
  (SetField id field value (erase c)).2
  = erase (Aliased.SetField grow id field value c).2.
Proof.
  intros Hg Hok. unfold SetField, Aliased.SetField.
  change (items (erase c)) with (Aliased.items c).
  destruct (bt_get byID (keyItem id) (Aliased.items c)) as [item|];
    [|reflexivity].
  rewrite (setField_erase grow item field value c Hg Hok).
  destruct (Aliased.setField grow item field value c). reflexivity.
Qed.

(** Values of its own: the slice holds them, no row lies in its array, and
    the rows read as before. *)
Lemma pass_fresh_erase vals spare c :
  aliased_ok c ->
  let vs := (Aliased.pass (Aliased.Fresh vals spare) c).1 in
  let c1 := (Aliased.pass (Aliased.Fresh vals spare) c).2 in
  erase c1 = erase c
  /\ length vals = Aliased.s_len vs
  /\ Aliased.s_arr vs < Aliased.brk c1
  /\ (forall id s, Aliased.fieldValues c1 !! id = Some s ->
                   Aliased.s_arr s <> Aliased.s_arr vs)
  /\ Aliased.elems (Aliased.mem c1) vs = vals.
Proof.
  intros Hok. rewrite pass_fresh. cbn [fst snd].
  split; [|split; [reflexivity|split; [destruct c; simpl; lia|split]]].
  - by_fields. f_equal. apply map_fmap_ext. intros id s Hs.
    pose proof (ao_rows c Hok id s Hs) as (Ha & _).
    eapply elems_frame; [apply (mem_frame_new (Aliased.brk c) 0 (fun _ => False))
                        |exact Ha|tauto].
    lia.
  - intros id s Hs. assert (Hs0 : Aliased.fieldValues c !! id = Some s)
      by (destruct c; exact Hs).
    pose proof (ao_rows c Hok id s Hs0) as (Ha & _). simpl. lia.
  - unfold Aliased.elems. cbn [Aliased.s_arr Aliased.s_off Aliased.s_len].
    replace (Aliased.mem _) with
      (<[Aliased.brk c := vals ++ replicate spare 0%float]> (Aliased.mem c))
      by (destruct c; reflexivity).
    rewrite array_insert_same, drop_0. apply take_app_length.
Qed.

Lemma SetFields_erase grow id inFields vs vals c :
  grows grow -> length vals = Aliased.s_len vs ->
  aliased_ok c ->
  Aliased.s_arr vs < Aliased.brk c ->
  (forall id s, Aliased.fieldValues c !! id = Some s ->
                Aliased.s_arr s <> Aliased.s_arr vs) ->
  Aliased.elems (Aliased.mem c) vs = vals ->
  state_of (SetFields id inFields vals (erase c))
  = erase (Aliased.state_of (Aliased.SetFields grow id inFields vs c)).
Proof.
  intros Hg Hl Hok Ha Hb He. unfold SetFields, Aliased.SetFields.
  change (items (erase c)) with (Aliased.items c).
  destruct (bt_get byID (keyItem id) (Aliased.items c)) as [item|];
    [|reflexivity].
  rewrite (setField_range_erase grow item inFields vs vals Hg Hl 0 0%Z c
             Hok Ha (Hb _) He).
  destruct (Aliased.setField_range grow item inFields vs 0 0%Z c);
    reflexivity.
Qed.

(** Set, read by value. *)
Lemma Set_replace_erase newItem c :
  aliased_ok c ->
  Set_replace newItem (erase c)
  = (erase (Rows.Set_replace newItem c).1, (Rows.Set_replace newItem c).2).
Proof.
  intros Hok. unfold Set_replace, Rows.Set_replace, indexDelete,
    Aliased.indexDelete, indexInsert, Aliased.indexInsert.
  change (items (set_alloc (S (alloc (erase c))) (erase c)))
    with (Aliased.items c).
  change (Aliased.items (Aliased.set_alloc (S (Aliased.alloc c)) c))
    with (Aliased.items c).
  destruct (bt_set byID newItem (Aliased.items c)) as [[old|] tr];
    repeat match goal with
      | |- context [if ?b then _ else _] => destruct b
      end;
    by_fields;
    rewrite !(erase_row_len _ (Aliased.brk c)) by apply (ao_rows c Hok);
    reflexivity.
Qed.

Lemma Set_fields_erase grow id newItem fields vs vals old c :
  grows grow -> item_id newItem = id ->
  length vals = Aliased.s_len vs ->
  aliased_ok c ->
  Aliased.s_arr vs < Aliased.brk c ->
  (forall id s, Aliased.fieldValues c !! id = Some s ->
                Aliased.s_arr s <> Aliased.s_arr vs) ->
  Aliased.elems (Aliased.mem c) vs = vals ->
  state_of (Set_fields id newItem fields vals old (erase c))
  = erase (Aliased.state_of (Rows.Set_fields grow id newItem fields vs old c)).
Proof.
  intros Hg Hid Hl Hok Ha Hb He. unfold Set_fields, Rows.Set_fields.
  destruct fields as [fields|].
  - rewrite (setField_range_erase grow newItem fields vs vals Hg Hl 0 0%Z c
               Hok Ha (Hb _) He).
    destruct (Aliased.setField_range grow newItem fields vs 0 0%Z c);
      reflexivity.
  - rewrite Hl. destruct (Nat.ltb 0 (Aliased.s_len vs)); [|reflexivity].
    cbn [state_of Aliased.state_of].
    assert (Hold : GoInt.len match old with
                             | Some _ => getFieldValues (erase c) id
                             | None => []
                             end
                   = Z.of_nat (Aliased.s_len
                                 match old with
                                 | Some _ => Aliased.getFieldValues c id
                                 | None => Aliased.nil_slice
                                 end)).
    { destruct old; [|reflexivity]. rewrite erase_row. unfold GoInt.len.
      f_equal. eapply length_elems_row, row_ok_get, (ao_rows c Hok). }
    rewrite Hold. unfold GoInt.len. rewrite Hl.
    generalize (Z.of_nat (Aliased.s_len
                  match old with
                  | Some _ => Aliased.getFieldValues c id
                  | None => Aliased.nil_slice
                  end)). intros w.
    by_fields. rewrite fmap_insert, He. reflexivity.
Qed.

Lemma Set_replace_aliased_ok newItem c :
  aliased_ok c -> aliased_ok (Rows.Set_replace newItem c).1.
Proof.
  intros [H1 H2 H3].
  destruct (Set_replace_store newItem c) as (Hi & _ & Hfv & _ & Hm & Hb).
  split; rewrite ?Hi, ?Hfv, ?Hm, ?Hb; try assumption.
  exact (bt_set_sorted byID byID_trans byID_compat _ _ H1).
Qed.

Lemma Set_erase grow id obj fields vals spare c :
  grows grow -> aliased_ok c ->
  let a := Aliased.pass (Aliased.Fresh vals spare) c in
  state_of (Set' id obj fields vals (erase c))
  = erase (Aliased.state_of (Aliased.Set' grow id obj fields a.1 a.2)).
Proof.
  intros Hg Hok a.
  destruct (pass_fresh_erase vals spare c Hok) as (He & Hl & Ha & Hb & Hv).
  destruct (pass_fresh_step id (fun _ => True) vals spare c Hok)
    as (Hok1 & _).
  fold a in He, Hl, Ha, Hb, Hv, Hok1. rewrite <- He.
  rewrite Set'_halves, Set'_halves_store.
  change (alloc (erase a.2)) with (Aliased.alloc a.2).
  set (newItem := mkItem (Aliased.alloc a.2) id obj).
  rewrite (Set_replace_erase newItem a.2 Hok1). cbn [fst snd].
  destruct (Set_replace_store newItem a.2) as (_ & _ & Hfv & _ & Hm & Hbk).
  apply Set_fields_erase; try assumption.
  - reflexivity.
  - apply Set_replace_aliased_ok, Hok1.
  - rewrite Hbk. exact Ha.
  - rewrite Hfv. exact Hb.
  - rewrite Hm. exact Hv.
Qed.

(** One call with values of its own, on the store and by value. *)
Lemma apply_op_erase grow c ao o :
  grows grow -> aliased_ok c -> erases ao o ->
  erase (Aliased.apply_op grow c ao) = apply_op (erase c) o.
Proof.
  intros Hg Hok He. destruct He as [id obj fields vals spare|id
                                   |id field value|id inFields vals spare];
    cbn [Aliased.apply_op apply_op].
  - pose proof (Set_erase grow id obj fields vals spare c Hg Hok) as H.
    cbv zeta in H.
    destruct (Aliased.pass (Aliased.Fresh vals spare) c) as [vs c1].
    symmetry. exact H.
  - symmetry. apply Delete_erase, Hok.
  - symmetry. apply SetField_erase; assumption.
  - destruct (pass_fresh_erase vals spare c Hok) as (E & Hl & Ha & Hb & Hv).
    destruct (pass_fresh_step id (fun _ => True) vals spare c Hok)
      as (Hok1 & _).
    destruct (Aliased.pass (Aliased.Fresh vals spare) c) as [vs c1].
    cbn [fst snd] in *. rewrite <- E. symmetry.
    apply SetFields_erase; assumption.
Qed.

Lemma erases_fresh ao o : erases ao o -> Aliased.fresh_values ao.
Proof. intros []; exact I. Qed.

(** The collection by value is the store read by value, for every history
    of calls that hand over values of their own: what is proved of [run]
    holds of the rows behind the slices. *)
Lemma run_erase grow aops ops :
  grows grow -> Forall2 erases aops ops ->
  erase (Aliased.run grow aops) = run ops.
Proof.
  intros Hg. revert ops.
  induction aops as [|ao aops IH] using rev_ind; intros ops Hall.
  - apply Forall2_nil_inv_l in Hall as ->. reflexivity.
  - apply Forall2_app_inv_l in Hall as (ops1 & ops2 & H1 & H2 & ->).
    apply Forall2_cons_inv_l in H2 as (o & ops3 & Ho & H3 & ->).
    apply Forall2_nil_inv_l in H3 as ->.
    rewrite run_snoc. unfold run. rewrite fold_left_app. cbn [fold_left].
    fold (run ops1). rewrite <- (IH ops1 H1).
    apply apply_op_erase; [exact Hg| |exact Ho].
    apply run_aliased_ok; [exact Hg|].
    clear -H1. induction H1; constructor; eauto using erases_fresh.
Qed.

(** What Get reads from the store is what Get reads by value. *)
Lemma read_erase id c : Aliased.read id c = Get id (erase c).
Proof.
  rewrite read_as_lookup, Get_as_lookup, erase_row. reflexivity.
Qed.

Lemma run_erase_sample :
  erase (Aliased.run sample_grow sample_calls)
  = run [ OpSet "a" (sample_point 1 2) (Some ["speed"; "age"]) [10; 20]%float;
          OpSet "b" (StringObject "hello") None [1; 2]%float ].
Proof.
  apply run_erase; [intros n; unfold sample_grow; lia|].
  repeat constructor.
Qed.
